(** * A shallow embedding of the ShayLang front end (lexer, parser, C emitter)

    The development follows the C sources file by file:
    - [token.h]   : token kinds, positions, tokens;
    - [lexer.c]   : module [Lex];
    - [parser.c]  : module [Parse];
    - [codegen.c] : module [Gen].

    Pointers into the source buffer are offsets ([nat]); C integers are [Z]
    with their wrap-around written out; a pointer that may be [NULL] is an
    [option]. *)

From Stdlib Require Import ZArith NArith List Ascii String Bool Lia DecimalString.
From Stdlib Require DecimalZ.
Import ListNotations.

Local Open Scope Z_scope.

(** ** Machine integers *)

(** [int] is 32-bit two's complement, [size_t] is 64-bit unsigned and
    [long long] is 64-bit two's complement (LP64). *)
Definition to_int (z : Z) : Z := (z + 2147483648) mod 4294967296 - 2147483648.
Definition to_size_t (z : Z) : Z := z mod 18446744073709551616.
Definition LLONG_MAX : Z := 9223372036854775807.
Definition LLONG_MIN : Z := -9223372036854775808.

(** ** Characters and C strings *)

Definition NUL : ascii := "000"%char.
Definition TAB : ascii := "009"%char.
Definition NL : ascii := "010"%char.
Definition VT : ascii := "011"%char.
Definition FF : ascii := "012"%char.
Definition CR : ascii := "013"%char.
Definition DQUOTE : ascii := "034"%char.
Definition SQUOTE : ascii := "039"%char.
Definition BACKSLASH : ascii := "092"%char.

(** The byte at offset [n] of a NUL-terminated buffer holding [s]. *)
Definition char_at (s : string) (n : nat) : ascii :=
  match String.get n s with
  | Some c => c
  | None => NUL
  end.

Fixpoint string_drop (n : nat) (s : string) : string :=
  match n, s with
  | O, _ => s
  | S n', String _ r => string_drop n' r
  | S _, EmptyString => EmptyString
  end.

Fixpoint until_nul (s : string) : string :=
  match s with
  | EmptyString => EmptyString
  | String c r => if (c =? NUL)%char then EmptyString else String c (until_nul r)
  end.

(** The C string that starts at offset [n] of the buffer. *)
Definition c_string_at (s : string) (n : nat) : string := until_nul (string_drop n s).

Fixpoint string_take (n : nat) (s : string) : string :=
  match n, s with
  | O, _ => EmptyString
  | S n', String c r => String c (string_take n' r)
  | S _, EmptyString => EmptyString
  end.

(** [strncpy(dst, src, n); dst[n] = 0]: at most [n] bytes of the C string. *)
Definition strncpy (src : string) (n : Z) : string := string_take (Z.to_nat n) (until_nul src).

Definition in_range (lo hi c : ascii) : bool :=
  ((N_of_ascii lo <=? N_of_ascii c) && (N_of_ascii c <=? N_of_ascii hi))%N.

(** <ctype.h> in the "C" locale. *)
Definition isdigit (c : ascii) : bool := in_range "0" "9" c.
Definition isalpha (c : ascii) : bool := in_range "a" "z" c || in_range "A" "Z" c.
Definition isalnum (c : ascii) : bool := isalpha c || isdigit c.
Definition isxdigit (c : ascii) : bool :=
  isdigit c || in_range "a" "f" c || in_range "A" "F" c.
Definition isspace (c : ascii) : bool :=
  ((c =? " ") || (c =? TAB) || (c =? NL) || (c =? VT) || (c =? FF) || (c =? CR))%char.

(** *** [strtoll] of <stdlib.h>, for an explicit base in 2..36 *)

Definition digit_value (c : ascii) : option Z :=
  if isdigit c then Some (Z.of_N (N_of_ascii c) - 48)
  else if in_range "a" "z" c then Some (Z.of_N (N_of_ascii c) - 97 + 10)
  else if in_range "A" "Z" c then Some (Z.of_N (N_of_ascii c) - 65 + 10)
  else None.

Fixpoint skip_spaces (s : string) : string :=
  match s with
  | String c r => if isspace c then skip_spaces r else s
  | EmptyString => s
  end.

Fixpoint strtoll_digits (base acc : Z) (s : string) : Z :=
  match s with
  | EmptyString => acc
  | String c r =>
      match digit_value c with
      | Some d => if d <? base then strtoll_digits base (acc * base + d) r else acc
      | None => acc
      end
  end.

(** With base 16 a leading [0x]/[0X] is skipped when a hex digit follows. *)
Definition skip_hex_prefix (base : Z) (s : string) : string :=
  if base =? 16 then
    match s with
    | String c0 (String c1 (String c2 r)) =>
        if (c0 =? "0")%char && ((c1 =? "x") || (c1 =? "X"))%char && isxdigit c2
        then String c2 r else s
    | _ => s
    end
  else s.

Definition clamp_llong (z : Z) : Z :=
  if z <? LLONG_MIN then LLONG_MIN else if LLONG_MAX <? z then LLONG_MAX else z.

Definition strtoll (nptr : string) (base : Z) : Z :=
  let s := skip_spaces nptr in
  let '(neg, s) :=
    match s with
    | String c r => if (c =? "-")%char then (true, r)
                    else if (c =? "+")%char then (false, r) else (false, s)
    | EmptyString => (false, s)
    end in
  let v := strtoll_digits base 0 (skip_hex_prefix base s) in
  clamp_llong (if neg then - v else v).

(** [printf("%d")] and [printf("%lld")]. *)
Definition format_d (z : Z) : string := NilZero.string_of_int (Z.to_int z).

(** ** token.h *)

Inductive TokenType : Set :=
  | TOKEN_INTEGER | TOKEN_FLOAT | TOKEN_STRING | TOKEN_CHAR
  | TOKEN_IDENTIFIER | TOKEN_INT | TOKEN_FLOAT_KW | TOKEN_STRING_KW
  | TOKEN_BOOL_KW | TOKEN_CHAR_KW | TOKEN_VOID_KW | TOKEN_IF
  | TOKEN_ELSE | TOKEN_WHILE | TOKEN_FOR | TOKEN_DO
  | TOKEN_SWITCH | TOKEN_CASE | TOKEN_DEFAULT | TOKEN_BREAK
  | TOKEN_CONTINUE | TOKEN_RETURN | TOKEN_FUNCTION | TOKEN_VAR
  | TOKEN_CONST | TOKEN_CLASS | TOKEN_STRUCT | TOKEN_ENUM
  | TOKEN_INTERFACE | TOKEN_IMPLEMENTS | TOKEN_EXTENDS | TOKEN_PUBLIC
  | TOKEN_PRIVATE | TOKEN_PROTECTED | TOKEN_STATIC | TOKEN_FINAL
  | TOKEN_ABSTRACT | TOKEN_VIRTUAL | TOKEN_OVERRIDE | TOKEN_TRY
  | TOKEN_CATCH | TOKEN_FINALLY | TOKEN_THROW | TOKEN_IMPORT
  | TOKEN_EXPORT | TOKEN_MODULE | TOKEN_NAMESPACE | TOKEN_TRUE
  | TOKEN_FALSE | TOKEN_NULL | TOKEN_UNDEFINED | TOKEN_PLUS
  | TOKEN_MINUS | TOKEN_MULTIPLY | TOKEN_DIVIDE | TOKEN_MODULO
  | TOKEN_POWER | TOKEN_INCREMENT | TOKEN_DECREMENT | TOKEN_ASSIGN
  | TOKEN_PLUS_ASSIGN | TOKEN_MINUS_ASSIGN | TOKEN_MULTIPLY_ASSIGN | TOKEN_DIVIDE_ASSIGN
  | TOKEN_MODULO_ASSIGN | TOKEN_POWER_ASSIGN | TOKEN_EQUAL | TOKEN_NOT_EQUAL
  | TOKEN_STRICT_EQUAL | TOKEN_LESS | TOKEN_LESS_EQUAL | TOKEN_GREATER
  | TOKEN_GREATER_EQUAL | TOKEN_AND | TOKEN_OR | TOKEN_NOT
  | TOKEN_BITWISE_AND | TOKEN_BITWISE_OR | TOKEN_XOR | TOKEN_TILDE
  | TOKEN_LSHIFT | TOKEN_RSHIFT | TOKEN_AND_ASSIGN | TOKEN_OR_ASSIGN
  | TOKEN_XOR_ASSIGN | TOKEN_LSHIFT_ASSIGN | TOKEN_RSHIFT_ASSIGN | TOKEN_LPAREN
  | TOKEN_RPAREN | TOKEN_LBRACE | TOKEN_RBRACE | TOKEN_LBRACKET
  | TOKEN_RBRACKET | TOKEN_SEMICOLON | TOKEN_COMMA | TOKEN_DOT
  | TOKEN_COLON | TOKEN_SCOPE | TOKEN_ARROW | TOKEN_QUESTION
  | TOKEN_ELLIPSIS | TOKEN_HASH | TOKEN_NEWLINE | TOKEN_EOF
  | TOKEN_ERROR | TOKEN_UNKNOWN.

Definition TokenType_code (t : TokenType) : N :=
  match t with
  | TOKEN_INTEGER => 0 | TOKEN_FLOAT => 1 | TOKEN_STRING => 2
  | TOKEN_CHAR => 3 | TOKEN_IDENTIFIER => 4 | TOKEN_INT => 5
  | TOKEN_FLOAT_KW => 6 | TOKEN_STRING_KW => 7 | TOKEN_BOOL_KW => 8
  | TOKEN_CHAR_KW => 9 | TOKEN_VOID_KW => 10 | TOKEN_IF => 11
  | TOKEN_ELSE => 12 | TOKEN_WHILE => 13 | TOKEN_FOR => 14
  | TOKEN_DO => 15 | TOKEN_SWITCH => 16 | TOKEN_CASE => 17
  | TOKEN_DEFAULT => 18 | TOKEN_BREAK => 19 | TOKEN_CONTINUE => 20
  | TOKEN_RETURN => 21 | TOKEN_FUNCTION => 22 | TOKEN_VAR => 23
  | TOKEN_CONST => 24 | TOKEN_CLASS => 25 | TOKEN_STRUCT => 26
  | TOKEN_ENUM => 27 | TOKEN_INTERFACE => 28 | TOKEN_IMPLEMENTS => 29
  | TOKEN_EXTENDS => 30 | TOKEN_PUBLIC => 31 | TOKEN_PRIVATE => 32
  | TOKEN_PROTECTED => 33 | TOKEN_STATIC => 34 | TOKEN_FINAL => 35
  | TOKEN_ABSTRACT => 36 | TOKEN_VIRTUAL => 37 | TOKEN_OVERRIDE => 38
  | TOKEN_TRY => 39 | TOKEN_CATCH => 40 | TOKEN_FINALLY => 41
  | TOKEN_THROW => 42 | TOKEN_IMPORT => 43 | TOKEN_EXPORT => 44
  | TOKEN_MODULE => 45 | TOKEN_NAMESPACE => 46 | TOKEN_TRUE => 47
  | TOKEN_FALSE => 48 | TOKEN_NULL => 49 | TOKEN_UNDEFINED => 50
  | TOKEN_PLUS => 51 | TOKEN_MINUS => 52 | TOKEN_MULTIPLY => 53
  | TOKEN_DIVIDE => 54 | TOKEN_MODULO => 55 | TOKEN_POWER => 56
  | TOKEN_INCREMENT => 57 | TOKEN_DECREMENT => 58 | TOKEN_ASSIGN => 59
  | TOKEN_PLUS_ASSIGN => 60 | TOKEN_MINUS_ASSIGN => 61 | TOKEN_MULTIPLY_ASSIGN => 62
  | TOKEN_DIVIDE_ASSIGN => 63 | TOKEN_MODULO_ASSIGN => 64 | TOKEN_POWER_ASSIGN => 65
  | TOKEN_EQUAL => 66 | TOKEN_NOT_EQUAL => 67 | TOKEN_STRICT_EQUAL => 68
  | TOKEN_LESS => 69 | TOKEN_LESS_EQUAL => 70 | TOKEN_GREATER => 71
  | TOKEN_GREATER_EQUAL => 72 | TOKEN_AND => 73 | TOKEN_OR => 74
  | TOKEN_NOT => 75 | TOKEN_BITWISE_AND => 76 | TOKEN_BITWISE_OR => 77
  | TOKEN_XOR => 78 | TOKEN_TILDE => 79 | TOKEN_LSHIFT => 80
  | TOKEN_RSHIFT => 81 | TOKEN_AND_ASSIGN => 82 | TOKEN_OR_ASSIGN => 83
  | TOKEN_XOR_ASSIGN => 84 | TOKEN_LSHIFT_ASSIGN => 85 | TOKEN_RSHIFT_ASSIGN => 86
  | TOKEN_LPAREN => 87 | TOKEN_RPAREN => 88 | TOKEN_LBRACE => 89
  | TOKEN_RBRACE => 90 | TOKEN_LBRACKET => 91 | TOKEN_RBRACKET => 92
  | TOKEN_SEMICOLON => 93 | TOKEN_COMMA => 94 | TOKEN_DOT => 95
  | TOKEN_COLON => 96 | TOKEN_SCOPE => 97 | TOKEN_ARROW => 98
  | TOKEN_QUESTION => 99 | TOKEN_ELLIPSIS => 100 | TOKEN_HASH => 101
  | TOKEN_NEWLINE => 102 | TOKEN_EOF => 103 | TOKEN_ERROR => 104
  | TOKEN_UNKNOWN => 105
  end.

Definition all_token_types : list TokenType :=
  [
   TOKEN_INTEGER; TOKEN_FLOAT; TOKEN_STRING; TOKEN_CHAR;
   TOKEN_IDENTIFIER; TOKEN_INT; TOKEN_FLOAT_KW; TOKEN_STRING_KW;
   TOKEN_BOOL_KW; TOKEN_CHAR_KW; TOKEN_VOID_KW; TOKEN_IF;
   TOKEN_ELSE; TOKEN_WHILE; TOKEN_FOR; TOKEN_DO;
   TOKEN_SWITCH; TOKEN_CASE; TOKEN_DEFAULT; TOKEN_BREAK;
   TOKEN_CONTINUE; TOKEN_RETURN; TOKEN_FUNCTION; TOKEN_VAR;
   TOKEN_CONST; TOKEN_CLASS; TOKEN_STRUCT; TOKEN_ENUM;
   TOKEN_INTERFACE; TOKEN_IMPLEMENTS; TOKEN_EXTENDS; TOKEN_PUBLIC;
   TOKEN_PRIVATE; TOKEN_PROTECTED; TOKEN_STATIC; TOKEN_FINAL;
   TOKEN_ABSTRACT; TOKEN_VIRTUAL; TOKEN_OVERRIDE; TOKEN_TRY;
   TOKEN_CATCH; TOKEN_FINALLY; TOKEN_THROW; TOKEN_IMPORT;
   TOKEN_EXPORT; TOKEN_MODULE; TOKEN_NAMESPACE; TOKEN_TRUE;
   TOKEN_FALSE; TOKEN_NULL; TOKEN_UNDEFINED; TOKEN_PLUS;
   TOKEN_MINUS; TOKEN_MULTIPLY; TOKEN_DIVIDE; TOKEN_MODULO;
   TOKEN_POWER; TOKEN_INCREMENT; TOKEN_DECREMENT; TOKEN_ASSIGN;
   TOKEN_PLUS_ASSIGN; TOKEN_MINUS_ASSIGN; TOKEN_MULTIPLY_ASSIGN; TOKEN_DIVIDE_ASSIGN;
   TOKEN_MODULO_ASSIGN; TOKEN_POWER_ASSIGN; TOKEN_EQUAL; TOKEN_NOT_EQUAL;
   TOKEN_STRICT_EQUAL; TOKEN_LESS; TOKEN_LESS_EQUAL; TOKEN_GREATER;
   TOKEN_GREATER_EQUAL; TOKEN_AND; TOKEN_OR; TOKEN_NOT;
   TOKEN_BITWISE_AND; TOKEN_BITWISE_OR; TOKEN_XOR; TOKEN_TILDE;
   TOKEN_LSHIFT; TOKEN_RSHIFT; TOKEN_AND_ASSIGN; TOKEN_OR_ASSIGN;
   TOKEN_XOR_ASSIGN; TOKEN_LSHIFT_ASSIGN; TOKEN_RSHIFT_ASSIGN; TOKEN_LPAREN;
   TOKEN_RPAREN; TOKEN_LBRACE; TOKEN_RBRACE; TOKEN_LBRACKET;
   TOKEN_RBRACKET; TOKEN_SEMICOLON; TOKEN_COMMA; TOKEN_DOT;
   TOKEN_COLON; TOKEN_SCOPE; TOKEN_ARROW; TOKEN_QUESTION;
   TOKEN_ELLIPSIS; TOKEN_HASH; TOKEN_NEWLINE; TOKEN_EOF;
   TOKEN_ERROR; TOKEN_UNKNOWN].

Definition TokenType_eqb (a b : TokenType) : bool :=
  (TokenType_code a =? TokenType_code b)%N.

Record Position : Set := mkPosition {
  line : Z;
  column : Z;
  filename : string
}.

(** The [value] union of a token.  [make_token] leaves it unset.  Doubles are
    not evaluated: a float value is kept as the text handed to [strtod]. *)
Inductive TokenValue : Set :=
  | value_unset
  | int_value (v : Z)
  | float_value (strtod_of : string).

Record Token : Set := mkToken {
  tok_type : TokenType;
  tok_start : nat;
  tok_length : Z;
  tok_pos : Position;
  tok_value : TokenValue
}.

(** ** lexer.c *)

Module Lex.

Record Lexer : Set := mkLexer {
  source : string;
  current : nat;
  start : nat;
  pos : Position;
  keywords : list (string * TokenType);
  has_error : bool;
  error_message : string;
  tokens_processed : Z
}.

Definition set_current (n : nat) (l : Lexer) : Lexer :=
  mkLexer (source l) n (start l) (pos l) (keywords l) (has_error l)
          (error_message l) (tokens_processed l).
Definition set_start (n : nat) (l : Lexer) : Lexer :=
  mkLexer (source l) (current l) n (pos l) (keywords l) (has_error l)
          (error_message l) (tokens_processed l).
Definition set_pos (p : Position) (l : Lexer) : Lexer :=
  mkLexer (source l) (current l) (start l) p (keywords l) (has_error l)
          (error_message l) (tokens_processed l).
Definition set_has_error (b : bool) (l : Lexer) : Lexer :=
  mkLexer (source l) (current l) (start l) (pos l) (keywords l) b
          (error_message l) (tokens_processed l).
Definition set_error_message (m : string) (l : Lexer) : Lexer :=
  mkLexer (source l) (current l) (start l) (pos l) (keywords l) (has_error l)
          m (tokens_processed l).
Definition set_tokens_processed (n : Z) (l : Lexer) : Lexer :=
  mkLexer (source l) (current l) (start l) (pos l) (keywords l) (has_error l)
          (error_message l) n.

Definition init_keywords : list (string * TokenType) :=
  [("int", TOKEN_INT); ("float", TOKEN_FLOAT_KW); ("string", TOKEN_STRING_KW);
   ("bool", TOKEN_BOOL_KW); ("char", TOKEN_CHAR_KW); ("void", TOKEN_VOID_KW);
   ("if", TOKEN_IF); ("else", TOKEN_ELSE); ("while", TOKEN_WHILE);
   ("for", TOKEN_FOR); ("do", TOKEN_DO); ("switch", TOKEN_SWITCH);
   ("case", TOKEN_CASE); ("default", TOKEN_DEFAULT); ("break", TOKEN_BREAK);
   ("continue", TOKEN_CONTINUE); ("return", TOKEN_RETURN);
   ("function", TOKEN_FUNCTION); ("var", TOKEN_VAR); ("const", TOKEN_CONST);
   ("class", TOKEN_CLASS); ("struct", TOKEN_STRUCT); ("enum", TOKEN_ENUM);
   ("interface", TOKEN_INTERFACE); ("implements", TOKEN_IMPLEMENTS);
   ("extends", TOKEN_EXTENDS); ("public", TOKEN_PUBLIC); ("private", TOKEN_PRIVATE);
   ("protected", TOKEN_PROTECTED); ("static", TOKEN_STATIC); ("final", TOKEN_FINAL);
   ("abstract", TOKEN_ABSTRACT); ("virtual", TOKEN_VIRTUAL);
   ("override", TOKEN_OVERRIDE); ("try", TOKEN_TRY); ("catch", TOKEN_CATCH);
   ("finally", TOKEN_FINALLY); ("throw", TOKEN_THROW); ("import", TOKEN_IMPORT);
   ("export", TOKEN_EXPORT); ("module", TOKEN_MODULE); ("namespace", TOKEN_NAMESPACE);
   ("true", TOKEN_TRUE); ("false", TOKEN_FALSE); ("null", TOKEN_NULL);
   ("undefined", TOKEN_UNDEFINED)]%string.

Definition lexer_create (source filename : string) : Lexer :=
  {| source := source; current := 0; start := 0;
     pos := {| line := 1; column := 1; filename := filename |};
     keywords := init_keywords;
     has_error := false; error_message := EmptyString;
     tokens_processed := 0 |}.

(** *** Utility functions *)

Definition peek (l : Lexer) : ascii := char_at (source l) (current l).

Definition is_at_end (l : Lexer) : bool := (peek l =? NUL)%char.

Definition peek_next (l : Lexer) : ascii :=
  if is_at_end l then NUL else char_at (source l) (S (current l)).

(** [advance] returns the byte under the cursor, which callers read with
    [peek] before the call where they need it. *)
Definition advance (l : Lexer) : Lexer :=
  if is_at_end l then l
  else
    let p := pos l in
    let p' := if (peek l =? NL)%char
              then mkPosition (to_int (line p + 1)) 1 (filename p)
              else mkPosition (line p) (to_int (column p + 1)) (filename p) in
    set_current (S (current l)) (set_pos p' l).

Definition match_ (l : Lexer) (expected : ascii) : bool * Lexer :=
  if is_at_end l || negb (peek l =? expected)%char then (false, l)
  else
    let p := pos l in
    (true, set_pos (mkPosition (line p) (to_int (column p + 1)) (filename p))
                   (set_current (S (current l)) l)).

(** Loops run on fuel; a loop that consumes a byte per round never needs
    more rounds than there are bytes left (lemmas [while_fuel] below). *)
Definition fuel_of (l : Lexer) : nat := S (String.length (source l) - current l).

Fixpoint while_ (fuel : nat) (cond : Lexer -> bool) (body : Lexer -> Lexer)
         (l : Lexer) : Lexer :=
  match fuel with
  | O => l
  | S fuel' => if cond l then while_ fuel' cond body (body l) else l
  end.

Fixpoint block_comment_loop (fuel : nat) (l : Lexer) : Lexer :=
  match fuel with
  | O => l
  | S fuel' =>
      if is_at_end l then l
      else if ((peek l =? "*") && (peek_next l =? "/"))%char
           then advance (advance l)
           else block_comment_loop fuel' (advance l)
  end.

Fixpoint skip_whitespace_loop (fuel : nat) (l : Lexer) : Lexer :=
  match fuel with
  | O => l
  | S fuel' =>
      if is_at_end l then l
      else
        let c := peek l in
        if ((c =? " ") || (c =? CR) || (c =? TAB))%char then
          skip_whitespace_loop fuel' (advance l)
        else if ((c =? "/") && (peek_next l =? "/"))%char then
          skip_whitespace_loop fuel'
            (while_ (fuel_of l)
                    (fun l => negb (peek l =? NL)%char && negb (is_at_end l))
                    advance l)
        else if ((c =? "/") && (peek_next l =? "*"))%char then
          skip_whitespace_loop fuel'
            (block_comment_loop (fuel_of l) (advance (advance l)))
        else l
  end.

Definition skip_whitespace (l : Lexer) : Lexer := skip_whitespace_loop (fuel_of l) l.

Definition make_token (l : Lexer) (type : TokenType) : Token :=
  let length := to_size_t (Z.of_nat (current l) - Z.of_nat (start l)) in
  {| tok_type := type;
     tok_start := start l;
     tok_length := length;
     tok_pos := mkPosition (line (pos l))
                           (to_int (column (pos l) - to_int length))
                           (filename (pos l));
     tok_value := value_unset |}.

Definition error_token (l : Lexer) (message : string) : Token * Lexer :=
  let l := set_error_message (strncpy message 255) (set_has_error true l) in
  ({| tok_type := TOKEN_ERROR;
      tok_start := start l;
      tok_length := to_size_t (Z.of_nat (current l) - Z.of_nat (start l));
      tok_pos := pos l;
      tok_value := value_unset |}, l).

Definition with_value (v : TokenValue) (t : Token) : Token :=
  mkToken (tok_type t) (tok_start t) (tok_length t) (tok_pos t) v.

Definition digits (l : Lexer) : Lexer :=
  while_ (fuel_of l) (fun l => isdigit (peek l)) advance l.

(** The optional fraction of a decimal literal: [(is_float, lexer)]. *)
Definition fraction (l : Lexer) : bool * Lexer :=
  if (peek l =? ".")%char && isdigit (peek_next l)
  then (true, digits (advance l))
  else (false, l).

Definition number (l : Lexer) : Token * Lexer :=
  let '(is_float, base, l) :=
    if (peek l =? "0")%char && negb (is_at_end l) then
      let next := peek_next l in
      if ((next =? "x") || (next =? "X"))%char then
        let l := advance (advance l) in
        (false, 16, while_ (fuel_of l) (fun l => isxdigit (peek l)) advance l)
      else if ((next =? "b") || (next =? "B"))%char then
        let l := advance (advance l) in
        (false, 2,
         while_ (fuel_of l) (fun l => ((peek l =? "0") || (peek l =? "1"))%char)
                advance l)
      else if ((next =? "o") || (next =? "O"))%char then
        let l := advance (advance l) in
        (false, 8, while_ (fuel_of l) (fun l => in_range "0" "7" (peek l)) advance l)
      else
        let '(is_float, l) := fraction (digits l) in
        (is_float, 10, l)
    else
      let '(is_float, l) := fraction (digits l) in
      if ((peek l =? "e") || (peek l =? "E"))%char
         && (isdigit (peek_next l)
             || ((peek_next l =? "+") || (peek_next l =? "-"))%char)
      then
        let l := advance l in
        let l := if ((peek l =? "+") || (peek l =? "-"))%char then advance l else l in
        (true, 10, digits l)
      else (is_float, 10, l) in
  let token := make_token l (if is_float then TOKEN_FLOAT else TOKEN_INTEGER) in
  let text := c_string_at (source l) (start l) in
  (with_value (if is_float then float_value text
               else int_value (strtoll text base)) token, l).

Fixpoint unicode_digits (n : nat) (l : Lexer) : Lexer :=
  match n with
  | O => l
  | S n' => if isxdigit (peek l) then unicode_digits n' (advance l) else l
  end.

(** One round of the loop of [string]. *)
Definition string_body (l : Lexer) : Lexer :=
  if (peek l =? BACKSLASH)%char then
    let l := advance l in
    if negb (is_at_end l) then
      let escaped := peek l in
      if (escaped =? "x")%char then
        let l := advance l in
        if isxdigit (peek l) then
          let l := advance l in
          if isxdigit (peek l) then advance l else l
        else l
      else if (escaped =? "u")%char then unicode_digits 4 (advance l)
      else advance l
    else l
  else
    let p := pos l in
    let p' := if (peek l =? NL)%char
              then mkPosition (to_int (line p + 1)) 1 (filename p)
              else mkPosition (line p) (to_int (column p + 1)) (filename p) in
    set_current (S (current l)) (set_pos p' l).

Definition string_ (l : Lexer) : Token * Lexer :=
  let l := while_ (fuel_of l)
                  (fun l => negb (peek l =? DQUOTE)%char && negb (is_at_end l))
                  string_body l in
  if is_at_end l then error_token l "Unterminated string"
  else let l := advance l in (make_token l TOKEN_STRING, l).

Definition check_keyword (l : Lexer) (text : nat) (length : Z) : TokenType :=
  match find (fun k => (Z.of_nat (String.length (fst k)) =? length)
                       && String.eqb (String.substring text (Z.to_nat length) (source l))
                                     (fst k))
             (keywords l) with
  | Some k => snd k
  | None => TOKEN_IDENTIFIER
  end.

Definition identifier (l : Lexer) : Token * Lexer :=
  let l := while_ (fuel_of l)
                  (fun l => isalnum (peek l) || (peek l =? "_")%char) advance l in
  let type := check_keyword l (start l)
                (to_size_t (Z.of_nat (current l) - Z.of_nat (start l))) in
  (make_token l type, l).

(** *** Main tokenization function *)

Definition token (l : Lexer) (type : TokenType) : Token * Lexer := (make_token l type, l).

(** [match(lexer, expected) ? yes : no] as the kind of the token made. *)
Definition token_if (l : Lexer) (expected : ascii) (yes no : TokenType) : Token * Lexer :=
  let '(m, l) := match_ l expected in token l (if m then yes else no).

Definition char_literal (l : Lexer) : Token * Lexer :=
  let l := advance l in
  let l := if (peek l =? BACKSLASH)%char then advance (advance l)
           else if negb (peek l =? SQUOTE)%char then advance l
           else l in
  let '(m, l) := match_ l SQUOTE in
  if negb m then error_token l "Unterminated character literal"
  else token l TOKEN_CHAR.

Definition punctuation (c : ascii) (l : Lexer) : Token * Lexer :=
  (if c =? "(" then token l TOKEN_LPAREN
   else if c =? ")" then token l TOKEN_RPAREN
   else if c =? "{" then token l TOKEN_LBRACE
   else if c =? "}" then token l TOKEN_RBRACE
   else if c =? "[" then token l TOKEN_LBRACKET
   else if c =? "]" then token l TOKEN_RBRACKET
   else if c =? ";" then token l TOKEN_SEMICOLON
   else if c =? "," then token l TOKEN_COMMA
   else if c =? "." then
     let '(m, l) := match_ l "." in
     if m then
       let '(m, l) := match_ l "." in
       if m then token l TOKEN_ELLIPSIS
       else error_token l "Invalid token '..'"
     else token l TOKEN_DOT
   else if c =? ":" then token_if l ":" TOKEN_SCOPE TOKEN_COLON
   else if c =? "?" then token l TOKEN_QUESTION
   else if c =? "~" then token l TOKEN_TILDE
   else if c =? "^" then token_if l "=" TOKEN_XOR_ASSIGN TOKEN_XOR
   else if c =? "+" then
     let '(m, l) := match_ l "+" in
     if m then token l TOKEN_INCREMENT
     else let '(m, l) := match_ l "=" in
          if m then token l TOKEN_PLUS_ASSIGN else token l TOKEN_PLUS
   else if c =? "-" then
     let '(m, l) := match_ l "-" in
     if m then token l TOKEN_DECREMENT
     else let '(m, l) := match_ l "=" in
          if m then token l TOKEN_MINUS_ASSIGN
          else let '(m, l) := match_ l ">" in
               if m then token l TOKEN_ARROW else token l TOKEN_MINUS
   else if c =? "*" then
     let '(m, l) := match_ l "=" in
     if m then token l TOKEN_MULTIPLY_ASSIGN
     else let '(m, l) := match_ l "*" in
          if m then token_if l "=" TOKEN_POWER_ASSIGN TOKEN_POWER
          else token l TOKEN_MULTIPLY
   else if c =? "/" then
     let '(m, l) := match_ l "=" in
     if m then token l TOKEN_DIVIDE_ASSIGN else token l TOKEN_DIVIDE
   else if c =? "%" then token_if l "=" TOKEN_MODULO_ASSIGN TOKEN_MODULO
   else if c =? NL then token l TOKEN_NEWLINE
   else if c =? DQUOTE then string_ l
   else if c =? SQUOTE then char_literal l
   else if c =? "!" then token_if l "=" TOKEN_NOT_EQUAL TOKEN_NOT
   else if c =? "=" then
     let '(m, l) := match_ l "=" in
     if m then token_if l "=" TOKEN_STRICT_EQUAL TOKEN_EQUAL
     else token l TOKEN_ASSIGN
   else if c =? "<" then
     let '(m, l) := match_ l "<" in
     if m then token_if l "=" TOKEN_LSHIFT_ASSIGN TOKEN_LSHIFT
     else token_if l "=" TOKEN_LESS_EQUAL TOKEN_LESS
   else if c =? ">" then
     let '(m, l) := match_ l ">" in
     if m then token_if l "=" TOKEN_RSHIFT_ASSIGN TOKEN_RSHIFT
     else token_if l "=" TOKEN_GREATER_EQUAL TOKEN_GREATER
   else if c =? "&" then
     let '(m, l) := match_ l "&" in
     if m then token l TOKEN_AND
     else let '(m, l) := match_ l "=" in
          if m then token l TOKEN_AND_ASSIGN else token l TOKEN_BITWISE_AND
   else if c =? "|" then
     let '(m, l) := match_ l "|" in
     if m then token l TOKEN_OR
     else let '(m, l) := match_ l "=" in
          if m then token l TOKEN_OR_ASSIGN else token l TOKEN_BITWISE_OR
   else if c =? "#" then token l TOKEN_HASH
   else error_token l "Unexpected character")%char.

Definition lexer_next_token (l : Lexer) : Token * Lexer :=
  let l := skip_whitespace l in
  let l := set_start (current l) l in
  let l := set_tokens_processed (to_size_t (tokens_processed l + 1)) l in
  if is_at_end l then token l TOKEN_EOF
  else
    let c := peek l in
    let l := advance l in
    if isalpha c || (c =? "_")%char then identifier l
    else if isdigit c then number l
    else punctuation c l.

Definition lexer_has_error (l : Lexer) : bool := has_error l.

Definition lexer_get_error (l : Lexer) : string := error_message l.

(** *** Peek next token without consuming it *)

Definition lexer_peek_token (l : Lexer) : Token * Lexer :=
  let saved_current := current l in
  let saved_start := start l in
  let saved_pos := pos l in
  let saved_tokens := tokens_processed l in
  let saved_error := has_error l in
  let '(token, l) := lexer_next_token l in
  (token,
   set_has_error saved_error
     (set_tokens_processed saved_tokens
        (set_pos saved_pos (set_start saved_start (set_current saved_current l))))).

(** The tokens of [n] successive calls, and the lexer they leave. *)
Fixpoint tokens (n : nat) (l : Lexer) : list Token * Lexer :=
  match n with
  | O => ([], l)
  | S n' =>
      let '(t, l) := lexer_next_token l in
      let '(ts, l) := tokens n' l in
      (t :: ts, l)
  end.

End Lex.

(** ** parser.h, parser.c *)

Module Parse.

Inductive ASTNodeType : Set :=
  | AST_LITERAL | AST_IDENTIFIER | AST_BINARY | AST_UNARY | AST_ASSIGNMENT
  | AST_CALL | AST_EXPRESSION_STMT | AST_VAR_DECLARATION | AST_FUNCTION_DECL
  | AST_CLASS_DECL | AST_IF_STMT | AST_WHILE_STMT | AST_FOR_STMT
  | AST_RETURN_STMT | AST_BLOCK_STMT | AST_PROGRAM.

(** The [value] union of a literal node; [lit_unset] when no member was
    written. *)
Inductive LiteralValue : Set :=
  | lit_unset
  | lit_int_value (v : Z)
  | lit_float_value (strtod_of : string)
  | lit_string_value (s : string).

(** The tagged union [ASTNode], one constructor per kind the parser builds.
    A child pointer is an [option] ([None] is [NULL]); a name is [None] when
    its copy could not be allocated and the field was left unset.
    [Assignment] and [ExpressionStmt] reuse the [binary] member. *)
#[local] Unset Elimination Schemes.
Inductive ASTNode : Set :=
  | Literal (pos : Position) (token_type : TokenType) (value : LiteralValue)
  | Identifier (pos : Position) (name : option string)
  | Binary (pos : Position) (left : option ASTNode) (operator : TokenType)
           (right : option ASTNode)
  | Unary (pos : Position) (operator : TokenType) (operand : option ASTNode)
  | Assignment (pos : Position) (left : option ASTNode) (operator : TokenType)
               (right : option ASTNode)
  | ExpressionStmt (pos : Position) (left : option ASTNode)
  | VarDeclaration (pos : Position) (type : TokenType) (name : option string)
                   (initializer : option ASTNode)
  | ReturnStmt (pos : Position) (value : option ASTNode)
  | Program (pos : Position) (statements : list ASTNode).
#[local] Set Elimination Schemes.

Definition node_type (n : ASTNode) : ASTNodeType :=
  match n with
  | Literal _ _ _ => AST_LITERAL
  | Identifier _ _ => AST_IDENTIFIER
  | Binary _ _ _ _ => AST_BINARY
  | Unary _ _ _ => AST_UNARY
  | Assignment _ _ _ _ => AST_ASSIGNMENT
  | ExpressionStmt _ _ => AST_EXPRESSION_STMT
  | VarDeclaration _ _ _ _ => AST_VAR_DECLARATION
  | ReturnStmt _ _ => AST_RETURN_STMT
  | Program _ _ => AST_PROGRAM
  end.

Record Parser : Set := mkParser {
  lexer : Lex.Lexer;
  current : Token;
  previous : Token;
  had_error : bool;
  panic_mode : bool;
  error_message : string;
  arena_used : Z;
  nodes_created : Z
}.

Definition set_tokens (lx : Lex.Lexer) (cur prev : Token) (p : Parser) : Parser :=
  mkParser lx cur prev (had_error p) (panic_mode p) (error_message p)
           (arena_used p) (nodes_created p).
Definition set_panic_mode (b : bool) (p : Parser) : Parser :=
  mkParser (lexer p) (current p) (previous p) (had_error p) b (error_message p)
           (arena_used p) (nodes_created p).
Definition set_arena_used (u : Z) (p : Parser) : Parser :=
  mkParser (lexer p) (current p) (previous p) (had_error p) (panic_mode p)
           (error_message p) u (nodes_created p).

(** What a function does: it returns, or its behaviour is undefined in C
    ([Crash]: a [NULL] dereference, a store outside an array, a read of a
    field that was never written), or the model ran out of fuel. *)
Inductive result (A : Type) : Type :=
  | Done (a : A)
  | Crash
  | OutOfFuel.
Arguments Done {A} a.
Arguments Crash {A}.
Arguments OutOfFuel {A}.

Definition bind {A B : Type} (r : result A) (k : A -> result B) : result B :=
  match r with
  | Done a => k a
  | Crash => Crash
  | OutOfFuel => OutOfFuel
  end.

Notation "' pat <- r ;; k" := (bind r (fun x => match x with pat => k end))
  (at level 61, pat pattern, r at next level, right associativity).

(** *** The arena (lexer.c), as the parser uses it *)

Definition ARENA_SIZE : Z := 65536.

(** [sizeof(ASTNode)] on LP64: tag and padding 8, [Position] 16, union 40. *)
Definition sizeof_ASTNode : Z := 64.
Definition sizeof_pointer : Z := 8.

(** [arena_alloc]: the new [used], or [None] for [NULL]. *)
Definition arena_alloc (used size : Z) : option Z :=
  if ARENA_SIZE <? to_size_t (used + size) then None else Some (to_size_t (used + size)).

(** The loops over tokens run on fuel, one more than [Lex.fuel_of]: a round
    that goes on has read a token that is not end-of-input, hence a byte
    (lemmas [skip_error_tokens_done], [synchronize_done] below).

    The loop of [parser_create]: [lexer_next_token] until no [NEWLINE]. *)
Fixpoint skip_newlines (fuel : nat) (t : Token) (lx : Lex.Lexer) : Token * Lex.Lexer :=
  match fuel with
  | O => (t, lx)
  | S fuel' =>
      if TokenType_eqb (tok_type t) TOKEN_NEWLINE
         && negb (TokenType_eqb (tok_type t) TOKEN_EOF)
      then let '(t, lx) := Lex.lexer_next_token lx in skip_newlines fuel' t lx
      else (t, lx)
  end.

(** [uninit] stands for the indeterminate contents of [previous], which
    [parser_create] does not write. *)
Definition parser_create (lx : Lex.Lexer) (uninit : Token) : Parser :=
  let '(t, lx) := Lex.lexer_next_token lx in
  let '(t, lx) := skip_newlines (S (Lex.fuel_of lx)) t lx in
  {| lexer := lx; current := t; previous := uninit;
     had_error := false; panic_mode := false; error_message := EmptyString;
     arena_used := 0; nodes_created := 0 |}.

(** *** Utility functions *)

Definition parser_error (p : Parser) (message : string) : Parser :=
  if panic_mode p then p
  else
    mkParser (lexer p) (current p) (previous p) true true
      (strncpy ("Error at line " ++ format_d (line (tok_pos (current p)))
                ++ ", column " ++ format_d (column (tok_pos (current p)))
                ++ ": " ++ message) 255)
      (arena_used p) (nodes_created p).

Fixpoint skip_error_tokens (fuel : nat) (p : Parser) : Parser :=
  match fuel with
  | O => p
  | S fuel' =>
      if TokenType_eqb (tok_type (current p)) TOKEN_ERROR then
        let p := parser_error p "Lexical error" in
        let '(t, lx) := Lex.lexer_next_token (lexer p) in
        skip_error_tokens fuel' (set_tokens lx t (previous p) p)
      else p
  end.

Definition advance (p : Parser) : Parser :=
  let '(t, lx) := Lex.lexer_next_token (lexer p) in
  skip_error_tokens (S (Lex.fuel_of lx)) (set_tokens lx t (current p) p).

Definition check (p : Parser) (type : TokenType) : bool :=
  TokenType_eqb (tok_type (current p)) type.

Definition match_ (p : Parser) (type : TokenType) : bool * Parser :=
  if negb (check p type) then (false, p) else (true, advance p).

(** [match(p, t1) || match(p, t2) || ...], left to right. *)
Fixpoint match_any (p : Parser) (types : list TokenType) : bool * Parser :=
  match types with
  | [] => (false, p)
  | type :: rest =>
      let '(m, p) := match_ p type in
      if m then (true, p) else match_any p rest
  end.

Definition consume (p : Parser) (type : TokenType) (message : string) : bool * Parser :=
  if TokenType_eqb (tok_type (current p)) type then (true, advance p)
  else (false, parser_error p message).

Definition sync_point (type : TokenType) : bool :=
  match type with
  | TOKEN_CLASS | TOKEN_FUNCTION | TOKEN_VAR | TOKEN_FOR | TOKEN_IF
  | TOKEN_WHILE | TOKEN_RETURN => true
  | _ => false
  end.

Fixpoint synchronize_loop (fuel : nat) (p : Parser) : Parser :=
  match fuel with
  | O => p
  | S fuel' =>
      if negb (TokenType_eqb (tok_type (current p)) TOKEN_EOF) then
        if TokenType_eqb (tok_type (previous p)) TOKEN_SEMICOLON then p
        else if sync_point (tok_type (current p)) then p
        else synchronize_loop fuel' (advance p)
      else p
  end.

Definition synchronize (p : Parser) : Parser :=
  let p := set_panic_mode false p in
  synchronize_loop (S (Lex.fuel_of (lexer p))) p.

(** *** AST node creation *)

(** The node's [pos], or [None] for [NULL]; the caller's constructor is the
    [type] tag. *)
Definition ast_allocate (p : Parser) (type : ASTNodeType) : option Position * Parser :=
  match arena_alloc (arena_used p) sizeof_ASTNode with
  | None => (None, p)
  | Some used =>
      (Some (tok_pos (previous p)),
       mkParser (lexer p) (current p) (previous p) (had_error p) (panic_mode p)
                (error_message p) used (to_int (nodes_created p + 1)))
  end.

(** The text a token's [start] points to. *)
Definition text_at (p : Parser) (offset : nat) : string :=
  c_string_at (Lex.source (lexer p)) offset.

Definition ast_create_literal (p : Parser) (type : TokenType) (token : Token)
  : option ASTNode * Parser :=
  match ast_allocate p AST_LITERAL with
  | (None, p) => (None, p)
  | (Some pos, p) =>
      match type with
      | TOKEN_INTEGER =>
          (Some (Literal pos type (lit_int_value (strtoll (text_at p (tok_start token)) 10))), p)
      | TOKEN_FLOAT =>
          (Some (Literal pos type (lit_float_value (text_at p (tok_start token)))), p)
      | TOKEN_STRING =>
          let len := to_size_t (tok_length token - 2) in
          match arena_alloc (arena_used p) (to_size_t (len + 1)) with
          | Some used =>
              (Some (Literal pos type
                       (lit_string_value (strncpy (text_at p (S (tok_start token))) len))),
               set_arena_used used p)
          | None => (Some (Literal pos type lit_unset), p)
          end
      | _ => (Some (Literal pos type lit_unset), p)
      end
  end.

(** [strcpy] of [name] into the arena: the copy, or [None] when the arena is
    full and the name field stays unset. *)
Definition copy_name (p : Parser) (name : string) : option string * Parser :=
  match arena_alloc (arena_used p) (Z.of_nat (String.length name) + 1) with
  | Some used => (Some name, set_arena_used used p)
  | None => (None, p)
  end.

Definition ast_create_identifier (p : Parser) (name : string) : option ASTNode * Parser :=
  match ast_allocate p AST_IDENTIFIER with
  | (None, p) => (None, p)
  | (Some pos, p) => let '(name_copy, p) := copy_name p name in (Some (Identifier pos name_copy), p)
  end.

Definition ast_create_binary (p : Parser) (left : option ASTNode) (op : TokenType)
           (right : option ASTNode) : option ASTNode * Parser :=
  match ast_allocate p AST_BINARY with
  | (None, p) => (None, p)
  | (Some pos, p) => (Some (Binary pos left op right), p)
  end.

Definition ast_create_unary (p : Parser) (op : TokenType) (operand : option ASTNode)
  : option ASTNode * Parser :=
  match ast_allocate p AST_UNARY with
  | (None, p) => (None, p)
  | (Some pos, p) => (Some (Unary pos op operand), p)
  end.

Definition ast_create_return (p : Parser) (value : option ASTNode) : option ASTNode * Parser :=
  match ast_allocate p AST_RETURN_STMT with
  | (None, p) => (None, p)
  | (Some pos, p) => (Some (ReturnStmt pos value), p)
  end.

Definition ast_create_var_decl (p : Parser) (type : TokenType) (name : string)
           (init : option ASTNode) : option ASTNode * Parser :=
  match ast_allocate p AST_VAR_DECLARATION with
  | (None, p) => (None, p)
  | (Some pos, p) =>
      let '(name_copy, p) := copy_name p name in
      (Some (VarDeclaration pos type name_copy init), p)
  end.

(** The lexeme of [previous] as copied into [char name[256]]. *)
Definition previous_name (p : Parser) : string :=
  let len := tok_length (previous p) in
  let len := if 256 <=? len then 255 else len in
  strncpy (text_at p (tok_start (previous p))) len.

(** *** Recursive descent parser *)

Definition parsed : Type := result (option ASTNode * Parser).

Section Ladder.

(** The forward-declared [expression], tied below. *)
Variable expression : Parser -> parsed.

Definition primary (p : Parser) : parsed :=
  let '(m, p) := match_any p [TOKEN_TRUE; TOKEN_FALSE] in
  if m then Done (ast_create_literal p TOKEN_BOOL_KW (previous p)) else
  let '(m, p) := match_ p TOKEN_NULL in
  if m then Done (ast_create_literal p TOKEN_NULL (previous p)) else
  let '(m, p) := match_ p TOKEN_INTEGER in
  if m then Done (ast_create_literal p TOKEN_INTEGER (previous p)) else
  let '(m, p) := match_ p TOKEN_FLOAT in
  if m then Done (ast_create_literal p TOKEN_FLOAT (previous p)) else
  let '(m, p) := match_ p TOKEN_STRING in
  if m then Done (ast_create_literal p TOKEN_STRING (previous p)) else
  let '(m, p) := match_ p TOKEN_IDENTIFIER in
  if m then Done (ast_create_identifier p (previous_name p)) else
  let '(m, p) := match_ p TOKEN_LPAREN in
  if m then
    '(expr, p) <- expression p ;;
    let '(_, p) := consume p TOKEN_RPAREN "Expected ')' after expression" in
    Done (expr, p)
  else Done (None, parser_error p "Expected expression").

Fixpoint unary (fuel : nat) (p : Parser) : parsed :=
  match fuel with
  | O => OutOfFuel
  | S fuel' =>
      let '(m, p) := match_any p [TOKEN_NOT; TOKEN_MINUS] in
      if m then
        let operator := tok_type (previous p) in
        '(operand, p) <- unary fuel' p ;;
        Done (ast_create_unary p operator operand)
      else primary p
  end.

(** The loop shared by the six binary levels:
    [while (match(ops)) { op = previous.type; right = operand(); expr = binary }],
    with [rhs] for the local [right]. *)
Fixpoint binary_loop (ops : list TokenType) (operand : Parser -> parsed)
         (fuel : nat) (expr : option ASTNode) (p : Parser) : parsed :=
  match fuel with
  | O => OutOfFuel
  | S fuel' =>
      let '(m, p) := match_any p ops in
      if m then
        let operator := tok_type (previous p) in
        '(rhs, p) <- operand p ;;
        let '(expr, p) := ast_create_binary p expr operator rhs in
        binary_loop ops operand fuel' expr p
      else Done (expr, p)
  end.

Definition binary_level (ops : list TokenType) (operand : Parser -> parsed)
           (fuel : nat) (p : Parser) : parsed :=
  '(expr, p) <- operand p ;; binary_loop ops operand fuel expr p.

Definition factor (fuel : nat) : Parser -> parsed :=
  binary_level [TOKEN_DIVIDE; TOKEN_MULTIPLY; TOKEN_MODULO] (unary fuel) fuel.

Definition term (fuel : nat) : Parser -> parsed :=
  binary_level [TOKEN_MINUS; TOKEN_PLUS] (factor fuel) fuel.

Definition comparison (fuel : nat) : Parser -> parsed :=
  binary_level [TOKEN_GREATER; TOKEN_GREATER_EQUAL; TOKEN_LESS; TOKEN_LESS_EQUAL]
               (term fuel) fuel.

Definition equality (fuel : nat) : Parser -> parsed :=
  binary_level [TOKEN_NOT_EQUAL; TOKEN_EQUAL] (comparison fuel) fuel.

Definition logical_and (fuel : nat) : Parser -> parsed :=
  binary_level [TOKEN_AND] (equality fuel) fuel.

Definition logical_or (fuel : nat) : Parser -> parsed :=
  binary_level [TOKEN_OR] (logical_and fuel) fuel.

Definition is_identifier (n : ASTNode) : bool :=
  match n with Identifier _ _ => true | _ => false end.

Fixpoint assignment (fuel : nat) (p : Parser) : parsed :=
  match fuel with
  | O => OutOfFuel
  | S fuel' =>
      '(expr, p) <- logical_or fuel' p ;;
      let '(m, p) := match_ p TOKEN_ASSIGN in
      if m then
        '(value, p) <- assignment fuel' p ;;
        match expr with
        | None => Crash
        | Some e =>
            if is_identifier e then
              match ast_allocate p AST_ASSIGNMENT with
              | (None, _) => Crash
              | (Some pos, p) => Done (Some (Assignment pos expr TOKEN_ASSIGN value), p)
              end
            else Done (expr, parser_error p "Invalid assignment target")
        end
      else Done (expr, p)
  end.

End Ladder.

Fixpoint expression (fuel : nat) (p : Parser) : parsed :=
  match fuel with
  | O => OutOfFuel
  | S fuel' => assignment (expression fuel') fuel' p
  end.

Definition var_declaration (fuel : nat) (p : Parser) : parsed :=
  let type := tok_type (previous p) in
  let '(_, p) := consume p TOKEN_IDENTIFIER "Expected variable name" in
  let name := previous_name p in
  let '(m, p) := match_ p TOKEN_ASSIGN in
  '(initializer, p) <- (if m then expression fuel p else Done (None, p)) ;;
  let '(_, p) := consume p TOKEN_SEMICOLON "Expected ';' after variable declaration" in
  Done (ast_create_var_decl p type name initializer).

Definition return_statement (fuel : nat) (p : Parser) : parsed :=
  '(value, p) <- (if negb (check p TOKEN_SEMICOLON) then expression fuel p
                  else Done (None, p)) ;;
  let '(_, p) := consume p TOKEN_SEMICOLON "Expected ';' after return value" in
  Done (ast_create_return p value).

Definition expression_statement (fuel : nat) (p : Parser) : parsed :=
  '(expr, p) <- expression fuel p ;;
  let '(_, p) := consume p TOKEN_SEMICOLON "Expected ';' after expression" in
  match ast_allocate p AST_EXPRESSION_STMT with
  | (None, _) => Crash
  | (Some pos, p) => Done (Some (ExpressionStmt pos expr), p)
  end.

Definition statement (fuel : nat) (p : Parser) : parsed :=
  let '(m, p) := match_ p TOKEN_RETURN in
  if m then return_statement fuel p else expression_statement fuel p.

Definition declaration (fuel : nat) (p : Parser) : parsed :=
  let '(m, p) := match_any p [TOKEN_INT; TOKEN_FLOAT_KW; TOKEN_STRING_KW; TOKEN_BOOL_KW] in
  if m then var_declaration fuel p else statement fuel p.

(** *** Main parser function *)

(** The [statements] array: [None] when its allocation failed; storing
    through [NULL] or past its 1000 slots is undefined behaviour. *)
Definition store_statement (statements : option (list ASTNode)) (decl : ASTNode)
  : result (option (list ASTNode)) :=
  match statements with
  | None => Crash
  | Some l => if (1000 <=? List.length l)%nat then Crash else Done (Some (l ++ [decl]))
  end.

Fixpoint parse_loop (fuel : nat) (p : Parser) (statements : option (list ASTNode))
  : result (option (list ASTNode) * Parser) :=
  match fuel with
  | O => OutOfFuel
  | S fuel' =>
      if negb (check p TOKEN_EOF) && negb (had_error p) then
        let '(m, p) := match_ p TOKEN_NEWLINE in
        if m then parse_loop fuel' p statements
        else
          '(decl, p) <- declaration fuel p ;;
          ' statements <- match decl with
                          | Some d => store_statement statements d
                          | None => Done statements
                          end ;;
          let p := if panic_mode p then synchronize p else p in
          parse_loop fuel' p statements
      else Done (statements, p)
  end.

Definition parser_parse (fuel : nat) (p : Parser) : parsed :=
  match ast_allocate p AST_PROGRAM with
  | (None, p) => Done (None, p)
  | (Some pos, p) =>
      let '(statements, p) :=
        match arena_alloc (arena_used p) (sizeof_pointer * 1000) with
        | Some used => (Some [], set_arena_used used p)
        | None => (None, p)
        end in
      '(statements, p) <- parse_loop fuel p statements ;;
      Done (Some (Program pos (match statements with Some l => l | None => [] end)), p)
  end.

Definition parser_has_error (p : Parser) : bool := had_error p.

Definition parser_get_error (p : Parser) : string := error_message p.

Definition parser_get_nodes_created (p : Parser) : Z := nodes_created p.

End Parse.

(** ** codegen.h, codegen.c *)

Module Gen.

Import Parse.

Inductive OutputFormat : Set :=
  | OUTPUT_C | OUTPUT_JAVASCRIPT | OUTPUT_PYTHON | OUTPUT_BYTECODE.

(** What [fprintf] wrote: text, or a double printed with [%g], kept as the
    text it was decoded from. *)
Inductive written : Set :=
  | text (s : string)
  | double_g (strtod_of : string).

Record CodeGenerator : Set := mkCodeGenerator {
  output_file : list written;
  format : OutputFormat;
  indent_level : Z;
  had_error : bool;
  error_message : string;
  lines_generated : Z;
  variables_declared : Z;
  functions_generated : Z
}.

(** [codegen_create] once [fopen] has succeeded. *)
Definition codegen_create (format : OutputFormat) : CodeGenerator :=
  {| output_file := []; format := format; indent_level := 0;
     had_error := false; error_message := EmptyString;
     lines_generated := 0; variables_declared := 0; functions_generated := 0 |}.

Definition fprintf (cg : CodeGenerator) (w : written) : CodeGenerator :=
  mkCodeGenerator (output_file cg ++ [w]) (format cg) (indent_level cg) (had_error cg)
                  (error_message cg) (lines_generated cg) (variables_declared cg)
                  (functions_generated cg).

Definition set_indent_level (n : Z) (cg : CodeGenerator) : CodeGenerator :=
  mkCodeGenerator (output_file cg) (format cg) n (had_error cg)
                  (error_message cg) (lines_generated cg) (variables_declared cg)
                  (functions_generated cg).

Definition count_line (cg : CodeGenerator) : CodeGenerator :=
  mkCodeGenerator (output_file cg) (format cg) (indent_level cg) (had_error cg)
                  (error_message cg) (to_int (lines_generated cg + 1))
                  (variables_declared cg) (functions_generated cg).

Definition count_variable (cg : CodeGenerator) : CodeGenerator :=
  mkCodeGenerator (output_file cg) (format cg) (indent_level cg) (had_error cg)
                  (error_message cg) (lines_generated cg)
                  (to_int (variables_declared cg + 1)) (functions_generated cg).

Definition emit_indent (cg : CodeGenerator) : CodeGenerator :=
  fold_left (fun cg _ => fprintf cg (text "    "))
            (repeat tt (Z.to_nat (indent_level cg))) cg.

Definition emit_line (cg : CodeGenerator) (line : string) : CodeGenerator :=
  count_line (fprintf (emit_indent cg) (text (line ++ String NL EmptyString))).

Definition codegen_error (cg : CodeGenerator) (message : string) : CodeGenerator :=
  mkCodeGenerator (output_file cg) (format cg) (indent_level cg) true
                  (strncpy message 255) (lines_generated cg) (variables_declared cg)
                  (functions_generated cg).

(** *** C code generation *)

Definition generate_c_literal (cg : CodeGenerator) (token_type : TokenType)
           (value : LiteralValue) : result CodeGenerator :=
  match token_type with
  | TOKEN_INTEGER =>
      match value with
      | lit_int_value v => Done (fprintf cg (text (format_d v)))
      | _ => Crash
      end
  | TOKEN_FLOAT =>
      match value with
      | lit_float_value t => Done (fprintf cg (double_g t))
      | _ => Crash
      end
  | TOKEN_STRING =>
      match value with
      | lit_string_value s =>
          Done (fprintf cg (text (String DQUOTE s ++ String DQUOTE EmptyString)))
      | _ => Crash
      end
  | TOKEN_TRUE => Done (fprintf cg (text "true"))
  | TOKEN_FALSE => Done (fprintf cg (text "false"))
  | TOKEN_NULL => Done (fprintf cg (text "NULL"))
  | _ => Done (codegen_error cg "Unknown literal type")
  end.

Definition generate_c_identifier (cg : CodeGenerator) (name : option string)
  : result CodeGenerator :=
  match name with
  | Some s => Done (fprintf cg (text s))
  | None => Crash
  end.

Definition binary_operator (cg : CodeGenerator) (operator : TokenType) : CodeGenerator :=
  match operator with
  | TOKEN_PLUS => fprintf cg (text " + ")
  | TOKEN_MINUS => fprintf cg (text " - ")
  | TOKEN_MULTIPLY => fprintf cg (text " * ")
  | TOKEN_DIVIDE => fprintf cg (text " / ")
  | TOKEN_MODULO => fprintf cg (text " % ")
  | TOKEN_EQUAL => fprintf cg (text " == ")
  | TOKEN_NOT_EQUAL => fprintf cg (text " != ")
  | TOKEN_LESS => fprintf cg (text " < ")
  | TOKEN_LESS_EQUAL => fprintf cg (text " <= ")
  | TOKEN_GREATER => fprintf cg (text " > ")
  | TOKEN_GREATER_EQUAL => fprintf cg (text " >= ")
  | TOKEN_AND => fprintf cg (text " && ")
  | TOKEN_OR => fprintf cg (text " || ")
  | TOKEN_ASSIGN => fprintf cg (text " = ")
  | _ => codegen_error cg "Unknown binary operator"
  end.

(** [generate_c_expression] on a node that is not [NULL], with
    [generate_c_binary] unfolded in its [AST_BINARY]/[AST_ASSIGNMENT] case. *)
Fixpoint generate_c_node (cg : CodeGenerator) (node : ASTNode) {struct node}
  : result CodeGenerator :=
  let generate_c_expression cg (node : option ASTNode) :=
    match node with
    | None => Done cg
    | Some n => generate_c_node cg n
    end in
  match node with
  | Literal _ token_type value => generate_c_literal cg token_type value
  | Identifier _ name => generate_c_identifier cg name
  | Binary _ lhs operator rhs | Assignment _ lhs operator rhs =>
      ' cg <- generate_c_expression (fprintf cg (text "(")) lhs ;;
      ' cg <- generate_c_expression (binary_operator cg operator) rhs ;;
      Done (fprintf cg (text ")"))
  | _ => Done (codegen_error cg "Unknown expression type")
  end.

Definition generate_c_expression (cg : CodeGenerator) (node : option ASTNode)
  : result CodeGenerator :=
  match node with
  | None => Done cg
  | Some n => generate_c_node cg n
  end.

Definition c_type (type : TokenType) : string :=
  match type with
  | TOKEN_INT => "int "
  | TOKEN_FLOAT_KW => "double "
  | TOKEN_STRING_KW => "char* "
  | TOKEN_BOOL_KW => "bool "
  | _ => "int "
  end.

Definition generate_c_var_declaration (cg : CodeGenerator) (type : TokenType)
           (name : option string) (initializer : option ASTNode) : result CodeGenerator :=
  let cg := fprintf (emit_indent cg) (text (c_type type)) in
  ' cg <- generate_c_identifier cg name ;;
  ' cg <- match initializer with
          | Some _ => generate_c_expression (fprintf cg (text " = ")) initializer
          | None => Done cg
          end ;;
  Done (count_variable (count_line (fprintf cg (text (";" ++ String NL EmptyString))))).

Definition generate_c_statement (cg : CodeGenerator) (node : option ASTNode)
  : result CodeGenerator :=
  match node with
  | None => Done cg
  | Some (VarDeclaration _ type name initializer) =>
      generate_c_var_declaration cg type name initializer
  | Some (ExpressionStmt _ expr) =>
      ' cg <- generate_c_expression (emit_indent cg) expr ;;
      Done (count_line (fprintf cg (text (";" ++ String NL EmptyString))))
  | Some (ReturnStmt _ value) =>
      let cg := fprintf (emit_indent cg) (text "return") in
      ' cg <- match value with
              | Some _ => generate_c_expression (fprintf cg (text " ")) value
              | None => Done cg
              end ;;
      Done (count_line (fprintf cg (text (";" ++ String NL EmptyString))))
  | Some _ => Done (codegen_error cg "Unknown statement type")
  end.

Fixpoint generate_statements (cg : CodeGenerator) (statements : list ASTNode)
  : result CodeGenerator :=
  match statements with
  | [] => Done cg
  | s :: rest => ' cg <- generate_c_statement cg (Some s) ;; generate_statements cg rest
  end.

(** Reading the [program] member of a node of another kind is undefined. *)
Definition generate_c_program (cg : CodeGenerator) (node : ASTNode) : result CodeGenerator :=
  match node with
  | Program _ statements =>
      let cg := emit_line cg "#include <stdio.h>" in
      let cg := emit_line cg "#include <stdlib.h>" in
      let cg := emit_line cg "#include <stdbool.h>" in
      let cg := emit_line cg "#include <string.h>" in
      let cg := emit_line cg EmptyString in
      let cg := emit_line cg "int main() {" in
      let cg := set_indent_level (to_int (indent_level cg + 1)) cg in
      ' cg <- generate_statements cg statements ;;
      let cg := emit_line cg "return 0;" in
      let cg := set_indent_level (to_int (indent_level cg - 1)) cg in
      Done (emit_line cg "}")
  | _ => Crash
  end.

(** *** Main code generation function *)

Definition codegen_generate (codegen : option CodeGenerator) (ast : option ASTNode)
  : result (bool * option CodeGenerator) :=
  match codegen, ast with
  | Some cg, Some ast =>
      match format cg with
      | OUTPUT_C =>
          ' cg <- generate_c_program cg ast ;;
          Done (negb (had_error cg), Some cg)
      | OUTPUT_JAVASCRIPT =>
          Done (false, Some (codegen_error cg "JavaScript output not implemented yet"))
      | OUTPUT_PYTHON =>
          Done (false, Some (codegen_error cg "Python output not implemented yet"))
      | OUTPUT_BYTECODE =>
          Done (false, Some (codegen_error cg "Bytecode output not implemented yet"))
      end
  | _, _ => Done (false, codegen)
  end.

Definition codegen_has_error (cg : CodeGenerator) : bool := had_error cg.

Definition codegen_get_error (cg : CodeGenerator) : string := error_message cg.

End Gen.

(** ** token.c *)

Definition token_type_to_string (type : TokenType) : string :=
  match type with
  | TOKEN_INTEGER => "INTEGER"
  | TOKEN_FLOAT => "FLOAT"
  | TOKEN_STRING => "STRING"
  | TOKEN_CHAR => "CHAR"
  | TOKEN_IDENTIFIER => "IDENTIFIER"
  | TOKEN_INT => "INT"
  | TOKEN_FLOAT_KW => "FLOAT_KW"
  | TOKEN_STRING_KW => "STRING_KW"
  | TOKEN_BOOL_KW => "BOOL_KW"
  | TOKEN_CHAR_KW => "CHAR_KW"
  | TOKEN_VOID_KW => "VOID_KW"
  | TOKEN_IF => "IF"
  | TOKEN_ELSE => "ELSE"
  | TOKEN_WHILE => "WHILE"
  | TOKEN_FOR => "FOR"
  | TOKEN_DO => "DO"
  | TOKEN_SWITCH => "SWITCH"
  | TOKEN_CASE => "CASE"
  | TOKEN_DEFAULT => "DEFAULT"
  | TOKEN_BREAK => "BREAK"
  | TOKEN_CONTINUE => "CONTINUE"
  | TOKEN_RETURN => "RETURN"
  | TOKEN_FUNCTION => "FUNCTION"
  | TOKEN_VAR => "VAR"
  | TOKEN_CONST => "CONST"
  | TOKEN_CLASS => "CLASS"
  | TOKEN_STRUCT => "STRUCT"
  | TOKEN_ENUM => "ENUM"
  | TOKEN_INTERFACE => "INTERFACE"
  | TOKEN_IMPLEMENTS => "IMPLEMENTS"
  | TOKEN_EXTENDS => "EXTENDS"
  | TOKEN_PUBLIC => "PUBLIC"
  | TOKEN_PRIVATE => "PRIVATE"
  | TOKEN_PROTECTED => "PROTECTED"
  | TOKEN_STATIC => "STATIC"
  | TOKEN_FINAL => "FINAL"
  | TOKEN_ABSTRACT => "ABSTRACT"
  | TOKEN_VIRTUAL => "VIRTUAL"
  | TOKEN_OVERRIDE => "OVERRIDE"
  | TOKEN_TRY => "TRY"
  | TOKEN_CATCH => "CATCH"
  | TOKEN_FINALLY => "FINALLY"
  | TOKEN_THROW => "THROW"
  | TOKEN_IMPORT => "IMPORT"
  | TOKEN_EXPORT => "EXPORT"
  | TOKEN_MODULE => "MODULE"
  | TOKEN_NAMESPACE => "NAMESPACE"
  | TOKEN_TRUE => "TRUE"
  | TOKEN_FALSE => "FALSE"
  | TOKEN_NULL => "NULL"
  | TOKEN_UNDEFINED => "UNDEFINED"
  | TOKEN_PLUS => "PLUS"
  | TOKEN_MINUS => "MINUS"
  | TOKEN_MULTIPLY => "MULTIPLY"
  | TOKEN_DIVIDE => "DIVIDE"
  | TOKEN_MODULO => "MODULO"
  | TOKEN_POWER => "POWER"
  | TOKEN_INCREMENT => "INCREMENT"
  | TOKEN_DECREMENT => "DECREMENT"
  | TOKEN_ASSIGN => "ASSIGN"
  | TOKEN_PLUS_ASSIGN => "PLUS_ASSIGN"
  | TOKEN_MINUS_ASSIGN => "MINUS_ASSIGN"
  | TOKEN_MULTIPLY_ASSIGN => "MULTIPLY_ASSIGN"
  | TOKEN_DIVIDE_ASSIGN => "DIVIDE_ASSIGN"
  | TOKEN_MODULO_ASSIGN => "MODULO_ASSIGN"
  | TOKEN_POWER_ASSIGN => "POWER_ASSIGN"
  | TOKEN_EQUAL => "EQUAL"
  | TOKEN_NOT_EQUAL => "NOT_EQUAL"
  | TOKEN_STRICT_EQUAL => "STRICT_EQUAL"
  | TOKEN_LESS => "LESS"
  | TOKEN_LESS_EQUAL => "LESS_EQUAL"
  | TOKEN_GREATER => "GREATER"
  | TOKEN_GREATER_EQUAL => "GREATER_EQUAL"
  | TOKEN_AND => "AND"
  | TOKEN_OR => "OR"
  | TOKEN_NOT => "NOT"
  | TOKEN_BITWISE_AND => "BITWISE_AND"
  | TOKEN_BITWISE_OR => "BITWISE_OR"
  | TOKEN_XOR => "XOR"
  | TOKEN_TILDE => "TILDE"
  | TOKEN_LSHIFT => "LSHIFT"
  | TOKEN_RSHIFT => "RSHIFT"
  | TOKEN_AND_ASSIGN => "AND_ASSIGN"
  | TOKEN_OR_ASSIGN => "OR_ASSIGN"
  | TOKEN_XOR_ASSIGN => "XOR_ASSIGN"
  | TOKEN_LSHIFT_ASSIGN => "LSHIFT_ASSIGN"
  | TOKEN_RSHIFT_ASSIGN => "RSHIFT_ASSIGN"
  | TOKEN_LPAREN => "LPAREN"
  | TOKEN_RPAREN => "RPAREN"
  | TOKEN_LBRACE => "LBRACE"
  | TOKEN_RBRACE => "RBRACE"
  | TOKEN_LBRACKET => "LBRACKET"
  | TOKEN_RBRACKET => "RBRACKET"
  | TOKEN_SEMICOLON => "SEMICOLON"
  | TOKEN_COMMA => "COMMA"
  | TOKEN_DOT => "DOT"
  | TOKEN_COLON => "COLON"
  | TOKEN_SCOPE => "SCOPE"
  | TOKEN_ARROW => "ARROW"
  | TOKEN_QUESTION => "QUESTION"
  | TOKEN_ELLIPSIS => "ELLIPSIS"
  | TOKEN_HASH => "HASH"
  | TOKEN_NEWLINE => "NEWLINE"
  | TOKEN_EOF => "EOF"
  | TOKEN_ERROR => "ERROR"
  | _ => "UNKNOWN"
  end%string.

(** ** lexer.c: the string pool *)

Module Pool.

Import Parse.

(** The pool part of [Lexer]: [string_pool] is the memory the pointer of
    that name refers to. *)
Record Lexer : Set := mkLexer {
  string_pool : string;
  string_pool_used : Z;
  string_pool_size : Z
}.

(** [memcpy(dst + offset, bytes, strlen bytes)] inside [dst]. *)
Definition store (dst : string) (offset : nat) (bytes : string) : string :=
  (string_take offset dst ++ bytes
   ++ string_drop (offset + String.length bytes) dst)%string.

(** [lexer_intern_string] on a lexer that is not [NULL]; [str] is the object
    the argument points to ([None] for [NULL]) and the result the offset of
    [interned] in the pool.  A copy that reads past [str] or writes past the
    pool is undefined. *)
Definition lexer_intern_string (lexer : Lexer) (str : option string) (length : Z)
  : result (option nat * Lexer) :=
  match str with
  | None => Done (None, lexer)
  | Some bytes =>
      if length =? 0 then Done (None, lexer)
      else if string_pool_size lexer <? to_size_t (string_pool_used lexer + length + 1)
      then Done (None, lexer)
      else if (Z.of_nat (String.length bytes) <? length)
              || (Z.of_nat (String.length (string_pool lexer))
                  <? string_pool_used lexer + length + 1)
      then Crash
      else
        let interned := Z.to_nat (string_pool_used lexer) in
        Done (Some interned,
              mkLexer (store (string_pool lexer) interned
                             (string_take (Z.to_nat length) bytes
                              ++ String NUL EmptyString))
                      (to_size_t (string_pool_used lexer + length + 1))
                      (string_pool_size lexer))
  end.

End Pool.

(** ** lexer.c: backtracking *)

(** [lexer_reset_position] on a lexer that is not [NULL]: the cursor and the
    start of the token are moved, the position is not. *)
Definition lexer_reset_position (lexer : Lex.Lexer) (position : option nat) : Lex.Lexer :=
  match position with
  | None => lexer
  | Some n => Lex.set_start n (Lex.set_current n lexer)
  end.

(** ** Vocabulary of the statements *)

(** Bytes between the cursor and the end of the buffer. *)
Definition remaining (l : Lex.Lexer) : nat :=
  String.length (Lex.source l) - Lex.current l.

(** [l'] works on the buffer and keyword table of [l], no earlier in it. *)
Definition follows (l l' : Lex.Lexer) : Prop :=
  Lex.source l' = Lex.source l /\ Lex.keywords l' = Lex.keywords l
  /\ (Lex.current l <= Lex.current l')%nat.

(** The token the [k]-th next call returns (counting from 0). *)
Definition nth_token (k : nat) (l : Lex.Lexer) : Token :=
  fst (Lex.lexer_next_token (snd (Lex.tokens k l))).

(** A cursor function commutes with a change of [error_message]. *)
Definition msg_blind (f : Lex.Lexer -> Lex.Lexer) : Prop :=
  forall m l, f (Lex.set_error_message m l) = Lex.set_error_message m (f l).

(** The keyword table names neither the end-of-input nor the error token. *)
Definition keywords_sane (l : Lex.Lexer) : Prop :=
  Forall (fun k : string * TokenType => snd k <> TOKEN_EOF /\ snd k <> TOKEN_ERROR)
         (Lex.keywords l).

(** The messages of the lexer. *)
Definition lexical_errors : list string :=
  ["Unterminated string"; "Invalid token '..'"; "Unterminated character literal";
   "Unexpected character"]%string.

(** A scanning function: it either overwrites [error_message] or leaves it
    alone, it moves the cursor forward only, the token it makes is not the
    end-of-input token, and an error token comes with the flag set and one
    of the lexer's messages. *)
Definition token_fn (f : Lex.Lexer -> Token * Lex.Lexer) : Prop :=
  forall l,
    (forall m, f (Lex.set_error_message m l) = f l
               \/ f (Lex.set_error_message m l)
                  = (fst (f l), Lex.set_error_message m (snd (f l))))
    /\ follows l (snd (f l))
    /\ (keywords_sane l ->
        tok_type (fst (f l)) <> TOKEN_EOF
        /\ (tok_type (fst (f l)) = TOKEN_ERROR ->
            Lex.has_error (snd (f l)) = true
            /\ In (Lex.error_message (snd (f l))) lexical_errors)).

(** [parser_parse] on a fresh parser for [src]. *)
Definition parse (fuel : nat) (src fname : string) (uninit : Token) : Parse.parsed :=
  Parse.parser_parse fuel (Parse.parser_create (Lex.lexer_create src fname) uninit).

(** [g] returns what [f] returns wherever [f] does not run out of fuel. *)
Definition settles {A B : Type} (f g : A -> Parse.result B) : Prop :=
  forall a, f a <> Parse.OutOfFuel -> g a = f a.

Definition nowhere : Position := mkPosition 0 0 EmptyString.

(** A tree without its source positions. *)
Fixpoint strip (n : Parse.ASTNode) : Parse.ASTNode :=
  match n with
  | Parse.Literal _ t v => Parse.Literal nowhere t v
  | Parse.Identifier _ name => Parse.Identifier nowhere name
  | Parse.Binary _ l op r =>
      Parse.Binary nowhere (option_map strip l) op (option_map strip r)
  | Parse.Unary _ op e => Parse.Unary nowhere op (option_map strip e)
  | Parse.Assignment _ l op r =>
      Parse.Assignment nowhere (option_map strip l) op (option_map strip r)
  | Parse.ExpressionStmt _ e => Parse.ExpressionStmt nowhere (option_map strip e)
  | Parse.VarDeclaration _ t name i =>
      Parse.VarDeclaration nowhere t name (option_map strip i)
  | Parse.ReturnStmt _ v => Parse.ReturnStmt nowhere (option_map strip v)
  | Parse.Program _ ss => Parse.Program nowhere (map strip ss)
  end.

(** The tree of a parse that returned without a parse error. *)
Definition clean_tree (r : Parse.parsed) : option Parse.ASTNode :=
  match r with
  | Parse.Done (Some ast, p) =>
      if Parse.had_error p then None else Some (strip ast)
  | _ => None
  end.

(** The binary operators with their spelling and the level the
    specification's table gives them (a higher level binds tighter). *)
Definition binary_operators : list (TokenType * string * nat) :=
  [(TOKEN_OR, "||", 2); (TOKEN_AND, "&&", 3);
   (TOKEN_EQUAL, "==", 4); (TOKEN_NOT_EQUAL, "!=", 4);
   (TOKEN_LESS, "<", 5); (TOKEN_LESS_EQUAL, "<=", 5);
   (TOKEN_GREATER, ">", 5); (TOKEN_GREATER_EQUAL, ">=", 5);
   (TOKEN_PLUS, "+", 6); (TOKEN_MINUS, "-", 6);
   (TOKEN_MULTIPLY, "*", 7); (TOKEN_DIVIDE, "/", 7); (TOKEN_MODULO, "%", 7)]%string%nat.

Definition literal (v : Z) : option Parse.ASTNode :=
  Some (Parse.Literal nowhere TOKEN_INTEGER (Parse.lit_int_value v)).

Definition binary (l : option Parse.ASTNode) (op : TokenType) (r : option Parse.ASTNode)
  : option Parse.ASTNode :=
  Some (Parse.Binary nowhere l op r).

(** The statement [1 a 2 b 3;] and the tree the table asks for: the
    operator of the higher level takes its operands first, operators of one
    level group to the left. *)
Definition two_operators (a b : TokenType * string * nat) : string :=
  ("1 " ++ snd (fst a) ++ " 2 " ++ snd (fst b) ++ " 3;")%string.

Definition grouped (a b : TokenType * string * nat) : Parse.ASTNode :=
  Parse.Program nowhere
    [Parse.ExpressionStmt nowhere
       (if (snd b <=? snd a)%nat
        then binary (binary (literal 1) (fst (fst a)) (literal 2)) (fst (fst b)) (literal 3)
        else binary (literal 1) (fst (fst a)) (binary (literal 2) (fst (fst b)) (literal 3)))].

(** What is found in [previous] when [malloc] hands out zeroed memory. *)
Definition zero_token : Token := mkToken TOKEN_INTEGER 0 0 nowhere value_unset.

Fixpoint contains (needle hay : string) : bool :=
  String.prefix needle hay
  || match hay with
     | EmptyString => false
     | String _ rest => contains needle rest
     end.

(** Kind, lexeme length and value of a token. *)
Definition summary (t : Token) : TokenType * Z * TokenValue :=
  (tok_type t, tok_length t, tok_value t).

(** A fresh generator for [format] run on the tree of a parse: what
    [codegen_generate] returns and the generator's error flag and message. *)
Definition emitted (format : Gen.OutputFormat) (r : Parse.parsed)
  : option (bool * bool * string) :=
  match r with
  | Parse.Done (ast, p) =>
      if Parse.had_error p then None
      else match Gen.codegen_generate (Some (Gen.codegen_create format)) ast with
           | Parse.Done (ok, Some cg) =>
               Some (ok, Gen.codegen_has_error cg, Gen.codegen_get_error cg)
           | _ => None
           end
  | _ => None
  end.

(** *** Cursor movement *)

(** The position after one byte [c]: the rule of [advance]. *)
Definition step_pos (c : ascii) (p : Position) : Position :=
  if (c =? NL)%char then mkPosition (to_int (line p + 1)) 1 (filename p)
  else mkPosition (line p) (to_int (column p + 1)) (filename p).

(** The position after the [n] bytes of [s] from offset [i], from [p]. *)
Fixpoint walk (s : string) (i n : nat) (p : Position) : Position :=
  match n with
  | O => p
  | S n' => walk s (S i) n' (step_pos (char_at s i) p)
  end.

(** [l'] is [l] but for its cursor and position. *)
Definition same_but_cursor (l l' : Lex.Lexer) : Prop :=
  Lex.source l' = Lex.source l /\ Lex.start l' = Lex.start l
  /\ Lex.keywords l' = Lex.keywords l /\ Lex.has_error l' = Lex.has_error l
  /\ Lex.error_message l' = Lex.error_message l
  /\ Lex.tokens_processed l' = Lex.tokens_processed l.

(** [l'] is [l] with the cursor moved forward over bytes that are not the
    terminator, and the position moved over the same bytes. *)
Definition steps (l l' : Lex.Lexer) : Prop :=
  same_but_cursor l l'
  /\ (Lex.current l <= Lex.current l')%nat
  /\ (forall j, (Lex.current l <= j < Lex.current l')%nat ->
                char_at (Lex.source l) j <> NUL)
  /\ Lex.pos l' = walk (Lex.source l) (Lex.current l)
                       (Lex.current l' - Lex.current l) (Lex.pos l).

(** What a scanning function returns from [l]: after some steps, a token
    made by [make_token] (perhaps with a value), of another kind than
    [ERROR] unless the keyword table says so, or an error token with one of
    the lexer's messages. *)
Definition outcome (l : Lex.Lexer) (r : Token * Lex.Lexer) : Prop :=
  exists l1, steps l l1
    /\ ((exists type v, r = (Lex.with_value v (Lex.make_token l1 type), l1)
                         /\ (keywords_sane l -> type <> TOKEN_ERROR))
        \/ (exists message, In (strncpy message 255) lexical_errors
                            /\ r = Lex.error_token l1 message)).

Definition shaped (f : Lex.Lexer -> Token * Lex.Lexer) : Prop :=
  forall l, outcome l (f l).

(** A byte that [skip_whitespace] skips, and the start of a comment. *)
Definition blank (c : ascii) : bool := ((c =? " ") || (c =? CR) || (c =? TAB))%char.

Definition starts_comment (l : Lex.Lexer) : bool :=
  ((Lex.peek l =? "/") && ((Lex.peek_next l =? "/") || (Lex.peek_next l =? "*")))%char.

(** [skipped s a b]: the bytes of [s] from offset [a] up to [b] are blanks
    and comments as [skip_whitespace] passes over them: a blank; a line
    comment, from its [//] up to the line feed or the end of input, which
    stays; a block comment, from its [/*] up to and with the first [*/]
    after it; a block comment that nothing closes, up to the end of input. *)
Inductive skipped (s : string) : nat -> nat -> Prop :=
  | skipped_none (a : nat) : skipped s a a
  | skipped_blank (a b : nat) :
      blank (char_at s a) = true -> skipped s (S a) b -> skipped s a b
  | skipped_line (a e b : nat) :
      char_at s a = "/"%char -> char_at s (S a) = "/"%char ->
      (a <= e)%nat ->
      (forall i, (a <= i < e)%nat -> char_at s i <> NL /\ char_at s i <> NUL) ->
      char_at s e = NL \/ char_at s e = NUL ->
      skipped s e b -> skipped s a b
  | skipped_block (a i b : nat) :
      char_at s a = "/"%char -> char_at s (S a) = "*"%char ->
      (a + 2 <= i)%nat ->
      (forall j, (a + 2 <= j < i)%nat ->
                 char_at s j <> NUL
                 /\ ~ (char_at s j = "*"%char /\ char_at s (S j) = "/"%char)) ->
      char_at s i = "*"%char -> char_at s (S i) = "/"%char ->
      skipped s (i + 2) b -> skipped s a b
  | skipped_open (a e b : nat) :
      char_at s a = "/"%char -> char_at s (S a) = "*"%char ->
      (a + 2 <= e)%nat ->
      (forall j, (a + 2 <= j < e)%nat ->
                 char_at s j <> NUL
                 /\ ~ (char_at s j = "*"%char /\ char_at s (S j) = "/"%char)) ->
      char_at s e = NUL ->
      skipped s e b -> skipped s a b.

(** Offset [b] of [s] is the end of input or a byte that is neither a blank
    nor the start of a comment. *)
Definition stops_at (s : string) (b : nat) : Prop :=
  char_at s b = NUL
  \/ (blank (char_at s b) = false
      /\ ~ (char_at s b = "/"%char
            /\ (char_at s (S b) = "/"%char \/ char_at s (S b) = "*"%char))).

(** A byte of an identifier; a word the lexer reads as one identifier or
    keyword; a text that does not go on as an identifier. *)
Definition word_char (c : ascii) : bool := isalnum c || (c =? "_")%char.

Fixpoint all_chars (f : ascii -> bool) (s : string) : bool :=
  match s with
  | EmptyString => true
  | String c r => f c && all_chars f r
  end.

Definition is_word (w : string) : bool :=
  match w with
  | EmptyString => false
  | String c r => (isalpha c || (c =? "_")%char) && all_chars word_char r
  end.

Definition first_char (f : ascii -> bool) (s : string) : bool :=
  match s with
  | EmptyString => false
  | String c _ => f c
  end.

(** The kind the table gives a word: that of its first entry spelled like
    the word, else [IDENTIFIER]. *)
Definition lookup (table : list (string * TokenType)) (w : string) : TokenType :=
  match find (fun k => String.eqb w (fst k)) table with
  | Some k => snd k
  | None => TOKEN_IDENTIFIER
  end.

(** A byte after which a run of decimal digits is a complete integer
    literal: no digit, no [.], no exponent or prefix letter. *)
Definition ends_integer (c : ascii) : bool :=
  negb (isdigit c
        || ((c =? ".") || (c =? "e") || (c =? "E") || (c =? "x") || (c =? "X")
            || (c =? "b") || (c =? "B") || (c =? "o") || (c =? "O"))%char).

(** [z] fits an [int]. *)
Definition int_range (z : Z) : Prop := -2147483648 <= z < 2147483648.

(** *** What the C emitter accepts *)

(** A literal with a case in [generate_c_literal] and the member of the
    value union that case reads. *)
Definition c_literal (t : TokenType) (v : Parse.LiteralValue) : bool :=
  match t, v with
  | TOKEN_INTEGER, Parse.lit_int_value _ => true
  | TOKEN_FLOAT, Parse.lit_float_value _ => true
  | TOKEN_STRING, Parse.lit_string_value _ => true
  | TOKEN_TRUE, _ | TOKEN_FALSE, _ | TOKEN_NULL, _ => true
  | _, _ => false
  end.

(** An operator with a case in [generate_c_binary]. *)
Definition c_operator (op : TokenType) : bool :=
  match op with
  | TOKEN_PLUS | TOKEN_MINUS | TOKEN_MULTIPLY | TOKEN_DIVIDE | TOKEN_MODULO
  | TOKEN_EQUAL | TOKEN_NOT_EQUAL | TOKEN_LESS | TOKEN_LESS_EQUAL
  | TOKEN_GREATER | TOKEN_GREATER_EQUAL | TOKEN_AND | TOKEN_OR | TOKEN_ASSIGN => true
  | _ => false
  end.

(** An expression made of such literals, named identifiers and such
    operators; a child may be missing. *)
Fixpoint c_expression (n : Parse.ASTNode) : bool :=
  let child (c : option Parse.ASTNode) :=
    match c with
    | None => true
    | Some e => c_expression e
    end in
  match n with
  | Parse.Literal _ t v => c_literal t v
  | Parse.Identifier _ (Some _) => true
  | Parse.Binary _ l op r | Parse.Assignment _ l op r =>
      c_operator op && child l && child r
  | _ => false
  end.

Definition c_child (c : option Parse.ASTNode) : bool :=
  match c with
  | None => true
  | Some e => c_expression e
  end.

(** The three kinds of statement. *)
Definition is_statement (n : Parse.ASTNode) : bool :=
  match n with
  | Parse.VarDeclaration _ _ _ _ | Parse.ExpressionStmt _ _ | Parse.ReturnStmt _ _ => true
  | _ => false
  end.

Definition is_var_declaration (n : Parse.ASTNode) : bool :=
  match n with
  | Parse.VarDeclaration _ _ _ _ => true
  | _ => false
  end.

Definition c_statement (n : Parse.ASTNode) : bool :=
  match n with
  | Parse.VarDeclaration _ _ (Some _) init => c_child init
  | Parse.ExpressionStmt _ e => c_child e
  | Parse.ReturnStmt _ v => c_child v
  | _ => false
  end.


(** [cg'] is [cg] after an expression was written: output was appended, the
    counters stand, an error stays. *)
Definition emits (cg cg' : Gen.CodeGenerator) : Prop :=
  (exists out, Gen.output_file cg' = Gen.output_file cg ++ out)
  /\ Gen.format cg' = Gen.format cg
  /\ Gen.indent_level cg' = Gen.indent_level cg
  /\ Gen.lines_generated cg' = Gen.lines_generated cg
  /\ Gen.variables_declared cg' = Gen.variables_declared cg
  /\ Gen.functions_generated cg' = Gen.functions_generated cg
  /\ (Gen.had_error cg = true -> Gen.had_error cg' = true).

(** [cg'] is [cg] after [n] lines and [v] declarations were written. *)
Definition writes (n v : Z) (cg cg' : Gen.CodeGenerator) : Prop :=
  (exists out, Gen.output_file cg' = Gen.output_file cg ++ out)
  /\ Gen.format cg' = Gen.format cg
  /\ Gen.functions_generated cg' = Gen.functions_generated cg
  /\ Gen.lines_generated cg' = to_int (Gen.lines_generated cg + n)
  /\ Gen.variables_declared cg' = to_int (Gen.variables_declared cg + v)
  /\ (Gen.had_error cg = true -> Gen.had_error cg' = true).

(** The statements among the elements of a program, and the declarations. *)
Definition count (f : Parse.ASTNode -> bool) (statements : list Parse.ASTNode) : Z :=
  Z.of_nat (List.length (filter f statements)).

(** [cg'] is [cg] with output appended and no error cleared. *)
Definition grows (cg cg' : Gen.CodeGenerator) : Prop :=
  (exists out, Gen.output_file cg' = Gen.output_file cg ++ out)
  /\ Gen.format cg' = Gen.format cg
  /\ (Gen.had_error cg = true -> Gen.had_error cg' = true).

(** *** The parser's progress *)

Definition at_eof (p : Parse.Parser) : bool :=
  TokenType_eqb (tok_type (Parse.current p)) TOKEN_EOF.

(** What the parser has not read yet: nothing at the end-of-input token,
    else the current token and the bytes left to the lexer. *)
Definition left_to_read (p : Parse.Parser) : nat :=
  if at_eof p then 0%nat else S (remaining (Parse.lexer p)).

(** What the parser keeps true of its state: a sane keyword table, panic
    mode only after an error, an arena in its bounds. *)
Definition parser_ok (p : Parse.Parser) : Prop :=
  keywords_sane (Parse.lexer p)
  /\ (Parse.panic_mode p = true -> Parse.had_error p = true)
  /\ 0 <= Parse.arena_used p <= Parse.ARENA_SIZE.

(** [p'] is [p] further on in the same source, with no error forgotten. *)
Definition reads (p p' : Parse.Parser) : Prop :=
  parser_ok p'
  /\ (left_to_read p' <= left_to_read p)%nat
  /\ Lex.source (Parse.lexer p') = Lex.source (Parse.lexer p)
  /\ (Parse.had_error p = true -> Parse.had_error p' = true).

(** ... and a token was read or an error recorded. *)
Definition progress (p p' : Parse.Parser) : Prop :=
  reads p p'
  /\ ((left_to_read p' < left_to_read p)%nat \/ Parse.had_error p' = true).

(** The call returned (or its behaviour is undefined), and [Q] holds of what
    it returned. *)
Definition returns (Q : option Parse.ASTNode -> Parse.Parser -> Prop)
           (r : Parse.parsed) : Prop :=
  match r with
  | Parse.Done (n, p') => Q n p'
  | Parse.Crash => True
  | Parse.OutOfFuel => False
  end.

(** [e] returns, with progress, from every state with less than [n] to
    read. *)
Definition good_below (n : nat) (e : Parse.Parser -> Parse.parsed) : Prop :=
  forall q, parser_ok q -> (left_to_read q < n)%nat ->
            returns (fun _ q' => progress q q') (e q).

(** [p'] is [p] but for the arena and the count of nodes. *)
Definition same_but_arena (p p' : Parse.Parser) : Prop :=
  Parse.lexer p' = Parse.lexer p /\ Parse.current p' = Parse.current p
  /\ Parse.previous p' = Parse.previous p /\ Parse.had_error p' = Parse.had_error p
  /\ Parse.panic_mode p' = Parse.panic_mode p
  /\ Parse.error_message p' = Parse.error_message p
  /\ 0 <= Parse.arena_used p' <= Parse.ARENA_SIZE.

(** *** What a token depends on *)

(** Two lexers at the same place of the same source, with the same table. *)
Definition same_cursor (l l' : Lex.Lexer) : Prop :=
  Lex.source l' = Lex.source l /\ Lex.current l' = Lex.current l
  /\ Lex.keywords l' = Lex.keywords l.

(** ... and with the same start of token. *)
Definition same_place (l l' : Lex.Lexer) : Prop :=
  same_cursor l l' /\ Lex.start l' = Lex.start l.

(** A cursor function, a test and a scanning function that look at nothing
    else. *)
Definition cursor_fn (f : Lex.Lexer -> Lex.Lexer) : Prop :=
  forall l l', same_place l l' -> same_place (f l) (f l').

Definition cursor_test (c : Lex.Lexer -> bool) : Prop :=
  forall l l', same_place l l' -> c l' = c l.

Definition place_fn (f : Lex.Lexer -> Token * Lex.Lexer) : Prop :=
  forall l l', same_place l l' ->
    same_place (snd (f l)) (snd (f l'))
    /\ summary (fst (f l')) = summary (fst (f l))
    /\ tok_start (fst (f l')) = tok_start (fst (f l)).

(** *** The grammar of binary expressions *)

(** The level of a binary operator in the table of the specification, 2
    for [||] up to 7 for [*], [/] and [%]; [None] for every other token. *)
Definition binding (op : TokenType) : option nat :=
  option_map snd (find (fun x => TokenType_eqb (fst (fst x)) op) binary_operators).

(** The grammar of the table, read on parser states:
    [derives operand k m p n q] says that the tokens from state [p] up to
    state [q] are an expression of level [k] with tree [n] and [m] binary
    operators, where

      level k ::= level k, an operator of level k, level k+1  |  level k+1
      level 8 ::= what [operand] parses.

    The left operand of an operator is of its own level (operators of one
    level group to the left), the right operand of the next level (tighter
    operators take their operands first).  The node of an operator is
    allocated after its right operand. *)
Inductive derives (operand : Parse.Parser -> Parse.parsed)
  : nat -> nat -> Parse.Parser -> option Parse.ASTNode -> Parse.Parser -> Prop :=
  | derives_operand (p q : Parse.Parser) (n : option Parse.ASTNode) :
      operand p = Parse.Done (n, q) -> derives operand 8 0 p n q
  | derives_tighter (k m : nat) (p q : Parse.Parser) (n : option Parse.ASTNode) :
      derives operand (S k) m p n q -> derives operand k m p n q
  | derives_binary (k m1 m2 : nat) (p q q' q'' : Parse.Parser)
                   (l r : option Parse.ASTNode) (pos : Position) :
      derives operand k m1 p l q ->
      binding (tok_type (Parse.current q)) = Some k ->
      derives operand (S k) m2 (Parse.advance q) r q' ->
      Parse.ast_allocate q' Parse.AST_BINARY = (Some pos, q'') ->
      derives operand k (S (m1 + m2)) p
              (Some (Parse.Binary pos l (tok_type (Parse.current q)) r)) q''.

(** The functions of the ladder by the level they parse, [logical_or] at 2
    down to [factor] at 7, [unary] for the operands; and the operators each
    of them matches. *)
Definition level_fn (e : Parse.Parser -> Parse.parsed) (fuel k : nat)
  : Parse.Parser -> Parse.parsed :=
  match k with
  | 2 => Parse.logical_or e fuel
  | 3 => Parse.logical_and e fuel
  | 4 => Parse.equality e fuel
  | 5 => Parse.comparison e fuel
  | 6 => Parse.term e fuel
  | 7 => Parse.factor e fuel
  | _ => Parse.unary e fuel
  end%nat.

Definition level_ops (k : nat) : list TokenType :=
  match k with
  | 2 => [TOKEN_OR]
  | 3 => [TOKEN_AND]
  | 4 => [TOKEN_NOT_EQUAL; TOKEN_EQUAL]
  | 5 => [TOKEN_GREATER; TOKEN_GREATER_EQUAL; TOKEN_LESS; TOKEN_LESS_EQUAL]
  | 6 => [TOKEN_MINUS; TOKEN_PLUS]
  | 7 => [TOKEN_DIVIDE; TOKEN_MULTIPLY; TOKEN_MODULO]
  | _ => []
  end%nat.

(** * Properties of the lexer *)

Module LexFacts.

Import Lex.

(** *** Token kinds *)

Lemma TokenType_eqb_eq (a b : TokenType) : TokenType_eqb a b = true <-> a = b.
Proof.
  unfold TokenType_eqb. rewrite N.eqb_eq. split; [| intros ->; reflexivity].
  intros H.
  assert (D : forall t, nth (N.to_nat (TokenType_code t)) all_token_types TOKEN_UNKNOWN = t)
    by (intros t; destruct t; reflexivity).
  rewrite <- (D a), <- (D b), H. reflexivity.
Qed.

Lemma TokenType_eqb_refl (a : TokenType) : TokenType_eqb a a = true.
Proof. apply TokenType_eqb_eq. reflexivity. Qed.

(** *** The buffer *)

Lemma get_lt (s : string) (n : nat) (c : ascii) :
  String.get n s = Some c -> (n < String.length s)%nat.
Proof.
  revert n. induction s as [| a s IH]; intros [| n]; simpl; try discriminate; try lia.
  intros H. apply IH in H. lia.
Qed.

Lemma not_at_end_lt (l : Lexer) : is_at_end l = false -> (current l < String.length (source l))%nat.
Proof.
  unfold is_at_end, peek, char_at. destruct (String.get (current l) (source l)) eqn:E.
  - intros _. eapply get_lt; eauto.
  - simpl. discriminate.
Qed.

(** *** The error message is only ever overwritten *)

Lemma advance_msg : msg_blind advance.
Proof.
  intros m l. unfold advance, is_at_end, peek. simpl.
  destruct (char_at (source l) (current l) =? NUL)%char; [reflexivity |].
  destruct (char_at (source l) (current l) =? NL)%char; reflexivity.
Qed.

Lemma while_msg (cond : Lexer -> bool) (body : Lexer -> Lexer) :
  (forall m l, cond (set_error_message m l) = cond l) -> msg_blind body ->
  forall fuel, msg_blind (while_ fuel cond body).
Proof.
  intros Hc Hb fuel. induction fuel as [| fuel IH]; intros m l; simpl; [reflexivity |].
  rewrite Hc. destruct (cond l); [| reflexivity]. rewrite Hb. apply IH.
Qed.

Lemma block_comment_msg (fuel : nat) : msg_blind (block_comment_loop fuel).
Proof.
  induction fuel as [| fuel IH]; intros m l; simpl; [reflexivity |].
  change (is_at_end (set_error_message m l)) with (is_at_end l).
  change (peek (set_error_message m l)) with (peek l).
  change (peek_next (set_error_message m l)) with (peek_next l).
  destruct (is_at_end l); [reflexivity |].
  destruct ((peek l =? "*") && (peek_next l =? "/"))%char.
  - rewrite !advance_msg. reflexivity.
  - rewrite advance_msg. apply IH.
Qed.

Lemma skip_whitespace_loop_msg (fuel : nat) : msg_blind (skip_whitespace_loop fuel).
Proof.
  induction fuel as [| fuel IH]; intros m l; cbn [skip_whitespace_loop]; [reflexivity |].
  change (is_at_end (set_error_message m l)) with (is_at_end l).
  change (peek (set_error_message m l)) with (peek l).
  change (peek_next (set_error_message m l)) with (peek_next l).
  change (fuel_of (set_error_message m l)) with (fuel_of l).
  destruct (is_at_end l); [reflexivity |].
  destruct ((peek l =? " ") || (peek l =? CR) || (peek l =? TAB))%char.
  { rewrite advance_msg. apply IH. }
  destruct ((peek l =? "/") && (peek_next l =? "/"))%char.
  { rewrite while_msg; [apply IH | reflexivity | apply advance_msg]. }
  destruct ((peek l =? "/") && (peek_next l =? "*"))%char; [| reflexivity].
  rewrite !advance_msg, block_comment_msg. apply IH.
Qed.

Lemma skip_whitespace_msg : msg_blind skip_whitespace.
Proof. intros m l. apply skip_whitespace_loop_msg. Qed.

Lemma digits_msg : msg_blind digits.
Proof. intros m l. apply while_msg; [reflexivity | apply advance_msg]. Qed.

Lemma unicode_digits_msg (n : nat) : msg_blind (unicode_digits n).
Proof.
  induction n as [| n IH]; intros m l; simpl; [reflexivity |].
  change (peek (set_error_message m l)) with (peek l).
  destruct (isxdigit (peek l)); [| reflexivity]. rewrite advance_msg. apply IH.
Qed.

Lemma string_body_msg : msg_blind string_body.
Proof.
  intros m l. unfold string_body.
  change (peek (set_error_message m l)) with (peek l).
  destruct (peek l =? BACKSLASH)%char.
  - rewrite advance_msg.
    change (is_at_end (set_error_message m (advance l))) with (is_at_end (advance l)).
    change (peek (set_error_message m (advance l))) with (peek (advance l)).
    destruct (is_at_end (advance l)); cbn [negb]; [reflexivity |].
    destruct (peek (advance l) =? "x")%char.
    { rewrite advance_msg.
      change (peek (set_error_message m (advance (advance l))))
        with (peek (advance (advance l))).
      destruct (isxdigit (peek (advance (advance l)))); [| reflexivity].
      rewrite advance_msg.
      change (peek (set_error_message m (advance (advance (advance l)))))
        with (peek (advance (advance (advance l)))).
      destruct (isxdigit (peek (advance (advance (advance l))))); [| reflexivity].
      apply advance_msg. }
    destruct (peek (advance l) =? "u")%char.
    { rewrite advance_msg. apply unicode_digits_msg. }
    apply advance_msg.
  - destruct (peek l =? NL)%char; reflexivity.
Qed.

(** *** The cursor only moves forward, over the same buffer *)

Lemma follows_refl (l : Lexer) : follows l l.
Proof. unfold follows. auto. Qed.

Lemma follows_trans (a b c : Lexer) : follows a b -> follows b c -> follows a c.
Proof. unfold follows. intros (-> & -> & H1) (-> & -> & H2). repeat split; lia. Qed.

Lemma follows_advance (l x : Lexer) : follows l x -> follows l (advance x).
Proof.
  intros H. apply (follows_trans _ _ _ H). unfold advance, follows.
  destruct (is_at_end x); simpl; auto.
Qed.

Lemma follows_while (cond : Lexer -> bool) (body : Lexer -> Lexer) :
  (forall x, follows x (body x)) ->
  forall fuel l x, follows l x -> follows l (while_ fuel cond body x).
Proof.
  intros Hb fuel. induction fuel as [| fuel IH]; intros l x H; simpl; [assumption |].
  destruct (cond x); [| assumption]. apply IH. eapply follows_trans; eauto.
Qed.

Lemma follows_digits (l x : Lexer) : follows l x -> follows l (digits x).
Proof. apply follows_while. intros y. apply follows_advance, follows_refl. Qed.

Lemma follows_unicode_digits (n : nat) (l x : Lexer) :
  follows l x -> follows l (unicode_digits n x).
Proof.
  revert x. induction n as [| n IH]; intros x H; simpl; [assumption |].
  destruct (isxdigit (peek x)); [| assumption]. apply IH, follows_advance, H.
Qed.

Lemma follows_block_comment (fuel : nat) (l x : Lexer) :
  follows l x -> follows l (block_comment_loop fuel x).
Proof.
  revert x. induction fuel as [| fuel IH]; intros x H; simpl; [assumption |].
  destruct (is_at_end x); [assumption |].
  destruct ((peek x =? "*") && (peek_next x =? "/"))%char.
  - apply follows_advance, follows_advance, H.
  - apply IH, follows_advance, H.
Qed.

Lemma follows_skip_whitespace_loop (fuel : nat) (l x : Lexer) :
  follows l x -> follows l (skip_whitespace_loop fuel x).
Proof.
  revert x. induction fuel as [| fuel IH]; intros x H; cbn [skip_whitespace_loop];
    [assumption |].
  destruct (is_at_end x); [assumption |].
  destruct ((peek x =? " ") || (peek x =? CR) || (peek x =? TAB))%char.
  { apply IH, follows_advance, H. }
  destruct ((peek x =? "/") && (peek_next x =? "/"))%char.
  { apply IH, follows_while; [| exact H]. intros y. apply follows_advance, follows_refl. }
  destruct ((peek x =? "/") && (peek_next x =? "*"))%char; [| assumption].
  apply IH, follows_block_comment, follows_advance, follows_advance, H.
Qed.

Lemma follows_skip_whitespace (l x : Lexer) : follows l x -> follows l (skip_whitespace x).
Proof. apply follows_skip_whitespace_loop. Qed.

Lemma follows_string_body (x : Lexer) : follows x (string_body x).
Proof.
  unfold string_body. destruct (peek x =? BACKSLASH)%char.
  - destruct (negb (is_at_end (advance x))).
    + destruct (peek (advance x) =? "x")%char.
      { destruct (isxdigit (peek (advance (advance x)))).
        - destruct (isxdigit (peek (advance (advance (advance x)))));
            repeat apply follows_advance; apply follows_refl.
        - repeat apply follows_advance; apply follows_refl. }
      destruct (peek (advance x) =? "u")%char.
      { apply follows_unicode_digits. repeat apply follows_advance; apply follows_refl. }
      repeat apply follows_advance; apply follows_refl.
    + apply follows_advance, follows_refl.
  - unfold follows. simpl. auto.
Qed.

Lemma follows_match (l x : Lexer) (c : ascii) : follows l x -> follows l (snd (match_ x c)).
Proof.
  intros H. apply (follows_trans _ _ _ H). unfold match_, follows.
  destruct (is_at_end x || negb (peek x =? c)%char); simpl; auto.
Qed.

(** *** Scanning functions, piece by piece *)

Lemma match_msg (m : string) (l : Lexer) (c : ascii) :
  match_ (set_error_message m l) c
  = (fst (match_ l c), set_error_message m (snd (match_ l c))).
Proof.
  unfold match_. change (is_at_end (set_error_message m l)) with (is_at_end l).
  change (peek (set_error_message m l)) with (peek l).
  destruct (is_at_end l || negb (peek l =? c)%char); reflexivity.
Qed.

Lemma token_fn_token (type : TokenType) :
  type <> TOKEN_EOF /\ type <> TOKEN_ERROR -> token_fn (fun l => token l type).
Proof.
  intros [H H'] l. split; [| split].
  - intros m. right. reflexivity.
  - apply follows_refl.
  - intros _. split; [exact H | intros E; contradiction].
Qed.

Lemma token_fn_error (message : string) :
  In (strncpy message 255) lexical_errors -> token_fn (fun l => error_token l message).
Proof.
  intros M l. split; [| split].
  - intros m. left. reflexivity.
  - unfold follows. simpl. auto.
  - intros _. split; [simpl; discriminate |]. intros _. split; [reflexivity | exact M].
Qed.

Lemma token_fn_if (b : bool) (f g : Lexer -> Token * Lexer) :
  token_fn f -> token_fn g -> token_fn (fun l => if b then f l else g l).
Proof. intros Hf Hg. destruct b; assumption. Qed.

Lemma token_fn_after (g : Lexer -> Lexer) (f : Lexer -> Token * Lexer) :
  msg_blind g -> (forall l, follows l (g l)) -> token_fn f -> token_fn (fun l => f (g l)).
Proof.
  intros Hm Hg Hf l. destruct (Hf (g l)) as (F1 & F2 & F3). split; [| split].
  - intros m. rewrite Hm. apply F1.
  - eapply follows_trans; [apply Hg | exact F2].
  - intros K. apply F3. unfold keywords_sane in *.
    destruct (Hg l) as (_ & -> & _). exact K.
Qed.

Lemma token_fn_match (c : ascii) (f g : Lexer -> Token * Lexer) :
  token_fn f -> token_fn g ->
  token_fn (fun l => let '(m, l) := match_ l c in if m then f l else g l).
Proof.
  intros Hf Hg l.
  assert (K : keywords (snd (match_ l c)) = keywords l).
  { destruct (follows_match l l c (follows_refl l)) as (_ & K & _). exact K. }
  pose proof (follows_match l l c (follows_refl l)) as F.
  split; [| split].
  - intros m. rewrite match_msg. destruct (match_ l c) as [b x]. cbn [fst snd].
    destruct b; [apply (Hf x) | apply (Hg x)].
  - destruct (match_ l c) as [b x]. cbn [snd] in F.
    destruct b; (eapply follows_trans; [exact F |]); [apply (Hf x) | apply (Hg x)].
  - intros E. unfold keywords_sane in E. rewrite <- K in E.
    destruct (match_ l c) as [b x]. cbn [snd] in E.
    destruct b; [apply (Hf x) | apply (Hg x)]; exact E.
Qed.

Lemma token_fn_ext (f g : Lexer -> Token * Lexer) :
  (forall l, f l = g l) -> token_fn g -> token_fn f.
Proof.
  intros E H l. rewrite E. destruct (H l) as (H1 & H2 & H3).
  split; [| split]; try assumption. intros m. rewrite E. apply H1.
Qed.

Lemma token_fn_token_if (c : ascii) (yes no : TokenType) :
  yes <> TOKEN_EOF /\ yes <> TOKEN_ERROR -> no <> TOKEN_EOF /\ no <> TOKEN_ERROR ->
  token_fn (fun l => token_if l c yes no).
Proof.
  intros Hy Hn.
  apply token_fn_ext with
    (g := fun l => let '(m, l) := match_ l c in if m then token l yes else token l no).
  - intros x. unfold token_if. destruct (match_ x c) as [[|] y]; reflexivity.
  - apply token_fn_match; apply token_fn_token; assumption.
Qed.

Lemma token_fn_cases (f : Lexer -> Token * Lexer) (b : Lexer -> bool)
      (g h : Lexer -> Token * Lexer) :
  (forall m l, b (set_error_message m l) = b l) ->
  (forall l, f l = if b l then g l else h l) ->
  token_fn g -> token_fn h -> token_fn f.
Proof.
  intros Hb E Hg Hh l. rewrite E. destruct (Hg l) as (G1 & G2 & G3).
  destruct (Hh l) as (H1 & H2 & H3).
  split; [| split].
  - intros m. rewrite E, Hb. destruct (b l); [apply G1 | apply H1].
  - destruct (b l); assumption.
  - destruct (b l); assumption.
Qed.

Lemma token_fn_string : token_fn string_.
Proof.
  pose (scan := fun l => while_ (fuel_of l)
                  (fun l => negb (peek l =? DQUOTE)%char && negb (is_at_end l))
                  string_body l).
  assert (Hm : msg_blind scan).
  { intros m l. unfold scan. change (fuel_of (set_error_message m l)) with (fuel_of l).
    apply while_msg; [reflexivity | apply string_body_msg]. }
  assert (Hf : forall l, follows l (scan l)).
  { intros l. apply follows_while; [apply follows_string_body | apply follows_refl]. }
  pose (finish := fun x => if is_at_end x then error_token x "Unterminated string"
                           else token (advance x) TOKEN_STRING).
  apply token_fn_ext with (g := fun l => finish (scan l)); [reflexivity |].
  apply (token_fn_after scan finish Hm Hf).
  apply token_fn_cases with (b := is_at_end)
    (g := fun x => error_token x "Unterminated string")
    (h := fun x => token (advance x) TOKEN_STRING); try reflexivity.
  - apply token_fn_error. simpl. auto.
  - apply (token_fn_after advance (fun x => token x TOKEN_STRING) advance_msg).
    + intros x. apply follows_advance, follows_refl.
    + apply token_fn_token. split; discriminate.
Qed.

Lemma token_fn_char_literal : token_fn char_literal.
Proof.
  pose (scan := fun l =>
    let l := advance l in
    if (peek l =? BACKSLASH)%char then advance (advance l)
    else if negb (peek l =? SQUOTE)%char then advance l else l).
  assert (Hm : msg_blind scan).
  { intros m l. unfold scan. cbv zeta. rewrite advance_msg.
    change (peek (set_error_message m (advance l))) with (peek (advance l)).
    destruct (peek (advance l) =? BACKSLASH)%char; [rewrite !advance_msg; reflexivity |].
    destruct (negb (peek (advance l) =? SQUOTE)%char); [apply advance_msg | reflexivity]. }
  assert (Hf : forall l, follows l (scan l)).
  { intros l. unfold scan. cbv zeta.
    destruct (peek (advance l) =? BACKSLASH)%char;
      [| destruct (negb (peek (advance l) =? SQUOTE)%char)];
      repeat apply follows_advance; apply follows_refl. }
  pose (finish := fun x => let '(m, x) := match_ x SQUOTE in
                           if m then token x TOKEN_CHAR
                           else error_token x "Unterminated character literal").
  apply token_fn_ext with (g := fun l => finish (scan l)).
  - intros l. unfold char_literal, finish, scan. cbv zeta.
    match goal with |- context [match_ ?a SQUOTE] => destruct (match_ a SQUOTE) as [[|] y] end;
      reflexivity.
  - apply (token_fn_after scan finish Hm Hf). apply token_fn_match.
    + apply token_fn_token. split; discriminate.
    + apply token_fn_error. simpl. auto.
Qed.

Lemma check_keyword_sane (l : Lexer) (text : nat) (length : Z) :
  keywords_sane l ->
  check_keyword l text length <> TOKEN_EOF /\ check_keyword l text length <> TOKEN_ERROR.
Proof.
  unfold keywords_sane, check_keyword. intros K.
  match goal with |- context [find ?f ?ks] => destruct (find f ks) as [k |] eqn:E end;
    [| split; discriminate].
  apply find_some in E. destruct E as [E _].
  rewrite Forall_forall in K. apply K, E.
Qed.

Lemma token_fn_identifier : token_fn identifier.
Proof.
  pose (scan := fun l => while_ (fuel_of l)
                  (fun l => isalnum (peek l) || (peek l =? "_")%char) advance l).
  assert (Hm : msg_blind scan).
  { intros m l. unfold scan. change (fuel_of (set_error_message m l)) with (fuel_of l).
    apply while_msg; [reflexivity | apply advance_msg]. }
  assert (Hf : forall l, follows l (scan l)).
  { intros l. apply follows_while; [| apply follows_refl].
    intros x. apply follows_advance, follows_refl. }
  intros l. split; [| split].
  - intros m. right. unfold identifier. fold (scan (set_error_message m l)).
    fold (scan l). rewrite Hm. reflexivity.
  - apply Hf.
  - intros K. unfold identifier. fold (scan l). cbn [fst make_token tok_type].
    assert (S : keywords_sane (scan l)).
    { unfold keywords_sane in *. destruct (Hf l) as (_ & -> & _). exact K. }
    destruct (check_keyword_sane (scan l) (start (scan l))
                (to_size_t (Z.of_nat (current (scan l)) - Z.of_nat (start (scan l)))) S)
      as [S1 S2].
    split; [exact S1 | intros E; contradiction].
Qed.

Lemma peek_msg (m : string) (l : Lexer) : peek (set_error_message m l) = peek l.
Proof. reflexivity. Qed.

Lemma peek_next_msg (m : string) (l : Lexer) : peek_next (set_error_message m l) = peek_next l.
Proof. reflexivity. Qed.

Lemma is_at_end_msg (m : string) (l : Lexer) : is_at_end (set_error_message m l) = is_at_end l.
Proof. reflexivity. Qed.

Lemma fuel_of_msg (m : string) (l : Lexer) : fuel_of (set_error_message m l) = fuel_of l.
Proof. reflexivity. Qed.

Lemma fraction_msg (m : string) (l : Lexer) :
  fraction (set_error_message m l) = (fst (fraction l), set_error_message m (snd (fraction l))).
Proof.
  unfold fraction. rewrite peek_msg, peek_next_msg.
  destruct ((peek l =? ".")%char && isdigit (peek_next l)); [| reflexivity].
  rewrite advance_msg, digits_msg. reflexivity.
Qed.

Lemma follows_fraction (l x : Lexer) : follows l x -> follows l (snd (fraction x)).
Proof.
  intros H. unfold fraction.
  destruct ((peek x =? ".")%char && isdigit (peek_next x)); cbn [snd]; [| exact H].
  apply follows_digits, follows_advance, H.
Qed.

Ltac msg_norm :=
  repeat first
    [ rewrite peek_msg | rewrite peek_next_msg | rewrite is_at_end_msg
    | rewrite fuel_of_msg | rewrite advance_msg | rewrite digits_msg
    | rewrite fraction_msg
    | rewrite while_msg by (first [reflexivity | apply advance_msg]) ].

Ltac follows_steps :=
  repeat first
    [ assumption | apply follows_refl | apply follows_advance | apply follows_digits
    | apply follows_fraction
    | apply follows_while; [intros; apply follows_advance, follows_refl |] ].

Lemma token_fn_number : token_fn number.
Proof.
  intros l. split; [| split].
  - intros m. right. unfold number. msg_norm.
    destruct ((peek l =? "0")%char && negb (is_at_end l)).
    + destruct ((peek_next l =? "x") || (peek_next l =? "X"))%char;
        [msg_norm; reflexivity |].
      destruct ((peek_next l =? "b") || (peek_next l =? "B"))%char;
        [msg_norm; reflexivity |].
      destruct ((peek_next l =? "o") || (peek_next l =? "O"))%char;
        [msg_norm; reflexivity |].
      destruct (fraction (digits l)) as [fl y]. reflexivity.
    + destruct (fraction (digits l)) as [fl y]. cbn [fst snd]. msg_norm.
      destruct (((peek y =? "e") || (peek y =? "E"))%char
                && (isdigit (peek_next y)
                    || ((peek_next y =? "+") || (peek_next y =? "-"))%char));
        [| reflexivity].
      destruct ((peek (advance y) =? "+") || (peek (advance y) =? "-"))%char;
        msg_norm; reflexivity.
  - unfold number.
    destruct ((peek l =? "0")%char && negb (is_at_end l)).
    + destruct ((peek_next l =? "x") || (peek_next l =? "X"))%char;
        [cbn [snd]; follows_steps |].
      destruct ((peek_next l =? "b") || (peek_next l =? "B"))%char;
        [cbn [snd]; follows_steps |].
      destruct ((peek_next l =? "o") || (peek_next l =? "O"))%char;
        [cbn [snd]; follows_steps |].
      pose proof (follows_fraction l (digits l) (follows_digits l l (follows_refl l))) as F.
      destruct (fraction (digits l)) as [fl y]. exact F.
    + pose proof (follows_fraction l (digits l) (follows_digits l l (follows_refl l))) as F.
      destruct (fraction (digits l)) as [fl y]. cbn [snd] in F.
      destruct (((peek y =? "e") || (peek y =? "E"))%char
                && (isdigit (peek_next y)
                    || ((peek_next y =? "+") || (peek_next y =? "-"))%char));
        [| exact F].
      destruct ((peek (advance y) =? "+") || (peek (advance y) =? "-"))%char;
        cbn [snd]; follows_steps.
  - intros _. unfold number.
    destruct ((peek l =? "0")%char && negb (is_at_end l)).
    + destruct ((peek_next l =? "x") || (peek_next l =? "X"))%char;
        [split; discriminate |].
      destruct ((peek_next l =? "b") || (peek_next l =? "B"))%char;
        [split; discriminate |].
      destruct ((peek_next l =? "o") || (peek_next l =? "O"))%char;
        [split; discriminate |].
      destruct (fraction (digits l)) as [[|] y]; split; discriminate.
    + destruct (fraction (digits l)) as [fl y].
      destruct (((peek y =? "e") || (peek y =? "E"))%char
                && (isdigit (peek_next y)
                    || ((peek_next y =? "+") || (peek_next y =? "-"))%char));
        [split; discriminate |].
      destruct fl; split; discriminate.
Qed.

Lemma token_fn_punctuation (c : ascii) : token_fn (punctuation c).
Proof.
  unfold punctuation.
  repeat first
    [ exact token_fn_string
    | exact token_fn_char_literal
    | apply token_fn_error; simpl; tauto
    | apply token_fn_token; split; discriminate
    | apply token_fn_token_if; split; discriminate
    | apply token_fn_match
    | apply token_fn_if ].
Qed.

(** What [lexer_next_token] does after it has skipped blanks and comments. *)
Lemma token_fn_dispatch (c : ascii) :
  token_fn (fun l => if isalpha c || (c =? "_")%char then identifier l
                     else if isdigit c then number l
                     else punctuation c l).
Proof.
  apply token_fn_if; [exact token_fn_identifier |].
  apply token_fn_if; [exact token_fn_number | exact (token_fn_punctuation c)].
Qed.

(** *** [lexer_next_token] *)

(** The lexer as [lexer_next_token] sees it once blanks are skipped. *)
Lemma next_token_unfold (l : Lexer) :
  lexer_next_token l =
  let x := set_tokens_processed (to_size_t (tokens_processed l + 1))
             (set_start (current (skip_whitespace l)) (skip_whitespace l)) in
  if is_at_end x then token x TOKEN_EOF
  else if isalpha (peek x) || (peek x =? "_")%char then identifier (advance x)
       else if isdigit (peek x) then number (advance x)
       else punctuation (peek x) (advance x).
Proof.
  unfold lexer_next_token. cbv zeta.
  assert (T : tokens_processed (skip_whitespace l) = tokens_processed l).
  { unfold skip_whitespace.
    generalize (fuel_of l). intros n. revert l.
    assert (A : forall x, tokens_processed (advance x) = tokens_processed x).
    { intros x. unfold advance. destruct (is_at_end x); reflexivity. }
    assert (W : forall k c x, tokens_processed (while_ k c advance x) = tokens_processed x).
    { induction k as [| k IH]; intros c x; simpl; [reflexivity |].
      destruct (c x); [| reflexivity]. rewrite IH. apply A. }
    assert (B : forall k x, tokens_processed (block_comment_loop k x) = tokens_processed x).
    { induction k as [| k IH]; intros x; simpl; [reflexivity |].
      destruct (is_at_end x); [reflexivity |].
      destruct ((peek x =? "*") && (peek_next x =? "/"))%char.
      - rewrite !A. reflexivity.
      - rewrite IH. apply A. }
    induction n as [| n IH]; intros l; cbn [skip_whitespace_loop]; [reflexivity |].
    destruct (is_at_end l); [reflexivity |].
    destruct ((peek l =? " ") || (peek l =? CR) || (peek l =? TAB))%char.
    { rewrite IH. apply A. }
    destruct ((peek l =? "/") && (peek_next l =? "/"))%char.
    { rewrite IH. apply W. }
    destruct ((peek l =? "/") && (peek_next l =? "*"))%char; [| reflexivity].
    rewrite IH, B, !A. reflexivity. }
  cbn [set_start set_tokens_processed tokens_processed]. rewrite T. reflexivity.
Qed.

Lemma next_token_msg (m : string) (l : Lexer) :
  lexer_next_token (set_error_message m l) = lexer_next_token l
  \/ lexer_next_token (set_error_message m l)
     = (fst (lexer_next_token l), set_error_message m (snd (lexer_next_token l))).
Proof.
  rewrite !next_token_unfold. cbv zeta. rewrite skip_whitespace_msg.
  set (x := set_tokens_processed _ (set_start _ (skip_whitespace l))).
  change (set_tokens_processed _ _) with (set_error_message m x).
  rewrite is_at_end_msg, peek_msg, !advance_msg.
  destruct (is_at_end x); [right; reflexivity |].
  apply (token_fn_dispatch (peek x) (advance x)).
Qed.

Lemma next_token_follows (l : Lexer) : follows l (snd (lexer_next_token l)).
Proof.
  rewrite next_token_unfold. cbv zeta.
  set (x := set_tokens_processed _ (set_start _ (skip_whitespace l))).
  assert (F : follows l x).
  { pose proof (follows_skip_whitespace l l (follows_refl l)) as H.
    unfold follows in *. exact H. }
  destruct (is_at_end x); [exact F |].
  eapply follows_trans; [exact F |].
  eapply follows_trans; [apply follows_advance, follows_refl |].
  apply (token_fn_dispatch (peek x) (advance x)).
Qed.

Lemma keywords_sane_follows (l l' : Lexer) : follows l l' -> keywords_sane l -> keywords_sane l'.
Proof. unfold keywords_sane. intros (_ & -> & _) K. exact K. Qed.

Lemma keywords_sane_create (src fname : string) : keywords_sane (lexer_create src fname).
Proof.
  unfold keywords_sane, lexer_create, init_keywords. cbn [keywords].
  repeat (apply Forall_cons; [split; discriminate |]). apply Forall_nil.
Qed.

Lemma skip_whitespace_at_end (l : Lexer) : is_at_end l = true -> skip_whitespace l = l.
Proof.
  intros E. unfold skip_whitespace, fuel_of. cbn [skip_whitespace_loop]. rewrite E. reflexivity.
Qed.

(** At the end of the input the call returns the end-of-input token and
    leaves the cursor where it is. *)
Lemma next_token_at_end (l : Lexer) :
  is_at_end (skip_whitespace l) = true ->
  tok_type (fst (lexer_next_token l)) = TOKEN_EOF
  /\ is_at_end (skip_whitespace (snd (lexer_next_token l))) = true.
Proof.
  intros E. rewrite next_token_unfold. cbv zeta.
  set (x := set_tokens_processed _ (set_start _ (skip_whitespace l))).
  assert (Ex : is_at_end x = true) by exact E.
  rewrite Ex. split; [reflexivity |]. cbn [snd token].
  rewrite skip_whitespace_at_end; exact Ex.
Qed.

(** Before the end a call returns another token and consumes a byte. *)
Lemma next_token_before_end (l : Lexer) :
  keywords_sane l -> is_at_end (skip_whitespace l) = false ->
  tok_type (fst (lexer_next_token l)) <> TOKEN_EOF
  /\ (current l < current (snd (lexer_next_token l)))%nat
  /\ (remaining (snd (lexer_next_token l)) < remaining l)%nat.
Proof.
  intros K E. rewrite next_token_unfold. cbv zeta.
  set (x := set_tokens_processed _ (set_start _ (skip_whitespace l))).
  assert (Ex : is_at_end x = false) by exact E.
  assert (F : follows l x) by exact (follows_skip_whitespace l l (follows_refl l)).
  rewrite Ex.
  destruct (token_fn_dispatch (peek x) (advance x)) as (_ & F2 & F3).
  cbv beta in F2, F3.
  set (r := if isalpha (peek x) || (peek x =? "_")%char then identifier (advance x)
            else if isdigit (peek x) then number (advance x)
            else punctuation (peek x) (advance x)) in *.
  assert (A : current (advance x) = S (current x)).
  { unfold advance. rewrite Ex. reflexivity. }
  assert (FA : follows x (advance x)) by apply follows_advance, follows_refl.
  pose proof (not_at_end_lt x Ex) as Lt.
  destruct F as (S1 & K1 & C1). destruct F2 as (S2 & K2 & C2).
  destruct FA as (S3 & K3 & C3).
  split; [| split].
  - apply F3. unfold keywords_sane in *. rewrite K3, K1. exact K.
  - lia.
  - unfold remaining. rewrite S2, S3, S1. rewrite S1 in Lt. lia.
Qed.

Lemma next_token_eof (l : Lexer) :
  keywords_sane l ->
  tok_type (fst (lexer_next_token l)) = TOKEN_EOF ->
  is_at_end (skip_whitespace l) = true.
Proof.
  intros K E. destruct (is_at_end (skip_whitespace l)) eqn:A; [reflexivity |].
  destruct (next_token_before_end l K A) as (N & _). contradiction.
Qed.

Lemma nth_token_S (k : nat) (l : Lexer) :
  nth_token (S k) l = nth_token k (snd (lexer_next_token l)).
Proof.
  unfold nth_token. cbn [tokens]. destruct (lexer_next_token l) as [t l1]. cbn [snd].
  destruct (tokens k l1) as [ts l2]. reflexivity.
Qed.

Lemma eof_stable (k : nat) (l : Lexer) :
  is_at_end (skip_whitespace l) = true -> tok_type (nth_token k l) = TOKEN_EOF.
Proof.
  revert l. induction k as [| k IH]; intros l E.
  - apply (next_token_at_end l E).
  - rewrite nth_token_S. apply IH. apply (next_token_at_end l E).
Qed.

(** *** Peeking *)

Lemma set_error_message_same (l : Lexer) : set_error_message (error_message l) l = l.
Proof. destruct l. reflexivity. Qed.

Lemma peek_token_state (l : Lexer) :
  snd (lexer_peek_token l)
  = set_error_message (error_message (snd (lexer_next_token l))) l.
Proof.
  unfold lexer_peek_token. pose proof (next_token_follows l) as (S & K & _).
  destruct (lexer_next_token l) as [t l']. cbn [snd] in *.
  unfold set_has_error, set_tokens_processed, set_pos, set_start, set_current,
    set_error_message. cbn. rewrite S, K. reflexivity.
Qed.

Lemma peek_token_token (l : Lexer) : fst (lexer_peek_token l) = fst (lexer_next_token l).
Proof. unfold lexer_peek_token. destruct (lexer_next_token l). reflexivity. Qed.

Lemma next_after_peek (l : Lexer) :
  lexer_next_token (snd (lexer_peek_token l)) = lexer_next_token l.
Proof.
  rewrite peek_token_state.
  destruct (next_token_msg (error_message (snd (lexer_next_token l))) l) as [E | E];
    rewrite E; [reflexivity |].
  rewrite set_error_message_same. destruct (lexer_next_token l). reflexivity.
Qed.

Lemma tokens_S_state (k : nat) (l : Lexer) :
  snd (tokens (S k) l) = snd (tokens k (snd (lexer_next_token l))).
Proof.
  cbn [tokens]. destruct (lexer_next_token l) as [t l1]. cbn [snd].
  destruct (tokens k l1) as [ts l2]. reflexivity.
Qed.

Lemma counts_to_eof (bound : nat) (l : Lexer) :
  keywords_sane l -> (remaining l <= bound)%nat ->
  exists n, (n <= remaining l)%nat
    /\ (forall k, (k < n)%nat ->
          tok_type (nth_token k l) <> TOKEN_EOF
          /\ (current (snd (tokens k l)) < current (snd (tokens (S k) l)))%nat)
    /\ (forall k, (n <= k)%nat -> tok_type (nth_token k l) = TOKEN_EOF).
Proof.
  revert l. induction bound as [| bound IH]; intros l K B.
  - exists 0%nat. split; [lia |]. split; [intros k Hk; lia |].
    intros k _. apply eof_stable.
    destruct (is_at_end (skip_whitespace l)) eqn:A; [reflexivity |].
    destruct (next_token_before_end l K A) as (_ & _ & R). lia.
  - destruct (is_at_end (skip_whitespace l)) eqn:A.
    + exists 0%nat. split; [lia |]. split; [intros k Hk; lia |].
      intros k _. apply eof_stable, A.
    + destruct (next_token_before_end l K A) as (N & C & R).
      destruct (IH (snd (lexer_next_token l))) as (n & Hn & Hlt & Hge).
      * eapply keywords_sane_follows; [apply next_token_follows | exact K].
      * lia.
      * exists (S n). split; [lia |]. split.
        -- intros [| k] Hk.
           ++ split; [exact N |]. cbn [tokens]. destruct (lexer_next_token l). exact C.
           ++ rewrite nth_token_S, (tokens_S_state k), (tokens_S_state (S k)).
              apply Hlt. lia.
        -- intros [| k] Hle; [lia |]. rewrite nth_token_S. apply Hge. lia.
Qed.

(** *** The fuel of the loops is enough *)

Lemma advance_consumes (x : Lexer) :
  is_at_end x = false -> (remaining (advance x) < remaining x)%nat.
Proof.
  intros E. pose proof (not_at_end_lt x E) as Lt.
  unfold remaining, advance. rewrite E. cbn. lia.
Qed.

Lemma remaining_follows (l x : Lexer) : follows l x -> (remaining x <= remaining l)%nat.
Proof. unfold follows, remaining. intros (-> & _ & H). lia. Qed.

(** A loop whose rounds consume input stops because its condition fails,
    not because the fuel is spent. *)
Lemma while_fuel (cond : Lexer -> bool) (body : Lexer -> Lexer) :
  (forall x, cond x = true -> (remaining (body x) < remaining x)%nat) ->
  forall fuel l, (remaining l < fuel)%nat -> cond (while_ fuel cond body l) = false.
Proof.
  intros Hb fuel. induction fuel as [| fuel IH]; intros l Hl; [lia |].
  simpl. destruct (cond l) eqn:C; [| exact C].
  apply IH. specialize (Hb l C). lia.
Qed.

Lemma digits_done (l : Lexer) : isdigit (peek (digits l)) = false.
Proof.
  unfold digits. apply (while_fuel (fun l => isdigit (peek l)) advance).
  - intros x C. apply advance_consumes. unfold is_at_end.
    destruct (peek x =? NUL)%char eqn:E; [| reflexivity].
    apply Ascii.eqb_eq in E. rewrite E in C. discriminate.
  - unfold fuel_of, remaining. lia.
Qed.

Lemma string_body_consumes (x : Lexer) :
  is_at_end x = false -> (remaining (string_body x) < remaining x)%nat.
Proof.
  intros E. pose proof (not_at_end_lt x E) as Lt. unfold string_body.
  destruct (peek x =? BACKSLASH)%char.
  - pose proof (advance_consumes x E) as A.
    assert (F : forall y, follows (advance x) y -> (remaining y < remaining x)%nat).
    { intros y Fy. apply remaining_follows in Fy. lia. }
    destruct (negb (is_at_end (advance x))); [| exact A].
    destruct (peek (advance x) =? "x")%char.
    { destruct (isxdigit (peek (advance (advance x))));
        [destruct (isxdigit (peek (advance (advance (advance x))))) |];
        apply F; follows_steps. }
    destruct (peek (advance x) =? "u")%char.
    { apply F, follows_unicode_digits. follows_steps. }
    apply F. follows_steps.
  - unfold remaining. cbn. lia.
Qed.

Lemma string_scan_done (l : Lexer) :
  let x := while_ (fuel_of l)
             (fun l => negb (peek l =? DQUOTE)%char && negb (is_at_end l)) string_body l in
  negb (peek x =? DQUOTE)%char && negb (is_at_end x) = false.
Proof.
  cbv zeta.
  apply (while_fuel (fun l => negb (peek l =? DQUOTE)%char && negb (is_at_end l))
                    string_body).
  - intros x C. apply andb_true_iff in C. destruct C as [_ C].
    apply negb_true_iff in C. apply string_body_consumes, C.
  - unfold fuel_of, remaining. lia.
Qed.

(** With fuel above the bytes left, more fuel changes nothing. *)
Lemma block_comment_fuel (n m : nat) (l : Lexer) :
  (remaining l < n)%nat -> (remaining l < m)%nat ->
  block_comment_loop n l = block_comment_loop m l.
Proof.
  revert m l. induction n as [| n IH]; intros [| m] l Hn Hm; try lia.
  simpl. destruct (is_at_end l) eqn:E; [reflexivity |].
  destruct ((peek l =? "*") && (peek_next l =? "/"))%char; [reflexivity |].
  pose proof (advance_consumes l E). apply IH; lia.
Qed.

Lemma skip_whitespace_fuel (n m : nat) (l : Lexer) :
  (remaining l < n)%nat -> (remaining l < m)%nat ->
  skip_whitespace_loop n l = skip_whitespace_loop m l.
Proof.
  revert m l. induction n as [| n IH]; intros [| m] l Hn Hm; try lia.
  cbn [skip_whitespace_loop]. destruct (is_at_end l) eqn:E; [reflexivity |].
  pose proof (advance_consumes l E) as A.
  assert (F : forall y, follows (advance l) y -> (remaining y < remaining l)%nat).
  { intros y Fy. apply remaining_follows in Fy. lia. }
  destruct ((peek l =? " ") || (peek l =? CR) || (peek l =? TAB))%char.
  { apply IH; lia. }
  destruct ((peek l =? "/") && (peek_next l =? "/"))%char eqn:C.
  { assert (R : (remaining
                   (while_ (fuel_of l)
                      (fun l0 => negb (peek l0 =? NL)%char && negb (is_at_end l0))
                      advance l) < remaining l)%nat).
    { unfold fuel_of. cbn [while_].
      apply andb_true_iff in C. destruct C as [C _]. apply Ascii.eqb_eq in C.
      rewrite C, E. cbn [negb andb Ascii.eqb]. change ("/" =? NL)%char with false.
      cbn [negb andb]. apply F. follows_steps. }
    apply IH; lia. }
  destruct ((peek l =? "/") && (peek_next l =? "*"))%char; [| reflexivity].
  assert (R : (remaining (block_comment_loop (fuel_of l) (advance (advance l)))
               < remaining l)%nat).
  { apply F, follows_block_comment. follows_steps. }
  apply IH; lia.
Qed.

(** ** The claims about the lexer *)

(** C3. A peek followed by a call of [lexer_next_token] returns the token
    (kind, lexeme offset and length, position, value) that the call alone
    returns and leaves the lexer the call alone leaves, the peek itself
    returns that token, and any number of calls after a peek return the
    tokens they return without it. *)
Theorem peek_then_next (l : Lexer) :
  lexer_next_token (snd (lexer_peek_token l)) = lexer_next_token l
  /\ fst (lexer_peek_token l) = fst (lexer_next_token l)
  /\ forall n, fst (tokens n (snd (lexer_peek_token l))) = fst (tokens n l).
Proof.
  split; [apply next_after_peek |]. split; [apply peek_token_token |].
  intros [| n]; [reflexivity |]. cbn [tokens]. rewrite next_after_peek. reflexivity.
Qed.

(** C7. From a lexer on any source, with the keyword table of [lexer_create],
    some number [n] of calls, at most the number of bytes left, return tokens
    other than end-of-input and each moves the cursor forward by at least one
    byte; the call after them and every later call return end-of-input. *)
Theorem next_token_reaches_eof (l : Lexer) :
  keywords l = init_keywords ->
  exists n, (n <= remaining l)%nat
    /\ (forall k, (k < n)%nat ->
          tok_type (nth_token k l) <> TOKEN_EOF
          /\ (current (snd (tokens k l)) < current (snd (tokens (S k) l)))%nat)
    /\ (forall k, (n <= k)%nat -> tok_type (nth_token k l) = TOKEN_EOF).
Proof.
  intros K. apply (counts_to_eof (remaining l)); [| lia].
  unfold keywords_sane. rewrite K. apply (keywords_sane_create EmptyString EmptyString).
Qed.

Lemma next_token_reaches_eof_witness :
  let l := lexer_create "int x = 0x1F; // done" "main.shay" in
  keywords l = init_keywords
  /\ exists n, (n <= remaining l)%nat
       /\ (forall k, (k < n)%nat ->
             tok_type (nth_token k l) <> TOKEN_EOF
             /\ (current (snd (tokens k l)) < current (snd (tokens (S k) l)))%nat)
       /\ (forall k, (n <= k)%nat -> tok_type (nth_token k l) = TOKEN_EOF).
Proof.
  split; [reflexivity |].
  apply (next_token_reaches_eof (lexer_create "int x = 0x1F; // done" "main.shay")).
  reflexivity.
Defined.

(** C10. [lexer_peek_token] puts back the cursor, the start pointer, the
    position, the token counter and the error flag, so [lexer_has_error]
    answers as before the peek; it does not put back [error_message], so
    [lexer_get_error] returns what the call inside the peek left there: when
    the peeked token is an error token, one of the lexer's messages. *)
Theorem peek_token_restores (l : Lexer) :
  let l' := snd (lexer_peek_token l) in
  (current l' = current l /\ start l' = start l /\ pos l' = pos l
   /\ tokens_processed l' = tokens_processed l /\ has_error l' = has_error l)
  /\ lexer_has_error l' = lexer_has_error l
  /\ lexer_get_error l' = lexer_get_error (snd (lexer_next_token l))
  /\ (keywords l = init_keywords ->
      tok_type (fst (lexer_peek_token l)) = TOKEN_ERROR ->
      has_error (snd (lexer_next_token l)) = true
      /\ In (lexer_get_error l') lexical_errors).
Proof.
  cbv zeta. rewrite peek_token_state, peek_token_token.
  split; [repeat split |]. split; [reflexivity |]. split; [reflexivity |].
  intros K E. unfold lexer_get_error. cbn [set_error_message error_message].
  assert (S : keywords_sane l).
  { unfold keywords_sane. rewrite K. apply (keywords_sane_create EmptyString EmptyString). }
  revert E. rewrite next_token_unfold. cbv zeta.
  set (x := set_tokens_processed _ (set_start _ (skip_whitespace l))).
  destruct (is_at_end x); [discriminate |].
  destruct (token_fn_dispatch (peek x) (advance x)) as (_ & _ & F3). cbv beta in F3.
  apply F3.
  eapply keywords_sane_follows; [| exact S].
  eapply follows_trans; [exact (follows_skip_whitespace l l (follows_refl l)) |].
  eapply (follows_trans _ x); [unfold follows; auto |].
  apply follows_advance, follows_refl.
Qed.

Lemma peek_token_restores_witness :
  let l := lexer_create "x = @" "main.shay" in
  let l' := snd (lexer_peek_token (snd (tokens 2 l))) in
  lexer_has_error l' = false
  /\ lexer_get_error (snd (tokens 2 l)) = EmptyString
  /\ In (lexer_get_error l') lexical_errors.
Proof.
  cbv zeta.
  pose proof (peek_token_restores (snd (tokens 2 (lexer_create "x = @" "main.shay")))) as H.
  cbv zeta in H. destruct H as (_ & H1 & _ & H3).
  split; [rewrite H1; reflexivity |]. split; [reflexivity |].
  apply H3; reflexivity.
Defined.

(** C8 (defect). A token's position is not always the start of its lexeme,
    and its column can be below 1: the [NEWLINE] token of a buffer that
    starts with a line feed sits at offset 0 (line 1, column 1) and carries
    line 2, column 0; an error token carries the position after its lexeme
    ([error_token] does not roll the column back); a string token that spans
    two lines carries the line of its closing quote and a negative column. *)
Theorem token_position_defect :
  (forall rest fname,
     let t := fst (lexer_next_token (lexer_create (String NL rest) fname)) in
     tok_type t = TOKEN_NEWLINE /\ tok_start t = 0%nat
     /\ line (tok_pos t) = 2 /\ column (tok_pos t) = 0)
  /\ (let t := fst (lexer_next_token (lexer_create "@" "main.shay")) in
      tok_type t = TOKEN_ERROR /\ tok_start t = 0%nat /\ tok_length t = 1
      /\ line (tok_pos t) = 1 /\ column (tok_pos t) = 2)
  /\ (let src := String DQUOTE (String "a" (String NL (String "b" (String DQUOTE EmptyString)))) in
      let t := fst (lexer_next_token (lexer_create src "main.shay")) in
      tok_type t = TOKEN_STRING /\ tok_start t = 0%nat /\ tok_length t = 5
      /\ line (tok_pos t) = 2 /\ column (tok_pos t) = -2).
Proof.
  split; [| split].
  - intros rest fname. cbv zeta. repeat split.
  - cbv zeta. repeat split.
  - cbv zeta. repeat split.
Qed.

(** C9 (defect). The case for ['] in [lexer_next_token] consumes one byte as
    "the opening quote" although the dispatch already consumed it: the two
    bytes of ['ab'] are taken for one character and a [CHAR] token of length
    4 is returned, while the literal of a backslash (quote, backslash,
    backslash, quote) runs over its closing quote and is reported as
    unterminated. *)
Theorem char_literal_defect :
  (let r := lexer_next_token (lexer_create "'ab'" "main.shay") in
   tok_type (fst r) = TOKEN_CHAR /\ tok_length (fst r) = 4 /\ has_error (snd r) = false)
  /\ (let src := String SQUOTE (String BACKSLASH (String BACKSLASH (String SQUOTE EmptyString))) in
      let r := lexer_next_token (lexer_create src "main.shay") in
      tok_type (fst r) = TOKEN_ERROR /\ tok_length (fst r) = 4
      /\ lexer_get_error (snd r) = "Unterminated character literal"%string)
  /\ (let r := lexer_next_token (lexer_create "'a'" "main.shay") in
      tok_type (fst r) = TOKEN_CHAR /\ tok_length (fst r) = 3)
  /\ (let r := lexer_next_token (lexer_create "'a" "main.shay") in
      tok_type (fst r) = TOKEN_ERROR
      /\ lexer_get_error (snd r) = "Unterminated character literal"%string).
Proof. cbv zeta. repeat split. Qed.

End LexFacts.

(** * Properties of the parser *)

Module ParseFacts.

Import Parse.

(** *** More fuel does not change a result *)

Lemma bind_settles {A B : Type} (r1 r2 : result A) (k1 k2 : A -> result B) :
  (r1 <> OutOfFuel -> r2 = r1) ->
  (forall a, k1 a <> OutOfFuel -> k2 a = k1 a) ->
  bind r1 k1 <> OutOfFuel -> bind r2 k2 = bind r1 k1.
Proof.
  intros H1 H2 N. destruct r1 as [a | |]; simpl in *; try congruence.
  - rewrite H1 by discriminate. simpl. apply H2, N.
  - rewrite H1 by discriminate. reflexivity.
Qed.

Lemma settles_refl {A B : Type} (f : A -> result B) : settles f f.
Proof. intros a _. reflexivity. Qed.

Lemma primary_settles (e1 e2 : Parser -> parsed) :
  settles e1 e2 -> settles (primary e1) (primary e2).
Proof.
  intros H p. unfold primary.
  repeat match goal with
         | |- context [match_any ?q ?ts] => destruct (match_any q ts) as [[|] ?]
         | |- context [match_ ?q ?t] => destruct (match_ q t) as [[|] ?]
         end; try (intros _; reflexivity).
  apply bind_settles; [apply H |]. intros [expr q] _. reflexivity.
Qed.

Lemma unary_settles (e1 e2 : Parser -> parsed) (n m : nat) :
  (n <= m)%nat -> settles e1 e2 -> settles (unary e1 n) (unary e2 m).
Proof.
  revert m. induction n as [| n IH]; intros m Hle H p; [simpl; congruence |].
  destruct m as [| m]; [lia |]. cbn [unary].
  destruct (match_any p [TOKEN_NOT; TOKEN_MINUS]) as [[|] q].
  - apply bind_settles; [apply IH; [lia | exact H] |]. intros [e q'] _. reflexivity.
  - apply primary_settles, H.
Qed.

Lemma binary_loop_settles (ops : list TokenType) (o1 o2 : Parser -> parsed) (n m : nat) :
  (n <= m)%nat -> settles o1 o2 ->
  forall expr, settles (binary_loop ops o1 n expr) (binary_loop ops o2 m expr).
Proof.
  revert m. induction n as [| n IH]; intros m Hle H expr p; [simpl; congruence |].
  destruct m as [| m]; [lia |]. cbn [binary_loop].
  destruct (match_any p ops) as [[|] q]; [| intros _; reflexivity].
  apply bind_settles; [apply H |]. intros [rhs q'].
  destruct (ast_create_binary q' expr (tok_type (previous q)) rhs) as [e q''].
  apply IH; [lia | exact H].
Qed.

Lemma binary_level_settles (ops : list TokenType) (o1 o2 : Parser -> parsed) (n m : nat) :
  (n <= m)%nat -> settles o1 o2 ->
  settles (binary_level ops o1 n) (binary_level ops o2 m).
Proof.
  intros Hle H p. unfold binary_level. apply bind_settles; [apply H |].
  intros [expr q]. apply binary_loop_settles; assumption.
Qed.

Lemma logical_or_settles (e1 e2 : Parser -> parsed) (n m : nat) :
  (n <= m)%nat -> settles e1 e2 -> settles (logical_or e1 n) (logical_or e2 m).
Proof.
  intros Hle H. unfold logical_or, logical_and, equality, comparison, term, factor.
  repeat (apply binary_level_settles; [exact Hle |]).
  apply unary_settles; assumption.
Qed.

Lemma assignment_settles (e1 e2 : Parser -> parsed) (n m : nat) :
  (n <= m)%nat -> settles e1 e2 -> settles (assignment e1 n) (assignment e2 m).
Proof.
  revert m. induction n as [| n IH]; intros m Hle H p; [simpl; congruence |].
  destruct m as [| m]; [lia |]. cbn [assignment].
  apply bind_settles; [apply logical_or_settles; [lia | exact H] |].
  intros [expr q]. destruct (match_ q TOKEN_ASSIGN) as [[|] q']; [| intros _; reflexivity].
  apply bind_settles; [apply IH; [lia | exact H] |]. intros [value q''] _. reflexivity.
Qed.

Lemma expression_settles (n m : nat) :
  (n <= m)%nat -> settles (expression n) (expression m).
Proof.
  revert m. induction n as [| n IH]; intros m Hle p; [simpl; congruence |].
  destruct m as [| m]; [lia |]. cbn [expression].
  apply assignment_settles; [lia | apply IH; lia].
Qed.

Lemma declaration_settles (n m : nat) :
  (n <= m)%nat -> settles (declaration n) (declaration m).
Proof.
  intros Hle p. pose proof (expression_settles n m Hle) as E.
  unfold declaration, statement, var_declaration, return_statement, expression_statement.
  destruct (match_any p _) as [[|] q].
  - destruct (consume q TOKEN_IDENTIFIER _) as [c q1].
    destruct (match_ q1 TOKEN_ASSIGN) as [[|] q2].
    + apply bind_settles; [apply E |]. intros [i q3] _. reflexivity.
    + intros _. reflexivity.
  - destruct (match_ q TOKEN_RETURN) as [[|] q1].
    + destruct (negb (check q1 TOKEN_SEMICOLON)).
      * apply bind_settles; [apply E |]. intros [v q2] _. reflexivity.
      * intros _. reflexivity.
    + apply bind_settles; [apply E |]. intros [v q2] _. reflexivity.
Qed.

Lemma parse_loop_settles (n m : nat) :
  (n <= m)%nat -> forall statements p,
  parse_loop n p statements <> OutOfFuel ->
  parse_loop m p statements = parse_loop n p statements.
Proof.
  revert m. induction n as [| n IH]; intros m Hle statements p; [simpl; congruence |].
  destruct m as [| m]; [lia |]. cbn [parse_loop].
  destruct (negb (check p TOKEN_EOF) && negb (had_error p)); [| reflexivity].
  destruct (match_ p TOKEN_NEWLINE) as [[|] q].
  - apply IH. lia.
  - apply bind_settles; [apply declaration_settles; lia |].
    intros [decl q']. apply bind_settles; [reflexivity |].
    intros sts. apply IH. lia.
Qed.

(** A parse that returns or crashes does the same with any more fuel. *)
Lemma parser_parse_settles (n m : nat) :
  (n <= m)%nat -> settles (parser_parse n) (parser_parse m).
Proof.
  intros Hle p. unfold parser_parse.
  destruct (ast_allocate p AST_PROGRAM) as [[pos |] q]; [| reflexivity].
  destruct (match arena_alloc (arena_used q) (sizeof_pointer * 1000) with
            | Some used => (Some [], set_arena_used used q)
            | None => (None, q)
            end) as [sts q'].
  apply bind_settles; [apply parse_loop_settles; exact Hle |].
  intros [sts' q''] _. reflexivity.
Qed.

Lemma parse_settles (n m : nat) (src fname : string) (uninit : Token) (r : parsed) :
  parse n src fname uninit = r -> r <> OutOfFuel -> (n <= m)%nat ->
  parse m src fname uninit = r.
Proof.
  intros <- N Hle. unfold parse in *. apply parser_parse_settles; assumption.
Qed.

(** *** The fuel of the token loops is enough *)

Lemma parser_error_lexer (p : Parser) (message : string) :
  lexer (parser_error p message) = lexer p
  /\ current (parser_error p message) = current p
  /\ previous (parser_error p message) = previous p.
Proof. unfold parser_error. destruct (panic_mode p); auto. Qed.

Lemma TokenType_eqb_neq (a b : TokenType) : TokenType_eqb a b = false <-> a <> b.
Proof.
  split.
  - intros E H. apply LexFacts.TokenType_eqb_eq in H. congruence.
  - intros H. destruct (TokenType_eqb a b) eqn:E; [| reflexivity].
    apply LexFacts.TokenType_eqb_eq in E. contradiction.
Qed.

(** Reading a token that is not end-of-input consumes input. *)
Lemma next_token_consumes (lx : Lex.Lexer) :
  keywords_sane lx ->
  keywords_sane (snd (Lex.lexer_next_token lx))
  /\ (remaining (snd (Lex.lexer_next_token lx)) <= remaining lx)%nat
  /\ (tok_type (fst (Lex.lexer_next_token lx)) <> TOKEN_EOF ->
      (remaining (snd (Lex.lexer_next_token lx)) < remaining lx)%nat).
Proof.
  intros K. pose proof (LexFacts.next_token_follows lx) as F.
  split; [eapply LexFacts.keywords_sane_follows; eauto |].
  split; [apply LexFacts.remaining_follows, F |].
  intros N. destruct (Lex.is_at_end (Lex.skip_whitespace lx)) eqn:A.
  - destruct (LexFacts.next_token_at_end lx A) as [E _]. contradiction.
  - apply (LexFacts.next_token_before_end lx K A).
Qed.

Lemma skip_error_tokens_done (fuel : nat) (p : Parser) :
  keywords_sane (lexer p) -> (remaining (lexer p) + 1 < fuel)%nat ->
  tok_type (current (skip_error_tokens fuel p)) <> TOKEN_ERROR.
Proof.
  revert p. induction fuel as [| fuel IH]; intros p K B; [lia |].
  cbn [skip_error_tokens].
  destruct (TokenType_eqb (tok_type (current p)) TOKEN_ERROR) eqn:E;
    [| apply TokenType_eqb_neq, E].
  destruct (parser_error_lexer p "Lexical error") as (L & _ & _). rewrite L.
  destruct (next_token_consumes (lexer p) K) as (K' & Le & Lt).
  destruct (Lex.lexer_next_token (lexer p)) as [t lx]. cbn [fst snd] in *.
  destruct (TokenType_eqb (tok_type t) TOKEN_ERROR) eqn:E'.
  - apply IH; [exact K' |]. cbn [lexer set_tokens].
    apply LexFacts.TokenType_eqb_eq in E'.
    assert (N : tok_type t <> TOKEN_EOF) by (rewrite E'; discriminate).
    specialize (Lt N). lia.
  - destruct fuel as [| fuel]; [lia |]. cbn [skip_error_tokens current set_tokens].
    rewrite E'. apply TokenType_eqb_neq, E'.
Qed.

(** [advance] leaves a current token that is not an error token. *)
Lemma advance_done (p : Parser) :
  keywords_sane (lexer p) -> tok_type (current (advance p)) <> TOKEN_ERROR.
Proof.
  intros K. unfold advance.
  destruct (next_token_consumes (lexer p) K) as (K' & _ & _).
  destruct (Lex.lexer_next_token (lexer p)) as [t lx]. cbn [snd] in K'.
  apply skip_error_tokens_done; [exact K' |].
  cbn [lexer set_tokens]. unfold Lex.fuel_of, remaining. lia.
Qed.

(** Past [skip_error_tokens], the current token is end-of-input or input
    below [bound] is left. *)
Lemma skip_error_tokens_consumes (bound fuel : nat) (p : Parser) :
  keywords_sane (lexer p) ->
  tok_type (current p) = TOKEN_EOF \/ (remaining (lexer p) < bound)%nat ->
  let q := skip_error_tokens fuel p in
  keywords_sane (lexer q)
  /\ (tok_type (current q) = TOKEN_EOF \/ (remaining (lexer q) < bound)%nat).
Proof.
  revert p. induction fuel as [| fuel IH]; intros p K B; [cbn; auto |].
  cbn [skip_error_tokens].
  destruct (TokenType_eqb (tok_type (current p)) TOKEN_ERROR) eqn:E; [| cbn; auto].
  apply LexFacts.TokenType_eqb_eq in E.
  destruct B as [B | B]; [rewrite B in E; discriminate |].
  destruct (parser_error_lexer p "Lexical error") as (L & _ & _). rewrite L.
  destruct (next_token_consumes (lexer p) K) as (K' & Le & _).
  destruct (Lex.lexer_next_token (lexer p)) as [t lx]. cbn [fst snd] in *.
  apply IH; [exact K' |]. right. cbn [lexer set_tokens]. lia.
Qed.

Lemma advance_reads (p : Parser) :
  keywords_sane (lexer p) ->
  keywords_sane (lexer (advance p))
  /\ (tok_type (current (advance p)) = TOKEN_EOF
      \/ (remaining (lexer (advance p)) < remaining (lexer p))%nat).
Proof.
  intros K. unfold advance.
  destruct (next_token_consumes (lexer p) K) as (K' & _ & Lt).
  destruct (Lex.lexer_next_token (lexer p)) as [t lx]. cbn [fst snd] in *.
  apply skip_error_tokens_consumes; [exact K' |]. cbn [current lexer set_tokens].
  destruct (TokenType_eqb (tok_type t) TOKEN_EOF) eqn:E.
  - left. apply LexFacts.TokenType_eqb_eq, E.
  - right. apply Lt, TokenType_eqb_neq, E.
Qed.

(** [synchronize] stops where the source says, not for want of fuel. *)
Lemma synchronize_loop_done (fuel : nat) (p : Parser) :
  keywords_sane (lexer p) -> (remaining (lexer p) + 1 < fuel)%nat ->
  let q := synchronize_loop fuel p in
  tok_type (current q) = TOKEN_EOF
  \/ tok_type (previous q) = TOKEN_SEMICOLON
  \/ sync_point (tok_type (current q)) = true.
Proof.
  revert p. induction fuel as [| fuel IH]; intros p K B; [lia |].
  cbn [synchronize_loop].
  destruct (TokenType_eqb (tok_type (current p)) TOKEN_EOF) eqn:E; cbn [negb].
  { left. apply LexFacts.TokenType_eqb_eq, E. }
  destruct (TokenType_eqb (tok_type (previous p)) TOKEN_SEMICOLON) eqn:S.
  { right. left. apply LexFacts.TokenType_eqb_eq, S. }
  destruct (sync_point (tok_type (current p))) eqn:P.
  { right. right. exact P. }
  destruct (advance_reads p K) as (K' & [A | A]).
  - destruct fuel as [| fuel]; [lia |]. cbn [synchronize_loop].
    rewrite A. cbn. left. exact A.
  - apply IH; [exact K' | lia].
Qed.

Lemma synchronize_done (p : Parser) :
  keywords_sane (lexer p) ->
  let q := synchronize p in
  tok_type (current q) = TOKEN_EOF
  \/ tok_type (previous q) = TOKEN_SEMICOLON
  \/ sync_point (tok_type (current q)) = true.
Proof.
  intros K. unfold synchronize. apply synchronize_loop_done; [exact K |].
  cbn [lexer set_panic_mode]. unfold Lex.fuel_of, remaining. lia.
Qed.

(** The loop of [parser_create] stops at a token that is not [NEWLINE]. *)
Lemma skip_newlines_done (fuel : nat) (t : Token) (lx : Lex.Lexer) :
  keywords_sane lx -> (remaining lx + 1 < fuel)%nat ->
  tok_type (fst (skip_newlines fuel t lx)) <> TOKEN_NEWLINE.
Proof.
  revert t lx. induction fuel as [| fuel IH]; intros t lx K B; [lia |].
  cbn [skip_newlines].
  destruct (TokenType_eqb (tok_type t) TOKEN_NEWLINE) eqn:E; cbn [andb];
    [| apply TokenType_eqb_neq, E].
  apply LexFacts.TokenType_eqb_eq in E. rewrite E. cbn [negb TokenType_eqb].
  change (negb (TokenType_eqb TOKEN_NEWLINE TOKEN_EOF)) with true. cbv iota.
  destruct (next_token_consumes lx K) as (K' & Le & Lt).
  destruct (Lex.lexer_next_token lx) as [t' lx']. cbn [fst snd] in *.
  destruct (TokenType_eqb (tok_type t') TOKEN_NEWLINE) eqn:E'.
  - apply IH; [exact K' |]. apply LexFacts.TokenType_eqb_eq in E'.
    assert (N : tok_type t' <> TOKEN_EOF) by (rewrite E'; discriminate).
    specialize (Lt N). lia.
  - destruct fuel as [| fuel]; [lia |]. cbn [skip_newlines]. rewrite E'. cbn [andb fst].
    apply TokenType_eqb_neq, E'.
Qed.

(** *** The ladder and the grammar *)

Lemma match_any_taken (p : Parser) (ops : list TokenType) :
  In (tok_type (current p)) ops -> match_any p ops = (true, advance p).
Proof.
  induction ops as [| o ops IH]; intros H; [destruct H |].
  cbn [match_any]. unfold match_, check.
  destruct (TokenType_eqb (tok_type (current p)) o) eqn:E; [reflexivity |].
  cbn [negb]. cbv iota. apply IH. destruct H as [H | H]; [| exact H].
  subst o. apply TokenType_eqb_neq in E. congruence.
Qed.

Lemma match_any_passed (p : Parser) (ops : list TokenType) :
  ~ In (tok_type (current p)) ops -> match_any p ops = (false, p).
Proof.
  induction ops as [| o ops IH]; intros H; [reflexivity |].
  cbn [match_any]. unfold match_, check.
  destruct (TokenType_eqb (tok_type (current p)) o) eqn:E.
  - apply LexFacts.TokenType_eqb_eq in E. exfalso. apply H. left. congruence.
  - cbn [negb]. cbv iota. apply IH. intros I. apply H. right. exact I.
Qed.

Lemma skip_error_tokens_previous (fuel : nat) (p : Parser) :
  previous (skip_error_tokens fuel p) = previous p.
Proof.
  revert p. induction fuel as [| fuel IH]; intros p; [reflexivity |].
  cbn [skip_error_tokens].
  destruct (TokenType_eqb (tok_type (current p)) TOKEN_ERROR); [| reflexivity].
  destruct (Lex.lexer_next_token (lexer (parser_error p "Lexical error"))) as [t lx].
  rewrite IH. unfold set_tokens, parser_error. destruct (panic_mode p); reflexivity.
Qed.

Lemma advance_previous (p : Parser) : previous (advance p) = current p.
Proof.
  unfold advance. destruct (Lex.lexer_next_token (lexer p)) as [t lx].
  rewrite skip_error_tokens_previous. reflexivity.
Qed.

Lemma ast_allocate_current (p q : Parser) (type : ASTNodeType) (pos : Position) :
  ast_allocate p type = (Some pos, q) -> current q = current p.
Proof.
  unfold ast_allocate. destruct (arena_alloc (arena_used p) sizeof_ASTNode);
    intros H; inversion H. reflexivity.
Qed.

Lemma binding_level_ops (op : TokenType) (k : nat) :
  binding op = Some k <-> In op (level_ops k).
Proof.
  split.
  - destruct op; intros H; try discriminate H; vm_compute in H;
      injection H as <-; cbn; tauto.
  - destruct k as [| [| [| [| [| [| [| [| k]]]]]]]]; cbn [level_ops In];
      intuition (subst; reflexivity).
Qed.

Lemma level_fn_step (e : Parser -> parsed) (fuel k : nat) :
  (2 <= k <= 7)%nat ->
  level_fn e fuel k = binary_level (level_ops k) (level_fn e fuel (S k)) fuel.
Proof.
  intros H. do 8 (destruct k as [| k]; [try lia; try reflexivity |]). lia.
Qed.

Lemma binary_loop_stop (ops : list TokenType) (operand : Parser -> parsed)
      (fuel : nat) (n : option ASTNode) (q : Parser) :
  ~ In (tok_type (current q)) ops ->
  binary_loop ops operand (S fuel) n q = Done (n, q).
Proof. intros H. cbn [binary_loop]. rewrite (match_any_passed q ops H). reflexivity. Qed.

(** Along a derivation the function of the level has come to its loop with
    the tree and the state of the derivation. *)
Lemma derives_loop (e : Parser -> parsed) (fuel : nat) :
  forall k m p n q,
    derives (unary e fuel) k m p n q ->
    (2 <= k)%nat ->
    (forall j, binding (tok_type (current q)) = Some j -> (j <= k)%nat) ->
    (m < fuel)%nat ->
    (k <= 8)%nat
    /\ exists i, (i <= m)%nat
         /\ level_fn e fuel k p
            = binary_loop (level_ops k) (level_fn e fuel (S k)) (fuel - i) n q.
Proof.
  induction 1 as [p q n O | k m p q n D IH
                  | k m1 m2 p q q' q'' l r pos D1 IH1 B D2 IH2 A];
    intros K C F.
  - split; [lia |]. exists 0%nat. split; [lia |].
    rewrite Nat.sub_0_r. destruct fuel as [| fuel]; [lia |].
    rewrite binary_loop_stop by (cbn; tauto). exact O.
  - destruct IH as (K8 & i & Hi & E);
      [lia | intros j Hj; specialize (C j Hj); lia | exact F |].
    split; [lia |]. exists 0%nat. split; [lia |]. rewrite Nat.sub_0_r.
    rewrite level_fn_step by lia. unfold binary_level. rewrite E.
    destruct (fuel - i)%nat as [| f] eqn:Ef; [lia |].
    rewrite binary_loop_stop; [reflexivity |].
    intros I. apply binding_level_ops in I. specialize (C _ I). lia.
  - assert (Cq : current q'' = current q') by (apply (ast_allocate_current _ _ _ _ A)).
    destruct IH1 as (K8 & i & Hi & E);
      [exact K | intros j Hj; rewrite B in Hj; injection Hj as <-; lia | lia |].
    destruct IH2 as (_ & i2 & Hi2 & E2);
      [lia | intros j Hj; rewrite <- Cq in Hj; specialize (C j Hj); lia | lia |].
    split; [exact K8 |]. exists (S i). split; [lia |].
    rewrite E. destruct (fuel - i)%nat as [| f] eqn:Ef; [lia |].
    replace (fuel - S i)%nat with f by lia.
    cbn [binary_loop].
    rewrite (match_any_taken q (level_ops k)) by (apply binding_level_ops, B).
    cbv iota. rewrite advance_previous, E2.
    destruct (fuel - i2)%nat as [| f2] eqn:Ef2; [lia |].
    rewrite binary_loop_stop.
    + cbn [bind]. unfold ast_create_binary. rewrite A. reflexivity.
    + intros I. apply binding_level_ops in I. rewrite <- Cq in I.
      specialize (C _ I). lia.
Qed.

Lemma derives_level (e : Parser -> parsed) (fuel k m : nat) (p q : Parser)
      (n : option ASTNode) :
  (2 <= k)%nat ->
  derives (unary e fuel) k m p n q ->
  (forall j, binding (tok_type (current q)) = Some j -> (j < k)%nat) ->
  (m < fuel)%nat ->
  level_fn e fuel k p = Done (n, q).
Proof.
  intros K D C F.
  destruct (derives_loop e fuel k m p n q D K) as (_ & i & Hi & E);
    [intros j Hj; specialize (C j Hj); lia | exact F |].
  rewrite E. destruct (fuel - i)%nat as [| f] eqn:Ef; [lia |].
  apply binary_loop_stop. intros I. apply binding_level_ops in I.
  specialize (C _ I). lia.
Qed.

(** ** The claims about the parser *)

(** A parse evaluated with 20 units of fuel stands for any more fuel. *)
Ltac with_fuel_20 Hfuel :=
  match goal with
  | |- context [parse ?fuel ?src ?fname ?uninit] =>
      let r := eval vm_compute in (parse 20 src fname uninit) in
      let E := fresh "E" in
      assert (E : parse fuel src fname uninit = r)
        by (apply (parse_settles 20 fuel src fname uninit r);
            [vm_compute; reflexivity | discriminate | exact Hfuel]);
      rewrite E; clear E
  end.

(** C4. Binary operators parse by the ladder of the table, each level
    grouping to the left.  In general: whenever the tokens from a state up
    to a token that is no binary operator of level [k] or tighter are an
    expression of level [k] of the grammar ([derives]: the left operand of
    an operator is of its own level, the right operand of the next, the
    operands of level 8 what [unary] parses, every node allocated), the
    function of level [k], from [logical_or] at 2 to [factor] at 7, returns
    the tree of that derivation and stops at that token, for any fuel
    above the number of operators.  In particular [return 1 + 2 * 3;] gives
    [Return(Binary(+, 1, Binary( *, 2, 3)))], and for any two binary
    operators [a], [b] the statement [1 a 2 b 3;] parses without error to
    [(1 a 2) b 3] when the level of [a] is at least that of [b], and to
    [1 a (2 b 3)] otherwise.  The two levels above the binary ones: a prefix
    operator binds tighter than any binary operator, and parentheses group
    before everything. *)
Theorem precedence_ladder :
  (forall e fuel k m p n q,
     (2 <= k)%nat ->
     derives (unary e fuel) k m p n q ->
     (forall j, binding (tok_type (current q)) = Some j -> (j < k)%nat) ->
     (m < fuel)%nat ->
     level_fn e fuel k p = Done (n, q))
  /\ ((forall fuel uninit, (20 <= fuel)%nat ->
     exists p,
       parse fuel "return 1 + 2 * 3;" "main.shay" uninit
       = Done (Some (Program (tok_pos uninit)
                 [ReturnStmt (mkPosition 1 17 "main.shay")
                    (Some (Binary (mkPosition 1 16 "main.shay")
                       (Some (Literal (mkPosition 1 8 "main.shay") TOKEN_INTEGER
                                (lit_int_value 1)))
                       TOKEN_PLUS
                       (Some (Binary (mkPosition 1 16 "main.shay")
                          (Some (Literal (mkPosition 1 12 "main.shay") TOKEN_INTEGER
                                   (lit_int_value 2)))
                          TOKEN_MULTIPLY
                          (Some (Literal (mkPosition 1 16 "main.shay") TOKEN_INTEGER
                                   (lit_int_value 3)))))))]), p)
       /\ had_error p = false)
  /\ (forall a b fuel uninit,
        In a binary_operators -> In b binary_operators -> (20 <= fuel)%nat ->
        clean_tree (parse fuel (two_operators a b) "main.shay" uninit)
        = Some (grouped a b))
  /\ (forall fuel uninit, (20 <= fuel)%nat ->
        clean_tree (parse fuel "-1 * 2;" "main.shay" uninit)
        = Some (Program nowhere
                  [ExpressionStmt nowhere
                     (binary (Some (Unary nowhere TOKEN_MINUS (literal 1)))
                             TOKEN_MULTIPLY (literal 2))])
        /\ clean_tree (parse fuel "(1 || 2) * 3;" "main.shay" uninit)
           = Some (Program nowhere
                     [ExpressionStmt nowhere
                        (binary (binary (literal 1) TOKEN_OR (literal 2))
                                TOKEN_MULTIPLY (literal 3))]))).
Proof.
  split; [intros e fuel k m p n q K D C F; exact (derives_level e fuel k m p q n K D C F) |].
  split; [| split].
  - intros fuel uninit Hfuel. with_fuel_20 Hfuel. eexists. split; reflexivity.
  - intros a b fuel uninit Ha Hb Hfuel.
    assert (E : parse 20 (two_operators a b) "main.shay" uninit <> OutOfFuel
                /\ clean_tree (parse 20 (two_operators a b) "main.shay" uninit)
                   = Some (grouped a b)).
    { unfold binary_operators in Ha, Hb. cbn [In] in Ha, Hb.
      repeat (destruct Ha as [<- | Ha]; [| try contradiction]);
        repeat (destruct Hb as [<- | Hb]; [| try contradiction]);
        vm_compute; (split; [discriminate | reflexivity]). }
    destruct E as [N E].
    rewrite (parse_settles 20 fuel _ _ _ _ eq_refl N Hfuel). exact E.
  - intros fuel uninit Hfuel. split; with_fuel_20 Hfuel; reflexivity.
Qed.

Lemma precedence_ladder_witness :
  let p := parser_create (Lex.lexer_create "1 * -2 + 3;" "main.shay") zero_token in
  exists n q,
    derives (unary (expression 1) 3) 2 2 p n q
    /\ tok_type (current q) = TOKEN_SEMICOLON
    /\ logical_or (expression 1) 3 p = Done (n, q)
    /\ option_map strip n
       = binary (binary (literal 1) TOKEN_MULTIPLY
                        (Some (Unary nowhere TOKEN_MINUS (literal 2))))
                TOKEN_PLUS (literal 3).
Proof.
  assert (G : forall p n q,
            derives (unary (expression 1) 3) 2 2 p n q ->
            tok_type (current q) = TOKEN_SEMICOLON ->
            logical_or (expression 1) 3 p = Done (n, q)).
  { intros p n q D T.
    apply (proj1 precedence_ladder (expression 1) 3%nat 2%nat 2%nat p n q);
      [lia | exact D | | lia].
    intros j Hj. rewrite T in Hj. discriminate Hj. }
  cbv zeta. eexists. eexists.
  assert (forall A B C D : Prop, A -> B -> D -> (A -> B -> C) -> A /\ B /\ C /\ D) as K
    by tauto.
  apply K; [| | | apply G].
  - do 4 apply derives_tighter. eapply (derives_binary _ 6 1 0).
    + apply derives_tighter. eapply (derives_binary _ 7 0 0).
      * apply derives_tighter, derives_operand. vm_compute. reflexivity.
      * reflexivity.
      * apply derives_operand. vm_compute. reflexivity.
      * reflexivity.
    + reflexivity.
    + apply derives_tighter, derives_operand. vm_compute. reflexivity.
    + reflexivity.
  - reflexivity.
  - reflexivity.
Defined.

(** C1 (defect). [lexer_next_token] consumes the first digit before it calls
    [number], which then looks for the [0] of a prefix under the cursor, one
    byte too far: a literal that begins [0x], [0b] or [0o] is cut after its
    [0], an [INTEGER] token of length 1 and value 0, and the rest becomes an
    identifier.  [0xFF + 0b10] gives the tokens [0 xFF + 0 b10] and parses to
    the literal 0 with a parse error.  Where the prefix is found, in [10x1F],
    the token holds 16 while the literal node, decoded again by
    [ast_create_literal] in base 10, holds 10. *)
Theorem prefixed_literal_defect :
  Forall (fun c =>
            forall rest fname,
              summary (fst (Lex.lexer_next_token
                              (Lex.lexer_create (String "0" (String c rest)) fname)))
              = (TOKEN_INTEGER, 1, int_value 0))
         ["x"; "X"; "b"; "B"; "o"; "O"]%char
  /\ map summary (fst (Lex.tokens 6 (Lex.lexer_create "0xFF + 0b10" "main.shay")))
     = [(TOKEN_INTEGER, 1, int_value 0); (TOKEN_IDENTIFIER, 3, value_unset);
        (TOKEN_PLUS, 1, value_unset); (TOKEN_INTEGER, 1, int_value 0);
        (TOKEN_IDENTIFIER, 3, value_unset); (TOKEN_EOF, 0, value_unset)]
  /\ (forall fuel uninit, (20 <= fuel)%nat ->
        exists p,
          parse fuel "0xFF + 0b10" "main.shay" uninit
          = Done (Some (Program (tok_pos uninit)
                    [ExpressionStmt (mkPosition 1 1 "main.shay")
                       (Some (Literal (mkPosition 1 1 "main.shay") TOKEN_INTEGER
                                (lit_int_value 0)))]), p)
          /\ had_error p = true
          /\ parser_get_error p
             = "Error at line 1, column 2: Expected ';' after expression"%string)
  /\ (summary (fst (Lex.lexer_next_token (Lex.lexer_create "10x1F;" "main.shay")))
      = (TOKEN_INTEGER, 5, int_value 16)
      /\ forall fuel uninit, (20 <= fuel)%nat ->
           clean_tree (parse fuel "10x1F;" "main.shay" uninit)
           = Some (Program nowhere [ExpressionStmt nowhere (literal 10)])).
Proof.
  split; [| split; [| split; [| split]]].
  - repeat (apply Forall_cons; [intros rest fname; reflexivity |]). apply Forall_nil.
  - reflexivity.
  - intros fuel uninit Hfuel. with_fuel_20 Hfuel. eexists. repeat split.
  - reflexivity.
  - intros fuel uninit Hfuel. with_fuel_20 Hfuel. reflexivity.
Qed.

(** C2 (defect). [parser_parse] prepares to go on after a parse error and
    never does.  After a statement that failed it calls [synchronize], which
    clears panic mode and skips to the statement boundary, but the condition
    of its loop also tests [had_error], which nothing clears: a round that
    starts with the flag set returns the statements collected so far.  On
    [int x 5;] followed by [int y = 7;] the first statement records
    "Expected ';' after variable declaration" at the [5] (line 1, column 7)
    and is stored as the declaration of [x] without initializer;
    [synchronize] leaves the parser out of panic mode, after the [;] of
    line 1, at the [NEWLINE]; the loop ends there, so the program has one
    statement, and no declaration of [y] is in it.  From that very state,
    past the [NEWLINE], [declaration] returns the declaration of [y] with
    the literal 7: only the test of the flag keeps the second statement from
    being parsed. *)
Theorem parse_stops_at_first_error :
  (forall fuel p statements,
     had_error p = true -> parse_loop (S fuel) p statements = Done (statements, p))
  /\ (forall fuel uninit, (20 <= fuel)%nat ->
        exists p,
          parse fuel ("int x 5;" ++ String NL "int y = 7;") "main.shay" uninit
          = Done (Some (Program (tok_pos uninit)
                    [VarDeclaration (mkPosition 1 5 "main.shay") TOKEN_INT
                                    (Some "x"%string) None]), p)
          /\ had_error p = true
          /\ parser_get_error p
             = "Error at line 1, column 7: Expected ';' after variable declaration"%string
          /\ panic_mode p = false
          /\ tok_type (previous p) = TOKEN_SEMICOLON
          /\ tok_type (current p) = TOKEN_NEWLINE
          /\ Lex.current (lexer p) = 9%nat
          /\ exists q,
               declaration 20 (snd (match_ p TOKEN_NEWLINE))
               = Done (Some (VarDeclaration (mkPosition 2 10 "main.shay") TOKEN_INT
                               (Some "y"%string)
                               (Some (Literal (mkPosition 2 9 "main.shay") TOKEN_INTEGER
                                        (lit_int_value 7)))), q)
               /\ tok_type (current q) = TOKEN_EOF)
  /\ (exists statements p,
        parse 20 ("int x 5;" ++ String NL "int y = 7;") "main.shay" zero_token
        = Done (Some (Program nowhere statements), p)
        /\ List.length statements = 1%nat
        /\ forall pos ipos,
             ~ In (VarDeclaration pos TOKEN_INT (Some "y"%string)
                                  (Some (Literal ipos TOKEN_INTEGER (lit_int_value 7))))
                  statements).
Proof.
  split; [| split].
  - intros fuel p statements H. cbn [parse_loop]. rewrite H.
    rewrite andb_false_r. reflexivity.
  - intros fuel uninit Hfuel. with_fuel_20 Hfuel. eexists.
    do 7 (split; [reflexivity |]). eexists. split; [vm_compute; reflexivity |].
    reflexivity.
  - eexists. eexists. split; [vm_compute; reflexivity |]. split; [reflexivity |].
    intros pos ipos [H | []]. discriminate.
Qed.

Lemma parse_stops_at_first_error_witness :
  let p := snd (consume (parser_create (Lex.lexer_create "5; int y = 7;" "main.shay")
                                       zero_token)
                        TOKEN_SEMICOLON "Expected ';' after variable declaration") in
  had_error p = true
  /\ tok_type (current p) = TOKEN_INTEGER
  /\ parse_loop 30 p (Some []) = Done (Some [], p).
Proof.
  cbv zeta. split; [reflexivity |]. split; [reflexivity |].
  apply (proj1 parse_stops_at_first_error 29%nat). reflexivity.
Defined.

(** C5 (as stated, refuted). In [1 = ;] and in [1 = @ 2;] the left-hand side
    of the assignment is a literal, yet the message recorded is that of the
    missing right-hand side, respectively of the stray [@]: the parser is in
    panic mode when the target is checked and [parser_error] keeps the first
    message. *)
Lemma invalid_target_counterexample :
  (exists p,
     parse 20 "1 = ;" "main.shay" zero_token
     = Done (Some (Program nowhere
               [ExpressionStmt (mkPosition 1 5 "main.shay")
                  (Some (Literal (mkPosition 1 1 "main.shay") TOKEN_INTEGER
                           (lit_int_value 1)))]), p)
     /\ had_error p = true
     /\ parser_get_error p = "Error at line 1, column 5: Expected expression"%string
     /\ contains "Invalid assignment target" (parser_get_error p) = false)
  /\ (exists p,
        parse 20 "1 = @ 2;" "main.shay" zero_token
        = Done (Some (Program nowhere
                  [ExpressionStmt (mkPosition 1 8 "main.shay")
                     (Some (Literal (mkPosition 1 1 "main.shay") TOKEN_INTEGER
                              (lit_int_value 1)))]), p)
        /\ had_error p = true
        /\ parser_get_error p = "Error at line 1, column 6: Lexical error"%string
        /\ contains "Invalid assignment target" (parser_get_error p) = false).
Proof.
  split; (eexists; split; [vm_compute; reflexivity |]); repeat split.
Qed.

(** C5 (amended). Assignment groups to the right: [a = b = 1;] gives
    [Assignment(a, Assignment(b, 1))].  When the left-hand side is a node
    that is not an identifier, [assignment] returns that node and calls
    [parser_error] with "Invalid assignment target": the message is recorded,
    with the position of the current token, unless the parser is already in
    panic mode, in which case the earlier message is kept.  When it is an
    identifier and the arena has room, the [Assignment] node is returned. *)
Theorem assignment_target :
  (forall fuel uninit, (20 <= fuel)%nat ->
     clean_tree (parse fuel "a = b = 1;" "main.shay" uninit)
     = Some (Program nowhere
               [ExpressionStmt nowhere
                  (Some (Assignment nowhere
                           (Some (Identifier nowhere (Some "a"%string)))
                           TOKEN_ASSIGN
                           (Some (Assignment nowhere
                                    (Some (Identifier nowhere (Some "b"%string)))
                                    TOKEN_ASSIGN (literal 1)))))]))
  /\ (forall (expr_fn : Parser -> parsed) fuel p p1 p2 e value,
        logical_or expr_fn fuel p = Done (Some e, p1) ->
        check p1 TOKEN_ASSIGN = true ->
        assignment expr_fn fuel (advance p1) = Done (value, p2) ->
        (is_identifier e = false ->
         let p3 := parser_error p2 "Invalid assignment target" in
         assignment expr_fn (S fuel) p = Done (Some e, p3)
         /\ (panic_mode p2 = false ->
             had_error p3 = true /\ panic_mode p3 = true
             /\ parser_get_error p3
                = strncpy ("Error at line " ++ format_d (line (tok_pos (current p2)))
                           ++ ", column " ++ format_d (column (tok_pos (current p2)))
                           ++ ": Invalid assignment target") 255)
         /\ (panic_mode p2 = true -> p3 = p2))
        /\ (is_identifier e = true ->
            forall pos p3, ast_allocate p2 AST_ASSIGNMENT = (Some pos, p3) ->
            assignment expr_fn (S fuel) p
            = Done (Some (Assignment pos (Some e) TOKEN_ASSIGN value), p3))).
Proof.
  split.
  - intros fuel uninit Hfuel. with_fuel_20 Hfuel. reflexivity.
  - intros expr_fn fuel p p1 p2 e value L C A.
    assert (M : match_ p1 TOKEN_ASSIGN = (true, advance p1)).
    { unfold match_. rewrite C. reflexivity. }
    split.
    + intros I. cbv zeta. split; [| split].
      * cbn [assignment]. rewrite L. cbn [bind]. rewrite M, A. cbn [bind].
        rewrite I. reflexivity.
      * intros P. unfold parser_error, parser_get_error. rewrite P.
        repeat split.
      * intros P. unfold parser_error. rewrite P. reflexivity.
    + intros I pos p3 Al. cbn [assignment]. rewrite L. cbn [bind].
      rewrite M, A. cbn [bind]. rewrite I, Al. reflexivity.
Qed.

Lemma assignment_target_witness :
  let p := parser_create (Lex.lexer_create "1 = 2;" "main.shay") zero_token in
  exists q,
    assignment (expression 10) 11 p
    = Done (Some (Literal (mkPosition 1 1 "main.shay") TOKEN_INTEGER (lit_int_value 1)), q)
    /\ had_error q = true
    /\ parser_get_error q = "Error at line 1, column 6: Invalid assignment target"%string.
Proof.
  cbv zeta.
  edestruct (proj2 assignment_target (expression 10) 10%nat
               (parser_create (Lex.lexer_create "1 = 2;" "main.shay") zero_token))
    as [H _].
  - vm_compute. reflexivity.
  - vm_compute. reflexivity.
  - vm_compute. reflexivity.
  - destruct (H eq_refl) as (A & B & _). eexists. split; [exact A |].
    destruct (B eq_refl) as (B1 & _ & B3). split; [exact B1 |].
    rewrite B3. reflexivity.
Defined.

End ParseFacts.

(** * Properties of the emitter *)

Module GenFacts.

Import Parse Gen.

(** C6 (defect). Trees that the parser returns without a parse error are
    rejected by the C emitter: [primary] tags the literals [true] and [false]
    with [TOKEN_BOOL_KW], for which [generate_c_literal] has no case (its
    cases are [TOKEN_TRUE] and [TOKEN_FALSE]), and [generate_c_expression]
    has no case for the [Unary] nodes of [unary].  A null literal is emitted.
    The other three formats return false with a message, for any tree. *)
Theorem emitter_rejects_parsed_trees :
  (forall fuel uninit, (20 <= fuel)%nat ->
     emitted OUTPUT_C (parse fuel "true;" "main.shay" uninit)
     = Some (false, true, "Unknown literal type"%string)
     /\ emitted OUTPUT_C (parse fuel "bool b = false;" "main.shay" uninit)
        = Some (false, true, "Unknown literal type"%string)
     /\ emitted OUTPUT_C (parse fuel "int x = -1;" "main.shay" uninit)
        = Some (false, true, "Unknown expression type"%string)
     /\ emitted OUTPUT_C (parse fuel "return !done;" "main.shay" uninit)
        = Some (false, true, "Unknown expression type"%string)
     /\ emitted OUTPUT_C (parse fuel "null;" "main.shay" uninit)
        = Some (true, false, EmptyString))
  /\ (forall cg ast,
        format cg <> OUTPUT_C ->
        exists cg',
          codegen_generate (Some cg) (Some ast) = Done (false, Some cg')
          /\ codegen_has_error cg' = true
          /\ In (codegen_get_error cg')
                ["JavaScript output not implemented yet";
                 "Python output not implemented yet";
                 "Bytecode output not implemented yet"]%string).
Proof.
  split.
  - intros fuel uninit Hfuel. repeat split; ParseFacts.with_fuel_20 Hfuel; reflexivity.
  - intros cg ast H. unfold codegen_generate.
    destruct (format cg); [contradiction | | |];
      eexists; (split; [reflexivity |]); (split; [reflexivity |]);
      cbn; auto.
Qed.

Lemma emitter_rejects_parsed_trees_witness :
  exists cg',
    codegen_generate (Some (codegen_create OUTPUT_PYTHON))
                     (Some (Program nowhere []))
    = Done (false, Some cg')
    /\ codegen_get_error cg' = "Python output not implemented yet"%string.
Proof.
  destruct (proj2 emitter_rejects_parsed_trees (codegen_create OUTPUT_PYTHON)
                  (Program nowhere [])) as (cg' & E & _ & _).
  - discriminate.
  - exists cg'. split; [exact E |].
    injection E as <-. reflexivity.
Defined.

End GenFacts.

(** * More on the lexer: what a call changes, spans, positions *)

Module LexMore.

Import Lex LexFacts.

(** *** Integer wrap-around *)

Lemma to_int_range (z : Z) : int_range z -> to_int z = z.
Proof. unfold int_range, to_int. intros H. rewrite Z.mod_small; lia. Qed.

Lemma to_int_shift (x k : Z) : to_int (x + k * 4294967296) = to_int x.
Proof.
  unfold to_int.
  replace (x + k * 4294967296 + 2147483648) with (x + 2147483648 + k * 4294967296) by lia.
  rewrite Z_mod_plus_full. reflexivity.
Qed.

Lemma to_int_repr (a : Z) : exists k, to_int a = a + k * 4294967296.
Proof.
  exists (- ((a + 2147483648) / 4294967296)). unfold to_int.
  rewrite Z.mod_eq by lia. lia.
Qed.

Lemma to_int_add_l (a b : Z) : to_int (to_int a + b) = to_int (a + b).
Proof.
  destruct (to_int_repr a) as [k ->].
  replace (a + k * 4294967296 + b) with (a + b + k * 4294967296) by lia.
  apply to_int_shift.
Qed.

Lemma to_int_sub (a b : Z) : to_int (to_int a - to_int b) = to_int (a - b).
Proof.
  destruct (to_int_repr a) as [k ->]. destruct (to_int_repr b) as [k' ->].
  replace (a + k * 4294967296 - (b + k' * 4294967296))
    with (a - b + (k - k') * 4294967296) by lia.
  apply to_int_shift.
Qed.

(** *** Steps *)

Ltac fields :=
  cbn [source current start pos keywords has_error error_message tokens_processed
       set_current set_pos set_start set_has_error set_error_message
       set_tokens_processed].

Ltac fields_all :=
  cbn [source current start pos keywords has_error error_message tokens_processed
       set_current set_pos set_start set_has_error set_error_message
       set_tokens_processed] in *.

Lemma walk_add (s : string) (n m i : nat) (p : Position) :
  walk s i (n + m) p = walk s (i + n) m (walk s i n p).
Proof.
  revert i p. induction n as [| n IH]; intros i p; cbn [walk Nat.add].
  - rewrite Nat.add_0_r. reflexivity.
  - rewrite IH. f_equal. lia.
Qed.

Lemma steps_refl (l : Lexer) : steps l l.
Proof.
  unfold steps, same_but_cursor. split; [| split; [| split]].
  - repeat split.
  - lia.
  - intros j Hj. lia.
  - rewrite Nat.sub_diag. reflexivity.
Qed.

Lemma steps_trans (a b c : Lexer) : steps a b -> steps b c -> steps a c.
Proof.
  unfold steps, same_but_cursor.
  intros ((S1 & T1 & K1 & H1 & M1 & N1) & L1 & B1 & P1)
         ((S2 & T2 & K2 & H2 & M2 & N2) & L2 & B2 & P2).
  split; [| split; [| split]].
  - repeat split; congruence.
  - lia.
  - intros j Hj. destruct (Nat.lt_ge_cases j (current b)) as [Hlt | Hge].
    + apply B1. lia.
    + rewrite <- S1. apply B2. lia.
  - rewrite P2, P1, S1.
    replace (current c - current a)%nat
      with ((current b - current a) + (current c - current b))%nat by lia.
    rewrite walk_add. f_equal. lia.
Qed.

Lemma steps_advance_1 (x : Lexer) : steps x (advance x).
Proof.
  unfold advance. destruct (is_at_end x) eqn:E; [apply steps_refl |].
  unfold steps, same_but_cursor. fields. split; [| split; [| split]].
  - repeat split.
  - lia.
  - intros j Hj. assert (j = current x) by lia. subst j.
    unfold is_at_end, peek in E. intros N. rewrite N in E. discriminate.
  - replace (S (current x) - current x)%nat with 1%nat by lia. reflexivity.
Qed.

Lemma steps_advance (l x : Lexer) : steps l x -> steps l (advance x).
Proof. intros H. eapply steps_trans; [exact H | apply steps_advance_1]. Qed.

Lemma steps_match (l x : Lexer) (c : ascii) :
  (c =? NL)%char = false -> steps l x -> steps l (snd (match_ x c)).
Proof.
  intros Hc H. eapply steps_trans; [exact H |]. unfold match_.
  destruct (is_at_end x) eqn:E; cbn [orb]; [apply steps_refl |].
  destruct (peek x =? c)%char eqn:P; cbn [negb snd]; [| apply steps_refl].
  apply Ascii.eqb_eq in P.
  unfold steps, same_but_cursor. fields. split; [| split; [| split]].
  - repeat split.
  - lia.
  - intros j Hj. assert (j = current x) by lia. subst j.
    unfold is_at_end, peek in E. intros N. rewrite N in E. discriminate.
  - replace (S (current x) - current x)%nat with 1%nat by lia. cbn [walk].
    unfold step_pos. unfold peek in P. rewrite P, Hc. reflexivity.
Qed.

Lemma steps_while (cond : Lexer -> bool) (body : Lexer -> Lexer) :
  (forall x, cond x = true -> steps x (body x)) ->
  forall fuel l x, steps l x -> steps l (while_ fuel cond body x).
Proof.
  intros Hb fuel. induction fuel as [| fuel IH]; intros l x H; simpl; [assumption |].
  destruct (cond x) eqn:C; [| assumption]. apply IH.
  eapply steps_trans; [exact H | apply Hb, C].
Qed.

Lemma steps_digits (l x : Lexer) : steps l x -> steps l (digits x).
Proof. apply steps_while. intros y _. apply steps_advance_1. Qed.

Lemma steps_unicode_digits (n : nat) (l x : Lexer) :
  steps l x -> steps l (unicode_digits n x).
Proof.
  revert x. induction n as [| n IH]; intros x H; simpl; [assumption |].
  destruct (isxdigit (peek x)); [| assumption]. apply IH, steps_advance, H.
Qed.

Lemma steps_block_comment (fuel : nat) (l x : Lexer) :
  steps l x -> steps l (block_comment_loop fuel x).
Proof.
  revert x. induction fuel as [| fuel IH]; intros x H; simpl; [assumption |].
  destruct (is_at_end x); [assumption |].
  destruct ((peek x =? "*") && (peek_next x =? "/"))%char.
  - apply steps_advance, steps_advance, H.
  - apply IH, steps_advance, H.
Qed.

Lemma steps_skip_whitespace (l : Lexer) : steps l (skip_whitespace l).
Proof.
  unfold skip_whitespace. generalize (fuel_of l). intros fuel.
  assert (G : forall x, steps l x -> steps l (skip_whitespace_loop fuel x));
    [| apply G, steps_refl].
  induction fuel as [| fuel IH]; intros x H; cbn [skip_whitespace_loop]; [assumption |].
  destruct (is_at_end x); [assumption |].
  destruct ((peek x =? " ") || (peek x =? CR) || (peek x =? TAB))%char.
  { apply IH, steps_advance, H. }
  destruct ((peek x =? "/") && (peek_next x =? "/"))%char.
  { apply IH, steps_while; [| exact H]. intros y _. apply steps_advance_1. }
  destruct ((peek x =? "/") && (peek_next x =? "*"))%char; [| assumption].
  apply IH, steps_block_comment, steps_advance, steps_advance, H.
Qed.

Lemma steps_string_body (x : Lexer) : is_at_end x = false -> steps x (string_body x).
Proof.
  intros E. unfold string_body. destruct (peek x =? BACKSLASH)%char.
  - destruct (negb (is_at_end (advance x))).
    + destruct (peek (advance x) =? "x")%char.
      { destruct (isxdigit (peek (advance (advance x))));
          [destruct (isxdigit (peek (advance (advance (advance x))))) |];
          repeat first [apply steps_advance_1 | apply steps_advance]. }
      destruct (peek (advance x) =? "u")%char.
      { apply steps_unicode_digits, steps_advance, steps_advance_1. }
      apply steps_advance, steps_advance_1.
    + apply steps_advance_1.
  - pose proof (steps_advance_1 x) as A. unfold advance in A. rewrite E in A. exact A.
Qed.

Lemma steps_fraction (l x : Lexer) : steps l x -> steps l (snd (fraction x)).
Proof.
  intros H. unfold fraction.
  destruct ((peek x =? ".")%char && isdigit (peek_next x)); cbn [snd]; [| exact H].
  apply steps_digits, steps_advance, H.
Qed.

(** *** The shape of what the scanning functions return *)

Lemma shaped_token (type : TokenType) :
  type <> TOKEN_ERROR -> shaped (fun l => token l type).
Proof.
  intros N l. exists l. split; [apply steps_refl |]. left.
  exists type, value_unset. split; [reflexivity | intros _; exact N].
Qed.

Lemma shaped_error (message : string) :
  In (strncpy message 255) lexical_errors -> shaped (fun l => error_token l message).
Proof.
  intros M l. exists l. split; [apply steps_refl |]. right.
  exists message. split; [exact M | reflexivity].
Qed.

Lemma shaped_if (b : bool) (f g : Lexer -> Token * Lexer) :
  shaped f -> shaped g -> shaped (fun l => if b then f l else g l).
Proof. intros Hf Hg. destruct b; assumption. Qed.

Lemma outcome_after (l x : Lexer) (r : Token * Lexer) :
  steps l x -> outcome x r -> outcome l r.
Proof.
  intros H (l1 & S1 & R). exists l1. split; [eapply steps_trans; eauto |].
  destruct R as [(type & v & R & N) | R]; [left | right; exact R].
  exists type, v. split; [exact R |]. intros K. apply N.
  unfold keywords_sane in *. destruct H as ((_ & _ & -> & _) & _). exact K.
Qed.

Lemma shaped_after (g : Lexer -> Lexer) (f : Lexer -> Token * Lexer) :
  (forall l, steps l (g l)) -> shaped f -> shaped (fun l => f (g l)).
Proof. intros Hg Hf l. eapply outcome_after; [apply Hg | apply Hf]. Qed.

Lemma shaped_match (c : ascii) (f g : Lexer -> Token * Lexer) :
  (c =? NL)%char = false -> shaped f -> shaped g ->
  shaped (fun l => let '(m, l) := match_ l c in if m then f l else g l).
Proof.
  intros Hc Hf Hg l. pose proof (steps_match l l c Hc (steps_refl l)) as S.
  destruct (match_ l c) as [b x]. cbn [snd] in S.
  eapply outcome_after; [exact S |]. destruct b; [apply Hf | apply Hg].
Qed.

Lemma shaped_ext (f g : Lexer -> Token * Lexer) :
  (forall l, f l = g l) -> shaped g -> shaped f.
Proof. intros E H l. rewrite E. apply H. Qed.

Lemma shaped_token_if (c : ascii) (yes no : TokenType) :
  (c =? NL)%char = false -> yes <> TOKEN_ERROR -> no <> TOKEN_ERROR ->
  shaped (fun l => token_if l c yes no).
Proof.
  intros Hc Hy Hn.
  apply shaped_ext with
    (g := fun l => let '(m, l) := match_ l c in if m then token l yes else token l no).
  - intros x. unfold token_if. destruct (match_ x c) as [[|] y]; reflexivity.
  - apply shaped_match; [exact Hc | apply shaped_token | apply shaped_token];
      assumption.
Qed.

Lemma shaped_string : shaped string_.
Proof.
  intros l. unfold string_.
  set (x := while_ (fuel_of l) _ string_body l).
  assert (S : steps l x).
  { apply steps_while; [| apply steps_refl]. intros y C.
    apply andb_true_iff in C. destruct C as [_ C]. apply negb_true_iff in C.
    apply steps_string_body, C. }
  eapply outcome_after; [exact S |].
  destruct (is_at_end x).
  - apply (shaped_error "Unterminated string"). simpl. auto.
  - apply (shaped_after advance (fun y => token y TOKEN_STRING) steps_advance_1).
    apply shaped_token. discriminate.
Qed.

Lemma shaped_char_literal : shaped char_literal.
Proof.
  intros l. unfold char_literal. cbv zeta.
  set (x := if (peek (advance l) =? BACKSLASH)%char then advance (advance (advance l))
            else if negb (peek (advance l) =? SQUOTE)%char then advance (advance l)
                 else advance l).
  assert (S : steps l x).
  { unfold x. destruct (peek (advance l) =? BACKSLASH)%char;
      [| destruct (negb (peek (advance l) =? SQUOTE)%char)];
      repeat first [apply steps_advance_1 | apply steps_advance]. }
  eapply outcome_after; [exact S |].
  pose proof (steps_match x x SQUOTE eq_refl (steps_refl x)) as M.
  destruct (match_ x SQUOTE) as [[|] y]; cbn [snd negb] in *;
    (eapply outcome_after; [exact M |]).
  - apply (shaped_token TOKEN_CHAR). discriminate.
  - apply (shaped_error "Unterminated character literal"). simpl. auto.
Qed.

Lemma shaped_identifier : shaped identifier.
Proof.
  intros l. unfold identifier.
  set (x := while_ (fuel_of l) _ advance l).
  assert (S : steps l x).
  { apply steps_while; [| apply steps_refl]. intros y _. apply steps_advance_1. }
  exists x. split; [exact S |]. left. eexists. exists value_unset.
  split; [reflexivity |]. intros K. apply check_keyword_sane.
  unfold keywords_sane in *. destruct S as ((_ & _ & -> & _) & _). exact K.
Qed.

Ltac steps_tac :=
  repeat first
    [ assumption | apply steps_refl | apply steps_advance | apply steps_digits
    | apply steps_fraction
    | apply steps_while; [intros; apply steps_advance_1 |] ].

Lemma shaped_number : shaped number.
Proof.
  intros l. unfold number.
  destruct ((peek l =? "0")%char && negb (is_at_end l)).
  - destruct ((peek_next l =? "x") || (peek_next l =? "X"))%char.
    { eexists. split; [| left; eexists; eexists; split; [reflexivity | intros _; try destruct fl; discriminate]]. steps_tac. }
    destruct ((peek_next l =? "b") || (peek_next l =? "B"))%char.
    { eexists. split; [| left; eexists; eexists; split; [reflexivity | intros _; try destruct fl; discriminate]]. steps_tac. }
    destruct ((peek_next l =? "o") || (peek_next l =? "O"))%char.
    { eexists. split; [| left; eexists; eexists; split; [reflexivity | intros _; try destruct fl; discriminate]]. steps_tac. }
    pose proof (steps_fraction l (digits l) (steps_digits l l (steps_refl l))) as F.
    destruct (fraction (digits l)) as [fl y]. cbn [snd] in F.
    exists y. split; [exact F | left; eexists; eexists; split; [reflexivity | intros _; try destruct fl; discriminate]].
  - pose proof (steps_fraction l (digits l) (steps_digits l l (steps_refl l))) as F.
    destruct (fraction (digits l)) as [fl y]. cbn [snd] in F.
    destruct (((peek y =? "e") || (peek y =? "E"))%char
              && (isdigit (peek_next y)
                  || ((peek_next y =? "+") || (peek_next y =? "-"))%char)).
    + destruct ((peek (advance y) =? "+") || (peek (advance y) =? "-"))%char;
        (eexists; split; [| left; eexists; eexists; split; [reflexivity | intros _; try destruct fl; discriminate]]); steps_tac.
    + exists y. split; [exact F | left; eexists; eexists; split; [reflexivity | intros _; try destruct fl; discriminate]].
Qed.

Lemma shaped_punctuation (c : ascii) : shaped (punctuation c).
Proof.
  unfold punctuation.
  repeat first
    [ exact shaped_string
    | exact shaped_char_literal
    | apply shaped_error; simpl; tauto
    | apply shaped_token; discriminate
    | apply shaped_token_if; [reflexivity | discriminate | discriminate]
    | apply shaped_match; [reflexivity | |]
    | apply shaped_if ].
Qed.

(** [lexer_next_token]: blanks are stepped over, [start] and the counter are
    set, and from there the token is made. *)
Lemma next_token_outcome (l : Lexer) :
  let x := skip_whitespace l in
  let l0 := set_tokens_processed (to_size_t (tokens_processed l + 1))
              (set_start (current x) x) in
  steps l x /\ outcome l0 (lexer_next_token l).
Proof.
  cbv zeta. split; [apply steps_skip_whitespace |].
  rewrite next_token_unfold. cbv zeta.
  set (x := set_tokens_processed _ (set_start _ (skip_whitespace l))).
  destruct (is_at_end x); [apply (shaped_token TOKEN_EOF); discriminate |].
  eapply outcome_after; [apply steps_advance_1 |].
  destruct (isalpha (peek x) || (peek x =? "_")%char); [apply shaped_identifier |].
  destruct (isdigit (peek x)); [apply shaped_number | apply shaped_punctuation].
Qed.

Lemma next_token_error (l : Lexer) :
  keywords_sane l -> tok_type (fst (lexer_next_token l)) = TOKEN_ERROR ->
  has_error (snd (lexer_next_token l)) = true
  /\ In (error_message (snd (lexer_next_token l))) lexical_errors.
Proof.
  intros K. rewrite next_token_unfold. cbv zeta.
  set (x := set_tokens_processed _ (set_start _ (skip_whitespace l))).
  destruct (is_at_end x); [discriminate |].
  destruct (token_fn_dispatch (peek x) (advance x)) as (_ & _ & F3). cbv beta in F3.
  apply F3. eapply keywords_sane_follows; [| exact K].
  eapply follows_trans; [exact (follows_skip_whitespace l l (follows_refl l)) |].
  eapply (follows_trans _ x); [unfold follows; auto |].
  apply follows_advance, follows_refl.
Qed.

(** ** What one call of [lexer_next_token] changes *)

Lemma next_token_changes (l : Lexer) :
  let t := fst (lexer_next_token l) in
  let l' := snd (lexer_next_token l) in
  source l' = source l /\ keywords l' = keywords l
  /\ tokens_processed l' = to_size_t (tokens_processed l + 1)
  /\ start l' = tok_start t
  /\ ((has_error l' = has_error l /\ error_message l' = error_message l)
      \/ (tok_type t = TOKEN_ERROR /\ has_error l' = true
          /\ In (error_message l') lexical_errors)).
Proof.
  cbv zeta. destruct (next_token_outcome l) as (Sx & l1 & S1 & R). cbv zeta in *.
  destruct Sx as ((X1 & X2 & X3 & X4 & X5 & X6) & _).
  destruct S1 as ((A1 & A2 & A3 & A4 & A5 & A6) & _). fields_all.
  destruct R as [(type & v & R & NE) | (message & M & R)]; rewrite R.
  - cbn [fst snd with_value make_token tok_start tok_type].
    repeat split; try congruence. left. split; congruence.
  - unfold error_token. cbn [fst snd tok_start tok_type]. fields.
    repeat split; try congruence. right. repeat split. exact M.
Qed.

(** A call leaves the buffer and the keyword table alone, counts one token,
    sets [start] to the start of the token it returns, and either leaves the
    error flag and message as they were or returns an error token with the
    flag set and one of the four messages. *)
Theorem next_token_frame (l : Lexer) :
  let t := fst (lexer_next_token l) in
  let l' := snd (lexer_next_token l) in
  source l' = source l /\ keywords l' = keywords l
  /\ tokens_processed l' = to_size_t (tokens_processed l + 1)
  /\ start l' = tok_start t
  /\ ((has_error l' = has_error l /\ error_message l' = error_message l)
      \/ (tok_type t = TOKEN_ERROR /\ has_error l' = true
          /\ In (error_message l') lexical_errors)).
Proof. apply next_token_changes. Qed.

(** With the keyword table of [lexer_create] the error flag is set exactly by
    error tokens and never cleared, and the message changes with error tokens
    only. *)
Theorem has_error_latches (l : Lexer) :
  keywords l = init_keywords ->
  let t := fst (lexer_next_token l) in
  let l' := snd (lexer_next_token l) in
  has_error l' = has_error l || TokenType_eqb (tok_type t) TOKEN_ERROR
  /\ (tok_type t <> TOKEN_ERROR -> error_message l' = error_message l)
  /\ (tok_type t = TOKEN_ERROR -> In (error_message l') lexical_errors).
Proof.
  intros K. cbv zeta.
  assert (S : keywords_sane l).
  { unfold keywords_sane. rewrite K. apply (keywords_sane_create EmptyString EmptyString). }
  pose proof (next_token_error l S) as E.
  destruct (next_token_changes l) as (_ & _ & _ & _ & F). cbv zeta in F.
  destruct (TokenType_eqb (tok_type (fst (lexer_next_token l))) TOKEN_ERROR) eqn:T.
  - apply TokenType_eqb_eq in T. destruct (E T) as [E1 E2].
    rewrite E1, orb_true_r. repeat split; [contradiction | intros _; exact E2].
  - assert (N : tok_type (fst (lexer_next_token l)) <> TOKEN_ERROR).
    { intros H. apply TokenType_eqb_eq in H. congruence. }
    destruct F as [[F1 F2] | (F1 & _)]; [| contradiction].
    rewrite F1, orb_false_r. repeat split; [intros _; exact F2 | contradiction].
Qed.

Lemma has_error_latches_witness :
  let l := snd (tokens 2 (lexer_create "ok @ more" "main.shay")) in
  has_error (lexer_create "ok @ more" "main.shay") = false
  /\ has_error l = true
  /\ tok_type (fst (lexer_next_token l)) = TOKEN_IDENTIFIER
  /\ has_error (snd (lexer_next_token l)) = true
  /\ error_message (snd (lexer_next_token l)) = "Unexpected character"%string.
Proof.
  cbv zeta.
  destruct (has_error_latches (snd (tokens 2 (lexer_create "ok @ more" "main.shay")))
              eq_refl) as (H1 & H2 & _).
  split; [reflexivity |]. split; [reflexivity |]. split; [reflexivity |].
  split; [rewrite H1; reflexivity |].
  rewrite H2; [reflexivity | vm_compute; discriminate].
Defined.

(** ** Spans *)

Lemma token_extent (l : Lexer) :
  let t := fst (lexer_next_token l) in
  let l' := snd (lexer_next_token l) in
  tok_start t = current (skip_whitespace l)
  /\ (current l <= tok_start t <= current l')%nat
  /\ tok_length t = to_size_t (Z.of_nat (current l') - Z.of_nat (tok_start t))
  /\ (forall j, (current l <= j < current l')%nat ->
        char_at (source l) j <> NUL /\ (j < String.length (source l))%nat).
Proof.
  cbv zeta. destruct (next_token_outcome l) as (Sx & l1 & S1 & R). cbv zeta in *.
  destruct Sx as ((X1 & _) & Xle & Xb & _).
  destruct S1 as ((A1 & A2 & _) & Ale & Ab & _). fields_all.
  assert (B : forall j, (current l <= j < current l1)%nat ->
                        char_at (source l) j <> NUL /\ (j < String.length (source l))%nat).
  { intros j Hj.
    assert (N : char_at (source l) j <> NUL).
    { destruct (Nat.lt_ge_cases j (current (skip_whitespace l))) as [H | H].
      - apply Xb. lia.
      - rewrite <- X1. apply Ab. lia. }
    split; [exact N |]. unfold char_at in N.
    destruct (String.get j (source l)) eqn:G; [| contradiction].
    eapply get_lt; eauto. }
  destruct R as [(type & v & R & NE) | (message & M & R)]; rewrite R.
  - cbn [fst snd with_value make_token tok_start tok_length]. rewrite A2.
    repeat split; try lia; apply B; assumption.
  - unfold error_token. cbn [fst snd tok_start tok_length]. fields. rewrite A2.
    repeat split; try lia; apply B; assumption.
Qed.

(** The token returned starts where the blanks and comments after the old
    cursor end, and its lexeme runs to the new cursor; every byte the call
    went over lies in the buffer before its terminator. *)
Theorem token_span (l : Lexer) :
  let t := fst (lexer_next_token l) in
  let l' := snd (lexer_next_token l) in
  tok_start t = current (skip_whitespace l)
  /\ (current l <= tok_start t <= current l')%nat
  /\ tok_length t = to_size_t (Z.of_nat (current l') - Z.of_nat (tok_start t))
  /\ (forall j, (current l <= j < current l')%nat ->
        char_at (source l) j <> NUL /\ (j < String.length (source l))%nat).
Proof. apply token_extent. Qed.

(** In a buffer of fewer than 2^64 bytes, from a cursor inside it: the
    lexeme is the bytes from [tok_start] to the new cursor, which is still
    inside the buffer. *)
Theorem token_span_exact (l : Lexer) :
  Z.of_nat (String.length (source l)) < 18446744073709551616 ->
  (current l <= String.length (source l))%nat ->
  let t := fst (lexer_next_token l) in
  let l' := snd (lexer_next_token l) in
  Z.of_nat (tok_start t) + tok_length t = Z.of_nat (current l')
  /\ (current l' <= String.length (source l))%nat.
Proof.
  intros Hs Hc. cbv zeta. destruct (token_extent l) as (_ & Hle & Hlen & Hb).
  cbv zeta in *.
  assert (C : (current (snd (lexer_next_token l)) <= String.length (source l))%nat).
  { destruct (Nat.eq_dec (current (snd (lexer_next_token l))) (current l)) as [E | N];
      [lia |].
    destruct (Hb (current (snd (lexer_next_token l)) - 1)%nat); lia. }
  split; [| exact C]. rewrite Hlen. unfold to_size_t. rewrite Z.mod_small; lia.
Qed.

Lemma token_span_exact_witness :
  let l := lexer_create "  while (x)" "main.shay" in
  tok_type (fst (lexer_next_token l)) = TOKEN_WHILE
  /\ Z.of_nat (tok_start (fst (lexer_next_token l))) + tok_length (fst (lexer_next_token l))
     = Z.of_nat (current (snd (lexer_next_token l)))
  /\ (current (snd (lexer_next_token l)) <= 11)%nat.
Proof.
  cbv zeta. split; [reflexivity |].
  apply (token_span_exact (lexer_create "  while (x)" "main.shay")).
  - cbn. lia.
  - cbn. lia.
Defined.

(** ** Positions *)

(** The position after a call is the position before it moved over the
    bytes the call went over: a line feed starts the next line at column 1,
    any other byte is one column. *)
Theorem position_tracks_bytes (l : Lexer) :
  let l' := snd (lexer_next_token l) in
  pos l' = walk (source l) (current l) (current l' - current l) (pos l).
Proof.
  cbv zeta. destruct (next_token_outcome l) as (Sx & l1 & S1 & R). cbv zeta in *.
  destruct Sx as ((X1 & _) & Xle & _ & Xp). destruct S1 as (_ & Ale & _ & Ap).
  fields_all.
  assert (P : pos l1 = walk (source l) (current l) (current l1 - current l) (pos l)).
  { rewrite Ap, Xp, X1.
    replace (current l1 - current l)%nat
      with ((current (skip_whitespace l) - current l)
            + (current l1 - current (skip_whitespace l)))%nat by lia.
    rewrite walk_add. f_equal. lia. }
  destruct R as [(type & v & R & NE) | (message & M & R)]; rewrite R; exact P.
Qed.

Lemma to_int_size_t (z : Z) : to_int (to_size_t z) = to_int z.
Proof.
  unfold to_size_t. rewrite Z.mod_eq by lia.
  replace (z - 18446744073709551616 * (z / 18446744073709551616))
    with (z + (- (z / 18446744073709551616) * 4294967296) * 4294967296) by lia.
  apply to_int_shift.
Qed.

Lemma to_int_int_range (z : Z) : int_range (to_int z).
Proof.
  unfold int_range, to_int.
  pose proof (Z.mod_pos_bound (z + 2147483648) 4294967296). lia.
Qed.

(** Over bytes without a line feed the line stays and the column counts. *)
Lemma walk_no_newline (s : string) (n i : nat) (p : Position) :
  (forall j, (i <= j < i + n)%nat -> char_at s j <> NL) ->
  int_range (column p) ->
  walk s i n p = mkPosition (line p) (to_int (column p + Z.of_nat n)) (filename p).
Proof.
  revert i p. induction n as [| n IH]; intros i p H R.
  - cbn [walk]. rewrite Z.add_0_r, to_int_range by exact R. destruct p. reflexivity.
  - cbn [walk]. unfold step_pos.
    destruct (char_at s i =? NL)%char eqn:E.
    { apply Ascii.eqb_eq in E. exfalso. apply (H i); [lia | exact E]. }
    rewrite IH.
    + cbn [line column filename]. rewrite to_int_add_l. f_equal. f_equal. lia.
    + intros j Hj. apply H. lia.
    + apply to_int_int_range.
Qed.

(** A token that is not an error token and whose lexeme holds no line feed
    carries the position the lexer had at the first byte of the lexeme; an
    error token carries the position after its lexeme. *)
Theorem token_position (l : Lexer) :
  keywords l = init_keywords ->
  let t := fst (lexer_next_token l) in
  let l' := snd (lexer_next_token l) in
  (tok_type t <> TOKEN_ERROR ->
   (forall j, (tok_start t <= j < current l')%nat -> char_at (source l) j <> NL) ->
   int_range (column (pos (skip_whitespace l))) ->
   tok_pos t = pos (skip_whitespace l))
  /\ (tok_type t = TOKEN_ERROR -> tok_pos t = pos l').
Proof.
  intros K. cbv zeta.
  assert (S : keywords_sane l).
  { unfold keywords_sane. rewrite K. apply (keywords_sane_create EmptyString EmptyString). }
  destruct (next_token_outcome l) as (Sx & l1 & S1 & R). cbv zeta in *.
  destruct Sx as ((X1 & _ & X3 & _) & _).
  destruct S1 as ((A1 & A2 & _) & Ale & _ & Ap). fields_all.
  destruct R as [(type & v & R & NE) | (message & M & R)]; rewrite R.
  - cbn [fst snd with_value make_token tok_type tok_start tok_pos].
    split; [| intros E; exfalso; apply NE; [| exact E]].
    + intros _ NL R0. rewrite A2 in NL |- *.
      rewrite Ap. rewrite X1 in *. rewrite walk_no_newline.
      * cbn [line column filename].
        rewrite to_int_size_t, to_int_sub, Nat2Z.inj_sub by exact Ale.
        replace (column (pos (skip_whitespace l))
                 + (Z.of_nat (current l1) - Z.of_nat (current (skip_whitespace l)))
                 - (Z.of_nat (current l1) - Z.of_nat (current (skip_whitespace l))))
          with (column (pos (skip_whitespace l))) by lia.
        rewrite to_int_range by exact R0.
        destruct (pos (skip_whitespace l)). reflexivity.
      * intros j Hj. apply NL. lia.
      * exact R0.
    + unfold keywords_sane in *. fields. rewrite X3. exact S.
  - unfold error_token. cbn [fst snd tok_type tok_pos]. fields.
    split; [intros N; contradiction | reflexivity].
Qed.

Lemma token_position_witness :
  let l := snd (lexer_next_token (lexer_create "x = /* note */ count;" "main.shay")) in
  tok_type (fst (lexer_next_token (snd (lexer_next_token l)))) = TOKEN_IDENTIFIER
  /\ tok_pos (fst (lexer_next_token (snd (lexer_next_token l))))
     = mkPosition 1 16 "main.shay".
Proof.
  cbv zeta. split; [reflexivity |].
  destruct (token_position
              (snd (lexer_next_token
                      (snd (lexer_next_token
                              (lexer_create "x = /* note */ count;" "main.shay")))))
              eq_refl) as [H _].
  rewrite H.
  - reflexivity.
  - vm_compute. discriminate.
  - intros j Hj. vm_compute in Hj.
    assert (C : (j = 15 \/ j = 16 \/ j = 17 \/ j = 18 \/ j = 19)%nat) by lia.
    destruct C as [-> | [-> | [-> | [-> | ->]]]]; vm_compute; discriminate.
  - match goal with
    | |- int_range ?c => let v := eval vm_compute in c in change c with v
    end.
    unfold int_range. lia.
Defined.

(** ** Blanks and comments *)

Lemma skip_whitespace_end (l : Lexer) :
  let x := skip_whitespace l in
  is_at_end x = true \/ (blank (peek x) = false /\ starts_comment x = false).
Proof.
  cbv zeta. unfold skip_whitespace.
  assert (G : forall fuel x, (remaining x < fuel)%nat ->
            let y := skip_whitespace_loop fuel x in
            is_at_end y = true \/ (blank (peek y) = false /\ starts_comment y = false)).
  { induction fuel as [| fuel IH]; intros x Hx; [lia |].
    cbn [skip_whitespace_loop]. destruct (is_at_end x) eqn:E; [left; exact E |].
    pose proof (LexFacts.advance_consumes x E) as A.
    assert (F : forall y, follows (advance x) y -> (remaining y < remaining x)%nat).
    { intros y Fy. apply remaining_follows in Fy. lia. }
    destruct ((peek x =? " ") || (peek x =? CR) || (peek x =? TAB))%char eqn:B.
    { apply IH. lia. }
    destruct ((peek x =? "/") && (peek_next x =? "/"))%char eqn:C1.
    { apply IH.
      assert (R : (remaining
                     (while_ (fuel_of x)
                        (fun l0 => negb (peek l0 =? NL)%char && negb (is_at_end l0))
                        advance x) < remaining x)%nat).
      { unfold fuel_of. cbn [while_].
        apply andb_true_iff in C1. destruct C1 as [C1 _]. apply Ascii.eqb_eq in C1.
        rewrite C1, E. change ("/" =? NL)%char with false.
        cbn [negb andb]. apply F. follows_steps. }
      lia. }
    destruct ((peek x =? "/") && (peek_next x =? "*"))%char eqn:C2.
    { apply IH.
      assert (R : (remaining (block_comment_loop (fuel_of x) (advance (advance x)))
                   < remaining x)%nat).
      { apply F, follows_block_comment. follows_steps. }
      lia. }
    right. split; [exact B |]. unfold starts_comment.
    destruct (peek x =? "/")%char; [| reflexivity].
    cbn [andb] in *. rewrite C1, C2. reflexivity. }
  apply G. unfold fuel_of, remaining. lia.
Qed.

(** What [skip_whitespace] passes over. *)

Lemma advance_moves (x : Lexer) :
  is_at_end x = false ->
  source (advance x) = source x /\ current (advance x) = S (current x).
Proof. intros E. unfold advance. rewrite E. split; reflexivity. Qed.

Lemma not_at_end_char (x : Lexer) :
  is_at_end x = false -> char_at (source x) (current x) <> NUL.
Proof. unfold is_at_end, peek. intros E. apply Ascii.eqb_neq. exact E. Qed.

Lemma line_comment_run (fuel : nat) (x : Lexer) :
  (remaining x < fuel)%nat ->
  let w := while_ fuel (fun l => negb (peek l =? NL)%char && negb (is_at_end l))
                  advance x in
  source w = source x /\ (current x <= current w)%nat
  /\ (forall i, (current x <= i < current w)%nat ->
                char_at (source x) i <> NL /\ char_at (source x) i <> NUL)
  /\ (char_at (source x) (current w) = NL \/ char_at (source x) (current w) = NUL).
Proof.
  revert x. induction fuel as [| fuel IH]; intros x Hx; [lia |].
  cbn [while_].
  destruct (negb (peek x =? NL)%char && negb (is_at_end x)) eqn:C.
  - apply andb_true_iff in C. destruct C as [C1 C2].
    apply negb_true_iff in C1, C2.
    destruct (advance_moves x C2) as [S1 S2].
    pose proof (advance_consumes x C2) as R.
    destruct (IH (advance x)) as (A & B & I & E); [lia |].
    rewrite S1 in *. rewrite S2 in *.
    split; [exact A |]. split; [lia |]. split; [| exact E].
    intros i Hi. destruct (Nat.eq_dec i (current x)) as [-> | N].
    + split; [apply Ascii.eqb_neq; exact C1 | apply not_at_end_char; exact C2].
    + apply I. lia.
  - split; [reflexivity |]. split; [lia |]. split; [intros i Hi; lia |].
    apply andb_false_iff in C. destruct C as [C | C]; apply negb_false_iff in C.
    + left. apply Ascii.eqb_eq. exact C.
    + right. apply Ascii.eqb_eq. exact C.
Qed.

Lemma block_comment_run (fuel : nat) (x : Lexer) :
  (remaining x < fuel)%nat ->
  let w := block_comment_loop fuel x in
  let s := source x in
  source w = s
  /\ ((exists i, (current x <= i)%nat /\ current w = (i + 2)%nat
                 /\ char_at s i = "*"%char /\ char_at s (S i) = "/"%char
                 /\ forall j, (current x <= j < i)%nat ->
                      char_at s j <> NUL
                      /\ ~ (char_at s j = "*"%char /\ char_at s (S j) = "/"%char))
      \/ ((current x <= current w)%nat /\ char_at s (current w) = NUL
          /\ forall j, (current x <= j < current w)%nat ->
               char_at s j <> NUL
               /\ ~ (char_at s j = "*"%char /\ char_at s (S j) = "/"%char))).
Proof.
  revert x. induction fuel as [| fuel IH]; intros x Hx; [lia |].
  cbn [block_comment_loop]. cbv zeta.
  destruct (is_at_end x) eqn:E.
  { split; [reflexivity |]. right. split; [lia |].
    split; [apply Ascii.eqb_eq; exact E | intros j Hj; lia]. }
  destruct (advance_moves x E) as [S1 S2].
  pose proof (advance_consumes x E) as R.
  assert (Pn : peek_next x = char_at (source x) (S (current x)))
    by (unfold peek_next; rewrite E; reflexivity).
  destruct ((peek x =? "*") && (peek_next x =? "/"))%char eqn:C.
  - apply andb_true_iff in C. destruct C as [C1 C2].
    apply Ascii.eqb_eq in C1, C2. rewrite Pn in C2. unfold peek in C1.
    assert (E' : is_at_end (advance x) = false).
    { unfold is_at_end, peek. rewrite S1, S2, C2. reflexivity. }
    destruct (advance_moves (advance x) E') as [T1 T2].
    split; [congruence |]. left. exists (current x).
    split; [lia |]. split; [rewrite T2, S2; lia |].
    split; [exact C1 |]. split; [exact C2 |]. intros j Hj. lia.
  - destruct (IH (advance x)) as (A & B); [lia |]. cbv zeta in B.
    rewrite S1 in *. rewrite S2 in *.
    assert (Here : char_at (source x) (current x) <> NUL
                   /\ ~ (char_at (source x) (current x) = "*"%char
                         /\ char_at (source x) (S (current x)) = "/"%char)).
    { split; [apply not_at_end_char; exact E |]. intros [H1 H2].
      unfold peek in C. rewrite Pn, H1, H2 in C. discriminate C. }
    split; [exact A |].
    destruct B as [(i & Hi & Cw & X1 & X2 & I) | (Hw & X & I)].
    + left. exists i. split; [lia |]. split; [exact Cw |].
      split; [exact X1 |]. split; [exact X2 |].
      intros j Hj. destruct (Nat.eq_dec j (current x)) as [-> | N];
        [exact Here | apply I; lia].
    + right. split; [lia |]. split; [exact X |].
      intros j Hj. destruct (Nat.eq_dec j (current x)) as [-> | N];
        [exact Here | apply I; lia].
Qed.

Lemma skip_whitespace_loop_skipped (fuel : nat) (x : Lexer) :
  (remaining x < fuel)%nat ->
  skipped (source x) (current x) (current (skip_whitespace_loop fuel x)).
Proof.
  revert x. induction fuel as [| fuel IH]; intros x Hx; [lia |].
  cbn [skip_whitespace_loop]. destruct (is_at_end x) eqn:E; [apply skipped_none |].
  destruct (advance_moves x E) as [S1 S2].
  pose proof (advance_consumes x E) as R.
  assert (Pn : peek_next x = char_at (source x) (S (current x)))
    by (unfold peek_next; rewrite E; reflexivity).
  destruct ((peek x =? " ") || (peek x =? CR) || (peek x =? TAB))%char eqn:B.
  { apply skipped_blank; [exact B |].
    specialize (IH (advance x)). rewrite S1, S2 in IH. apply IH. lia. }
  destruct ((peek x =? "/") && (peek_next x =? "/"))%char eqn:C1.
  { apply andb_true_iff in C1. destruct C1 as [P1 P2].
    apply Ascii.eqb_eq in P1, P2. rewrite Pn in P2. unfold peek in P1.
    destruct (line_comment_run (fuel_of x) x) as (A & Le & I & Ec);
      [unfold fuel_of, remaining; lia |].
    set (w := while_ (fuel_of x)
                (fun l => negb (peek l =? NL)%char && negb (is_at_end l)) advance x) in *.
    assert (Lt : (current x < current w)%nat).
    { destruct (Nat.eq_dec (current w) (current x)) as [Q | Q]; [| lia].
      rewrite Q, P1 in Ec. destruct Ec; discriminate. }
    apply (skipped_line _ _ (current w)); try assumption.
    specialize (IH w). rewrite A in IH. apply IH.
    unfold remaining in *. rewrite A. lia. }
  destruct ((peek x =? "/") && (peek_next x =? "*"))%char eqn:C2.
  { apply andb_true_iff in C2. destruct C2 as [P1 P2].
    apply Ascii.eqb_eq in P1, P2. rewrite Pn in P2. unfold peek in P1.
    assert (E' : is_at_end (advance x) = false).
    { unfold is_at_end, peek. rewrite S1, S2, P2. reflexivity. }
    destruct (advance_moves (advance x) E') as [T1 T2].
    pose proof (advance_consumes (advance x) E') as R'.
    destruct (block_comment_run (fuel_of x) (advance (advance x))) as (A & Bk).
    { unfold fuel_of. unfold remaining in *. rewrite T1, S1 in *. lia. }
    cbv zeta in Bk.
    set (w := block_comment_loop (fuel_of x) (advance (advance x))) in *.
    rewrite T1, S1 in A, Bk. rewrite T2, S2 in Bk.
    assert (Rw : (remaining w < fuel)%nat).
    { unfold remaining in *. rewrite A. rewrite T1, T2, S1, S2 in R'.
      destruct Bk as [(i & Hi & Cw & _) | (Hw & _)]; lia. }
    specialize (IH w Rw). rewrite A in IH.
    destruct Bk as [(i & Hi & Cw & X1 & X2 & I) | (Hw & X & I)].
    - apply (skipped_block _ _ i); try assumption; try lia.
      + intros j Hj. apply I. lia.
      + rewrite <- Cw. exact IH.
    - apply (skipped_open _ _ (current w)); try assumption; try lia.
      intros j Hj. apply I. lia. }
  apply skipped_none.
Qed.

Lemma stops_at_cursor (x : Lexer) :
  is_at_end x = true \/ (blank (peek x) = false /\ starts_comment x = false) ->
  stops_at (source x) (current x).
Proof.
  unfold stops_at, starts_comment. intros [E | [B C]].
  - left. apply Ascii.eqb_eq. exact E.
  - destruct (is_at_end x) eqn:E; [left; apply Ascii.eqb_eq; exact E |].
    right. split; [exact B |]. intros [P Q].
    unfold peek_next in C. rewrite E in C. unfold peek in C. rewrite P in C.
    destruct Q as [Q | Q]; rewrite Q in C; discriminate C.
Qed.

Ltac stop_contra :=
  exfalso;
  match goal with
  | Bl : forall x, stops_at _ x -> blank _ = true -> False,
    S : stops_at _ ?x, B : blank (char_at _ ?x) = true |- _ => exact (Bl x S B)
  | No : forall x, stops_at _ x -> _ -> _ -> False,
    S : stops_at _ ?x, P : char_at _ ?x = "/"%char |- _ =>
      apply (No x S P); auto
  end.

(** The end of a run of blanks and comments is determined by its start. *)
Lemma skipped_unique (s : string) (a b : nat) :
  skipped s a b -> stops_at s b ->
  forall b', skipped s a b' -> stops_at s b' -> b' = b.
Proof.
  assert (D1 : "/"%char <> NUL) by discriminate.
  assert (D2 : "*"%char <> NUL) by discriminate.
  assert (Nb : forall c, blank c = true -> c <> "/"%char /\ c <> NUL).
  { intros c Hc. split; intros ->; discriminate Hc. }
  assert (No : forall x, stops_at s x -> char_at s x = "/"%char ->
                 char_at s (S x) = "/"%char \/ char_at s (S x) = "*"%char -> False).
  { intros x [St | [_ St]] P Q; [congruence | apply St; tauto]. }
  assert (Bl : forall x, stops_at s x -> blank (char_at s x) = true -> False).
  { intros x [St | [St _]] B; [destruct (Nb _ B); congruence | congruence]. }
  induction 1 as [a | a b B H IH | a e b P1 P2 Le I Ec H IH
                  | a i b P1 P2 Le I X1 X2 H IH | a e b P1 P2 Le I X H IH];
    intros St b' H' St'.
  - inversion H'; subst; try reflexivity; stop_contra.
  - destruct (Nb _ B) as [N1 N2].
    inversion H'; subst; try congruence.
    + stop_contra.
    + apply IH; assumption.
  - inversion H' as [| ? ? B' | ? e' ? Q1 Q2 Le' I' Ec' H'' | | ]; subst;
      try congruence.
    + stop_contra.
    + destruct (Nb _ B'). congruence.
    + assert (e' = e).
      { destruct (Nat.lt_trichotomy e e') as [L | [L | L]]; [| congruence |].
        - destruct (I' e ltac:(lia)) as [A1 A2]. destruct Ec; contradiction.
        - destruct (I e' ltac:(lia)) as [A1 A2]. destruct Ec'; contradiction. }
      subst e'. apply IH; assumption.
  - inversion H' as [| ? ? B' | | ? i' ? Q1 Q2 Le' I' Y1 Y2 H''
                     | ? e' ? Q1 Q2 Le' I' Y H'']; subst; try congruence.
    + stop_contra.
    + destruct (Nb _ B'). congruence.
    + assert (i' = i).
      { destruct (Nat.lt_trichotomy i i') as [L | [L | L]]; [| congruence |].
        - destruct (I' i ltac:(lia)) as [_ A]. exfalso. apply A. tauto.
        - destruct (I i' ltac:(lia)) as [_ A]. exfalso. apply A. tauto. }
      subst i'. apply IH; assumption.
    + exfalso. destruct (Nat.lt_trichotomy i e') as [L | [L | L]].
      * destruct (I' i ltac:(lia)) as [_ A]. apply A. tauto.
      * subst e'. congruence.
      * destruct (I e' ltac:(lia)) as [A _]. contradiction.
  - inversion H' as [| ? ? B' | | ? i' ? Q1 Q2 Le' I' Y1 Y2 H''
                     | ? e' ? Q1 Q2 Le' I' Y H'']; subst; try congruence.
    + stop_contra.
    + destruct (Nb _ B'). congruence.
    + exfalso. destruct (Nat.lt_trichotomy i' e) as [L | [L | L]].
      * destruct (I i' ltac:(lia)) as [_ A]. apply A. tauto.
      * subst e. congruence.
      * destruct (I' e ltac:(lia)) as [A _]. contradiction.
    + assert (e' = e).
      { destruct (Nat.lt_trichotomy e e') as [L | [L | L]]; [| congruence |].
        - destruct (I' e ltac:(lia)) as [A _]. contradiction.
        - destruct (I e' ltac:(lia)) as [A _]. contradiction. }
      subst e'. apply IH; assumption.
Qed.

Lemma skip_whitespace_skipped (l : Lexer) :
  let x := skip_whitespace l in
  source x = source l
  /\ skipped (source l) (current l) (current x)
  /\ stops_at (source l) (current x)
  /\ (forall b, skipped (source l) (current l) b -> stops_at (source l) b ->
                b = current x)
  /\ (peek l = NL -> x = l).
Proof.
  cbv zeta.
  assert (S : source (skip_whitespace l) = source l)
    by apply (follows_skip_whitespace l l (follows_refl l)).
  assert (K : skipped (source l) (current l) (current (skip_whitespace l))).
  { unfold skip_whitespace. apply skip_whitespace_loop_skipped.
    unfold fuel_of, remaining. lia. }
  assert (T : stops_at (source l) (current (skip_whitespace l))).
  { rewrite <- S. apply stops_at_cursor, skip_whitespace_end. }
  split; [exact S |]. split; [exact K |]. split; [exact T |].
  split; [intros b Hb Sb; exact (skipped_unique _ _ _ K T b Hb Sb) |].
  intros N. unfold skip_whitespace, fuel_of. cbn [skip_whitespace_loop].
  destruct (is_at_end l); [reflexivity |]. rewrite N. reflexivity.
Qed.

(** [skip_whitespace] passes over blanks and comments and nothing else.
    The buffer is unchanged; the bytes between the old cursor and the new
    one are a run of blanks, line comments up to their line feed (which
    stays) and block comments up to and with their [*/], or up to the end of
    input for one that nothing closes ([skipped]); the new cursor is at the
    end of input or at a byte that is neither a blank nor the start of a
    comment ([stops_at]); and it is the only offset of which both hold.  A
    line feed under the cursor is not passed: the lexer is returned as it
    was. *)
Theorem skip_whitespace_stops (l : Lexer) :
  let x := skip_whitespace l in
  source x = source l
  /\ skipped (source l) (current l) (current x)
  /\ stops_at (source l) (current x)
  /\ (forall b, skipped (source l) (current l) b -> stops_at (source l) b ->
                b = current x)
  /\ (peek l = NL -> x = l).
Proof. apply skip_whitespace_skipped. Qed.

(** ** Words and numbers *)

(** A loop of [advance] over a run of [n] bytes that satisfy its test. *)
Lemma while_run (cc : ascii -> bool) :
  cc NUL = false ->
  forall n fuel l,
    (n < fuel)%nat ->
    (forall j, (j < n)%nat -> cc (char_at (source l) (current l + j)) = true) ->
    cc (char_at (source l) (current l + n)) = false ->
    while_ fuel (fun l => cc (peek l)) advance l
    = set_current (current l + n) (set_pos (walk (source l) (current l) n (pos l)) l).
Proof.
  intros H0. induction n as [| n IH]; intros fuel l Hf Hall Hstop;
    (destruct fuel as [| fuel]; [lia |]); cbn [while_].
  - unfold peek. rewrite Nat.add_0_r in Hstop. rewrite Hstop.
    cbn [walk]. rewrite Nat.add_0_r. destruct l. reflexivity.
  - pose proof (Hall 0%nat ltac:(lia)) as H1. rewrite Nat.add_0_r in H1.
    unfold peek at 1. rewrite H1.
    assert (E : is_at_end l = false).
    { unfold is_at_end, peek. destruct (char_at (source l) (current l) =? NUL)%char eqn:E;
        [| reflexivity].
      apply Ascii.eqb_eq in E. rewrite E in H1. congruence. }
    assert (A : advance l = set_current (S (current l))
                              (set_pos (step_pos (char_at (source l) (current l)) (pos l)) l)).
    { unfold advance. rewrite E. reflexivity. }
    rewrite IH.
    + rewrite A. fields. cbn [walk]. unfold set_current, set_pos. fields.
      f_equal. lia.
    + lia.
    + intros j Hj. rewrite A. fields. replace (S (current l) + j)%nat
        with (current l + S j)%nat by lia. apply Hall. lia.
    + rewrite A. fields. replace (S (current l) + n)%nat
        with (current l + S n)%nat by lia. exact Hstop.
Qed.

Lemma char_at_app_l (w rest : string) (j : nat) :
  (j < String.length w)%nat -> char_at (w ++ rest) j = char_at w j.
Proof.
  revert j. induction w as [| c w IH]; intros j Hj; [simpl in Hj; lia |].
  destruct j as [| j]; [reflexivity |]. unfold char_at in *. simpl.
  apply IH. simpl in Hj. lia.
Qed.

Lemma char_at_app_r (w rest : string) :
  char_at (w ++ rest) (String.length w) = char_at rest 0.
Proof. induction w as [| c w IH]; [reflexivity |]. unfold char_at in *. simpl. exact IH. Qed.

Lemma all_chars_at (f : ascii -> bool) (w : string) (j : nat) :
  all_chars f w = true -> (j < String.length w)%nat -> f (char_at w j) = true.
Proof.
  revert j. induction w as [| c w IH]; intros j H Hj; [simpl in Hj; lia |].
  simpl in H. apply andb_true_iff in H. destruct H as [H1 H2].
  destruct j as [| j]; [exact H1 |]. unfold char_at in *. simpl. apply IH; [exact H2 |].
  simpl in Hj. lia.
Qed.

Lemma length_app (w rest : string) :
  String.length (w ++ rest) = (String.length w + String.length rest)%nat.
Proof. induction w as [| c w IH]; simpl; [reflexivity | rewrite IH; reflexivity]. Qed.

Lemma substring_app (w rest : string) :
  String.substring 0 (String.length w) (w ++ rest) = w.
Proof. induction w as [| c w IH]; simpl; [destruct rest; reflexivity | rewrite IH; reflexivity]. Qed.

Lemma first_char_at (f : ascii -> bool) (rest : string) :
  f NUL = false -> f (char_at rest 0) = first_char f rest.
Proof. intros H. destruct rest; [exact H | reflexivity]. Qed.

(** The table is searched for the exact text. *)
Lemma check_keyword_lookup (l : Lexer) (w rest : string) :
  source l = (w ++ rest)%string ->
  check_keyword l 0 (Z.of_nat (String.length w)) = lookup (keywords l) w.
Proof.
  intros S. unfold check_keyword, lookup.
  rewrite S, Nat2Z.id, substring_app.
  assert (E : forall ks,
             find (fun k : string * TokenType =>
                     (Z.of_nat (String.length (fst k)) =? Z.of_nat (String.length w))
                     && String.eqb w (fst k)) ks
             = find (fun k => String.eqb w (fst k)) ks).
  { induction ks as [| k ks IH]; [reflexivity |]. cbn [find].
    destruct (String.eqb w (fst k)) eqn:Q.
    - apply String.eqb_eq in Q. rewrite <- Q, Z.eqb_refl. reflexivity.
    - rewrite andb_false_r. exact IH. }
  rewrite E. reflexivity.
Qed.

Lemma word_start (c : ascii) :
  isalpha c || (c =? "_")%char = true ->
  (c =? NUL)%char = false /\ blank c = false /\ (c =? "/")%char = false
  /\ word_char c = true.
Proof.
  destruct c as [[] [] [] [] [] [] [] []]; try discriminate; intros _; repeat split.
Qed.

Lemma word_scan (w rest fname : string) :
  is_word w = true -> first_char word_char rest = false ->
  Z.of_nat (String.length w) < 2147483647 ->
  let r := lexer_next_token (lexer_create (w ++ rest) fname) in
  fst r = mkToken (lookup init_keywords w) 0 (Z.of_nat (String.length w))
                  (mkPosition 1 1 fname) value_unset
  /\ current (snd r) = String.length w
  /\ pos (snd r) = mkPosition 1 (1 + Z.of_nat (String.length w)) fname
  /\ has_error (snd r) = false.
Proof.
  intros W R B. cbv zeta.
  destruct w as [| c w]; [discriminate |]. cbn [is_word] in W.
  simpl String.length in B. rewrite Nat2Z.inj_succ in B.
  apply andb_true_iff in W. destruct W as [W1 W2].
  destruct (word_start c W1) as (N & Bl & Sl & Wc).
  rewrite next_token_unfold. cbv zeta.
  set (l := lexer_create (String c w ++ rest) fname).
  assert (Sk : skip_whitespace l = l).
  { unfold skip_whitespace, fuel_of. cbn [skip_whitespace_loop].
    unfold is_at_end. change (peek l) with c. rewrite N.
    unfold blank in Bl. rewrite Bl, Sl. reflexivity. }
  rewrite Sk.
  set (x := set_tokens_processed _ (set_start _ l)).
  change (is_at_end x) with (c =? NUL)%char. rewrite N.
  change (peek x) with c. rewrite W1.
  assert (A : advance x = set_current 1 (set_pos (mkPosition 1 2 fname) x)).
  { unfold advance. change (is_at_end x) with (c =? NUL)%char. rewrite N.
    change (peek x) with c.
    destruct (c =? NL)%char eqn:E; [| reflexivity].
    apply Ascii.eqb_eq in E. subst c. discriminate. }
  unfold identifier.
  change (fun l0 => isalnum (peek l0) || (peek l0 =? "_")%char)
    with (fun l0 => word_char (peek l0)).
  rewrite (while_run word_char eq_refl (String.length w)).
  - rewrite A. fields.
    assert (NoNL : forall j, (1 <= j < 1 + String.length w)%nat ->
                             char_at (String c w ++ rest) j <> NL).
    { intros j Hj. destruct j as [| j]; [lia |].
      change (char_at (String c w ++ rest) (S j)) with (char_at (w ++ rest) j).
      rewrite char_at_app_l by lia. intros E.
      pose proof (all_chars_at word_char w j W2 ltac:(lia)) as Q.
      rewrite E in Q. discriminate. }
    rewrite (walk_no_newline _ _ _ _ NoNL) by (cbn; unfold int_range; lia).
    cbn [line column filename].
    assert (L : to_size_t (Z.of_nat (1 + String.length w) - Z.of_nat 0)
                = Z.of_nat (String.length (String c w))).
    { unfold to_size_t. rewrite Z.mod_small; simpl String.length; lia. }
    assert (C : to_int (2 + Z.of_nat (String.length w)) = 2 + Z.of_nat (String.length w))
      by (apply to_int_range; unfold int_range; lia).
    assert (D : to_int (2 + Z.of_nat (String.length w)
                        - to_int (Z.of_nat (String.length (String c w)))) = 1).
    { rewrite <- C at 1. rewrite to_int_sub.
      replace (2 + Z.of_nat (String.length w) - Z.of_nat (String.length (String c w)))
        with 1 by (simpl String.length; lia).
      reflexivity. }
    unfold make_token. cbn [fst snd]. fields. cbn [line column filename].
    change (start x) with 0%nat. change (has_error x) with false.
    rewrite L, C, D.
    split; [| split; [| split]].
    + f_equal. rewrite (check_keyword_lookup _ (String c w) rest) by reflexivity.
      reflexivity.
    + reflexivity.
    + f_equal. simpl String.length. lia.
    + reflexivity.
  - rewrite A. unfold fuel_of. fields. simpl String.length.
    rewrite length_app. lia.
  - intros j Hj. rewrite A. fields.
    change (char_at (source x) (1 + j)) with (char_at (w ++ rest) j).
    rewrite char_at_app_l by lia. apply all_chars_at; assumption.
  - rewrite A. fields.
    change (char_at (source x) (1 + String.length w))
      with (char_at (w ++ rest) (String.length w)).
    rewrite char_at_app_r, first_char_at by reflexivity. exact R.
Qed.

(** A word followed by a byte that is no letter, digit or underscore is read
    as one token: it starts the buffer at line 1, column 1, spans the word,
    and its kind is the one the keyword table gives the word. *)
Theorem word_token (w rest fname : string) :
  is_word w = true -> first_char word_char rest = false ->
  Z.of_nat (String.length w) < 2147483647 ->
  let r := lexer_next_token (lexer_create (w ++ rest) fname) in
  fst r = mkToken (lookup init_keywords w) 0 (Z.of_nat (String.length w))
                  (mkPosition 1 1 fname) value_unset
  /\ current (snd r) = String.length w
  /\ pos (snd r) = mkPosition 1 (1 + Z.of_nat (String.length w)) fname
  /\ has_error (snd r) = false.
Proof. apply word_scan. Qed.

Lemma word_token_witness :
  let r := lexer_next_token (lexer_create "while (x)" "a.shay") in
  fst r = mkToken TOKEN_WHILE 0 5 (mkPosition 1 1 "a.shay") value_unset
  /\ current (snd r) = 5%nat
  /\ pos (snd r) = mkPosition 1 6 "a.shay"
  /\ has_error (snd r) = false.
Proof.
  exact (word_token "while" " (x)" "a.shay" eq_refl eq_refl ltac:(vm_compute; reflexivity)).
Defined.

(** Every spelling of the keyword table is read as the kind the table pairs
    it with, whatever follows that is no letter, digit or underscore: no
    entry is shadowed by another, and none fails the test of a word. *)
Theorem keywords_read_back (rest fname : string) :
  first_char word_char rest = false ->
  Forall (fun k => fst (lexer_next_token (lexer_create (fst k ++ rest) fname))
                   = mkToken (snd k) 0 (Z.of_nat (String.length (fst k)))
                             (mkPosition 1 1 fname) value_unset)
         init_keywords.
Proof.
  intros R. unfold init_keywords.
  repeat (apply Forall_cons;
          [ match goal with
            | |- fst (lexer_next_token (lexer_create (fst (?w, ?t) ++ _) _)) = _ =>
                exact (proj1 (word_scan w rest fname eq_refl R
                                         ltac:(vm_compute; reflexivity)))
            end |]).
  apply Forall_nil.
Qed.

Lemma keywords_read_back_witness :
  Forall (fun k => fst (lexer_next_token (lexer_create (fst k ++ ";") "a.shay"))
                   = mkToken (snd k) 0 (Z.of_nat (String.length (fst k)))
                             (mkPosition 1 1 "a.shay") value_unset)
         init_keywords.
Proof. exact (keywords_read_back ";" "a.shay" eq_refl). Defined.

(** ** Decimal literals *)

Lemma strtoll_digits_stop (acc : Z) (s : string) :
  first_char isdigit s = false -> strtoll_digits 10 acc s = acc.
Proof.
  destruct s as [| c r]; [reflexivity |]. cbn [first_char strtoll_digits].
  destruct c as [[] [] [] [] [] [] [] []]; try discriminate; intros _; reflexivity.
Qed.

Lemma strtoll_digits_app (w s : string) :
  first_char isdigit s = false ->
  forall acc, strtoll_digits 10 acc (w ++ s) = strtoll_digits 10 acc w.
Proof.
  intros H. induction w as [| c w IH]; intros acc.
  - apply strtoll_digits_stop. exact H.
  - cbn [append strtoll_digits]. destruct (digit_value c) as [d |]; [| reflexivity].
    destruct (d <? 10); [apply IH | reflexivity].
Qed.

Lemma strtoll_digits_acc (d : Decimal.uint) :
  forall acc, strtoll_digits 10 (Z.pos acc) (NilEmpty.string_of_uint d)
              = Z.pos (Pos.of_uint_acc d acc).
Proof.
  induction d; intros acc; cbn [NilEmpty.string_of_uint Pos.of_uint_acc strtoll_digits];
    [reflexivity | ..];
    match goal with
    | |- context [digit_value ?c] =>
        let v := eval vm_compute in (digit_value c) in change (digit_value c) with v
    end; cbv iota beta;
    match goal with
    | |- context [?a <? 10] =>
        let v := eval vm_compute in (a <? 10) in change (a <? 10) with v
    end; cbv iota; rewrite <- IHd; f_equal; lia.
Qed.

Lemma strtoll_digits_uint (d : Decimal.uint) :
  strtoll_digits 10 0 (NilEmpty.string_of_uint d) = Z.of_N (Pos.of_uint d).
Proof.
  induction d; cbn [NilEmpty.string_of_uint Pos.of_uint strtoll_digits];
    [reflexivity | exact IHd | ..];
    match goal with
    | |- context [digit_value ?c] =>
        let v := eval vm_compute in (digit_value c) in change (digit_value c) with v
    end; cbv iota beta;
    match goal with
    | |- context [?a <? 10] =>
        let v := eval vm_compute in (a <? 10) in change (a <? 10) with v
    end; cbv iota; cbn [Z.of_N]; rewrite <- strtoll_digits_acc; reflexivity.
Qed.

Lemma string_of_uint_digits (d : Decimal.uint) :
  all_chars isdigit (NilZero.string_of_uint d) = true.
Proof.
  assert (E : forall d, all_chars isdigit (NilEmpty.string_of_uint d) = true).
  { induction d0; cbn [NilEmpty.string_of_uint all_chars]; [reflexivity | ..];
      rewrite IHd0; reflexivity. }
  destruct d; try apply E. reflexivity.
Qed.

Lemma format_d_digits (n : Z) :
  0 <= n ->
  all_chars isdigit (format_d n) = true /\ format_d n <> EmptyString
  /\ strtoll_digits 10 0 (format_d n) = n.
Proof.
  intros H. unfold format_d.
  pose proof (DecimalZ.of_to n) as Q.
  destruct n as [| p | p]; [| | lia]; cbn [Z.to_int NilZero.string_of_int] in *.
  - repeat split. discriminate.
  - split; [apply string_of_uint_digits |].
    unfold Z.of_int, Z.of_uint in Q.
    destruct (Pos.to_uint p) eqn:E; cbn [NilZero.string_of_uint];
      (split; [discriminate |]); try (rewrite strtoll_digits_uint; exact Q).
    rewrite <- Q. reflexivity.
Qed.
Lemma digit_start (c : ascii) :
  isdigit c = true ->
  (c =? NUL)%char = false /\ blank c = false /\ (c =? "/")%char = false
  /\ isalpha c || (c =? "_")%char = false /\ (c =? NL)%char = false.
Proof.
  destruct c as [[] [] [] [] [] [] [] []]; try discriminate; intros _; repeat split.
Qed.

(** A byte of a decimal literal or the byte after it starts no prefix. *)
Lemma no_prefix_letter (c : ascii) :
  isdigit c = true \/ ends_integer c = true ->
  ((c =? "x") || (c =? "X"))%char = false /\ ((c =? "b") || (c =? "B"))%char = false
  /\ ((c =? "o") || (c =? "O"))%char = false.
Proof.
  destruct c as [[] [] [] [] [] [] [] []]; intros [H | H]; try discriminate H;
    repeat split.
Qed.

Lemma ends_integer_stop (c : ascii) :
  ends_integer c = true ->
  isdigit c = false /\ (c =? ".")%char = false
  /\ ((c =? "e") || (c =? "E"))%char = false.
Proof.
  destruct c as [[] [] [] [] [] [] [] []]; intros H; try discriminate H; repeat split.
Qed.

Lemma until_nul_app (w s : string) :
  all_chars isdigit w = true -> until_nul (w ++ s) = (w ++ until_nul s)%string.
Proof.
  induction w as [| c w IH]; intros H; [reflexivity |].
  cbn [all_chars] in H. apply andb_true_iff in H. destruct H as [H1 H2].
  cbn [append until_nul]. destruct (digit_start c H1) as (N & _). rewrite N, IH by exact H2.
  reflexivity.
Qed.

Lemma first_char_until_nul (f : ascii -> bool) (s : string) :
  f NUL = false -> first_char f (until_nul s) = first_char f s.
Proof.
  intros H. destruct s as [| c r]; [reflexivity |]. cbn [until_nul].
  destruct (c =? NUL)%char eqn:E; [| reflexivity].
  apply Ascii.eqb_eq in E. subst c. cbn [first_char]. symmetry. exact H.
Qed.

Lemma digits_scan (w rest fname : string) :
  all_chars isdigit w = true -> w <> EmptyString ->
  ends_integer (char_at rest 0) = true ->
  Z.of_nat (String.length w) < 2147483647 ->
  let r := lexer_next_token (lexer_create (w ++ rest) fname) in
  fst r = mkToken TOKEN_INTEGER 0 (Z.of_nat (String.length w)) (mkPosition 1 1 fname)
                  (int_value (clamp_llong (strtoll_digits 10 0 w)))
  /\ current (snd r) = String.length w
  /\ pos (snd r) = mkPosition 1 (1 + Z.of_nat (String.length w)) fname
  /\ has_error (snd r) = false.
Proof.
  intros W NE R B. cbv zeta.
  destruct w as [| c w]; [congruence |]. clear NE.
  pose proof W as Wall. cbn [all_chars] in W.
  simpl String.length in B. rewrite Nat2Z.inj_succ in B.
  apply andb_true_iff in W. destruct W as [W1 W2].
  destruct (digit_start c W1) as (N & Bl & Sl & Al & Nl).
  destruct (ends_integer_stop _ R) as (Rd & Rdot & Re).
  rewrite next_token_unfold. cbv zeta.
  set (l := lexer_create (String c w ++ rest) fname).
  assert (Sk : skip_whitespace l = l).
  { unfold skip_whitespace, fuel_of. cbn [skip_whitespace_loop].
    unfold is_at_end. change (peek l) with c. rewrite N.
    unfold blank in Bl. rewrite Bl, Sl. reflexivity. }
  rewrite Sk.
  set (x := set_tokens_processed _ (set_start _ l)).
  change (is_at_end x) with (c =? NUL)%char. rewrite N.
  change (peek x) with c. rewrite Al, W1.
  assert (A : advance x = set_current 1 (set_pos (mkPosition 1 2 fname) x)).
  { unfold advance. change (is_at_end x) with (c =? NUL)%char. rewrite N.
    change (peek x) with c. rewrite Nl. reflexivity. }
  rewrite A. set (l1 := set_current 1 _).
  set (l2 := set_current (1 + String.length w)
               (set_pos (walk (source l1) 1 (String.length w) (pos l1)) l1)).
  assert (D : digits l1 = l2).
  { unfold digits. rewrite (while_run isdigit eq_refl (String.length w)).
    - reflexivity.
    - unfold fuel_of, l1. fields. simpl String.length. rewrite length_app. lia.
    - intros j Hj. unfold l1. fields.
      change (char_at (source x) (1 + j)) with (char_at (w ++ rest) j).
      rewrite char_at_app_l by lia. apply all_chars_at; assumption.
    - unfold l1. fields.
      change (char_at (source x) (1 + String.length w))
        with (char_at (w ++ rest) (String.length w)).
      rewrite char_at_app_r. exact Rd. }
  assert (P2 : peek l2 = char_at rest 0).
  { unfold peek, l2, l1. fields.
    change (char_at (source x) (1 + String.length w))
      with (char_at (w ++ rest) (String.length w)).
    apply char_at_app_r. }
  assert (F : fraction l2 = (false, l2)).
  { unfold fraction. rewrite P2, Rdot. reflexivity. }
  assert (Nx : number l1
               = (with_value (int_value (strtoll (c_string_at (source l2) (start l2)) 10))
                             (make_token l2 TOKEN_INTEGER), l2)).
  { unfold number.
    destruct ((peek l1 =? "0")%char && negb (is_at_end l1)) eqn:Z0.
    - assert (Q : isdigit (peek_next l1) = true \/ ends_integer (peek_next l1) = true).
      { apply andb_true_iff in Z0. destruct Z0 as [Z1 Z2].
        unfold peek_next. apply negb_true_iff in Z2. rewrite Z2.
        unfold l1. fields.
        change (char_at (source x) 2) with (char_at (w ++ rest) 1).
        destruct w as [| c' w'].
        + unfold peek, l1 in Z1. fields_all.
          change (char_at (source x) 1) with (char_at rest 0) in Z1.
          apply Ascii.eqb_eq in Z1. rewrite Z1 in Rd. discriminate.
        + change (char_at (String c' w' ++ rest) 1) with (char_at (w' ++ rest) 0).
          destruct w' as [| c'' w''].
          * right. exact R.
          * left. cbn [all_chars] in W2.
            apply andb_true_iff in W2. destruct W2 as [_ W2].
            apply andb_true_iff in W2. destruct W2 as [W2 _]. exact W2. }
      destruct (no_prefix_letter _ Q) as (Q1 & Q2 & Q3).
      rewrite Q1, Q2, Q3, D, F. reflexivity.
    - rewrite D, F, P2, Re. reflexivity. }
  rewrite Nx. cbn [fst snd].
  assert (NoNL : forall j, (1 <= j < 1 + String.length w)%nat ->
                           char_at (String c w ++ rest) j <> NL).
  { intros j Hj. destruct j as [| j]; [lia |].
    change (char_at (String c w ++ rest) (S j)) with (char_at (w ++ rest) j).
    rewrite char_at_app_l by lia. intros E.
    pose proof (all_chars_at isdigit w j W2 ltac:(lia)) as Q.
    rewrite E in Q. discriminate. }
  assert (Pw : pos l2 = mkPosition 1 (2 + Z.of_nat (String.length w)) fname).
  { unfold l2, l1. fields.
    rewrite (walk_no_newline _ _ _ _ NoNL) by (cbn; unfold int_range; lia).
    cbn [line column filename]. f_equal. apply to_int_range. unfold int_range. lia. }
  assert (L : to_size_t (Z.of_nat (1 + String.length w) - Z.of_nat 0)
              = Z.of_nat (String.length (String c w))).
  { unfold to_size_t. rewrite Z.mod_small; simpl String.length; lia. }
  assert (V : strtoll (c_string_at (source l2) (start l2)) 10
              = clamp_llong (strtoll_digits 10 0 (String c w))).
  { change (c_string_at (source l2) (start l2))
      with (until_nul (String c w ++ rest)).
    rewrite until_nul_app by exact Wall.
    unfold strtoll. cbn [append skip_spaces].
    assert (Sp : isspace c = false /\ (c =? "-")%char = false /\ (c =? "+")%char = false).
    { clear -W1. destruct c as [[] [] [] [] [] [] [] []]; try discriminate; repeat split. }
    destruct Sp as (S1 & S2 & S3). rewrite S1, S2, S3.
    unfold skip_hex_prefix. change (10 =? 16) with false. cbv iota.
    change (String c (w ++ until_nul rest)) with (String c w ++ until_nul rest)%string.
    rewrite strtoll_digits_app; [reflexivity |].
    rewrite first_char_until_nul by reflexivity.
    rewrite <- first_char_at by reflexivity. exact Rd. }
  rewrite V. unfold with_value, make_token. cbn [tok_type tok_start tok_length tok_pos].
  rewrite Pw. cbn [line column filename].
  change (start l2) with 0%nat. change (current l2) with (1 + String.length w)%nat.
  change (has_error l2) with false. rewrite L.
  assert (C : to_int (2 + Z.of_nat (String.length w)
                      - to_int (Z.of_nat (String.length (String c w)))) = 1).
  { rewrite (to_int_range (Z.of_nat _)) by (unfold int_range; simpl String.length; lia).
    replace (2 + Z.of_nat (String.length w) - Z.of_nat (String.length (String c w)))
      with 1 by (simpl String.length; lia).
    reflexivity. }
  rewrite C.
  split; [| split; [| split]]; try reflexivity.
  f_equal. simpl String.length. lia.
Qed.

(** The same without the bound on the length, for what does not need it. *)
Lemma digits_scan_state (w rest fname : string) :
  all_chars isdigit w = true -> w <> EmptyString ->
  ends_integer (char_at rest 0) = true ->
  let r := lexer_next_token (lexer_create (w ++ rest) fname) in
  tok_type (fst r) = TOKEN_INTEGER /\ tok_start (fst r) = 0%nat
  /\ tok_value (fst r) = int_value (clamp_llong (strtoll_digits 10 0 w))
  /\ current (snd r) = String.length w
  /\ has_error (snd r) = false.
Proof.
  intros W NE R. cbv zeta.
  destruct w as [| c w]; [congruence |]. clear NE.
  pose proof W as Wall. cbn [all_chars] in W.
  apply andb_true_iff in W. destruct W as [W1 W2].
  destruct (digit_start c W1) as (N & Bl & Sl & Al & Nl).
  destruct (ends_integer_stop _ R) as (Rd & Rdot & Re).
  rewrite next_token_unfold. cbv zeta.
  set (l := lexer_create (String c w ++ rest) fname).
  assert (Sk : skip_whitespace l = l).
  { unfold skip_whitespace, fuel_of. cbn [skip_whitespace_loop].
    unfold is_at_end. change (peek l) with c. rewrite N.
    unfold blank in Bl. rewrite Bl, Sl. reflexivity. }
  rewrite Sk.
  set (x := set_tokens_processed _ (set_start _ l)).
  change (is_at_end x) with (c =? NUL)%char. rewrite N.
  change (peek x) with c. rewrite Al, W1.
  assert (A : advance x = set_current 1 (set_pos (mkPosition 1 2 fname) x)).
  { unfold advance. change (is_at_end x) with (c =? NUL)%char. rewrite N.
    change (peek x) with c. rewrite Nl. reflexivity. }
  rewrite A. set (l1 := set_current 1 _).
  set (l2 := set_current (1 + String.length w)
               (set_pos (walk (source l1) 1 (String.length w) (pos l1)) l1)).
  assert (D : digits l1 = l2).
  { unfold digits. rewrite (while_run isdigit eq_refl (String.length w)).
    - reflexivity.
    - unfold fuel_of, l1. fields. simpl String.length. rewrite length_app. lia.
    - intros j Hj. unfold l1. fields.
      change (char_at (source x) (1 + j)) with (char_at (w ++ rest) j).
      rewrite char_at_app_l by lia. apply all_chars_at; assumption.
    - unfold l1. fields.
      change (char_at (source x) (1 + String.length w))
        with (char_at (w ++ rest) (String.length w)).
      rewrite char_at_app_r. exact Rd. }
  assert (P2 : peek l2 = char_at rest 0).
  { unfold peek, l2, l1. fields.
    change (char_at (source x) (1 + String.length w))
      with (char_at (w ++ rest) (String.length w)).
    apply char_at_app_r. }
  assert (F : fraction l2 = (false, l2)).
  { unfold fraction. rewrite P2, Rdot. reflexivity. }
  assert (Nx : number l1
               = (with_value (int_value (strtoll (c_string_at (source l2) (start l2)) 10))
                             (make_token l2 TOKEN_INTEGER), l2)).
  { unfold number.
    destruct ((peek l1 =? "0")%char && negb (is_at_end l1)) eqn:Z0.
    - assert (Q : isdigit (peek_next l1) = true \/ ends_integer (peek_next l1) = true).
      { apply andb_true_iff in Z0. destruct Z0 as [Z1 Z2].
        unfold peek_next. apply negb_true_iff in Z2. rewrite Z2.
        unfold l1. fields.
        change (char_at (source x) 2) with (char_at (w ++ rest) 1).
        destruct w as [| c' w'].
        + unfold peek, l1 in Z1. fields_all.
          change (char_at (source x) 1) with (char_at rest 0) in Z1.
          apply Ascii.eqb_eq in Z1. rewrite Z1 in Rd. discriminate.
        + change (char_at (String c' w' ++ rest) 1) with (char_at (w' ++ rest) 0).
          destruct w' as [| c'' w''].
          * right. exact R.
          * left. cbn [all_chars] in W2.
            apply andb_true_iff in W2. destruct W2 as [_ W2].
            apply andb_true_iff in W2. destruct W2 as [W2 _]. exact W2. }
      destruct (no_prefix_letter _ Q) as (Q1 & Q2 & Q3).
      rewrite Q1, Q2, Q3, D, F. reflexivity.
    - rewrite D, F, P2, Re. reflexivity. }
  rewrite Nx. cbn [fst snd].
  assert (V : strtoll (c_string_at (source l2) (start l2)) 10
              = clamp_llong (strtoll_digits 10 0 (String c w))).
  { change (c_string_at (source l2) (start l2))
      with (until_nul (String c w ++ rest)).
    rewrite until_nul_app by exact Wall.
    unfold strtoll. cbn [append skip_spaces].
    assert (Sp : isspace c = false /\ (c =? "-")%char = false /\ (c =? "+")%char = false).
    { clear -W1. destruct c as [[] [] [] [] [] [] [] []]; try discriminate; repeat split. }
    destruct Sp as (S1 & S2 & S3). rewrite S1, S2, S3.
    unfold skip_hex_prefix. change (10 =? 16) with false. cbv iota.
    change (String c (w ++ until_nul rest)) with (String c w ++ until_nul rest)%string.
    rewrite strtoll_digits_app; [reflexivity |].
    rewrite first_char_until_nul by reflexivity.
    rewrite <- first_char_at by reflexivity. exact Rd. }
  rewrite V. unfold with_value, make_token.
  cbn [fst snd tok_type tok_start tok_length tok_pos tok_value].
  change (start l2) with 0%nat. change (current l2) with (1 + String.length w)%nat.
  change (has_error l2) with false.
  repeat split.
Qed.

(** A run of decimal digits followed by a byte that does not continue a
    number is read as one INTEGER token: it spans the digits and carries
    their value, clamped to [long long] as [strtoll] does. *)
Theorem digits_token (w rest fname : string) :
  all_chars isdigit w = true -> w <> EmptyString ->
  ends_integer (char_at rest 0) = true ->
  Z.of_nat (String.length w) < 2147483647 ->
  let r := lexer_next_token (lexer_create (w ++ rest) fname) in
  fst r = mkToken TOKEN_INTEGER 0 (Z.of_nat (String.length w)) (mkPosition 1 1 fname)
                  (int_value (clamp_llong (strtoll_digits 10 0 w)))
  /\ current (snd r) = String.length w
  /\ pos (snd r) = mkPosition 1 (1 + Z.of_nat (String.length w)) fname
  /\ has_error (snd r) = false.
Proof. apply digits_scan. Qed.

Lemma digits_token_witness :
  let r := lexer_next_token (lexer_create "007;" "a.shay") in
  fst r = mkToken TOKEN_INTEGER 0 3 (mkPosition 1 1 "a.shay") (int_value 7)
  /\ current (snd r) = 3%nat
  /\ pos (snd r) = mkPosition 1 4 "a.shay"
  /\ has_error (snd r) = false.
Proof.
  exact (digits_token "007" ";" "a.shay" eq_refl ltac:(discriminate) eq_refl
                      ltac:(vm_compute; reflexivity)).
Defined.

(** Printing a number that is not negative with [%lld] and reading the text
    back gives an INTEGER token that carries the number, or [LLONG_MAX] for a
    larger one. *)
Theorem printed_integer_token (n : Z) (rest fname : string) :
  0 <= n -> ends_integer (char_at rest 0) = true ->
  Z.of_nat (String.length (format_d n)) < 2147483647 ->
  let r := lexer_next_token (lexer_create (format_d n ++ rest) fname) in
  fst r = mkToken TOKEN_INTEGER 0 (Z.of_nat (String.length (format_d n)))
                  (mkPosition 1 1 fname) (int_value (clamp_llong n))
  /\ current (snd r) = String.length (format_d n)
  /\ has_error (snd r) = false.
Proof.
  intros H R B. cbv zeta.
  destruct (format_d_digits n H) as (D1 & D2 & D3).
  destruct (digits_scan (format_d n) rest fname D1 D2 R B) as (T & C & _ & E).
  rewrite D3 in T. auto.
Qed.

Lemma printed_integer_token_witness :
  let r := lexer_next_token (lexer_create (format_d 9223372036854775808 ++ " + 1")
                                          "a.shay") in
  fst r = mkToken TOKEN_INTEGER 0 (Z.of_nat (String.length (format_d 9223372036854775808)))
                  (mkPosition 1 1 "a.shay") (int_value (clamp_llong 9223372036854775808))
  /\ current (snd r) = String.length (format_d 9223372036854775808)
  /\ has_error (snd r) = false.
Proof.
  exact (printed_integer_token 9223372036854775808 " + 1" "a.shay"
           ltac:(lia) eq_refl ltac:(vm_compute; reflexivity)).
Defined.

(** ** Kinds and first bytes *)

Lemma string_kind (l : Lexer) :
  tok_type (fst (string_ l)) = TOKEN_STRING \/ tok_type (fst (string_ l)) = TOKEN_ERROR.
Proof.
  unfold string_. match goal with |- context [is_at_end ?x] => destruct (is_at_end x) end;
    [right | left]; reflexivity.
Qed.

Lemma char_literal_kind (l : Lexer) :
  tok_type (fst (char_literal l)) = TOKEN_CHAR
  \/ tok_type (fst (char_literal l)) = TOKEN_ERROR.
Proof.
  unfold char_literal.
  match goal with |- context [match_ ?x ?c] => destruct (match_ x c) as [[] ?] end;
    [left | right]; reflexivity.
Qed.

Lemma number_kind (l : Lexer) :
  tok_type (fst (number l)) = TOKEN_INTEGER \/ tok_type (fst (number l)) = TOKEN_FLOAT.
Proof.
  unfold number.
  repeat match goal with
         | |- context [if ?b then _ else _] =>
             match b with
             | context [if _ then _ else _] => fail 1
             | _ => destruct b
             end
         | |- context [fraction ?x] => destruct (fraction x) as [[] ?]
         end; cbn [fst with_value make_token tok_type]; auto.
Qed.

(** The kinds of the operators and delimiters. *)
Lemma punctuation_kind (c : ascii) (l : Lexer) :
  let k := tok_type (fst (punctuation c l)) in
  (k = TOKEN_NEWLINE /\ c = NL) \/ (k = TOKEN_STRING /\ c = DQUOTE)
  \/ (k = TOKEN_CHAR /\ c = SQUOTE) \/ (k = TOKEN_ERROR /\ c <> NL)
  \/ (c <> NL
      /\ existsb (TokenType_eqb k)
           [TOKEN_PLUS; TOKEN_MINUS; TOKEN_MULTIPLY; TOKEN_DIVIDE; TOKEN_MODULO;
            TOKEN_POWER; TOKEN_INCREMENT; TOKEN_DECREMENT; TOKEN_ASSIGN;
            TOKEN_PLUS_ASSIGN; TOKEN_MINUS_ASSIGN; TOKEN_MULTIPLY_ASSIGN;
            TOKEN_DIVIDE_ASSIGN; TOKEN_MODULO_ASSIGN; TOKEN_POWER_ASSIGN;
            TOKEN_EQUAL; TOKEN_NOT_EQUAL; TOKEN_STRICT_EQUAL; TOKEN_LESS;
            TOKEN_LESS_EQUAL; TOKEN_GREATER; TOKEN_GREATER_EQUAL; TOKEN_AND;
            TOKEN_OR; TOKEN_NOT; TOKEN_BITWISE_AND; TOKEN_BITWISE_OR; TOKEN_XOR;
            TOKEN_TILDE; TOKEN_LSHIFT; TOKEN_RSHIFT; TOKEN_AND_ASSIGN;
            TOKEN_OR_ASSIGN; TOKEN_XOR_ASSIGN; TOKEN_LSHIFT_ASSIGN;
            TOKEN_RSHIFT_ASSIGN; TOKEN_LPAREN; TOKEN_RPAREN; TOKEN_LBRACE;
            TOKEN_RBRACE; TOKEN_LBRACKET; TOKEN_RBRACKET; TOKEN_SEMICOLON;
            TOKEN_COMMA; TOKEN_DOT; TOKEN_COLON; TOKEN_SCOPE; TOKEN_ARROW;
            TOKEN_QUESTION; TOKEN_ELLIPSIS; TOKEN_HASH] = true).
Proof.
  cbv zeta.
  destruct c as [[] [] [] [] [] [] [] []];
    lazy beta iota delta [punctuation Ascii.eqb Bool.eqb andb NL DQUOTE SQUOTE];
    try (pose proof (string_kind l) as [-> | ->];
         [right; left; split; reflexivity
         | do 3 right; left; split; [reflexivity | discriminate]]);
    try (pose proof (char_literal_kind l) as [-> | ->];
         [do 2 right; left; split; reflexivity
         | do 3 right; left; split; [reflexivity | discriminate]]);
    unfold token_if;
    repeat match goal with
           | |- context [match_ ?x ?e] => destruct (match_ x e) as [[] ?]
           end;
    cbn [token fst tok_type make_token error_token];
    first [ left; split; reflexivity
          | do 3 right; left; split; [reflexivity | discriminate]
          | do 4 right; split; [discriminate | reflexivity] ].
Qed.
Lemma check_keyword_kind (l : Lexer) (text : nat) (length : Z) :
  In (check_keyword l text length) (TOKEN_IDENTIFIER :: map snd (keywords l)).
Proof.
  unfold check_keyword.
  match goal with |- context [find ?f ?ks] => destruct (find f ks) as [k |] eqn:E end;
    [| left; reflexivity].
  right. apply find_some in E. apply in_map, E.
Qed.

Lemma identifier_kind (l : Lexer) :
  In (tok_type (fst (identifier l))) (TOKEN_IDENTIFIER :: map snd (keywords l)).
Proof.
  unfold identifier. cbn [fst make_token tok_type].
  match goal with
  | |- In (check_keyword ?x _ _) _ =>
      replace (keywords l) with (keywords x); [apply check_keyword_kind |]
  end.
  generalize (fuel_of l). intros n. generalize l.
  induction n as [| n IH]; intros y; cbn [while_]; [reflexivity |].
  match goal with |- context [if ?b then _ else _] => destruct b end; [| reflexivity].
  rewrite IH. unfold advance. destruct (is_at_end y); reflexivity.
Qed.

Lemma kind_by_first_byte (l : Lexer) :
  keywords l = init_keywords ->
  let t := fst (lexer_next_token l) in
  let l' := snd (lexer_next_token l) in
  let c := char_at (source l) (tok_start t) in
  (tok_type t = TOKEN_EOF <-> c = NUL)
  /\ (In (tok_type t) (TOKEN_IDENTIFIER :: map snd init_keywords)
      <-> isalpha c || (c =? "_")%char = true)
  /\ (tok_type t = TOKEN_INTEGER \/ tok_type t = TOKEN_FLOAT <-> isdigit c = true)
  /\ (tok_type t = TOKEN_NEWLINE <-> c = NL)
  /\ (tok_type t = TOKEN_STRING ->
      c = DQUOTE /\ (tok_start t + 2 <= current l')%nat
      /\ char_at (source l) (current l' - 1) = DQUOTE)
  /\ (tok_type t = TOKEN_CHAR ->
      c = SQUOTE /\ char_at (source l) (current l' - 1) = SQUOTE)
  /\ tok_type t <> TOKEN_UNKNOWN.
Proof.
  intros K. cbv zeta.
  destruct (token_extent l) as (S0 & _). cbv zeta in S0. rewrite S0. clear S0.
  pose proof (follows_skip_whitespace l l (follows_refl l)) as (Src & Kw & _).
  rewrite next_token_unfold. cbv zeta.
  set (x := set_tokens_processed _ (set_start _ (skip_whitespace l))).
  replace (char_at (source l) (current (skip_whitespace l))) with (peek x)
    by (unfold peek, x; fields; rewrite Src; reflexivity).
  assert (Kx : keywords x = init_keywords) by (unfold x; fields; congruence).
  assert (Sx : source x = source l) by (unfold x; fields; exact Src).
  unfold is_at_end. destruct (peek x =? NUL)%char eqn:E0.
  { apply Ascii.eqb_eq in E0. rewrite E0. cbn [token fst snd make_token tok_type].
    repeat split; try discriminate; try reflexivity.
    - intros H. cbn in H. repeat (destruct H as [H | H]; [discriminate H |]). contradiction.
    - intros [H | H]; discriminate H. }
  assert (N0 : peek x <> NUL) by (intros H; rewrite H in E0; discriminate).
  assert (A : current (advance x) = S (current x) /\ source (advance x) = source x
              /\ keywords (advance x) = keywords x).
  { unfold advance, is_at_end. rewrite E0. repeat split. }
  destruct A as (Ac & As & Ak).
  destruct (isalpha (peek x) || (peek x =? "_")%char) eqn:Ea.
  { pose proof (identifier_kind (advance x)) as I. rewrite Ak, Kx in I.
    assert (D : isdigit (peek x) = false /\ peek x <> NL /\ peek x <> DQUOTE
                /\ peek x <> SQUOTE).
    { clear -Ea. destruct (peek x) as [[] [] [] [] [] [] [] []]; try discriminate Ea;
        repeat split; discriminate. }
    destruct D as (D1 & D2 & D3 & D4).
    set (k := tok_type (fst (identifier (advance x)))) in *.
    assert (Q : k <> TOKEN_EOF /\ k <> TOKEN_INTEGER /\ k <> TOKEN_FLOAT
                /\ k <> TOKEN_NEWLINE /\ k <> TOKEN_STRING /\ k <> TOKEN_CHAR
                /\ k <> TOKEN_UNKNOWN).
    { clearbody k. cbn in I.
      repeat (destruct I as [I | I];
              [rewrite <- I; repeat split; discriminate |]).
      contradiction. }
    destruct Q as (Q1 & Q2 & Q3 & Q4 & Q5 & Q6 & Q7).
    repeat split; intros; try tauto; try congruence. }
  destruct (isdigit (peek x)) eqn:Ed.
  { assert (D : peek x <> NL /\ peek x <> DQUOTE /\ peek x <> SQUOTE).
    { clear -Ed. destruct (peek x) as [[] [] [] [] [] [] [] []]; try discriminate Ed;
        repeat split; discriminate. }
    destruct D as (D2 & D3 & D4).
    pose proof (number_kind (advance x)) as Nk.
    set (k := tok_type (fst (number (advance x)))) in *. clearbody k.
    repeat split; intros; try tauto; try congruence; try (destruct Nk; congruence).
    match goal with
    | I : In _ _ |- _ =>
        cbn in I; repeat (destruct I as [I | I]; [destruct Nk; congruence |]);
        contradiction
    end. }
  pose proof (punctuation_kind (peek x) (advance x)) as Pk. cbv zeta in Pk.
  assert (Str : tok_type (fst (punctuation (peek x) (advance x))) = TOKEN_STRING ->
                (current x + 2 <= current (snd (punctuation (peek x) (advance x))))%nat
                /\ char_at (source l)
                     (current (snd (punctuation (peek x) (advance x))) - 1) = DQUOTE).
  { intros H.
    destruct Pk as [[P _] | [[_ P] | [[P _] | [[P _] | [_ P]]]]];
      try (rewrite P in H; discriminate H);
      [| rewrite H in P; discriminate P].
    rewrite P in *.
    change (punctuation DQUOTE (advance x)) with (string_ (advance x)) in *.
    unfold string_ in *.
    pose proof (string_scan_done (advance x)) as Sd. cbv zeta in Sd.
    pose proof (follows_while (fun l0 => negb (peek l0 =? DQUOTE)%char
                                          && negb (is_at_end l0)) string_body) as Fw.
    set (w := while_ _ _ _ _) in *.
    assert (Fo : follows (advance x) w).
    { apply Fw; [apply follows_string_body | apply follows_refl]. }
    destruct (is_at_end w) eqn:Ew; [discriminate H |].
    cbn [negb] in Sd. rewrite andb_true_r in Sd. apply negb_false_iff, Ascii.eqb_eq in Sd.
    destruct Fo as (Fs & _ & Fc).
    cbn [snd]. unfold advance. rewrite Ew. fields.
    split; [lia |].
    replace (S (current w) - 1)%nat with (current w) by lia.
    rewrite <- Sx, <- As, <- Fs. exact Sd. }
  assert (Chr : tok_type (fst (punctuation (peek x) (advance x))) = TOKEN_CHAR ->
                char_at (source l)
                  (current (snd (punctuation (peek x) (advance x))) - 1) = SQUOTE).
  { intros H.
    destruct Pk as [[P _] | [[P _] | [[_ P] | [[P _] | [_ P]]]]];
      try (rewrite P in H; discriminate H);
      [| rewrite H in P; discriminate P].
    rewrite P in *.
    change (punctuation SQUOTE (advance x)) with (char_literal (advance x)) in *.
    unfold char_literal in *.
    set (y := if (peek (advance (advance x)) =? BACKSLASH)%char then _ else _) in *.
    assert (Fy : source y = source x).
    { assert (Sa : forall z, source (advance z) = source z)
        by (intros z; unfold advance; destruct (is_at_end z); reflexivity).
      unfold y.
      repeat match goal with |- context [if ?b then _ else _] => destruct b end;
        rewrite ?Sa; reflexivity. }
    unfold match_ in *. destruct (is_at_end y) eqn:Ey; [discriminate H |].
    destruct (negb (peek y =? SQUOTE)%char) eqn:Eq; [discriminate H |].
    apply negb_false_iff, Ascii.eqb_eq in Eq.
    cbn [orb negb snd token]. fields.
    replace (S (current y) - 1)%nat with (current y) by lia.
    rewrite <- Sx, <- Fy. exact Eq. }
  set (k := tok_type (fst (punctuation (peek x) (advance x)))) in *.
  set (c := peek x) in *.
  assert (Q : k <> TOKEN_EOF /\ k <> TOKEN_INTEGER /\ k <> TOKEN_FLOAT
              /\ k <> TOKEN_UNKNOWN
              /\ ~ In k (TOKEN_IDENTIFIER :: map snd init_keywords)
              /\ (k = TOKEN_NEWLINE <-> c = NL)
              /\ (k = TOKEN_STRING -> c = DQUOTE) /\ (k = TOKEN_CHAR -> c = SQUOTE)).
  { clearbody k c. clear Str Chr.
    assert (Lit : forall a b : TokenType, a = b -> a <> b -> False) by congruence.
    destruct Pk as [[P1 P2] | [[P1 P2] | [[P1 P2] | [[P1 P2] | [P2 P1]]]]].
    1-4: rewrite P1; repeat split; try discriminate; try (intros; assumption);
      try (intros; subst; discriminate);
      try (intros I; cbn in I;
           repeat (destruct I as [I | I]; [discriminate I |]); contradiction).
    destruct k; try discriminate P1; repeat split; try discriminate;
      try (intros; contradiction); try (intros; congruence);
      try (intros I; cbn in I;
           repeat (destruct I as [I | I]; [discriminate I |]); contradiction). }
  destruct Q as (Q1 & Q2 & Q3 & Q4 & Q5 & Q6 & Q7 & Q8).
  repeat split; intros; try tauto; try congruence;
    try (apply Str; assumption); try (apply Chr; assumption).
Qed.

(** The kind of a token goes with the first byte of its lexeme: end of input
    with the terminator, words with a letter or underscore, numbers with a
    digit, NEWLINE with a line feed; a string or character token opens and
    closes with its quote; UNKNOWN is never returned. *)
Theorem token_kind_first_byte (l : Lexer) :
  keywords l = init_keywords ->
  let t := fst (lexer_next_token l) in
  let l' := snd (lexer_next_token l) in
  let c := char_at (source l) (tok_start t) in
  (tok_type t = TOKEN_EOF <-> c = NUL)
  /\ (In (tok_type t) (TOKEN_IDENTIFIER :: map snd init_keywords)
      <-> isalpha c || (c =? "_")%char = true)
  /\ (tok_type t = TOKEN_INTEGER \/ tok_type t = TOKEN_FLOAT <-> isdigit c = true)
  /\ (tok_type t = TOKEN_NEWLINE <-> c = NL)
  /\ (tok_type t = TOKEN_STRING ->
      c = DQUOTE /\ (tok_start t + 2 <= current l')%nat
      /\ char_at (source l) (current l' - 1) = DQUOTE)
  /\ (tok_type t = TOKEN_CHAR ->
      c = SQUOTE /\ char_at (source l) (current l' - 1) = SQUOTE)
  /\ tok_type t <> TOKEN_UNKNOWN.
Proof. apply kind_by_first_byte. Qed.

Lemma token_kind_first_byte_witness :
  let l := lexer_create "  'x'  " "a.shay" in
  let t := fst (lexer_next_token l) in
  tok_type t = TOKEN_CHAR
  /\ char_at (source l) (tok_start t) = SQUOTE
  /\ char_at (source l) (current (snd (lexer_next_token l)) - 1) = SQUOTE.
Proof.
  cbv zeta.
  pose proof (token_kind_first_byte (lexer_create "  'x'  " "a.shay") eq_refl) as H.
  cbv zeta in H. destruct H as (_ & _ & _ & _ & _ & H & _).
  split; [reflexivity |]. apply H. reflexivity.
Defined.

Lemma skip_whitespace_twice (l : Lexer) :
  skip_whitespace (skip_whitespace l) = skip_whitespace l
  /\ lexer_next_token (skip_whitespace l) = lexer_next_token l.
Proof.
  assert (I : skip_whitespace (skip_whitespace l) = skip_whitespace l).
  { pose proof (skip_whitespace_end l) as H. cbv zeta in H.
    set (x := skip_whitespace l) in *. clearbody x.
    destruct H as [H | (B & C)]; [apply skip_whitespace_at_end, H |].
    unfold skip_whitespace, fuel_of. cbn [skip_whitespace_loop].
    destruct (is_at_end x); [reflexivity |].
    unfold blank in B. rewrite B.
    unfold starts_comment in C.
    destruct (peek x =? "/")%char; [| reflexivity].
    cbn [andb] in *. apply orb_false_iff in C. destruct C as [-> ->]. reflexivity. }
  split; [exact I |].
  unfold lexer_next_token. rewrite I. reflexivity.
Qed.

(** Skipping twice is skipping once, so a call made after the blanks and
    comments were skipped returns what it returns before: the token and the
    state of the lexer do not depend on when the skipping is done. *)
Theorem skip_whitespace_idempotent (l : Lexer) :
  skip_whitespace (skip_whitespace l) = skip_whitespace l
  /\ lexer_next_token (skip_whitespace l) = lexer_next_token l.
Proof. apply skip_whitespace_twice. Qed.

End LexMore.

(** * The string pool *)

Module PoolFacts.

Import Parse Pool.

Lemma string_take_length (n : nat) (s : string) :
  (n <= String.length s)%nat -> String.length (string_take n s) = n.
Proof.
  revert s. induction n as [| n IH]; intros s H; [reflexivity |].
  destruct s as [| c s]; simpl in *; [lia |]. rewrite IH; lia.
Qed.

Lemma string_drop_length (n : nat) (s : string) :
  String.length (string_drop n s) = (String.length s - n)%nat.
Proof.
  revert s. induction n as [| n IH]; intros s; [simpl; lia |].
  destruct s as [| c s]; simpl; [reflexivity | apply IH].
Qed.

Lemma append_length (a b : string) :
  String.length (a ++ b) = (String.length a + String.length b)%nat.
Proof. induction a as [| c a IH]; simpl; [reflexivity | rewrite IH; reflexivity]. Qed.

Lemma string_drop_app (a b : string) : string_drop (String.length a) (a ++ b) = b.
Proof. induction a as [| c a IH]; simpl; [destruct b; reflexivity | exact IH]. Qed.

Lemma char_at_app_left (a b : string) (j : nat) :
  (j < String.length a)%nat -> char_at (a ++ b) j = char_at a j.
Proof.
  revert j. induction a as [| c a IH]; intros j H; [simpl in H; lia |].
  destruct j as [| j]; [reflexivity |]. unfold char_at in *. simpl.
  apply IH. simpl in H. lia.
Qed.

Lemma char_at_take (n : nat) (s : string) (j : nat) :
  (j < n)%nat -> char_at (string_take n s) j = char_at s j.
Proof.
  revert s j. induction n as [| n IH]; intros s j H; [lia |].
  destruct s as [| c s]; [reflexivity |].
  destruct j as [| j]; [reflexivity |]. unfold char_at in *. simpl. apply IH. lia.
Qed.

Lemma store_length (dst : string) (offset : nat) (bytes : string) :
  (offset + String.length bytes <= String.length dst)%nat ->
  String.length (store dst offset bytes) = String.length dst.
Proof.
  intros H. unfold store.
  rewrite !append_length, string_take_length, string_drop_length by lia. lia.
Qed.

(** Bytes in front of the place written to are left alone. *)
Lemma store_before (dst : string) (offset : nat) (bytes : string) (j : nat) :
  (offset <= String.length dst)%nat -> (j < offset)%nat ->
  char_at (store dst offset bytes) j = char_at dst j.
Proof.
  intros H Hj. unfold store.
  rewrite char_at_app_left by (rewrite string_take_length; lia).
  apply char_at_take, Hj.
Qed.

Lemma until_nul_terminated (w rest : string) :
  until_nul ((w ++ String NUL EmptyString) ++ rest) = until_nul w.
Proof.
  induction w as [| c w IH]; [reflexivity |]. simpl.
  destruct (c =? NUL)%char; [reflexivity |]. f_equal. exact IH.
Qed.

(** The C string at the place written to is the text written. *)
Lemma store_read (dst : string) (offset : nat) (w : string) :
  (offset <= String.length dst)%nat ->
  c_string_at (store dst offset (w ++ String NUL EmptyString)) offset = until_nul w.
Proof.
  intros H. unfold c_string_at, store.
  pose proof (string_take_length offset dst H) as L.
  assert (D : forall a b, String.length a = offset -> string_drop offset (a ++ b) = b)
    by (intros a b <-; apply string_drop_app).
  rewrite D by exact L. apply until_nul_terminated.
Qed.

(** A C string is read up to its terminator only. *)
Lemma c_string_at_agree (a b : string) (offset : nat) :
  (forall j, (offset <= j <= offset + String.length (c_string_at a offset))%nat ->
             char_at b j = char_at a j) ->
  (offset + String.length (c_string_at a offset) < String.length a)%nat ->
  c_string_at b offset = c_string_at a offset.
Proof.
  unfold c_string_at. revert a b. induction offset as [| n IH]; intros a b H B.
  - cbn [string_drop] in *. revert b H B.
    induction a as [| c a IHa]; intros b H B; [simpl in B; lia |].
    cbn [until_nul] in *.
    pose proof (H 0%nat ltac:(lia)) as H0. unfold char_at in H0. cbn in H0.
    destruct b as [| d b]; cbn in H0.
    + subst c. reflexivity.
    + subst d. cbn [until_nul].
      destruct (c =? NUL)%char; [reflexivity |]. f_equal.
      apply IHa.
      * intros j Hj. specialize (H (S j)). unfold char_at in *. cbn in H.
        apply H. cbn [String.length]. lia.
      * cbn [String.length] in B. lia.
  - destruct a as [| c a]; [simpl in B; lia |].
    cbn [string_drop] in *.
    destruct b as [| d b].
    + cbn [string_drop].
      assert (Q : until_nul (string_drop n a) = EmptyString).
      { destruct (until_nul (string_drop n a)) as [| e r] eqn:E; [reflexivity |].
        exfalso.
        (* the first byte of the C string is read as NUL in [b] *)
        assert (G : char_at (String c a) (S n) = e /\ e <> NUL).
        { clear -E. revert a E. induction n as [| n IHn]; intros a E.
          - destruct a as [| x a]; [discriminate |]. cbn in E.
            destruct (x =? NUL)%char eqn:X; [discriminate |].
            injection E as -> _. split; [reflexivity |].
            intros Y. rewrite Y in X. discriminate.
          - destruct a as [| x a]; [discriminate |]. cbn [string_drop] in E.
            apply IHn in E. exact E. }
        destruct G as [G1 G2].
        specialize (H (S n) ltac:(lia)). rewrite G1 in H.
        unfold char_at in H. cbn in H. congruence. }
      rewrite Q. reflexivity.
    + cbn [string_drop]. apply IH.
      * intros j Hj. specialize (H (S j)). unfold char_at in *. cbn in H.
        apply H. lia.
      * cbn [String.length] in B. lia.
Qed.
(** What [lexer_intern_string] asks of the pool: [string_pool] points to
    [string_pool_size] bytes, of which the first [string_pool_used] are
    taken. *)
Lemma intern_ok (l : Lexer) (str : string) (length : Z) :
  0 <= string_pool_used l ->
  Z.of_nat (String.length (string_pool l)) = string_pool_size l ->
  string_pool_size l < 18446744073709551616 ->
  0 < length <= Z.of_nat (String.length str) ->
  string_pool_used l + length + 1 <= string_pool_size l ->
  lexer_intern_string l (Some str) length
  = Done (Some (Z.to_nat (string_pool_used l)),
          mkLexer (store (string_pool l) (Z.to_nat (string_pool_used l))
                         (string_take (Z.to_nat length) str ++ String NUL EmptyString))
                  (string_pool_used l + length + 1) (string_pool_size l)).
Proof.
  intros U M S L F. unfold lexer_intern_string.
  assert (T : to_size_t (string_pool_used l + length + 1)
              = string_pool_used l + length + 1)
    by (unfold to_size_t; apply Z.mod_small; lia).
  rewrite T.
  destruct (Z.eqb_spec length 0) as [E | _]; [lia |].
  destruct (Z.ltb_spec (string_pool_size l) (string_pool_used l + length + 1)); [lia |].
  destruct (Z.ltb_spec (Z.of_nat (String.length str)) length); [lia |].
  destruct (Z.ltb_spec (Z.of_nat (String.length (string_pool l)))
                       (string_pool_used l + length + 1)); [lia |].
  reflexivity.
Qed.

Lemma intern_stores (l : Lexer) (str : string) (length : Z) :
  0 <= string_pool_used l ->
  Z.of_nat (String.length (string_pool l)) = string_pool_size l ->
  string_pool_size l < 18446744073709551616 ->
  0 < length <= Z.of_nat (String.length str) ->
  string_pool_used l + length + 1 <= string_pool_size l ->
  exists l',
    lexer_intern_string l (Some str) length
    = Done (Some (Z.to_nat (string_pool_used l)), l')
    /\ c_string_at (string_pool l') (Z.to_nat (string_pool_used l))
       = until_nul (string_take (Z.to_nat length) str)
    /\ (forall j, (j < Z.to_nat (string_pool_used l))%nat ->
                  char_at (string_pool l') j = char_at (string_pool l) j)
    /\ string_pool_used l' = string_pool_used l + length + 1
    /\ string_pool_size l' = string_pool_size l
    /\ String.length (string_pool l') = String.length (string_pool l).
Proof.
  intros U M S L F. eexists. split; [apply intern_ok; assumption |].
  cbn [string_pool string_pool_used string_pool_size].
  split; [apply store_read; lia |].
  split; [intros j Hj; apply store_before; lia |].
  split; [reflexivity |]. split; [reflexivity |].
  apply store_length. rewrite append_length, string_take_length by lia.
  cbn [String.length]. lia.
Qed.

(** Interning a string in a pool with room for it: the pointer returned is
    the old end of the pool, the C string read there is the text given (up
    to a NUL byte in it), what was in the pool before is untouched, and the
    pool has grown by the length and the terminator. *)
Theorem intern_round_trip (l : Lexer) (str : string) (length : Z) :
  0 <= string_pool_used l ->
  Z.of_nat (String.length (string_pool l)) = string_pool_size l ->
  string_pool_size l < 18446744073709551616 ->
  0 < length <= Z.of_nat (String.length str) ->
  string_pool_used l + length + 1 <= string_pool_size l ->
  exists l',
    lexer_intern_string l (Some str) length
    = Done (Some (Z.to_nat (string_pool_used l)), l')
    /\ c_string_at (string_pool l') (Z.to_nat (string_pool_used l))
       = until_nul (string_take (Z.to_nat length) str)
    /\ (forall j, (j < Z.to_nat (string_pool_used l))%nat ->
                  char_at (string_pool l') j = char_at (string_pool l) j)
    /\ string_pool_used l' = string_pool_used l + length + 1
    /\ string_pool_size l' = string_pool_size l
    /\ String.length (string_pool l') = String.length (string_pool l).
Proof. apply intern_stores. Qed.

Lemma intern_round_trip_witness :
  let l := mkLexer "ab#......"%string 3 9 in
  exists l',
    lexer_intern_string l (Some "while (x)"%string) 5 = Done (Some 3%nat, l')
    /\ c_string_at (string_pool l') 3 = "while"%string
    /\ char_at (string_pool l') 1 = "b"%char
    /\ string_pool_used l' = 9.
Proof.
  cbv zeta.
  destruct (intern_round_trip (mkLexer "ab#......"%string 3 9) "while (x)"%string 5)
    as (l' & E & R & B & U & _); cbn; try lia.
  exists l'. split; [exact E |]. split; [exact R |].
  split; [| exact U]. rewrite (B 1%nat) by (cbn; lia). reflexivity.
Defined.

(** The pool does not intern: a second request for the same text gets a copy
    of its own behind the first one, and both copies read as the text. *)
Theorem intern_never_shares (l : Lexer) (str : string) (length : Z) :
  0 <= string_pool_used l ->
  Z.of_nat (String.length (string_pool l)) = string_pool_size l ->
  string_pool_size l < 18446744073709551616 ->
  0 < length <= Z.of_nat (String.length str) ->
  string_pool_used l + 2 * (length + 1) <= string_pool_size l ->
  exists first second l1 l2,
    lexer_intern_string l (Some str) length = Done (Some first, l1)
    /\ lexer_intern_string l1 (Some str) length = Done (Some second, l2)
    /\ Z.of_nat second = Z.of_nat first + length + 1
    /\ c_string_at (string_pool l2) first = until_nul (string_take (Z.to_nat length) str)
    /\ c_string_at (string_pool l2) second = until_nul (string_take (Z.to_nat length) str).
Proof.
  intros U M S L F.
  destruct (intern_stores l str length U M S L ltac:(lia))
    as (l1 & E1 & R1 & _ & U1 & S1 & M1).
  assert (M1' : Z.of_nat (String.length (string_pool l1)) = string_pool_size l1)
    by (rewrite M1, S1; exact M).
  destruct (intern_stores l1 str length ltac:(lia) M1' ltac:(lia) L ltac:(lia))
    as (l2 & E2 & R2 & B2 & _ & _ & M2).
  exists (Z.to_nat (string_pool_used l)), (Z.to_nat (string_pool_used l1)), l1, l2.
  split; [exact E1 |]. split; [exact E2 |].
  split; [rewrite U1; lia |]. split; [| exact R2].
  rewrite <- R1.
  assert (Len : (String.length (c_string_at (string_pool l1)
                                            (Z.to_nat (string_pool_used l)))
                 <= Z.to_nat length)%nat).
  { rewrite R1.
    assert (G : forall w, (String.length (until_nul w) <= String.length w)%nat).
    { induction w as [| c w IH]; [reflexivity |]. cbn [until_nul].
      destruct (c =? NUL)%char; cbn [String.length]; lia. }
    etransitivity; [apply G |]. rewrite string_take_length; lia. }
  apply c_string_at_agree.
  - intros j Hj. apply B2. lia.
  - lia.
Qed.

Lemma intern_never_shares_witness :
  let l := mkLexer "............"%string 0 12 in
  exists first second l1 l2,
    lexer_intern_string l (Some "count"%string) 5 = Done (Some first, l1)
    /\ lexer_intern_string l1 (Some "count"%string) 5 = Done (Some second, l2)
    /\ Z.of_nat second = Z.of_nat first + 5 + 1
    /\ c_string_at (string_pool l2) first = "count"%string
    /\ c_string_at (string_pool l2) second = "count"%string.
Proof.
  cbv zeta.
  apply (intern_never_shares (mkLexer "............"%string 0 12) "count"%string 5); cbn; lia.
Defined.

End PoolFacts.

(** * Token names *)

Module TokenFacts.

Lemma all_token_types_complete (t : TokenType) : In t all_token_types.
Proof.
  destruct t; unfold all_token_types;
    repeat first [left; reflexivity | right].
Qed.

(** [token_type_to_string] gives every kind a name of its own: a printed
    name identifies the kind, and only [TOKEN_UNKNOWN] prints as UNKNOWN. *)
Theorem token_names_distinct (a b : TokenType) :
  token_type_to_string a = token_type_to_string b <-> a = b.
Proof.
  split; [| intros ->; reflexivity].
  assert (C : forallb (fun x =>
                forallb (fun y => implb (String.eqb (token_type_to_string x)
                                                    (token_type_to_string y))
                                        (TokenType_eqb x y))
                        all_token_types)
              all_token_types = true) by (vm_compute; reflexivity).
  rewrite forallb_forall in C.
  specialize (C a (all_token_types_complete a)).
  rewrite forallb_forall in C.
  specialize (C b (all_token_types_complete b)).
  intros E. apply String.eqb_eq in E. rewrite E in C. cbn [implb] in C.
  apply LexFacts.TokenType_eqb_eq, C.
Qed.

End TokenFacts.

(** * More on the C emitter *)

Module GenMore.

Import Parse Gen.

Ltac cg_fields :=
  cbn [output_file format indent_level had_error error_message lines_generated
       variables_declared functions_generated fprintf codegen_error count_line
       count_variable set_indent_level] in *.

Lemma emits_refl (cg : CodeGenerator) : emits cg cg.
Proof. unfold emits. repeat split; auto. exists []. rewrite app_nil_r. reflexivity. Qed.

Lemma emits_trans (a b c : CodeGenerator) : emits a b -> emits b c -> emits a c.
Proof.
  unfold emits. intros ((o1 & H1) & F1 & I1 & L1 & V1 & Fn1 & E1)
                        ((o2 & H2) & F2 & I2 & L2 & V2 & Fn2 & E2).
  repeat split; try congruence; auto.
  exists (o1 ++ o2). rewrite H2, H1, app_assoc. reflexivity.
Qed.

Lemma emits_fprintf (cg : CodeGenerator) (w : written) : emits cg (fprintf cg w).
Proof. unfold emits. cg_fields. repeat split; auto. eexists. reflexivity. Qed.

Lemma emits_error (cg : CodeGenerator) (m : string) : emits cg (codegen_error cg m).
Proof. unfold emits. cg_fields. repeat split; auto. exists []. rewrite app_nil_r. reflexivity. Qed.

Lemma emits_operator (cg : CodeGenerator) (op : TokenType) : emits cg (binary_operator cg op).
Proof. destruct op; cbn [binary_operator]; first [apply emits_fprintf | apply emits_error]. Qed.

Lemma operator_error (cg : CodeGenerator) (op : TokenType) :
  had_error (binary_operator cg op) = had_error cg || negb (c_operator op)
  /\ (c_operator op = true -> error_message (binary_operator cg op) = error_message cg).
Proof. destruct op; cbn; rewrite ?orb_false_r, ?orb_true_r; auto; split; auto; discriminate. Qed.

Lemma emits_indent (cg : CodeGenerator) :
  emits cg (emit_indent cg)
  /\ had_error (emit_indent cg) = had_error cg
  /\ error_message (emit_indent cg) = error_message cg.
Proof.
  unfold emit_indent. generalize (repeat tt (Z.to_nat (indent_level cg))). intros l.
  revert cg. induction l as [| u l IH]; intros cg; cbn [fold_left].
  - split; [apply emits_refl | auto].
  - destruct (IH (fprintf cg (text "    "))) as (A & B & C).
    split; [eapply emits_trans; [apply emits_fprintf | exact A] |].
    rewrite B, C. auto.
Qed.

(** What [generate_c_expression] does to the generator, by the shape of the
    tree. *)
Lemma generate_c_node_spec :
  forall (n : ASTNode) (cg : CodeGenerator),
    (forall cg', generate_c_node cg n = Done cg' ->
       emits cg cg'
       /\ (had_error cg' = false -> c_expression n = true)
       /\ (c_expression n = true ->
           had_error cg' = had_error cg /\ error_message cg' = error_message cg))
    /\ (c_expression n = true -> exists cg', generate_c_node cg n = Done cg').
Proof.
  fix IH 1. intros n cg.
  assert (Child : forall (c : option ASTNode) (cg : CodeGenerator),
            match c with
            | None => True
            | Some e =>
                (forall cg', generate_c_node cg e = Done cg' ->
                   emits cg cg'
                   /\ (had_error cg' = false -> c_expression e = true)
                   /\ (c_expression e = true ->
                       had_error cg' = had_error cg
                       /\ error_message cg' = error_message cg))
                /\ (c_expression e = true -> exists cg', generate_c_node cg e = Done cg')
            end -> 
            (forall cg', generate_c_expression cg c = Done cg' ->
               emits cg cg'
               /\ (had_error cg' = false -> c_child c = true)
               /\ (c_child c = true ->
                   had_error cg' = had_error cg /\ error_message cg' = error_message cg))
            /\ (c_child c = true -> exists cg', generate_c_expression cg c = Done cg')).
  { intros [e |] g H; cbn [generate_c_expression c_child]; [exact H |].
    split; [| eauto]. intros cg' [= <-]. split; [apply emits_refl | auto]. }
  assert (Bin : forall (lhs rhs : option ASTNode) (op : TokenType),
            (forall g, match lhs with None => True | Some e =>
                (forall cg', generate_c_node g e = Done cg' ->
                   emits g cg'
                   /\ (had_error cg' = false -> c_expression e = true)
                   /\ (c_expression e = true ->
                       had_error cg' = had_error g
                       /\ error_message cg' = error_message g))
                /\ (c_expression e = true -> exists cg', generate_c_node g e = Done cg')
              end) ->
            (forall g, match rhs with None => True | Some e =>
                (forall cg', generate_c_node g e = Done cg' ->
                   emits g cg'
                   /\ (had_error cg' = false -> c_expression e = true)
                   /\ (c_expression e = true ->
                       had_error cg' = had_error g
                       /\ error_message cg' = error_message g))
                /\ (c_expression e = true -> exists cg', generate_c_node g e = Done cg')
              end) ->
            let run :=
              bind (generate_c_expression (fprintf cg (text "(")) lhs) (fun g1 =>
              bind (generate_c_expression (binary_operator g1 op) rhs) (fun g2 =>
              Done (fprintf g2 (text ")")))) in
            let ok := c_operator op && c_child lhs && c_child rhs in
            (forall cg', run = Done cg' ->
               emits cg cg'
               /\ (had_error cg' = false -> ok = true)
               /\ (ok = true ->
                   had_error cg' = had_error cg /\ error_message cg' = error_message cg))
            /\ (ok = true -> exists cg', run = Done cg')).
  { intros lhs rhs op Hl Hr. cbv zeta.
    pose proof (fun g => Child lhs g (Hl g)) as Cl.
    pose proof (fun g => Child rhs g (Hr g)) as Cr.
    clear Hl Hr Child IH.
    split.
    - intros cg' R.
      destruct (generate_c_expression (fprintf cg (text "(")) lhs) as [g1 | |] eqn:E1;
        cbn [bind] in R; try discriminate R.
      destruct (generate_c_expression (binary_operator g1 op) rhs) as [g2 | |] eqn:E2;
        cbn [bind] in R; try discriminate R.
      injection R as <-.
      destruct (proj1 (Cl _) _ E1) as (A1 & B1 & C1).
      destruct (proj1 (Cr _) _ E2) as (A2 & B2 & C2).
      destruct (operator_error g1 op) as (O1 & O2).
      assert (Em : emits cg (fprintf g2 (text ")"))).
      { eapply emits_trans; [apply emits_fprintf |].
        eapply emits_trans; [exact A1 |].
        eapply emits_trans; [apply emits_operator |].
        eapply emits_trans; [exact A2 | apply emits_fprintf]. }
      split; [exact Em |]. cg_fields. split.
      + intros F.
        assert (F2 : had_error (binary_operator g1 op) = false).
        { destruct A2 as (_ & _ & _ & _ & _ & _ & S).
          destruct (had_error (binary_operator g1 op)); [| reflexivity].
          rewrite S in F by reflexivity. discriminate. }
        rewrite O1 in F2. apply orb_false_iff in F2. destruct F2 as [F1 Fo].
        apply negb_false_iff in Fo. rewrite Fo, B1 by assumption.
        rewrite B2 by assumption. reflexivity.
      + intros Ok. apply andb_true_iff in Ok. destruct Ok as [Ok Okr].
        apply andb_true_iff in Ok. destruct Ok as [Oko Okl].
        destruct (C1 Okl) as (X1 & Y1). destruct (C2 Okr) as (X2 & Y2).
        rewrite X2, Y2, O1, O2, X1, Y1, Oko by assumption. cbn [negb].
        rewrite orb_false_r. auto.
    - intros Ok. apply andb_true_iff in Ok. destruct Ok as [Ok Okr].
      apply andb_true_iff in Ok. destruct Ok as [Oko Okl].
      destruct (proj2 (Cl (fprintf cg (text "("))) Okl) as (g1 & E1). rewrite E1.
      cbn [bind].
      destruct (proj2 (Cr (binary_operator g1 op)) Okr) as (g2 & E2). rewrite E2.
      cbn [bind]. eexists; reflexivity. }
  destruct n as [pos t v | pos name | pos lhs op rhs | pos op e | pos lhs op rhs
                 | pos e | pos t name init | pos v | pos ss].
  - (* Literal *)
    clear IH Child Bin. cbn [generate_c_node c_expression]. split.
    + intros cg' H.
      destruct t; cbn [generate_c_literal c_literal] in *;
        try (injection H as <-;
             split; [first [apply emits_fprintf | apply emits_error] |];
             cg_fields; split; [intros; first [reflexivity | discriminate]
                               | intros; first [discriminate | auto]]);
        destruct v; try discriminate H; injection H as <-;
        (split; [apply emits_fprintf |]); cg_fields; auto.
    + intros C. destruct t; try discriminate C; destruct v; try discriminate C;
        cbn [generate_c_literal]; eexists; reflexivity.
  - (* Identifier *)
    clear IH Child Bin. cbn [generate_c_node c_expression generate_c_identifier]. split.
    + intros cg' H. destruct name as [s |]; [| discriminate H]. injection H as <-.
      split; [apply emits_fprintf |]. cg_fields. auto.
    + intros C. destruct name; [eexists; reflexivity | discriminate C].
  - (* Binary *)
    apply (Bin lhs rhs op).
    + intros g. destruct lhs as [e |]; [apply IH | exact I].
    + intros g. destruct rhs as [e |]; [apply IH | exact I].
  - (* Unary *)
    clear IH Child Bin. cbn [generate_c_node c_expression]. split; [| discriminate].
    intros cg' [= <-]. split; [apply emits_error |]. cg_fields.
    split; intros; discriminate.
  - (* Assignment *)
    apply (Bin lhs rhs op).
    + intros g. destruct lhs as [e |]; [apply IH | exact I].
    + intros g. destruct rhs as [e |]; [apply IH | exact I].
  - clear IH Child Bin. cbn [generate_c_node c_expression]. split; [| discriminate].
    intros cg' [= <-]. split; [apply emits_error |]. cg_fields.
    split; intros; discriminate.
  - clear IH Child Bin. cbn [generate_c_node c_expression]. split; [| discriminate].
    intros cg' [= <-]. split; [apply emits_error |]. cg_fields.
    split; intros; discriminate.
  - clear IH Child Bin. cbn [generate_c_node c_expression]. split; [| discriminate].
    intros cg' [= <-]. split; [apply emits_error |]. cg_fields.
    split; intros; discriminate.
  - clear IH Child Bin. cbn [generate_c_node c_expression]. split; [| discriminate].
    intros cg' [= <-]. split; [apply emits_error |]. cg_fields.
    split; intros; discriminate.
Qed.
Lemma generate_c_expression_spec (c : option ASTNode) (cg : CodeGenerator) :
  (forall cg', generate_c_expression cg c = Done cg' ->
     emits cg cg'
     /\ (had_error cg' = false -> c_child c = true)
     /\ (c_child c = true ->
         had_error cg' = had_error cg /\ error_message cg' = error_message cg))
  /\ (c_child c = true -> exists cg', generate_c_expression cg c = Done cg').
Proof.
  destruct c as [e |]; cbn [generate_c_expression c_child].
  - apply generate_c_node_spec.
  - split; [| intros _; eexists; reflexivity].
    intros cg' [= <-]. split; [apply emits_refl | auto].
Qed.

(** Positions are not read: [generate_c_expression] writes the same for a
    tree and for the tree without its positions. *)
Lemma generate_c_node_strip :
  forall (n : ASTNode) (cg : CodeGenerator),
    generate_c_node cg (strip n) = generate_c_node cg n.
Proof.
  fix IH 1. intros n cg.
  assert (Child : forall (c : option ASTNode),
            (forall g, match c with
                       | None => True
                       | Some e => generate_c_node g (strip e) = generate_c_node g e
                       end) ->
            forall g, match option_map strip c with
                      | None => Done g
                      | Some e => generate_c_node g e
                      end
                      = match c with
                        | None => Done g
                        | Some e => generate_c_node g e
                        end).
  { intros [e |] H g; cbn [option_map]; [apply (H g) | reflexivity]. }
  destruct n as [pos t v | pos name | pos lhs op rhs | pos op e | pos lhs op rhs
                 | pos e | pos t name init | pos v | pos ss];
    cbn [strip generate_c_node]; try reflexivity.
  - rewrite (Child lhs) by (intros g; destruct lhs; [apply IH | exact I]).
    destruct (match lhs with None => _ | Some e => _ end) as [g1 | |];
      cbn [bind]; try reflexivity.
    rewrite (Child rhs) by (intros g; destruct rhs; [apply IH | exact I]).
    reflexivity.
  - rewrite (Child lhs) by (intros g; destruct lhs; [apply IH | exact I]).
    destruct (match lhs with None => _ | Some e => _ end) as [g1 | |];
      cbn [bind]; try reflexivity.
    rewrite (Child rhs) by (intros g; destruct rhs; [apply IH | exact I]).
    reflexivity.
Qed.

Lemma generate_c_expression_strip (c : option ASTNode) (cg : CodeGenerator) :
  generate_c_expression cg (option_map strip c) = generate_c_expression cg c.
Proof. destruct c; cbn [option_map generate_c_expression]; [apply generate_c_node_strip | reflexivity]. Qed.

Lemma generate_c_statement_strip (s : ASTNode) (cg : CodeGenerator) :
  generate_c_statement cg (Some (strip s)) = generate_c_statement cg (Some s).
Proof.
  destruct s; cbn [strip generate_c_statement]; try reflexivity.
  - rewrite generate_c_expression_strip. reflexivity.
  - unfold generate_c_var_declaration.
    destruct (generate_c_identifier _ name); cbn [bind]; try reflexivity.
    destruct initializer as [e |]; cbn [option_map]; [| reflexivity].
    cbn [generate_c_expression]. rewrite generate_c_node_strip. reflexivity.
  - destruct value as [e |]; cbn [option_map]; [| reflexivity].
    cbn [generate_c_expression]. rewrite generate_c_node_strip. reflexivity.
Qed.

(** The emitter does not read positions: a tree and the same tree with other
    positions (here: none) give the same output, counters and error. *)
Theorem generate_ignores_positions (codegen : option CodeGenerator) (ast : ASTNode) :
  codegen_generate codegen (Some (strip ast)) = codegen_generate codegen (Some ast).
Proof.
  destruct codegen as [cg |]; [| reflexivity]. unfold codegen_generate.
  destruct (format cg); try reflexivity.
  assert (P : generate_c_program cg (strip ast) = generate_c_program cg ast);
    [| rewrite P; reflexivity].
  destruct ast; try reflexivity. cbn [strip generate_c_program].
  match goal with
  | |- bind (generate_statements ?g _) _ = _ => generalize g
  end.
  intros g. f_equal. revert g.
  induction statements as [| s ss IH]; intros g; [reflexivity |].
  cbn [map generate_statements]. rewrite generate_c_statement_strip.
  destruct (generate_c_statement g (Some s)); cbn [bind]; auto.
Qed.
Lemma to_int_idem (z : Z) : to_int (to_int z) = to_int z.
Proof. apply LexMore.to_int_range, LexMore.to_int_int_range. Qed.

Lemma to_int_succ (a n : Z) : to_int (to_int (a + n) + 1) = to_int (a + (n + 1)).
Proof. rewrite LexMore.to_int_add_l. f_equal. lia. Qed.

(** One statement: what it adds to the counters, and when it goes through
    without an error. *)
Lemma generate_c_statement_spec (s : ASTNode) (cg : CodeGenerator) :
  (forall cg', generate_c_statement cg (Some s) = Done cg' ->
     (exists out, output_file cg' = output_file cg ++ out)
     /\ format cg' = format cg /\ indent_level cg' = indent_level cg
     /\ functions_generated cg' = functions_generated cg
     /\ lines_generated cg'
        = (if is_statement s then to_int (lines_generated cg + 1) else lines_generated cg)
     /\ variables_declared cg'
        = (if is_var_declaration s then to_int (variables_declared cg + 1)
           else variables_declared cg)
     /\ (had_error cg = true -> had_error cg' = true)
     /\ (had_error cg' = false -> c_statement s = true)
     /\ (c_statement s = true ->
         had_error cg' = had_error cg /\ error_message cg' = error_message cg))
  /\ (c_statement s = true -> exists cg', generate_c_statement cg (Some s) = Done cg').
Proof.
  destruct (emits_indent cg) as (Ei & Hi & Mi).
  destruct s as [pos t v | pos name | pos lhs op rhs | pos op e | pos lhs op rhs
                 | pos e | pos t name init | pos v | pos ss];
    cbn [generate_c_statement is_statement is_var_declaration c_statement];
    try (split; [| discriminate]; intros cg' [= <-]; cg_fields;
         repeat split; auto; try discriminate;
         exists []; rewrite app_nil_r; reflexivity).
  - (* ExpressionStmt *)
    destruct (generate_c_expression_spec e (emit_indent cg)) as (A & B). split.
    + intros cg' H.
      destruct (generate_c_expression (emit_indent cg) e) as [g | |] eqn:E;
        cbn [bind] in H; try discriminate H. injection H as <-.
      destruct (A g eq_refl) as (Em & Ok & Keep).
      pose proof (emits_trans _ _ _ Ei Em) as (O & F & I & L & V & Fn & S).
      cg_fields. rewrite F, I, L, V, Fn.
      split; [destruct O as (out & ->); rewrite <- app_assoc; eexists; reflexivity |].
      repeat split; auto;
        match goal with
        | C : c_child _ = true |- _ =>
            destruct (Keep C) as (X & Y); cg_fields; congruence
        end.
    + intros C. destruct (B C) as (g & ->). cbn [bind]. eexists; reflexivity.
  - (* VarDeclaration *)
    unfold generate_c_var_declaration. split.
    + intros cg' H. destruct name as [nm |]; cbn [generate_c_identifier bind] in H;
        [| discriminate H].
      set (g0 := fprintf (fprintf (emit_indent cg) (text (c_type t))) (text nm)) in *.
      assert (E0 : emits cg g0).
      { eapply emits_trans; [exact Ei |]. eapply emits_trans; apply emits_fprintf. }
      assert (H0 : had_error g0 = had_error cg /\ error_message g0 = error_message cg)
        by (unfold g0; cg_fields; auto).
      destruct H0 as (H0 & M0).
      destruct init as [e |].
      * destruct (generate_c_expression_spec (Some e) (fprintf g0 (text " = ")))
          as (A & _).
        destruct (generate_c_expression (fprintf g0 (text " = ")) (Some e))
          as [g | |] eqn:E; cbn [bind] in H; try discriminate H. injection H as <-.
        destruct (A g eq_refl) as (Em & Ok & Keep).
        pose proof (emits_trans _ _ _ E0 (emits_trans _ _ _ (emits_fprintf _ _) Em))
          as (O & F & I & L & V & Fn & S).
        cg_fields. rewrite F, I, L, V, Fn.
        split; [destruct O as (out & ->); rewrite <- app_assoc; eexists; reflexivity |].
        repeat split; auto;
          match goal with
          | C : c_child _ = true |- _ =>
              destruct (Keep C) as (X & Y); cg_fields; congruence
          end.
      * cbn [bind] in H. injection H as <-.
        destruct E0 as (O & F & I & L & V & Fn & S).
        cg_fields. rewrite F, I, L, V, Fn.
        split; [destruct O as (out & ->); rewrite <- app_assoc; eexists; reflexivity |].
        repeat split; auto.
    + intros C. destruct name as [nm |]; [| discriminate C].
      cbn [generate_c_identifier bind].
      destruct init as [e |]; [| cbn [bind]; eexists; reflexivity].
      match goal with
      | |- context [generate_c_expression ?g (Some e)] =>
          destruct (generate_c_expression_spec (Some e) g) as (_ & B)
      end.
      destruct (B C) as (g & ->). cbn [bind]. eexists; reflexivity.
  - (* ReturnStmt *)
    split.
    + intros cg' H.
      set (g0 := fprintf (emit_indent cg) (text "return")) in *.
      assert (E0 : emits cg g0)
        by (eapply emits_trans; [exact Ei | apply emits_fprintf]).
      assert (H0 : had_error g0 = had_error cg /\ error_message g0 = error_message cg)
        by (unfold g0; cg_fields; auto).
      destruct H0 as (H0 & M0).
      destruct v as [e |].
      * destruct (generate_c_expression_spec (Some e) (fprintf g0 (text " ")))
          as (A & _).
        destruct (generate_c_expression (fprintf g0 (text " ")) (Some e))
          as [g | |] eqn:E; cbn [bind] in H; try discriminate H. injection H as <-.
        destruct (A g eq_refl) as (Em & Ok & Keep).
        pose proof (emits_trans _ _ _ E0 (emits_trans _ _ _ (emits_fprintf _ _) Em))
          as (O & F & I & L & V & Fn & S).
        cg_fields. rewrite F, I, L, V, Fn.
        split; [destruct O as (out & ->); rewrite <- app_assoc; eexists; reflexivity |].
        repeat split; auto;
          match goal with
          | C : c_child _ = true |- _ =>
              destruct (Keep C) as (X & Y); cg_fields; congruence
          end.
      * cbn [bind] in H. injection H as <-.
        destruct E0 as (O & F & I & L & V & Fn & S).
        cg_fields. rewrite F, I, L, V, Fn.
        split; [destruct O as (out & ->); rewrite <- app_assoc; eexists; reflexivity |].
        repeat split; auto.
    + intros C. destruct v as [e |]; [| cbn [bind]; eexists; reflexivity].
      match goal with
      | |- context [generate_c_expression ?g (Some e)] =>
          destruct (generate_c_expression_spec (Some e) g) as (_ & B)
      end.
      destruct (B C) as (g & ->). cbn [bind]. eexists; reflexivity.
Qed.
Lemma writes_trans (n1 v1 n2 v2 : Z) (a b c : CodeGenerator) :
  writes n1 v1 a b -> writes n2 v2 b c -> writes (n1 + n2) (v1 + v2) a c.
Proof.
  unfold writes. intros ((o1 & H1) & F1 & Fn1 & L1 & V1 & E1)
                        ((o2 & H2) & F2 & Fn2 & L2 & V2 & E2).
  split; [exists (o1 ++ o2); rewrite H2, H1, app_assoc; reflexivity |].
  repeat split; try congruence; auto.
  - rewrite L2, L1, LexMore.to_int_add_l. f_equal. lia.
  - rewrite V2, V1, LexMore.to_int_add_l. f_equal. lia.
Qed.

Lemma emits_writes (a b : CodeGenerator) :
  int_range (lines_generated a) -> int_range (variables_declared a) ->
  emits a b -> writes 0 0 a b.
Proof.
  unfold emits, writes. intros R1 R2 (O & F & I & L & V & Fn & E).
  rewrite !Z.add_0_r, !LexMore.to_int_range by assumption. repeat split; auto.
Qed.

Lemma writes_range (n v : Z) (a b : CodeGenerator) :
  writes n v a b -> int_range (lines_generated b) /\ int_range (variables_declared b).
Proof.
  intros (_ & _ & _ & L & V & _). rewrite L, V.
  split; apply LexMore.to_int_int_range.
Qed.

Lemma emit_line_spec (cg : CodeGenerator) (line : string) :
  int_range (variables_declared cg) ->
  writes 1 0 cg (emit_line cg line)
  /\ indent_level (emit_line cg line) = indent_level cg
  /\ had_error (emit_line cg line) = had_error cg
  /\ error_message (emit_line cg line) = error_message cg.
Proof.
  intros R.
  destruct (emits_indent cg) as ((O & F & I & L & V & Fn & S) & Hi & Mi).
  unfold emit_line, writes. cg_fields. rewrite F, I, L, V, Fn, Hi, Mi.
  rewrite Z.add_0_r, (LexMore.to_int_range (variables_declared cg)) by exact R.
  split; [| auto].
  split; [destruct O as (out & ->); rewrite <- app_assoc; eexists; reflexivity |].
  repeat split; auto.
Qed.

Lemma statement_writes (s : ASTNode) (cg cg' : CodeGenerator) :
  int_range (lines_generated cg) -> int_range (variables_declared cg) ->
  generate_c_statement cg (Some s) = Done cg' ->
  writes (if is_statement s then 1 else 0) (if is_var_declaration s then 1 else 0) cg cg'
  /\ indent_level cg' = indent_level cg.
Proof.
  intros R1 R2 H.
  destruct (proj1 (generate_c_statement_spec s cg) cg' H)
    as (O & F & I & Fn & L & V & S & _).
  split; [| exact I]. unfold writes. rewrite L, V.
  destruct (is_statement s), (is_var_declaration s);
    rewrite ?Z.add_0_r, ?(LexMore.to_int_range (lines_generated cg)),
      ?(LexMore.to_int_range (variables_declared cg)) by assumption;
    repeat split; auto.
Qed.

Lemma generate_statements_spec (ss : list ASTNode) :
  forall cg : CodeGenerator,
    int_range (lines_generated cg) -> int_range (variables_declared cg) ->
    (forall cg', generate_statements cg ss = Done cg' ->
       writes (count is_statement ss) (count is_var_declaration ss) cg cg'
       /\ indent_level cg' = indent_level cg
       /\ (had_error cg' = false -> forallb c_statement ss = true)
       /\ (forallb c_statement ss = true ->
           had_error cg' = had_error cg /\ error_message cg' = error_message cg))
    /\ (forallb c_statement ss = true -> exists cg', generate_statements cg ss = Done cg').
Proof.
  induction ss as [| s ss IH]; intros cg R1 R2; cbn [generate_statements forallb].
  - split; [| intros _; eexists; reflexivity]. intros cg' [= <-].
    split; [apply emits_writes; try assumption; apply emits_refl | auto].
  - destruct (generate_c_statement_spec s cg) as (A & B). split.
    + intros cg' H.
      destruct (generate_c_statement cg (Some s)) as [g | |] eqn:E;
        cbn [bind] in H; try discriminate H.
      destruct (statement_writes s cg g R1 R2 E) as (W & I).
      destruct (writes_range _ _ _ _ W) as (R1' & R2').
      destruct (proj1 (IH g R1' R2') cg' H) as (W' & I' & Ok & Keep).
      destruct (A g eq_refl) as (_ & _ & _ & _ & _ & _ & S & Ok1 & Keep1).
      split.
      { replace (count is_statement (s :: ss))
          with ((if is_statement s then 1 else 0) + count is_statement ss)
          by (unfold count; cbn [filter]; destruct (is_statement s);
              cbn [List.length]; lia).
        replace (count is_var_declaration (s :: ss))
          with ((if is_var_declaration s then 1 else 0) + count is_var_declaration ss)
          by (unfold count; cbn [filter]; destruct (is_var_declaration s);
              cbn [List.length]; lia).
        eapply writes_trans; eassumption. }
      split; [congruence |]. split.
      * intros F. rewrite Ok by exact F. rewrite Ok1; [reflexivity |].
        destruct W' as (_ & _ & _ & _ & _ & S').
        destruct (had_error g); [| reflexivity]. rewrite S' in F by reflexivity.
        discriminate.
      * intros C. apply andb_true_iff in C. destruct C as [C1 C2].
        destruct (Keep1 C1) as (X1 & Y1). destruct (Keep C2) as (X2 & Y2).
        split; congruence.
    + intros C. apply andb_true_iff in C. destruct C as [C1 C2].
      destruct (B C1) as (g & E). rewrite E. cbn [bind].
      destruct (statement_writes s cg g R1 R2 E) as (W & _).
      destruct (writes_range _ _ _ _ W) as (R1' & R2').
      apply (proj2 (IH g R1' R2')), C2.
Qed.

Lemma generate_c_program_spec (cg : CodeGenerator) (pos : Position) (ss : list ASTNode) :
  int_range (lines_generated cg) -> int_range (variables_declared cg) ->
  (forall cg', generate_c_program cg (Program pos ss) = Done cg' ->
     writes (8 + count is_statement ss) (count is_var_declaration ss) cg cg'
     /\ indent_level cg' = to_int (to_int (indent_level cg + 1) - 1)
     /\ (had_error cg' = false -> forallb c_statement ss = true)
     /\ (forallb c_statement ss = true ->
         had_error cg' = had_error cg /\ error_message cg' = error_message cg))
  /\ (forallb c_statement ss = true ->
      exists cg', generate_c_program cg (Program pos ss) = Done cg').
Proof.
  intros R1 R2. cbn [generate_c_program].
  set (g1 := emit_line cg "#include <stdio.h>").
  set (g2 := emit_line g1 "#include <stdlib.h>").
  set (g3 := emit_line g2 "#include <stdbool.h>").
  set (g4 := emit_line g3 "#include <string.h>").
  set (g5 := emit_line g4 EmptyString).
  set (g6 := emit_line g5 "int main() {").
  destruct (emit_line_spec cg "#include <stdio.h>" R2) as (W1 & I1 & H1 & M1).
  fold g1 in W1, I1, H1, M1. destruct (writes_range _ _ _ _ W1) as (_ & V1).
  destruct (emit_line_spec g1 "#include <stdlib.h>" V1) as (W2 & I2 & H2 & M2).
  fold g2 in W2, I2, H2, M2. destruct (writes_range _ _ _ _ W2) as (_ & V2).
  destruct (emit_line_spec g2 "#include <stdbool.h>" V2) as (W3 & I3 & H3 & M3).
  fold g3 in W3, I3, H3, M3. destruct (writes_range _ _ _ _ W3) as (_ & V3).
  destruct (emit_line_spec g3 "#include <string.h>" V3) as (W4 & I4 & H4 & M4).
  fold g4 in W4, I4, H4, M4. destruct (writes_range _ _ _ _ W4) as (_ & V4).
  destruct (emit_line_spec g4 EmptyString V4) as (W5 & I5 & H5 & M5).
  fold g5 in W5, I5, H5, M5. destruct (writes_range _ _ _ _ W5) as (_ & V5).
  destruct (emit_line_spec g5 "int main() {" V5) as (W6 & I6 & H6 & M6).
  fold g6 in W6, I6, H6, M6. destruct (writes_range _ _ _ _ W6) as (L6 & V6).
  pose proof (writes_trans _ _ _ _ _ _ _ W1
               (writes_trans _ _ _ _ _ _ _ W2
                  (writes_trans _ _ _ _ _ _ _ W3
                     (writes_trans _ _ _ _ _ _ _ W4
                        (writes_trans _ _ _ _ _ _ _ W5 W6))))) as W.
  cbn in W.
  set (g7 := set_indent_level (to_int (indent_level g6 + 1)) g6).
  assert (W7 : writes 6 0 cg g7) by exact W.
  assert (H7 : had_error g7 = had_error cg /\ error_message g7 = error_message cg)
    by (unfold g7; cg_fields; split; congruence).
  assert (I7 : indent_level g7 = to_int (indent_level cg + 1))
    by (unfold g7; cg_fields; congruence).
  destruct H7 as (H7 & M7).
  destruct (generate_statements_spec ss g7 L6 V6) as (A & B).
  clearbody g7. clear W1 W2 W3 W4 W5 W6 I1 I2 I3 I4 I5 I6
    H1 H2 H3 H4 H5 H6 M1 M2 M3 M4 M5 M6 V1 V2 V3 V4 V5 L6 V6 W.
  clear g6 g5 g4 g3 g2 g1.
  assert (Tail : forall g, writes (count is_statement ss) (count is_var_declaration ss) g7 g ->
            indent_level g = indent_level g7 ->
            let g' := emit_line (set_indent_level (to_int (indent_level (emit_line g "return 0;") - 1))
                                   (emit_line g "return 0;")) "}" in
            writes (8 + count is_statement ss) (count is_var_declaration ss) cg g'
            /\ indent_level g' = to_int (to_int (indent_level cg + 1) - 1)
            /\ had_error g' = had_error g /\ error_message g' = error_message g).
  { intros g Wg Ig. cbv zeta.
    destruct (writes_range _ _ _ _ Wg) as (_ & Vg).
    destruct (emit_line_spec g "return 0;" Vg) as (Wa & Ia & Ha & Ma).
    set (ga := emit_line g "return 0;") in *.
    set (gb := set_indent_level (to_int (indent_level ga - 1)) ga).
    assert (Wb : writes 1 0 g gb) by exact Wa.
    destruct (writes_range _ _ _ _ Wb) as (_ & Vb).
    destruct (emit_line_spec gb "}" Vb) as (Wc & Ic & Hc & Mc).
    split.
    { pose proof (writes_trans _ _ _ _ _ _ _ W7
                    (writes_trans _ _ _ _ _ _ _ Wg
                       (writes_trans _ _ _ _ _ _ _ Wb Wc))) as Wt.
      replace (8 + count is_statement ss) with (6 + (count is_statement ss + (1 + 1)))
        by lia.
      replace (count is_var_declaration ss)
        with (0 + (count is_var_declaration ss + (0 + 0))) at 1 by lia.
      exact Wt. }
    split; [rewrite Ic; unfold gb; cg_fields; congruence |].
    split; [rewrite Hc; unfold gb; cg_fields; congruence |].
    rewrite Mc; unfold gb; cg_fields; congruence. }
  split.
  - intros cg' H.
    destruct (generate_statements g7 ss) as [g | |] eqn:E; cbn [bind] in H;
      try discriminate H. cbv zeta in H. injection H as <-.
    destruct (A g eq_refl) as (Wg & Ig & Ok & Keep).
    destruct (Tail g Wg Ig) as (T1 & T2 & T3 & T4).
    match goal with |- writes _ _ _ ?x /\ _ => set (gf := x) in * end.
    change (had_error gf = had_error g) in T3.
    change (error_message gf = error_message g) in T4.
    split; [exact T1 |]. split; [exact T2 |]. rewrite T3, T4.
    split; [exact Ok |]. intros C. destruct (Keep C). split; congruence.
  - intros C. destruct (B C) as (g & ->). cbn [bind]. eexists; reflexivity.
Qed.
(** ** What a run of the emitter leaves behind *)

Lemma grows_refl (cg : CodeGenerator) : grows cg cg.
Proof. split; [exists []; rewrite app_nil_r; reflexivity | auto]. Qed.

Lemma grows_trans (a b c : CodeGenerator) : grows a b -> grows b c -> grows a c.
Proof.
  intros ((o1 & O1) & F1 & S1) ((o2 & O2) & F2 & S2).
  split; [exists (o1 ++ o2); rewrite O2, O1, app_assoc; reflexivity |].
  split; [congruence | auto].
Qed.

Lemma emit_line_grows (cg : CodeGenerator) (line : string) : grows cg (emit_line cg line).
Proof.
  destruct (emits_indent cg) as ((O & F & _) & Hi & _).
  unfold grows, emit_line. cg_fields. rewrite F, Hi. split; [| auto].
  destruct O as (out & ->). rewrite <- app_assoc. eexists; reflexivity.
Qed.

Lemma set_indent_level_grows (cg : CodeGenerator) (n : Z) : grows cg (set_indent_level n cg).
Proof. unfold grows. cg_fields. split; [exists []; rewrite app_nil_r; reflexivity | auto]. Qed.

Lemma generate_statements_grow (ss : list ASTNode) :
  forall cg cg', generate_statements cg ss = Done cg' -> grows cg cg'.
Proof.
  induction ss as [| s ss IH]; intros cg cg' H; cbn [generate_statements] in H.
  - injection H as <-. apply grows_refl.
  - destruct (generate_c_statement cg (Some s)) as [g | |] eqn:E;
      cbn [bind] in H; try discriminate H.
    destruct (proj1 (generate_c_statement_spec s cg) g E)
      as (O1 & F1 & _ & _ & _ & _ & S1 & _).
    apply (grows_trans cg g cg'); [split; auto | apply IH, H].
Qed.

Lemma generate_c_program_grows (cg cg' : CodeGenerator) (ast : ASTNode) :
  generate_c_program cg ast = Done cg' -> grows cg cg'.
Proof.
  destruct ast; try discriminate. cbn [generate_c_program]. cbv zeta.
  set (g1 := emit_line cg "#include <stdio.h>").
  set (g2 := emit_line g1 "#include <stdlib.h>").
  set (g3 := emit_line g2 "#include <stdbool.h>").
  set (g4 := emit_line g3 "#include <string.h>").
  set (g5 := emit_line g4 EmptyString).
  set (g6 := emit_line g5 "int main() {").
  set (g7 := set_indent_level _ g6).
  assert (G7 : grows cg g7).
  { apply (grows_trans _ g1); [apply emit_line_grows |].
    apply (grows_trans _ g2); [apply emit_line_grows |].
    apply (grows_trans _ g3); [apply emit_line_grows |].
    apply (grows_trans _ g4); [apply emit_line_grows |].
    apply (grows_trans _ g5); [apply emit_line_grows |].
    apply (grows_trans _ g6); [apply emit_line_grows |].
    apply set_indent_level_grows. }
  clearbody g7. clear g1 g2 g3 g4 g5 g6.
  destruct (generate_statements g7 statements) as [gs | |] eqn:Es;
    cbn [bind]; try discriminate.
  intros [= <-].
  apply (grows_trans _ g7); [exact G7 |].
  apply (grows_trans _ gs); [apply (generate_statements_grow _ _ _ Es) |].
  eapply grows_trans; [apply emit_line_grows |].
  eapply grows_trans; [apply set_indent_level_grows |].
  apply emit_line_grows.
Qed.

(** A run only appends to the output and never clears an error: what was
    written stays in front of what the run writes (also when it fails), a
    generator that had an error fails again, and the value returned is true
    exactly for the C format with no error recorded. *)
Theorem generate_appends (cg cg' : CodeGenerator) (ast : ASTNode) (ok : bool) :
  codegen_generate (Some cg) (Some ast) = Done (ok, Some cg') ->
  (exists out, output_file cg' = output_file cg ++ out)
  /\ format cg' = format cg
  /\ (had_error cg = true -> had_error cg' = true)
  /\ ok = match format cg with
          | OUTPUT_C => negb (had_error cg')
          | _ => false
          end.
Proof.
  unfold codegen_generate. intros H.
  destruct (format cg) eqn:F;
    try (injection H as <- <-; cg_fields;
         split; [exists []; rewrite app_nil_r; reflexivity | auto]).
  destruct (generate_c_program cg ast) as [g | |] eqn:E; cbn [bind] in H;
    try discriminate H. injection H as <- <-.
  destruct (generate_c_program_grows _ _ _ E) as (O & Fg & S).
  rewrite <- F. auto.
Qed.

Lemma generate_appends_witness :
  let cg := codegen_error (fprintf (codegen_create OUTPUT_C) (text "// old")) "old" in
  exists cg',
    codegen_generate (Some cg) (Some (Program nowhere [])) = Done (false, Some cg')
    /\ (exists out, output_file cg' = text "// old" :: out)
    /\ had_error cg' = true.
Proof.
  cbv zeta. eexists. split; [reflexivity |].
  match goal with
  | |- (exists out, output_file ?g = _) /\ _ =>
      destruct (generate_appends
                  (codegen_error (fprintf (codegen_create OUTPUT_C) (text "// old")) "old")
                  g (Program nowhere []) false eq_refl) as (O & _ & S & _)
  end.
  split; [exact O | apply S; reflexivity].
Defined.

(** The counters after a C run over a program: eight lines of frame and one
    line for each statement, one variable for each declaration; the
    indentation is back where it was. *)
Theorem generate_counts (cg cg' : CodeGenerator) (pos : Position)
        (statements : list ASTNode) (ok : bool) :
  format cg = OUTPUT_C ->
  int_range (lines_generated cg) -> int_range (variables_declared cg) ->
  int_range (indent_level cg) ->
  codegen_generate (Some cg) (Some (Program pos statements)) = Done (ok, Some cg') ->
  lines_generated cg' = to_int (lines_generated cg + (8 + count is_statement statements))
  /\ variables_declared cg'
     = to_int (variables_declared cg + count is_var_declaration statements)
  /\ indent_level cg' = indent_level cg
  /\ functions_generated cg' = functions_generated cg.
Proof.
  intros F R1 R2 R3 H. unfold codegen_generate in H. rewrite F in H.
  destruct (generate_c_program cg (Program pos statements)) as [g | |] eqn:E;
    cbn [bind] in H; try discriminate H. injection H as _ <-.
  destruct (proj1 (generate_c_program_spec cg pos statements R1 R2) g E)
    as ((_ & _ & Fn & L & V & _) & I & _).
  rewrite L, V, I, Fn. repeat split.
  rewrite <- (LexMore.to_int_range (indent_level cg)) at 2 by exact R3.
  replace (to_int (indent_level cg + 1) - 1)
    with (to_int (indent_level cg + 1) + (- 1)) by lia.
  rewrite LexMore.to_int_add_l. f_equal. lia.
Qed.

Lemma generate_counts_witness :
  exists cg',
    codegen_generate (Some (codegen_create OUTPUT_C))
      (Some (Program nowhere
               [VarDeclaration nowhere TOKEN_INT (Some "x"%string) None;
                Unary nowhere TOKEN_MINUS None;
                ReturnStmt nowhere None]))
    = Done (false, Some cg')
    /\ lines_generated cg' = 10 /\ variables_declared cg' = 1
    /\ indent_level cg' = 0.
Proof.
  eexists. split; [reflexivity |].
  match goal with
  | |- lines_generated ?g = _ /\ _ =>
      destruct (generate_counts (codegen_create OUTPUT_C) g nowhere
                  [VarDeclaration nowhere TOKEN_INT (Some "x"%string) None;
                   Unary nowhere TOKEN_MINUS None;
                   ReturnStmt nowhere None] false eq_refl)
        as (L & V & I & _);
      [cbn; unfold int_range; lia .. | reflexivity |]
  end.
  rewrite L, V, I. repeat split.
Defined.


End GenMore.

(** * More on the parser: termination and the shape of the result *)

Module ParseMore.

Import Parse ParseFacts.

Ltac p_fields :=
  cbn [lexer current previous had_error panic_mode error_message arena_used
       nodes_created set_tokens set_panic_mode set_arena_used] in *.

Lemma reads_refl (p : Parser) : parser_ok p -> reads p p.
Proof. intros H. unfold reads. auto. Qed.

Lemma reads_trans (a b c : Parser) : reads a b -> reads b c -> reads a c.
Proof.
  unfold reads. intros (_ & L1 & S1 & E1) (K2 & L2 & S2 & E2).
  repeat split; try apply K2; try lia; try congruence; auto.
Qed.

Lemma reads_ok (p p' : Parser) : reads p p' -> parser_ok p'.
Proof. intros (H & _). exact H. Qed.

Lemma progress_reads (p p' : Parser) : progress p p' -> reads p p'.
Proof. intros (H & _). exact H. Qed.

Lemma progress_then (a b c : Parser) : progress a b -> reads b c -> progress a c.
Proof.
  intros (R1 & P1) R2. split; [eapply reads_trans; eassumption |].
  destruct R2 as (_ & L2 & _ & E2). destruct P1 as [P1 | P1]; [left; lia | right; auto].
Qed.

Lemma reads_then (a b c : Parser) : reads a b -> progress b c -> progress a c.
Proof.
  intros R1 (R2 & P2). split; [eapply reads_trans; eassumption |].
  destruct R1 as (_ & L1 & _ & _). destruct P2 as [P2 | P2]; [left; lia | right; auto].
Qed.

(** [parser_error] records an error, whatever the mode. *)
Lemma parser_error_reads (p : Parser) (message : string) :
  parser_ok p ->
  reads p (parser_error p message) /\ had_error (parser_error p message) = true
  /\ current (parser_error p message) = current p
  /\ previous (parser_error p message) = previous p
  /\ arena_used (parser_error p message) = arena_used p.
Proof.
  intros (K & P & A). unfold parser_error.
  destruct (panic_mode p) eqn:E.
  - repeat split; auto; lia.
  - unfold reads, parser_ok, left_to_read, at_eof. p_fields.
    repeat split; auto; lia.
Qed.

Lemma skip_error_tokens_ok (fuel : nat) (p : Parser) :
  parser_ok p ->
  let q := skip_error_tokens fuel p in
  (panic_mode q = true -> had_error q = true)
  /\ arena_used q = arena_used p /\ previous q = previous p
  /\ Lex.source (lexer q) = Lex.source (lexer p)
  /\ (had_error p = true -> had_error q = true).
Proof.
  revert p. induction fuel as [| fuel IH]; intros p (K & P & A); cbn [skip_error_tokens].
  - auto.
  - destruct (TokenType_eqb (tok_type (current p)) TOKEN_ERROR); [| auto].
    destruct (parser_error_reads p "Lexical error" (conj K (conj P A)))
      as (((K1 & P1 & A1) & _ & S1 & E1) & H1 & C1 & Pr1 & Ar1).
    pose proof (LexFacts.next_token_follows (lexer (parser_error p "Lexical error")))
      as (Fs & _).
    destruct (next_token_consumes _ K1) as (K2 & _).
    destruct (Lex.lexer_next_token (lexer (parser_error p "Lexical error")))
      as [t lx]. cbn [fst snd] in *.
    set (p1 := set_tokens lx t _ _).
    assert (Ok1 : parser_ok p1) by (unfold parser_ok, p1; p_fields; auto).
    destruct (IH p1 Ok1) as (Q1 & Q2 & Q3 & Q4 & Q5). cbv zeta in *.
    assert (F1 : arena_used p1 = arena_used p /\ previous p1 = previous p
                 /\ Lex.source (lexer p1) = Lex.source (lexer p)
                 /\ had_error p1 = true).
    { unfold p1. p_fields. repeat split; congruence. }
    destruct F1 as (F1 & F2 & F3 & F4).
    repeat split; auto; congruence.
Qed.

(** [advance] from a token that is not the end of input reads on. *)
Lemma advance_reads_on (p : Parser) :
  parser_ok p -> at_eof p = false ->
  reads p (advance p) /\ (left_to_read (advance p) < left_to_read p)%nat
  /\ previous (advance p) = current p
  /\ arena_used (advance p) = arena_used p.
Proof.
  intros (K & P & A) E.
  destruct (advance_reads p K) as (K' & L).
  assert (Q : (panic_mode (advance p) = true -> had_error (advance p) = true)
              /\ arena_used (advance p) = arena_used p
              /\ previous (advance p) = current p
              /\ Lex.source (lexer (advance p)) = Lex.source (lexer p)
              /\ (had_error p = true -> had_error (advance p) = true)).
  { unfold advance.
    pose proof (LexFacts.next_token_follows (lexer p)) as (Fs & _).
    destruct (next_token_consumes _ K) as (K2 & _).
    destruct (Lex.lexer_next_token (lexer p)) as [t lx]. cbn [fst snd] in *.
    set (p1 := set_tokens lx t (current p) p).
    assert (Ok1 : parser_ok p1) by (unfold parser_ok, p1; p_fields; auto).
    destruct (skip_error_tokens_ok (S (Lex.fuel_of lx)) p1 Ok1) as (Q1 & Q2 & Q3 & Q4 & Q5).
    cbv zeta in *.
    assert (F1 : arena_used p1 = arena_used p /\ previous p1 = current p
                 /\ Lex.source (lexer p1) = Lex.source (lexer p)
                 /\ had_error p1 = had_error p).
    { unfold p1. p_fields. repeat split; congruence. }
    destruct F1 as (F1 & F2 & F3 & F4).
    repeat split; auto; try congruence; intros H; apply Q5; congruence. }
  destruct Q as (Q1 & Q2 & Q3 & Q4 & Q5).
  assert (Lt : (left_to_read (advance p) < left_to_read p)%nat).
  { unfold left_to_read. rewrite E. unfold at_eof.
    destruct (TokenType_eqb (tok_type (current (advance p))) TOKEN_EOF) eqn:E'; [lia |].
    destruct L as [L | L]; [| lia].
    apply LexFacts.TokenType_eqb_eq in L. congruence. }
  split; [| auto].
  unfold reads, parser_ok. rewrite Q2. repeat split; auto; lia.
Qed.

(** [match]: no move, or a token of that kind was read. *)
Lemma match_spec (p : Parser) (type : TokenType) :
  type <> TOKEN_EOF -> parser_ok p ->
  (match_ p type = (false, p) /\ tok_type (current p) <> type)
  \/ (exists p', match_ p type = (true, p') /\ reads p p'
                 /\ (left_to_read p' < left_to_read p)%nat
                 /\ tok_type (previous p') = type
                 /\ previous p' = current p).
Proof.
  intros N Ok. unfold match_, check.
  destruct (TokenType_eqb (tok_type (current p)) type) eqn:E; cbn [negb].
  - right. apply LexFacts.TokenType_eqb_eq in E.
    assert (Ne : at_eof p = false).
    { unfold at_eof. apply TokenType_eqb_neq. congruence. }
    destruct (advance_reads_on p Ok Ne) as (R & L & Pr & _).
    exists (advance p). repeat split; try apply R; auto. congruence.
  - left. split; [reflexivity |]. apply TokenType_eqb_neq, E.
Qed.

Lemma match_any_spec (types : list TokenType) :
  ~ In TOKEN_EOF types ->
  forall p, parser_ok p ->
    (match_any p types = (false, p) /\ ~ In (tok_type (current p)) types)
    \/ (exists p', match_any p types = (true, p') /\ reads p p'
                   /\ (left_to_read p' < left_to_read p)%nat
                   /\ In (tok_type (previous p')) types
                   /\ previous p' = current p).
Proof.
  induction types as [| t ts IH]; intros N p Ok; cbn [match_any].
  - left. split; [reflexivity | intros []].
  - destruct (match_spec p t ltac:(intros ->; apply N; left; reflexivity) Ok)
      as [(E & Ne) | (p' & E & R & L & T & Pr)]; rewrite E.
    + destruct (IH ltac:(intros H; apply N; right; exact H) p Ok)
        as [(E' & Ne') | (p' & E' & R & L & T & Pr)].
      * left. split; [exact E' |]. intros [H | H]; [congruence | contradiction].
      * right. exists p'. repeat split; try apply R; auto. right. exact T.
    + right. exists p'. repeat split; try apply R; auto. left. congruence.
Qed.

Lemma consume_spec (p : Parser) (type : TokenType) (message : string) :
  type <> TOKEN_EOF -> parser_ok p ->
  reads p (snd (consume p type message))
  /\ (fst (consume p type message) = false ->
      had_error (snd (consume p type message)) = true)
  /\ (fst (consume p type message) = true ->
      (left_to_read (snd (consume p type message)) < left_to_read p)%nat
      /\ tok_type (previous (snd (consume p type message))) = type)
  /\ (fst (consume p type message) = false ->
      previous (snd (consume p type message)) = previous p).
Proof.
  intros N Ok. unfold consume.
  destruct (TokenType_eqb (tok_type (current p)) type) eqn:E; cbn [fst snd].
  - apply LexFacts.TokenType_eqb_eq in E.
    assert (Ne : at_eof p = false).
    { unfold at_eof. apply TokenType_eqb_neq. congruence. }
    destruct (advance_reads_on p Ok Ne) as (R & L & Pr & _).
    repeat split; try apply R; auto; try discriminate. congruence.
  - destruct (parser_error_reads p message Ok) as (R & H & _ & Pr & _).
    repeat split; try apply R; auto; discriminate.
Qed.
(** ** Allocation *)

Lemma arena_alloc_bounds (used size u : Z) :
  arena_alloc used size = Some u -> 0 <= u <= ARENA_SIZE.
Proof.
  unfold arena_alloc.
  destruct (Z.ltb_spec ARENA_SIZE (to_size_t (used + size))); [discriminate |].
  intros [= <-]. split; [| assumption].
  unfold to_size_t. apply Z.mod_pos_bound. lia.
Qed.

Lemma sba_refl (p : Parser) : parser_ok p -> same_but_arena p p.
Proof. intros (_ & _ & A). unfold same_but_arena. auto 10. Qed.

Lemma sba_trans (a b c : Parser) :
  same_but_arena a b -> same_but_arena b c -> same_but_arena a c.
Proof.
  unfold same_but_arena.
  intros (A1 & A2 & A3 & A4 & A5 & A6 & A7) (B1 & B2 & B3 & B4 & B5 & B6 & B7).
  repeat split; try congruence; lia.
Qed.

Lemma sba_reads (p p' : Parser) :
  parser_ok p -> same_but_arena p p' ->
  reads p p' /\ left_to_read p' = left_to_read p /\ had_error p' = had_error p
  /\ previous p' = previous p.
Proof.
  intros (K & P & A) (A1 & A2 & A3 & A4 & A5 & A6 & A7).
  unfold reads, parser_ok, left_to_read, at_eof. rewrite A1, A2, A4, A5.
  repeat split; auto; lia.
Qed.

Lemma set_arena_used_sba (p : Parser) (size u : Z) :
  arena_alloc (arena_used p) size = Some u -> same_but_arena p (set_arena_used u p).
Proof.
  intros H. apply arena_alloc_bounds in H. unfold same_but_arena. p_fields. auto 10.
Qed.

Lemma ast_allocate_sba (p : Parser) (type : ASTNodeType) :
  parser_ok p -> same_but_arena p (snd (ast_allocate p type)).
Proof.
  intros Ok. unfold ast_allocate.
  destruct (arena_alloc (arena_used p) sizeof_ASTNode) as [u |] eqn:E; cbn [snd].
  - apply arena_alloc_bounds in E. unfold same_but_arena. p_fields. auto 10.
  - apply sba_refl, Ok.
Qed.

Lemma sba_ok (p p' : Parser) : parser_ok p -> same_but_arena p p' -> parser_ok p'.
Proof. intros Ok S. apply (sba_reads p p' Ok S). Qed.

Lemma copy_name_sba (p : Parser) (name : string) :
  parser_ok p -> same_but_arena p (snd (copy_name p name)).
Proof.
  intros Ok. unfold copy_name.
  destruct (arena_alloc _ _) as [u |] eqn:E; cbn [snd];
    [eapply set_arena_used_sba; eassumption | apply sba_refl, Ok].
Qed.

Lemma ast_create_literal_sba (p : Parser) (type : TokenType) (token : Token) :
  parser_ok p -> same_but_arena p (snd (ast_create_literal p type token)).
Proof.
  intros Ok. unfold ast_create_literal.
  pose proof (ast_allocate_sba p AST_LITERAL Ok) as S.
  destruct (ast_allocate p AST_LITERAL) as [[pos |] p1]; cbn [snd] in *; [| exact S].
  destruct type; cbn [snd]; try exact S.
  destruct (arena_alloc _ _) as [u |] eqn:E; cbn [snd]; [| exact S].
  eapply sba_trans; [exact S | eapply set_arena_used_sba; eassumption].
Qed.

Lemma ast_create_identifier_sba (p : Parser) (name : string) :
  parser_ok p -> same_but_arena p (snd (ast_create_identifier p name)).
Proof.
  intros Ok. unfold ast_create_identifier.
  pose proof (ast_allocate_sba p AST_IDENTIFIER Ok) as S.
  destruct (ast_allocate p AST_IDENTIFIER) as [[pos |] p1]; cbn [snd] in *; [| exact S].
  pose proof (copy_name_sba p1 name (sba_ok _ _ Ok S)) as S'.
  destruct (copy_name p1 name) as [nm p2]. cbn [snd] in *.
  eapply sba_trans; eassumption.
Qed.

Lemma ast_create_binary_sba (p : Parser) (l : option ASTNode) (op : TokenType)
      (r : option ASTNode) :
  parser_ok p -> same_but_arena p (snd (ast_create_binary p l op r)).
Proof.
  intros Ok. unfold ast_create_binary.
  pose proof (ast_allocate_sba p AST_BINARY Ok) as S.
  destruct (ast_allocate p AST_BINARY) as [[pos |] p1]; exact S.
Qed.

Lemma ast_create_unary_sba (p : Parser) (op : TokenType) (e : option ASTNode) :
  parser_ok p -> same_but_arena p (snd (ast_create_unary p op e)).
Proof.
  intros Ok. unfold ast_create_unary.
  pose proof (ast_allocate_sba p AST_UNARY Ok) as S.
  destruct (ast_allocate p AST_UNARY) as [[pos |] p1]; exact S.
Qed.

Lemma ast_create_return_sba (p : Parser) (v : option ASTNode) :
  parser_ok p ->
  same_but_arena p (snd (ast_create_return p v))
  /\ (forall d, fst (ast_create_return p v) = Some d -> is_statement d = true).
Proof.
  intros Ok. unfold ast_create_return.
  pose proof (ast_allocate_sba p AST_RETURN_STMT Ok) as S.
  destruct (ast_allocate p AST_RETURN_STMT) as [[pos |] p1]; cbn [fst snd] in *;
    (split; [exact S |]); intros d [= <-]; reflexivity.
Qed.

Lemma ast_create_var_decl_sba (p : Parser) (type : TokenType) (name : string)
      (init : option ASTNode) :
  parser_ok p ->
  same_but_arena p (snd (ast_create_var_decl p type name init))
  /\ (forall d, fst (ast_create_var_decl p type name init) = Some d ->
                is_statement d = true).
Proof.
  intros Ok. unfold ast_create_var_decl.
  pose proof (ast_allocate_sba p AST_VAR_DECLARATION Ok) as S.
  destruct (ast_allocate p AST_VAR_DECLARATION) as [[pos |] p1]; cbn [fst snd] in *;
    [| split; [exact S | discriminate]].
  pose proof (copy_name_sba p1 name (sba_ok _ _ Ok S)) as S'.
  destruct (copy_name p1 name) as [nm p2]. cbn [fst snd] in *.
  split; [eapply sba_trans; eassumption |]. intros d [= <-]. reflexivity.
Qed.

Lemma progress_sba (a b c : Parser) :
  progress a b -> same_but_arena b c -> progress a c.
Proof.
  intros P S. eapply progress_then; [exact P |].
  apply sba_reads; [apply (reads_ok a), progress_reads, P | exact S].
Qed.

Lemma reads_sba (a b c : Parser) : reads a b -> same_but_arena b c -> reads a c.
Proof.
  intros R S. eapply reads_trans; [exact R |].
  apply sba_reads; [apply (reads_ok a), R | exact S].
Qed.

Lemma consumed_progress (p p' : Parser) :
  reads p p' -> (left_to_read p' < left_to_read p)%nat -> progress p p'.
Proof. intros R L. split; [exact R | left; exact L]. Qed.

Lemma good_below_le (n m : nat) (e : Parser -> parsed) :
  (m <= n)%nat -> good_below n e -> good_below m e.
Proof. intros H G q Ok L. apply G; [exact Ok | lia]. Qed.
(** ** The expression ladder returns *)

Lemma returns_pair (Q : option ASTNode -> Parser -> Prop) (x : option ASTNode * Parser) :
  Q (fst x) (snd x) -> returns Q (Done x).
Proof. destruct x. exact (fun H => H). Qed.

Lemma returns_weaken (Q Q' : option ASTNode -> Parser -> Prop) (r : parsed) :
  (forall n p, Q n p -> Q' n p) -> returns Q r -> returns Q' r.
Proof. intros H. destruct r as [[n p] | |]; cbn; auto. Qed.

Lemma returns_bind (Q Q' : option ASTNode -> Parser -> Prop) (r : parsed)
      (k : option ASTNode * Parser -> parsed) :
  returns Q r -> (forall n p, Q n p -> returns Q' (k (n, p))) -> returns Q' (bind r k).
Proof. intros R H. destruct r as [[n p] | |]; cbn in *; auto. Qed.

Ltac no_eof := cbn; intuition discriminate.

Lemma primary_good (n : nat) (e : Parser -> parsed) :
  good_below n e ->
  forall p, parser_ok p -> (left_to_read p <= n)%nat ->
            returns (fun _ p' => progress p p') (primary e p).
Proof.
  intros G p Ok L. unfold primary.
  destruct (match_any_spec [TOKEN_TRUE; TOKEN_FALSE] ltac:(no_eof) p Ok)
    as [(E & _) | (p' & E & R & Lt & _)]; rewrite E; cbv beta iota.
  2: { apply returns_pair. eapply progress_sba; [apply consumed_progress; eassumption |].
       apply ast_create_literal_sba, (reads_ok p), R. }
  destruct (match_spec p TOKEN_NULL ltac:(discriminate) Ok)
    as [(E1 & _) | (p' & E1 & R & Lt & _)]; rewrite E1; cbv beta iota.
  2: { apply returns_pair. eapply progress_sba; [apply consumed_progress; eassumption |].
       apply ast_create_literal_sba, (reads_ok p), R. }
  destruct (match_spec p TOKEN_INTEGER ltac:(discriminate) Ok)
    as [(E2 & _) | (p' & E2 & R & Lt & _)]; rewrite E2; cbv beta iota.
  2: { apply returns_pair. eapply progress_sba; [apply consumed_progress; eassumption |].
       apply ast_create_literal_sba, (reads_ok p), R. }
  destruct (match_spec p TOKEN_FLOAT ltac:(discriminate) Ok)
    as [(E3 & _) | (p' & E3 & R & Lt & _)]; rewrite E3; cbv beta iota.
  2: { apply returns_pair. eapply progress_sba; [apply consumed_progress; eassumption |].
       apply ast_create_literal_sba, (reads_ok p), R. }
  destruct (match_spec p TOKEN_STRING ltac:(discriminate) Ok)
    as [(E4 & _) | (p' & E4 & R & Lt & _)]; rewrite E4; cbv beta iota.
  2: { apply returns_pair. eapply progress_sba; [apply consumed_progress; eassumption |].
       apply ast_create_literal_sba, (reads_ok p), R. }
  destruct (match_spec p TOKEN_IDENTIFIER ltac:(discriminate) Ok)
    as [(E5 & _) | (p' & E5 & R & Lt & _)]; rewrite E5; cbv beta iota.
  2: { apply returns_pair. eapply progress_sba; [apply consumed_progress; eassumption |].
       apply ast_create_identifier_sba, (reads_ok p), R. }
  destruct (match_spec p TOKEN_LPAREN ltac:(discriminate) Ok)
    as [(E6 & _) | (p' & E6 & R & Lt & _)]; rewrite E6; cbv beta iota.
  - cbn [returns]. destruct (parser_error_reads p "Expected expression" Ok) as (R & H & _).
    split; [exact R | right; exact H].
  - eapply returns_bind; [apply (G p' (reads_ok _ _ R)); lia |].
    intros expr p2 P2. cbv beta in P2. cbv beta iota.
    pose proof (consume_spec p2 TOKEN_RPAREN "Expected ')' after expression"
                  ltac:(discriminate) (reads_ok _ _ (progress_reads _ _ P2))) as (R3 & _).
    destruct (consume p2 TOKEN_RPAREN "Expected ')' after expression") as [b p3].
    cbn [snd] in R3. cbn [returns].
    eapply progress_then; [| exact R3].
    eapply progress_then; [apply consumed_progress; eassumption |].
    apply progress_reads, P2.
Qed.

Lemma unary_good (n : nat) (e : Parser -> parsed) :
  good_below n e ->
  forall fuel p, parser_ok p -> (left_to_read p <= n)%nat -> (left_to_read p < fuel)%nat ->
                 returns (fun _ p' => progress p p') (unary e fuel p).
Proof.
  intros G fuel. induction fuel as [| fuel IH]; intros p Ok L F; [lia |].
  cbn [unary].
  destruct (match_any_spec [TOKEN_NOT; TOKEN_MINUS] ltac:(no_eof) p Ok)
    as [(E & _) | (p' & E & R & Lt & _)]; rewrite E; cbv beta iota.
  - apply primary_good with (n := n); assumption.
  - eapply returns_bind; [apply (IH p' (reads_ok _ _ R)); lia |].
    intros operand p2 P2. cbv beta in P2. cbv beta iota. apply returns_pair.
    eapply progress_sba;
      [| apply ast_create_unary_sba, (reads_ok p'), progress_reads, P2].
    eapply progress_then; [apply consumed_progress; eassumption |].
    apply progress_reads, P2.
Qed.

(** A level of binary operators returns if its operand does. *)
Lemma binary_loop_good (ops : list TokenType) (operand : Parser -> parsed) (n : nat) :
  ~ In TOKEN_EOF ops ->
  (forall q, parser_ok q -> (left_to_read q <= n)%nat ->
             returns (fun _ q' => progress q q') (operand q)) ->
  forall fuel expr p, parser_ok p -> (left_to_read p <= n)%nat ->
                      (left_to_read p < fuel)%nat ->
                      returns (fun _ p' => reads p p') (binary_loop ops operand fuel expr p).
Proof.
  intros N G fuel. induction fuel as [| fuel IH]; intros expr p Ok L F; [lia |].
  cbn [binary_loop].
  destruct (match_any_spec ops N p Ok)
    as [(E & _) | (p' & E & R & Lt & _)]; rewrite E; cbv beta iota.
  - cbn [returns]. apply reads_refl, Ok.
  - eapply returns_bind; [apply (G p' (reads_ok _ _ R)); lia |].
    intros rhs p2 P2. cbv beta in P2. cbv beta iota.
    assert (Ok2 : parser_ok p2) by apply (reads_ok p'), progress_reads, P2.
    pose proof (ast_create_binary_sba p2 expr (tok_type (previous p')) rhs Ok2) as S.
    destruct (ast_create_binary p2 expr (tok_type (previous p')) rhs) as [expr' p3].
    cbn [snd] in S.
    destruct (sba_reads p2 p3 Ok2 S) as (R23 & L23 & _).
    assert (L2 : (left_to_read p2 <= left_to_read p')%nat) by apply P2.
    assert (R3 : reads p p3).
    { eapply reads_trans; [exact R |].
      eapply reads_trans; [apply progress_reads, P2 | exact R23]. }
    eapply returns_weaken; [| apply IH].
    + intros m q Rq. eapply reads_trans; [exact R3 | exact Rq].
    + apply (reads_ok p), R3.
    + lia.
    + lia.
Qed.

Lemma binary_level_good (ops : list TokenType) (operand : Parser -> parsed)
      (n fuel : nat) :
  ~ In TOKEN_EOF ops -> (n < fuel)%nat ->
  (forall q, parser_ok q -> (left_to_read q <= n)%nat ->
             returns (fun _ q' => progress q q') (operand q)) ->
  forall p, parser_ok p -> (left_to_read p <= n)%nat ->
            returns (fun _ p' => progress p p') (binary_level ops operand fuel p).
Proof.
  intros N F G p Ok L. unfold binary_level.
  eapply returns_bind; [apply (G p Ok L) |].
  intros expr p1 P1. cbv beta in P1. cbv beta iota.
  assert (L1 : (left_to_read p1 <= left_to_read p)%nat) by apply P1.
  eapply returns_weaken;
    [| apply (binary_loop_good ops operand n N G);
       [apply (reads_ok p), progress_reads, P1 | lia | lia]].
  intros m q Rq. eapply progress_then; eassumption.
Qed.

Lemma logical_or_good (n fuel : nat) (e : Parser -> parsed) :
  good_below n e -> (n < fuel)%nat ->
  forall p, parser_ok p -> (left_to_read p <= n)%nat ->
            returns (fun _ p' => progress p p') (logical_or e fuel p).
Proof.
  intros G F. unfold logical_or, logical_and, equality, comparison, term, factor.
  repeat (apply binary_level_good; [no_eof | exact F |]).
  intros q Ok L. apply unary_good with (n := n); try assumption. lia.
Qed.

Lemma assignment_good (n : nat) (e : Parser -> parsed) :
  good_below n e ->
  forall fuel p, parser_ok p -> (left_to_read p <= n)%nat ->
                 (left_to_read p + 2 <= fuel)%nat ->
                 returns (fun _ p' => progress p p') (assignment e fuel p).
Proof.
  intros G fuel. induction fuel as [| fuel IH]; intros p Ok L F; [lia |].
  cbn [assignment].
  eapply returns_bind;
    [apply (logical_or_good (left_to_read p) fuel e
              (good_below_le _ _ e L G) ltac:(lia) p Ok (Nat.le_refl _)) |].
  intros expr p1 P1. cbv beta in P1. cbv beta iota.
  assert (Ok1 : parser_ok p1) by apply (reads_ok p), progress_reads, P1.
  assert (L1 : (left_to_read p1 <= left_to_read p)%nat) by apply P1.
  destruct (match_spec p1 TOKEN_ASSIGN ltac:(discriminate) Ok1)
    as [(E & _) | (p2 & E & R & Lt & _)]; rewrite E; cbv beta iota.
  - cbn [returns]. exact P1.
  - eapply returns_bind; [apply (IH p2 (reads_ok _ _ R)); lia |].
    intros value p3 P3. cbv beta in P3. cbv beta iota.
    assert (Ok3 : parser_ok p3) by apply (reads_ok p2), progress_reads, P3.
    assert (P13 : progress p p3).
    { eapply progress_then; [exact P1 |].
      eapply reads_trans; [exact R | apply progress_reads, P3]. }
    destruct expr as [x |]; [| exact I].
    destruct (is_identifier x).
    + pose proof (ast_allocate_sba p3 AST_ASSIGNMENT Ok3) as S.
      destruct (ast_allocate p3 AST_ASSIGNMENT) as [[pos |] p4]; [| exact I].
      cbn [snd returns] in *. eapply progress_sba; eassumption.
    + cbn [returns]. eapply progress_then; [exact P13 |].
      apply parser_error_reads, Ok3.
Qed.

Lemma expression_good (fuel : nat) :
  forall p, parser_ok p -> (left_to_read p + 3 <= fuel)%nat ->
            returns (fun _ p' => progress p p') (expression fuel p).
Proof.
  induction fuel as [| fuel IH]; intros p Ok F; [lia |].
  cbn [expression].
  apply assignment_good with (n := left_to_read p); try assumption; try lia.
  intros q Okq Lq. apply IH; [exact Okq | lia].
Qed.
(** ** Statements *)

Lemma optional_expression_good (fuel : nat) (b : bool) (p : Parser) :
  parser_ok p -> (left_to_read p + 3 <= fuel)%nat ->
  returns (fun _ p' => reads p p')
          (if b then expression fuel p else Done (None, p)).
Proof.
  intros Ok F. destruct b.
  - eapply returns_weaken; [| apply expression_good; assumption].
    intros n q H. apply progress_reads, H.
  - cbn [returns]. apply reads_refl, Ok.
Qed.

Lemma var_declaration_good (fuel : nat) (p : Parser) :
  parser_ok p -> (left_to_read p + 3 <= fuel)%nat ->
  returns (fun d p' => reads p p' /\ (forall x, d = Some x -> is_statement x = true))
          (var_declaration fuel p).
Proof.
  intros Ok F. unfold var_declaration. cbv zeta.
  pose proof (consume_spec p TOKEN_IDENTIFIER "Expected variable name"
                ltac:(discriminate) Ok) as (R1 & _).
  destruct (consume p TOKEN_IDENTIFIER "Expected variable name") as [b1 p1].
  cbn [snd] in R1.
  assert (Ok1 : parser_ok p1) by apply (reads_ok p), R1.
  assert (L1 : (left_to_read p1 <= left_to_read p)%nat) by apply R1.
  assert (M : exists m p2, match_ p1 TOKEN_ASSIGN = (m, p2) /\ reads p1 p2).
  { destruct (match_spec p1 TOKEN_ASSIGN ltac:(discriminate) Ok1)
      as [(E & _) | (p2 & E & R & _)]; rewrite E; eauto using reads_refl. }
  destruct M as (m & p2 & -> & R2).
  assert (Ok2 : parser_ok p2) by apply (reads_ok p1), R2.
  assert (L2 : (left_to_read p2 <= left_to_read p1)%nat) by apply R2.
  eapply returns_bind;
    [apply (optional_expression_good fuel m p2 Ok2); lia |].
  intros init p3 R3. cbv beta in R3. cbv beta iota.
  assert (Ok3 : parser_ok p3) by apply (reads_ok p2), R3.
  pose proof (consume_spec p3 TOKEN_SEMICOLON "Expected ';' after variable declaration"
                ltac:(discriminate) Ok3) as (R4 & _).
  destruct (consume p3 TOKEN_SEMICOLON "Expected ';' after variable declaration")
    as [b4 p4]. cbn [snd] in R4.
  assert (Ok4 : parser_ok p4) by apply (reads_ok p3), R4.
  apply returns_pair.
  destruct (ast_create_var_decl_sba p4 (tok_type (previous p)) (previous_name p1) init Ok4)
    as (S & St).
  split; [| exact St].
  eapply reads_sba; [| exact S].
  eapply reads_trans; [exact R1 |]. eapply reads_trans; [exact R2 |].
  eapply reads_trans; eassumption.
Qed.

Lemma return_statement_good (fuel : nat) (p : Parser) :
  parser_ok p -> (left_to_read p + 3 <= fuel)%nat ->
  returns (fun d p' => reads p p' /\ (forall x, d = Some x -> is_statement x = true))
          (return_statement fuel p).
Proof.
  intros Ok F. unfold return_statement.
  eapply returns_bind;
    [apply (optional_expression_good fuel (negb (check p TOKEN_SEMICOLON)) p Ok F) |].
  intros value p1 R1. cbv beta in R1. cbv beta iota.
  assert (Ok1 : parser_ok p1) by apply (reads_ok p), R1.
  pose proof (consume_spec p1 TOKEN_SEMICOLON "Expected ';' after return value"
                ltac:(discriminate) Ok1) as (R2 & _).
  destruct (consume p1 TOKEN_SEMICOLON "Expected ';' after return value") as [b2 p2].
  cbn [snd] in R2.
  assert (Ok2 : parser_ok p2) by apply (reads_ok p1), R2.
  apply returns_pair.
  destruct (ast_create_return_sba p2 value Ok2) as (S & St).
  split; [| exact St].
  eapply reads_sba; [| exact S]. eapply reads_trans; eassumption.
Qed.

Lemma expression_statement_good (fuel : nat) (p : Parser) :
  parser_ok p -> (left_to_read p + 3 <= fuel)%nat ->
  returns (fun d p' => progress p p' /\ (forall x, d = Some x -> is_statement x = true))
          (expression_statement fuel p).
Proof.
  intros Ok F. unfold expression_statement.
  eapply returns_bind; [apply (expression_good fuel p Ok F) |].
  intros expr p1 P1. cbv beta in P1. cbv beta iota.
  assert (Ok1 : parser_ok p1) by apply (reads_ok p), progress_reads, P1.
  pose proof (consume_spec p1 TOKEN_SEMICOLON "Expected ';' after expression"
                ltac:(discriminate) Ok1) as (R2 & _).
  destruct (consume p1 TOKEN_SEMICOLON "Expected ';' after expression") as [b2 p2].
  cbn [snd] in R2.
  assert (Ok2 : parser_ok p2) by apply (reads_ok p1), R2.
  pose proof (ast_allocate_sba p2 AST_EXPRESSION_STMT Ok2) as S.
  destruct (ast_allocate p2 AST_EXPRESSION_STMT) as [[pos |] p3]; [| exact I].
  cbn [snd returns] in *. split; [| intros x [= <-]; reflexivity].
  eapply progress_sba; [| exact S]. eapply progress_then; eassumption.
Qed.

Lemma declaration_good (fuel : nat) (p : Parser) :
  parser_ok p -> (left_to_read p + 3 <= fuel)%nat ->
  returns (fun d p' => progress p p' /\ (forall x, d = Some x -> is_statement x = true))
          (declaration fuel p).
Proof.
  intros Ok F. unfold declaration.
  destruct (match_any_spec [TOKEN_INT; TOKEN_FLOAT_KW; TOKEN_STRING_KW; TOKEN_BOOL_KW]
                           ltac:(no_eof) p Ok)
    as [(E & _) | (p1 & E & R & Lt & _)]; rewrite E; cbv beta iota.
  - unfold statement.
    destruct (match_spec p TOKEN_RETURN ltac:(discriminate) Ok)
      as [(E1 & _) | (p1 & E1 & R & Lt & _)]; rewrite E1; cbv beta iota.
    + apply expression_statement_good; assumption.
    + eapply returns_weaken;
        [| apply (return_statement_good fuel p1 (reads_ok _ _ R)); lia].
      intros d q (Rq & St). split; [| exact St].
      eapply progress_then; [apply consumed_progress; eassumption | exact Rq].
  - eapply returns_weaken;
      [| apply (var_declaration_good fuel p1 (reads_ok _ _ R)); lia].
    intros d q (Rq & St). split; [| exact St].
    eapply progress_then; [apply consumed_progress; eassumption | exact Rq].
Qed.

Lemma synchronize_loop_reads (fuel : nat) (p : Parser) :
  parser_ok p -> reads p (synchronize_loop fuel p).
Proof.
  revert p. induction fuel as [| fuel IH]; intros p Ok; cbn [synchronize_loop];
    [apply reads_refl, Ok |].
  destruct (TokenType_eqb (tok_type (current p)) TOKEN_EOF) eqn:E; cbn [negb];
    [apply reads_refl, Ok |].
  destruct (TokenType_eqb (tok_type (previous p)) TOKEN_SEMICOLON);
    [apply reads_refl, Ok |].
  destruct (sync_point (tok_type (current p))); [apply reads_refl, Ok |].
  destruct (advance_reads_on p Ok E) as (R & _).
  eapply reads_trans; [exact R | apply IH, (reads_ok p), R].
Qed.

Lemma synchronize_reads (p : Parser) : parser_ok p -> reads p (synchronize p).
Proof.
  intros Ok. unfold synchronize.
  assert (R : reads p (set_panic_mode false p)).
  { destruct Ok as (K & P & A).
    unfold reads, parser_ok, left_to_read, at_eof. p_fields.
    repeat split; auto; try lia; discriminate. }
  eapply reads_trans; [exact R | apply synchronize_loop_reads, (reads_ok p), R].
Qed.
(** ** The main loop *)

Lemma parse_loop_good (fuel : nat) :
  forall (p : Parser) (statements : option (list ASTNode)),
    parser_ok p ->
    (left_to_read p + 3 <= fuel)%nat \/ (had_error p = true /\ (1 <= fuel)%nat) ->
    (forall l, statements = Some l ->
               Forall (fun x => is_statement x = true) l /\ (List.length l <= 1000)%nat) ->
    match parse_loop fuel p statements with
    | Done (statements', p') =>
        reads p p'
        /\ (had_error p' = true \/ at_eof p' = true)
        /\ (forall l, statements' = Some l ->
                      Forall (fun x => is_statement x = true) l
                      /\ (List.length l <= 1000)%nat)
    | Crash => True
    | OutOfFuel => False
    end.
Proof.
  induction fuel as [| fuel IH]; intros p statements Ok F St; [lia |].
  cbn [parse_loop]. unfold check. change (TokenType_eqb (tok_type (current p)) TOKEN_EOF)
    with (at_eof p).
  destruct (at_eof p) eqn:E; cbn [negb andb].
  { split; [apply reads_refl, Ok | auto]. }
  destruct (had_error p) eqn:H; cbn [negb].
  { split; [apply reads_refl, Ok | auto]. }
  destruct F as [F | (F & _)]; [| discriminate F].
  assert (Pos : (1 <= left_to_read p)%nat) by (unfold left_to_read; rewrite E; lia).
  destruct (match_spec p TOKEN_NEWLINE ltac:(discriminate) Ok)
    as [(E1 & _) | (p1 & E1 & R & Lt & _)]; rewrite E1; cbv beta iota.
  2: { specialize (IH p1 statements (reads_ok _ _ R) ltac:(left; lia) St).
       destruct (parse_loop fuel p1 statements) as [[s' p'] | |]; auto.
       destruct IH as (R' & Fin & St'). split; [eapply reads_trans; eassumption | auto]. }
  pose proof (declaration_good (S fuel) p Ok ltac:(lia)) as D.
  destruct (declaration (S fuel) p) as [[decl p2] | |]; cbn [bind returns] in *;
    [| exact I | exact D].
  destruct D as (P2 & Sd).
  assert (Ok2 : parser_ok p2) by apply (reads_ok p), progress_reads, P2.
  set (stored := match decl with
                 | Some d => store_statement statements d
                 | None => Done statements
                 end).
  assert (Sto : match stored with
                | Done s' => forall l, s' = Some l ->
                                       Forall (fun x => is_statement x = true) l
                                       /\ (List.length l <= 1000)%nat
                | Crash => True
                | OutOfFuel => False
                end).
  { unfold stored. destruct decl as [d |]; [| exact St].
    unfold store_statement. destruct statements as [l |]; [| exact I].
    destruct (Nat.leb_spec 1000 (List.length l)); [exact I |].
    intros l' [= <-]. destruct (St l eq_refl) as (Fa & _). split.
    - apply Forall_app. split; [exact Fa |]. constructor; [auto | constructor].
    - rewrite length_app. cbn [List.length]. lia. }
  destruct stored as [s' | |]; cbn [bind]; [| exact I | exact Sto].
  set (p3 := if panic_mode p2 then synchronize p2 else p2).
  assert (R3 : reads p2 p3).
  { unfold p3. destruct (panic_mode p2); [apply synchronize_reads | apply reads_refl];
      exact Ok2. }
  assert (P3 : progress p p3) by (eapply progress_then; eassumption).
  specialize (IH p3 s' (reads_ok _ _ R3)).
  assert (F3 : (left_to_read p3 + 3 <= fuel)%nat \/ had_error p3 = true /\ (1 <= fuel)%nat).
  { destruct P3 as (_ & [L | Hh]); [left; lia | right; split; [exact Hh | lia]]. }
  specialize (IH F3 Sto).
  destruct (parse_loop fuel p3 s') as [[s'' p'] | |]; auto.
  destruct IH as (R' & Fin & St'). split; [| auto].
  eapply reads_trans; [apply progress_reads, P3 | exact R'].
Qed.

Lemma parser_parse_good (fuel : nat) (p : Parser) :
  parser_ok p -> arena_used p = 0 -> (left_to_read p + 3 <= fuel)%nat ->
  returns (fun r p' =>
             reads p p' /\ (had_error p' = true \/ at_eof p' = true)
             /\ exists statements,
                  r = Some (Program (tok_pos (previous p)) statements)
                  /\ Forall (fun x => is_statement x = true) statements
                  /\ (List.length statements <= 1000)%nat)
          (parser_parse fuel p).
Proof.
  intros Ok A F. unfold parser_parse.
  pose proof (ast_allocate_sba p AST_PROGRAM Ok) as S.
  unfold ast_allocate in *. rewrite A in *.
  change (arena_alloc 0 sizeof_ASTNode) with (Some 64) in *. cbv beta iota in *.
  cbn [snd] in S.
  set (p1 := mkParser _ _ _ _ _ _ 64 _) in *.
  assert (Ok1 : parser_ok p1) by (eapply sba_ok; eassumption).
  destruct (sba_reads p p1 Ok S) as (R1 & L1 & _).
  change (arena_used p1) with 64.
  change (arena_alloc 64 (sizeof_pointer * 1000)) with (Some 8064). cbv beta iota.
  assert (S2 : same_but_arena p1 (set_arena_used 8064 p1)).
  { apply (set_arena_used_sba p1 (sizeof_pointer * 1000)). reflexivity. }
  set (p2 := set_arena_used 8064 p1) in *.
  assert (Ok2 : parser_ok p2) by (eapply sba_ok; eassumption).
  destruct (sba_reads p1 p2 Ok1 S2) as (R2 & L2 & _).
  pose proof (parse_loop_good fuel p2 (Some []) Ok2 ltac:(left; lia)) as G.
  specialize (G ltac:(intros l [= <-]; split; [constructor | cbn; lia])).
  destruct (parse_loop fuel p2 (Some [])) as [[s' p'] | |]; cbn [bind returns];
    [| exact I | exact G].
  destruct G as (R' & Fin & St).
  split; [exact (reads_trans _ _ _ R1 (reads_trans _ _ _ R2 R')) |].
  split; [exact Fin |].
  destruct s' as [l |].
  - exists l. destruct (St l eq_refl). auto.
  - exists []. split; [reflexivity |]. split; [constructor | cbn; lia].
Qed.
(** ** A fresh parser *)

Lemma skip_newlines_reads (fuel : nat) :
  forall (t : Token) (lx : Lex.Lexer),
    keywords_sane lx ->
    keywords_sane (snd (skip_newlines fuel t lx))
    /\ (remaining (snd (skip_newlines fuel t lx)) <= remaining lx)%nat
    /\ Lex.source (snd (skip_newlines fuel t lx)) = Lex.source lx.
Proof.
  induction fuel as [| fuel IH]; intros t lx K; cbn [skip_newlines]; [auto |].
  destruct (TokenType_eqb (tok_type t) TOKEN_NEWLINE
            && negb (TokenType_eqb (tok_type t) TOKEN_EOF)); [| auto].
  destruct (next_token_consumes lx K) as (K' & Le & _).
  pose proof (LexFacts.next_token_follows lx) as (Fs & _).
  destruct (Lex.lexer_next_token lx) as [t' lx']. cbn [fst snd] in *.
  destruct (IH t' lx' K') as (K2 & L2 & S2).
  repeat split; [exact K2 | lia | congruence].
Qed.

Lemma parser_create_ok (src fname : string) (uninit : Token) :
  let p := parser_create (Lex.lexer_create src fname) uninit in
  parser_ok p /\ arena_used p = 0 /\ previous p = uninit
  /\ (left_to_read p <= S (String.length src))%nat
  /\ Lex.source (lexer p) = src /\ had_error p = false.
Proof.
  cbv zeta. unfold parser_create.
  pose proof (LexFacts.keywords_sane_create src fname) as K.
  destruct (next_token_consumes _ K) as (K1 & L1 & _).
  pose proof (LexFacts.next_token_follows (Lex.lexer_create src fname)) as (S1 & _).
  destruct (Lex.lexer_next_token (Lex.lexer_create src fname)) as [t lx].
  cbn [fst snd] in *.
  destruct (skip_newlines_reads (S (Lex.fuel_of lx)) t lx K1) as (K2 & L2 & S2).
  destruct (skip_newlines (S (Lex.fuel_of lx)) t lx) as [t' lx']. cbn [fst snd] in *.
  unfold parser_ok, left_to_read, at_eof. p_fields.
  assert (R0 : remaining (Lex.lexer_create src fname) = String.length src)
    by (unfold remaining; cbn; lia).
  repeat split; try discriminate; try reflexivity; try (unfold ARENA_SIZE; lia); auto.
  - destruct (TokenType_eqb (tok_type t') TOKEN_EOF); lia.
  - rewrite S2, S1. reflexivity.
Qed.

Lemma parse_good (src fname : string) (uninit : Token) (fuel : nat) :
  (String.length src + 4 <= fuel)%nat ->
  returns (fun r p' =>
             parser_ok p' /\ Lex.source (lexer p') = src
             /\ (had_error p' = true \/ at_eof p' = true)
             /\ exists statements,
                  r = Some (Program (tok_pos uninit) statements)
                  /\ Forall (fun x => is_statement x = true) statements
                  /\ (List.length statements <= 1000)%nat)
          (parse fuel src fname uninit).
Proof.
  intros F. unfold parse.
  destruct (parser_create_ok src fname uninit) as (Ok & A & Pr & L & S & _).
  cbv zeta in *.
  eapply returns_weaken; [| apply parser_parse_good; [exact Ok | exact A | lia]].
  intros r p' (R & Fin & St). rewrite Pr in St.
  destruct R as (Ok' & _ & S' & _).
  repeat split; try apply Ok'; auto. congruence.
Qed.

(** The parser terminates: with fuel for the length of the source and four
    more, [parser_parse] on a fresh parser returns or meets undefined
    behaviour, and more fuel changes nothing. *)
Theorem parse_terminates (src fname : string) (uninit : Token) (fuel : nat) :
  (String.length src + 4 <= fuel)%nat ->
  parse fuel src fname uninit <> OutOfFuel
  /\ parse fuel src fname uninit = parse (String.length src + 4) src fname uninit.
Proof.
  intros F.
  assert (N : forall k, (String.length src + 4 <= k)%nat ->
                        parse k src fname uninit <> OutOfFuel).
  { intros k Hk E. pose proof (parse_good src fname uninit k Hk) as G.
    rewrite E in G. exact G. }
  split; [apply N, F |].
  apply (parse_settles (String.length src + 4) fuel); [reflexivity | | exact F].
  apply N. lia.
Qed.

Lemma parse_terminates_witness :
  parse 100 "x = (1 + ;" "a.shay" zero_token <> OutOfFuel
  /\ parse 100 "x = (1 + ;" "a.shay" zero_token
     = parse (String.length "x = (1 + ;" + 4) "x = (1 + ;" "a.shay" zero_token.
Proof.
  apply (parse_terminates "x = (1 + ;" "a.shay" zero_token 100). cbn. lia.
Defined.

(** What [parser_parse] returns for a fresh parser, when it returns: a
    program node, positioned by the never-written [previous] token, whose
    statements are declarations, expression statements and returns, at most
    1000 of them; the parser stopped at the end of the input or with an
    error; panic mode implies an error, and the arena is within bounds. *)
Theorem parse_result (fuel : nat) (src fname : string) (uninit : Token)
        (r : option ASTNode) (p : Parser) :
  parse fuel src fname uninit = Done (r, p) ->
  (exists statements,
     r = Some (Program (tok_pos uninit) statements)
     /\ forallb is_statement statements = true
     /\ (List.length statements <= 1000)%nat)
  /\ (had_error p = true \/ tok_type (current p) = TOKEN_EOF)
  /\ Lex.source (lexer p) = src
  /\ (panic_mode p = true -> had_error p = true)
  /\ 0 <= arena_used p <= ARENA_SIZE.
Proof.
  intros H.
  set (big := (Nat.max fuel (String.length src + 4))).
  assert (Hb : parse big src fname uninit = Done (r, p)).
  { apply (parse_settles fuel big _ _ _ _ H); [discriminate | apply Nat.le_max_l]. }
  pose proof (parse_good src fname uninit big (Nat.le_max_r _ _)) as G.
  rewrite Hb in G. cbn [returns] in G.
  destruct G as ((K & P & A) & S & Fin & (ss & E & Fa & Le)).
  split.
  { exists ss. split; [exact E |]. split; [| exact Le].
    apply forallb_forall. rewrite Forall_forall in Fa. exact Fa. }
  split.
  { destruct Fin as [Fin | Fin]; [left; exact Fin | right].
    apply LexFacts.TokenType_eqb_eq, Fin. }
  auto.
Qed.

Lemma parse_result_witness :
  exists statements p,
    parse 20 "int x = 1; return x" "a.shay" zero_token
    = Done (Some (Program nowhere statements), p)
    /\ forallb is_statement statements = true
    /\ had_error p = true.
Proof.
  destruct (parse 20 "int x = 1; return x" "a.shay" zero_token)
    as [[r p] | |] eqn:E; try (vm_compute in E; discriminate E).
  destruct (parse_result 20 "int x = 1; return x" "a.shay" zero_token r p E)
    as ((ss & -> & Fa & _) & _).
  exists ss, p. split; [reflexivity |]. split; [exact Fa |].
  vm_compute in E. injection E as _ <-. reflexivity.
Defined.
(** ** Lexical errors on the way *)

(** [advance] never leaves an error token current: it skips the error
    tokens, and skipping one records an error.  The old current token
    becomes [previous], and no error is forgotten. *)
Theorem advance_skips_errors (p : Parser) :
  parser_ok p ->
  tok_type (current (advance p)) <> TOKEN_ERROR
  /\ previous (advance p) = current p
  /\ Lex.source (lexer (advance p)) = Lex.source (lexer p)
  /\ (had_error p = true -> had_error (advance p) = true)
  /\ (tok_type (fst (Lex.lexer_next_token (lexer p))) = TOKEN_ERROR ->
      had_error (advance p) = true).
Proof.
  intros Ok. pose proof Ok as (K & P & A).
  split; [apply advance_done, K |].
  unfold advance.
  pose proof (LexFacts.next_token_follows (lexer p)) as (Fs & _).
  destruct (next_token_consumes _ K) as (K2 & _).
  destruct (Lex.lexer_next_token (lexer p)) as [t lx]. cbn [fst snd] in *.
  set (p1 := set_tokens lx t (current p) p).
  assert (Ok1 : parser_ok p1) by (unfold parser_ok, p1; p_fields; auto).
  destruct (skip_error_tokens_ok (S (Lex.fuel_of lx)) p1 Ok1) as (Q1 & Q2 & Q3 & Q4 & Q5).
  cbv zeta in *.
  split; [rewrite Q3; reflexivity |].
  split; [rewrite Q4; exact Fs |].
  split; [intros H; apply Q5; exact H |].
  intros E. cbn [skip_error_tokens].
  change (current p1) with t. rewrite E. cbn [TokenType_eqb].
  change (TokenType_eqb TOKEN_ERROR TOKEN_ERROR) with true. cbv iota.
  destruct (parser_error_reads p1 "Lexical error" Ok1) as (R1 & H1 & C1 & Pr1 & A1).
  pose proof (LexFacts.next_token_follows (lexer (parser_error p1 "Lexical error")))
    as (Fs' & _).
  destruct (next_token_consumes _ (proj1 (reads_ok _ _ R1))) as (K3 & _).
  destruct (Lex.lexer_next_token (lexer (parser_error p1 "Lexical error"))) as [t' lx'].
  cbn [fst snd] in *.
  set (p2 := set_tokens lx' t' _ _).
  assert (Ok2 : parser_ok p2).
  { destruct (reads_ok _ _ R1) as (_ & P' & A'). unfold parser_ok, p2. p_fields. auto. }
  destruct (skip_error_tokens_ok (Lex.fuel_of lx) p2 Ok2) as (_ & _ & _ & _ & S5).
  apply S5. exact H1.
Qed.

Lemma advance_skips_errors_witness :
  let p := parser_create (Lex.lexer_create "1 @ # 2" "a.shay") zero_token in
  tok_type (current p) = TOKEN_INTEGER
  /\ tok_type (fst (Lex.lexer_next_token (lexer p))) = TOKEN_ERROR
  /\ tok_type (current (advance p)) <> TOKEN_ERROR
  /\ had_error (advance p) = true.
Proof.
  cbv zeta.
  destruct (advance_skips_errors
              (parser_create (Lex.lexer_create "1 @ # 2" "a.shay") zero_token))
    as (N & _ & _ & _ & H).
  - apply (parser_create_ok "1 @ # 2" "a.shay" zero_token).
  - split; [reflexivity |]. split; [reflexivity |]. split; [exact N |].
    apply H. reflexivity.
Defined.

(** ** A statement that starts with [=] *)

Lemma match_miss (p : Parser) (type : TokenType) :
  tok_type (current p) <> type -> match_ p type = (false, p).
Proof.
  intros N. unfold match_, check.
  destruct (TokenType_eqb (tok_type (current p)) type) eqn:E; [| reflexivity].
  apply LexFacts.TokenType_eqb_eq in E. contradiction.
Qed.

Lemma match_any_miss (types : list TokenType) (p : Parser) :
  ~ In (tok_type (current p)) types -> match_any p types = (false, p).
Proof.
  induction types as [| t ts IH]; intros N; cbn [match_any]; [reflexivity |].
  rewrite match_miss by (intros E; apply N; left; congruence).
  apply IH. intros H. apply N. right. exact H.
Qed.

Lemma match_hit (p : Parser) (type : TokenType) :
  tok_type (current p) = type -> match_ p type = (true, advance p).
Proof.
  intros E. unfold match_, check. rewrite E.
  replace (TokenType_eqb type type) with true; [reflexivity |].
  symmetry. apply LexFacts.TokenType_eqb_eq. reflexivity.
Qed.

Ltac miss H := rewrite H; cbn; intuition discriminate.

Lemma primary_at_assign (e : Parser -> parsed) (p : Parser) :
  tok_type (current p) = TOKEN_ASSIGN ->
  primary e p = Done (None, parser_error p "Expected expression").
Proof.
  intros H. unfold primary.
  rewrite match_any_miss by miss H. cbv beta iota.
  repeat (rewrite match_miss by (rewrite H; discriminate); cbv beta iota).
  reflexivity.
Qed.

Lemma binary_level_at_assign (ops : list TokenType) (operand : Parser -> parsed)
      (fuel : nat) (p : Parser) (message : string) :
  ~ In TOKEN_ASSIGN ops -> tok_type (current p) = TOKEN_ASSIGN ->
  operand p = Done (None, parser_error p message) ->
  binary_level ops operand (S fuel) p = Done (None, parser_error p message).
Proof.
  intros N H E. unfold binary_level. rewrite E. cbn [bind binary_loop].
  rewrite match_any_miss; [reflexivity |].
  destruct (parser_error_lexer p message) as (_ & C & _). rewrite C, H. exact N.
Qed.

Lemma logical_or_at_assign (e : Parser -> parsed) (fuel : nat) (p : Parser) :
  tok_type (current p) = TOKEN_ASSIGN ->
  logical_or e (S fuel) p = Done (None, parser_error p "Expected expression").
Proof.
  intros H. unfold logical_or, logical_and, equality, comparison, term, factor.
  repeat (apply binary_level_at_assign; [cbn; intuition discriminate | exact H |]).
  cbn [unary]. rewrite match_any_miss by miss H. cbv beta iota.
  apply primary_at_assign, H.
Qed.

Lemma expression_at_assign (fuel : nat) (p : Parser) :
  parser_ok p -> tok_type (current p) = TOKEN_ASSIGN ->
  (left_to_read p + 3 <= fuel)%nat ->
  expression fuel p = Crash.
Proof.
  intros Ok H F.
  assert (Pos : (1 <= left_to_read p)%nat).
  { unfold left_to_read, at_eof. rewrite H. cbn. lia. }
  destruct fuel as [| a]; [lia |]. cbn [expression].
  set (e := expression a).
  assert (Ge : forall x, parser_ok x -> (left_to_read x + 3 <= a)%nat ->
                         returns (fun _ x' => progress x x') (e x))
    by (intros x Okx Lx; apply expression_good; assumption).
  clearbody e.
  destruct a as [| b]; [lia |]. cbn [assignment].
  destruct b as [| c]; [lia |].
  rewrite logical_or_at_assign by exact H. cbn [bind].
  set (q := parser_error p "Expected expression").
  destruct (parser_error_reads p "Expected expression" Ok) as (Rq & _ & Cq & _).
  fold q in Rq, Cq.
  rewrite match_hit by (rewrite Cq; exact H). cbv beta iota.
  assert (Ne : at_eof q = false) by (unfold at_eof; rewrite Cq, H; reflexivity).
  destruct (advance_reads_on q (reads_ok _ _ Rq) Ne) as (Ra & La & _).
  assert (Lq : (left_to_read q <= left_to_read p)%nat) by apply Rq.
  pose proof (assignment_good (left_to_read (advance q)) e) as G.
  specialize (G ltac:(intros x Okx Lx; apply Ge; [exact Okx | lia])).
  specialize (G (S c) (advance q) (reads_ok _ _ Ra) (Nat.le_refl _) ltac:(lia)).
  destruct (assignment e (S c) (advance q)) as [[v p'] | |];
    cbn [bind returns] in *; [reflexivity | reflexivity | contradiction].
Qed.

(** A statement that starts with [=] makes the parser dereference a null
    pointer: [primary] reports "Expected expression" and returns [NULL]
    without reading the [=], [assignment] then reads it and, once the
    right-hand side is parsed, tests [expr->type] of that [NULL]. *)
Theorem assignment_without_target (fuel : nat) (src fname : string) (uninit : Token) :
  tok_type (current (parser_create (Lex.lexer_create src fname) uninit)) = TOKEN_ASSIGN ->
  (String.length src + 4 <= fuel)%nat ->
  parse fuel src fname uninit = Crash.
Proof.
  intros H F. unfold parse.
  destruct (parser_create_ok src fname uninit) as (Ok & A & Pr & L & S & He).
  cbv zeta in *.
  set (p := parser_create (Lex.lexer_create src fname) uninit) in *. clearbody p.
  unfold parser_parse, ast_allocate. rewrite A.
  change (arena_alloc 0 sizeof_ASTNode) with (Some 64). cbv beta iota.
  set (p1 := mkParser _ _ _ _ _ _ 64 _).
  change (arena_used p1) with 64.
  change (arena_alloc 64 (sizeof_pointer * 1000)) with (Some 8064). cbv beta iota.
  set (p2 := set_arena_used 8064 p1).
  assert (S2 : same_but_arena p p2).
  { unfold same_but_arena, p2, p1. p_fields. unfold ARENA_SIZE. repeat split; lia. }
  destruct (sba_reads p p2 Ok S2) as (R2 & L2 & H2 & _).
  assert (C2 : current p2 = current p) by reflexivity.
  destruct fuel as [| fuel]; [lia |].
  cbn [parse_loop]. unfold check. rewrite C2, H, H2, He. cbn [TokenType_eqb].
  change (TokenType_eqb TOKEN_ASSIGN TOKEN_EOF) with false. cbn [negb andb].
  rewrite match_miss by (rewrite C2, H; discriminate). cbv beta iota.
  unfold declaration. rewrite match_any_miss by (rewrite C2; miss H). cbv beta iota.
  unfold statement. rewrite match_miss by (rewrite C2, H; discriminate). cbv beta iota.
  unfold expression_statement.
  rewrite expression_at_assign;
    [reflexivity | apply (reads_ok p), R2 | rewrite C2; exact H | lia].
Qed.

Lemma assignment_without_target_witness :
  parse 20 "= 1;" "a.shay" zero_token = Crash.
Proof.
  apply (assignment_without_target 20 "= 1;" "a.shay" zero_token); [reflexivity |].
  cbn. lia.
Defined.
(** ** A source without tokens *)

Lemma blank_token (l : Lex.Lexer) :
  Lex.keywords l = Lex.init_keywords ->
  all_chars (fun c => blank c || (c =? NL)%char) (Lex.source l) = true ->
  tok_type (fst (Lex.lexer_next_token l)) = TOKEN_NEWLINE
  \/ tok_type (fst (Lex.lexer_next_token l)) = TOKEN_EOF.
Proof.
  intros K B.
  destruct (LexMore.kind_by_first_byte l K) as (E & _ & _ & N & _). cbv zeta in *.
  destruct (LexMore.token_extent l) as (S0 & _). cbv zeta in S0. rewrite S0 in *.
  pose proof (LexFacts.follows_skip_whitespace l l (LexFacts.follows_refl l))
    as (Src & _).
  pose proof (LexMore.skip_whitespace_end l) as W. cbv zeta in W.
  set (x := Lex.skip_whitespace l) in *.
  assert (P : char_at (Lex.source l) (Lex.current x) = Lex.peek x)
    by (unfold Lex.peek; rewrite Src; reflexivity).
  rewrite P in *.
  destruct W as [W | (W & _)].
  - right. apply E. unfold Lex.is_at_end in W. apply Ascii.eqb_eq in W. exact W.
  - destruct (Nat.lt_ge_cases (Lex.current x) (String.length (Lex.source l))) as [Lt | Ge].
    + left. apply N.
      pose proof (LexMore.all_chars_at _ _ _ B Lt) as Q. cbv beta in Q.
      rewrite P, W in Q. cbn [orb] in Q. apply Ascii.eqb_eq in Q. exact Q.
    + right. apply E. rewrite <- P. unfold char_at.
      destruct (String.get (Lex.current x) (Lex.source l)) eqn:G; [| reflexivity].
      apply LexFacts.get_lt in G. lia.
Qed.

Lemma skip_newlines_blank (src : string) (fuel : nat) :
  all_chars (fun c => blank c || (c =? NL)%char) src = true ->
  forall (t : Token) (lx : Lex.Lexer),
    Lex.keywords lx = Lex.init_keywords -> Lex.source lx = src ->
    tok_type t = TOKEN_NEWLINE \/ tok_type t = TOKEN_EOF ->
    tok_type (fst (skip_newlines fuel t lx)) = TOKEN_NEWLINE
    \/ tok_type (fst (skip_newlines fuel t lx)) = TOKEN_EOF.
Proof.
  intros B. induction fuel as [| fuel IH]; intros t lx K S T; cbn [skip_newlines];
    [exact T |].
  destruct (TokenType_eqb (tok_type t) TOKEN_NEWLINE
            && negb (TokenType_eqb (tok_type t) TOKEN_EOF)); [| exact T].
  pose proof (blank_token lx K ltac:(rewrite S; exact B)) as T'.
  pose proof (LexFacts.next_token_follows lx) as (Fs & Fk & _).
  destruct (Lex.lexer_next_token lx) as [t' lx']. cbn [fst snd] in *.
  apply IH; [congruence | congruence | exact T'].
Qed.

(** A source of blanks and line feeds only (the empty source among them)
    parses to the program without statements, with no error, and the program
    node is the one node created. *)
Theorem blank_source_parses_empty (fuel : nat) (src fname : string) (uninit : Token) :
  all_chars (fun c => blank c || (c =? NL)%char) src = true ->
  (1 <= fuel)%nat ->
  exists p,
    parse fuel src fname uninit = Done (Some (Program (tok_pos uninit) []), p)
    /\ had_error p = false /\ nodes_created p = 1
    /\ tok_type (current p) = TOKEN_EOF.
Proof.
  intros B F.
  assert (C : tok_type (current (parser_create (Lex.lexer_create src fname) uninit))
              = TOKEN_EOF).
  { unfold parser_create.
    pose proof (blank_token (Lex.lexer_create src fname) eq_refl B) as T.
    pose proof (LexFacts.next_token_follows (Lex.lexer_create src fname))
      as (Fs & Fk & _).
    destruct (next_token_consumes _ (LexFacts.keywords_sane_create src fname))
      as (K1 & _).
    destruct (Lex.lexer_next_token (Lex.lexer_create src fname)) as [t lx].
    cbn [fst snd] in *.
    pose proof (skip_newlines_blank src (S (Lex.fuel_of lx)) B t lx Fk Fs T) as T2.
    pose proof (skip_newlines_done (S (Lex.fuel_of lx)) t lx K1
                  ltac:(unfold Lex.fuel_of, remaining; lia)) as N.
    destruct (skip_newlines (S (Lex.fuel_of lx)) t lx) as [t' lx'].
    cbn [fst current] in *. destruct T2; [contradiction | assumption]. }
  destruct (parser_create_ok src fname uninit) as (_ & A & Pr & _ & _ & He).
  assert (Nc : nodes_created (parser_create (Lex.lexer_create src fname) uninit) = 0).
  { unfold parser_create.
    destruct (Lex.lexer_next_token (Lex.lexer_create src fname)) as [t lx].
    destruct (skip_newlines (S (Lex.fuel_of lx)) t lx) as [t' lx']. reflexivity. }
  cbv zeta in *. unfold parse.
  set (p := parser_create (Lex.lexer_create src fname) uninit) in *. clearbody p.
  unfold parser_parse, ast_allocate. rewrite A, Pr, Nc.
  change (arena_alloc 0 sizeof_ASTNode) with (Some 64). cbv beta iota.
  set (p1 := mkParser _ _ _ _ _ _ 64 _).
  change (arena_used p1) with 64.
  change (arena_alloc 64 (sizeof_pointer * 1000)) with (Some 8064). cbv beta iota.
  destruct fuel as [| fuel]; [lia |]. cbn [parse_loop]. unfold check.
  change (current (set_arena_used 8064 p1)) with (current p). rewrite C.
  cbn [TokenType_eqb]. change (TokenType_eqb TOKEN_EOF TOKEN_EOF) with true.
  cbn [negb andb bind].
  eexists. split; [reflexivity |]. unfold p1. p_fields. auto.
Qed.

Lemma blank_source_parses_empty_witness :
  exists p,
    parse 1 (String " " (String NL (String TAB (String NL EmptyString))))
          "a.shay" zero_token
    = Done (Some (Program nowhere []), p)
    /\ had_error p = false /\ nodes_created p = 1
    /\ tok_type (current p) = TOKEN_EOF.
Proof.
  apply (blank_source_parses_empty
           1 (String " " (String NL (String TAB (String NL EmptyString))))
           "a.shay" zero_token eq_refl).
  lia.
Defined.

End ParseMore.

(** * Parser and emitter together *)

Module Pipeline.

Import Parse Gen.

Lemma filter_all {A : Type} (f : A -> bool) (l : list A) :
  Forall (fun x => f x = true) l -> filter f l = l.
Proof.
  induction 1 as [| x l H _ IH]; cbn [filter]; [reflexivity |]. rewrite H, IH. reflexivity.
Qed.

(** What [compile_program] reports: when the parser returns a tree and the
    C emitter returns for it, the lines generated are the eight lines of the
    frame and one for every statement of the program, and the variables
    declared are its declarations. *)
Theorem compiled_lines (fuel : nat) (src fname : string) (uninit : Token)
        (ast : ASTNode) (p : Parser) (ok : bool) (cg : CodeGenerator) :
  parse fuel src fname uninit = Done (Some ast, p) ->
  codegen_generate (Some (codegen_create OUTPUT_C)) (Some ast) = Done (ok, Some cg) ->
  exists statements,
    ast = Program (tok_pos uninit) statements
    /\ lines_generated cg = 8 + Z.of_nat (List.length statements)
    /\ variables_declared cg = count is_var_declaration statements
    /\ indent_level cg = 0.
Proof.
  intros H G.
  set (big := (Nat.max fuel (String.length src + 4))).
  assert (Hb : parse big src fname uninit = Done (Some ast, p)).
  { apply (ParseFacts.parse_settles fuel big _ _ _ _ H);
      [discriminate | apply Nat.le_max_l]. }
  pose proof (ParseMore.parse_good src fname uninit big (Nat.le_max_r _ _)) as Pg.
  rewrite Hb in Pg. cbn [returns] in Pg.
  destruct Pg as (_ & _ & _ & (ss & E & Fa & Le)). injection E as ->.
  exists ss. split; [reflexivity |].
  unfold codegen_generate in G. cbn [format codegen_create] in G.
  assert (R : int_range 0) by (unfold int_range; lia).
  match type of G with
  | bind (generate_c_program ?g _) _ = _ =>
      destruct (generate_c_program g (Program (tok_pos uninit) ss)) as [g' | |] eqn:Eg;
      cbn [bind] in G; try discriminate G;
      destruct (proj1 (GenMore.generate_c_program_spec g (tok_pos uninit) ss R R) g' Eg)
        as ((_ & _ & _ & L & V & _) & I & _)
  end.
  injection G as _ <-. cbn [lines_generated variables_declared indent_level] in L, V, I.
  assert (C : count is_statement ss = Z.of_nat (List.length ss))
    by (unfold count; rewrite filter_all by exact Fa; reflexivity).
  assert (Cv : 0 <= count is_var_declaration ss <= 1000).
  { unfold count. pose proof (filter_length_le is_var_declaration ss). lia. }
  rewrite L, V, I, C. repeat split.
  - apply LexMore.to_int_range. unfold int_range. lia.
  - apply LexMore.to_int_range. unfold int_range. lia.
Qed.

Lemma compiled_lines_witness :
  exists p cg statements,
    parse 20 "int x = 1; x = x + 2; return x;" "a.shay" zero_token
    = Done (Some (Program nowhere statements), p)
    /\ codegen_generate (Some (codegen_create OUTPUT_C))
                        (Some (Program nowhere statements)) = Done (true, Some cg)
    /\ lines_generated cg = 11 /\ variables_declared cg = 1.
Proof.
  destruct (parse 20 "int x = 1; x = x + 2; return x;" "a.shay" zero_token)
    as [[[ast |] p] | |] eqn:E; try (vm_compute in E; discriminate E).
  destruct (codegen_generate (Some (codegen_create OUTPUT_C)) (Some ast))
    as [[ok [cg |]] | |] eqn:G;
    try (vm_compute in E; injection E as <- _; vm_compute in G; discriminate G).
  destruct (compiled_lines 20 _ _ _ ast p ok cg E G) as (ss & -> & L & V & _).
  exists p, cg, ss. split; [reflexivity |].
  vm_compute in E. injection E as <- _.
  vm_compute in G. injection G as <- <-.
  repeat split.
Defined.

End Pipeline.

(** * What a token depends on; backtracking *)

Module LexCursor.

Import Lex LexFacts LexMore.

Lemma same_place_refl (l : Lexer) : same_place l l.
Proof. repeat split. Qed.

Lemma same_place_trans (a b c : Lexer) : same_place a b -> same_place b c -> same_place a c.
Proof.
  intros ((S1 & C1 & K1) & T1) ((S2 & C2 & K2) & T2). repeat split; congruence.
Qed.

Lemma same_place_sym (a b : Lexer) : same_place a b -> same_place b a.
Proof. intros ((S1 & C1 & K1) & T1). repeat split; congruence. Qed.

Lemma peek_same (l l' : Lexer) : same_place l l' -> peek l' = peek l.
Proof. intros ((S & C & _) & _). unfold peek. rewrite S, C. reflexivity. Qed.

Lemma is_at_end_same : cursor_test is_at_end.
Proof. intros l l' H. unfold is_at_end. rewrite (peek_same l l' H). reflexivity. Qed.

Lemma peek_next_same (l l' : Lexer) : same_place l l' -> peek_next l' = peek_next l.
Proof.
  intros H. unfold peek_next. rewrite (is_at_end_same l l' H).
  destruct H as ((S & C & _) & _). rewrite S, C. reflexivity.
Qed.

Lemma fuel_of_same (l l' : Lexer) : same_place l l' -> fuel_of l' = fuel_of l.
Proof. intros ((S & C & _) & _). unfold fuel_of. rewrite S, C. reflexivity. Qed.

Lemma cursor_advance : cursor_fn advance.
Proof.
  intros l l' H. unfold advance. rewrite (is_at_end_same l l' H).
  destruct (is_at_end l); [exact H |].
  destruct H as ((S & C & K) & T). unfold same_place, same_cursor. fields.
  repeat split; congruence.
Qed.

Lemma cursor_compose (f g : Lexer -> Lexer) :
  cursor_fn f -> cursor_fn g -> cursor_fn (fun l => g (f l)).
Proof. intros F G l l' H. apply G, F, H. Qed.

Lemma cursor_while (cond : Lexer -> bool) (body : Lexer -> Lexer) :
  cursor_test cond -> cursor_fn body ->
  forall fuel, cursor_fn (while_ fuel cond body).
Proof.
  intros Hc Hb fuel. induction fuel as [| fuel IH]; intros l l' H; cbn [while_];
    [exact H |].
  rewrite (Hc l l' H). destruct (cond l); [apply IH, Hb, H | exact H].
Qed.

Lemma test_of_peek (f : ascii -> bool) : cursor_test (fun l => f (peek l)).
Proof. intros l l' H. rewrite (peek_same l l' H). reflexivity. Qed.

Lemma cursor_digits : cursor_fn digits.
Proof.
  intros l l' H. unfold digits. rewrite (fuel_of_same l l' H).
  apply cursor_while; [apply (test_of_peek isdigit) | apply cursor_advance | exact H].
Qed.

Lemma cursor_unicode_digits (n : nat) : cursor_fn (unicode_digits n).
Proof.
  induction n as [| n IH]; intros l l' H; cbn [unicode_digits]; [exact H |].
  rewrite (peek_same l l' H). destruct (isxdigit (peek l)); [| exact H].
  apply IH, cursor_advance, H.
Qed.

Lemma cursor_block_comment (fuel : nat) : cursor_fn (block_comment_loop fuel).
Proof.
  induction fuel as [| fuel IH]; intros l l' H; cbn [block_comment_loop]; [exact H |].
  rewrite (is_at_end_same l l' H), (peek_same l l' H), (peek_next_same l l' H).
  destruct (is_at_end l); [exact H |].
  destruct ((peek l =? "*") && (peek_next l =? "/"))%char.
  - apply cursor_advance, cursor_advance, H.
  - apply IH, cursor_advance, H.
Qed.

Lemma cursor_skip_whitespace_loop (fuel : nat) : cursor_fn (skip_whitespace_loop fuel).
Proof.
  induction fuel as [| fuel IH]; intros l l' H; cbn [skip_whitespace_loop]; [exact H |].
  rewrite (is_at_end_same l l' H), (peek_same l l' H), (peek_next_same l l' H),
    (fuel_of_same l l' H).
  destruct (is_at_end l); [exact H |].
  destruct ((peek l =? " ") || (peek l =? CR) || (peek l =? TAB))%char.
  { apply IH, cursor_advance, H. }
  destruct ((peek l =? "/") && (peek_next l =? "/"))%char.
  { apply IH. apply cursor_while; [| apply cursor_advance | exact H].
    intros a b Hab. rewrite (peek_same a b Hab), (is_at_end_same a b Hab). reflexivity. }
  destruct ((peek l =? "/") && (peek_next l =? "*"))%char; [| exact H].
  apply IH, cursor_block_comment, cursor_advance, cursor_advance, H.
Qed.

Lemma cursor_skip_whitespace : cursor_fn skip_whitespace.
Proof.
  intros l l' H. unfold skip_whitespace. rewrite (fuel_of_same l l' H).
  apply cursor_skip_whitespace_loop, H.
Qed.

Lemma cursor_string_body : cursor_fn string_body.
Proof.
  intros l l' H. unfold string_body. rewrite (peek_same l l' H).
  destruct (peek l =? BACKSLASH)%char.
  - pose proof (cursor_advance l l' H) as H1.
    rewrite (is_at_end_same _ _ H1), (peek_same _ _ H1).
    destruct (negb (is_at_end (advance l))); [| exact H1].
    pose proof (cursor_advance _ _ H1) as H2.
    destruct (peek (advance l) =? "x")%char.
    { rewrite (peek_same _ _ H2).
      destruct (isxdigit (peek (advance (advance l)))); [| exact H2].
      pose proof (cursor_advance _ _ H2) as H3. rewrite (peek_same _ _ H3).
      destruct (isxdigit (peek (advance (advance (advance l)))));
        [apply cursor_advance, H3 | exact H3]. }
    destruct (peek (advance l) =? "u")%char; [apply cursor_unicode_digits, H2 | exact H2].
  - destruct H as ((S & C & K) & T). unfold same_place, same_cursor. fields.
    repeat split; congruence.
Qed.

Lemma match_same (c : ascii) (l l' : Lexer) :
  same_place l l' ->
  fst (match_ l' c) = fst (match_ l c) /\ same_place (snd (match_ l c)) (snd (match_ l' c)).
Proof.
  intros H. unfold match_. rewrite (is_at_end_same l l' H), (peek_same l l' H).
  destruct (is_at_end l || negb (peek l =? c)%char); cbn [fst snd];
    (split; [reflexivity |]); [exact H |].
  destruct H as ((S & C & K) & T). unfold same_place, same_cursor. fields.
  repeat split; congruence.
Qed.

Lemma fraction_same (l l' : Lexer) :
  same_place l l' ->
  fst (fraction l') = fst (fraction l) /\ same_place (snd (fraction l)) (snd (fraction l')).
Proof.
  intros H. unfold fraction. rewrite (peek_same l l' H), (peek_next_same l l' H).
  destruct ((peek l =? ".")%char && isdigit (peek_next l)); cbn [fst snd];
    (split; [reflexivity |]); [| exact H].
  apply cursor_digits, cursor_advance, H.
Qed.

(** *** Scanning functions *)

Lemma place_token (type : TokenType) : place_fn (fun l => token l type).
Proof.
  intros l l' H. split; [exact H |].
  destruct H as ((S & C & K) & T). unfold token, summary, make_token.
  cbn [fst tok_type tok_length tok_value tok_start]. rewrite C, T. auto.
Qed.

Lemma place_error (message : string) : place_fn (fun l => error_token l message).
Proof.
  intros l l' H. destruct H as ((S & C & K) & T).
  unfold error_token, summary, same_place, same_cursor.
  cbn [fst snd tok_type tok_length tok_value tok_start]. fields.
  rewrite C, T. repeat split; congruence.
Qed.

Lemma place_after (g : Lexer -> Lexer) (f : Lexer -> Token * Lexer) :
  cursor_fn g -> place_fn f -> place_fn (fun l => f (g l)).
Proof. intros G F l l' H. apply F, G, H. Qed.

Lemma place_if (c : Lexer -> bool) (f g : Lexer -> Token * Lexer) :
  cursor_test c -> place_fn f -> place_fn g ->
  place_fn (fun l => if c l then f l else g l).
Proof.
  intros C F G l l' H. cbv beta. rewrite (C l l' H).
  destruct (c l); [apply F | apply G]; exact H.
Qed.

Lemma place_match (c : ascii) (f g : Lexer -> Token * Lexer) :
  place_fn f -> place_fn g ->
  place_fn (fun l => let '(m, l) := match_ l c in if m then f l else g l).
Proof.
  intros F G l l' H. cbv beta.
  destruct (match_same c l l' H) as (M & P).
  destruct (match_ l c) as [m x]. destruct (match_ l' c) as [m' x'].
  cbn [fst snd] in *. subst m'. destruct m; [apply F | apply G]; exact P.
Qed.

Lemma place_ext (f g : Lexer -> Token * Lexer) :
  (forall l, f l = g l) -> place_fn g -> place_fn f.
Proof. intros E G l l' H. rewrite !E. apply G, H. Qed.

Lemma place_token_if (c : ascii) (yes no : TokenType) :
  place_fn (fun l => token_if l c yes no).
Proof.
  apply (place_ext _ (fun l => let '(m, l) := match_ l c in
                               if m then token l yes else token l no)).
  - intros l. unfold token_if. destruct (match_ l c) as [[] x]; reflexivity.
  - apply place_match; apply place_token.
Qed.

Lemma place_string : place_fn string_.
Proof.
  intros l l' H. unfold string_. rewrite (fuel_of_same l l' H).
  assert (W : same_place
                (while_ (fuel_of l)
                   (fun l => negb (peek l =? DQUOTE)%char && negb (is_at_end l))
                   string_body l)
                (while_ (fuel_of l)
                   (fun l => negb (peek l =? DQUOTE)%char && negb (is_at_end l))
                   string_body l')).
  { apply cursor_while; [| apply cursor_string_body | exact H].
    intros a b Hab. rewrite (peek_same a b Hab), (is_at_end_same a b Hab). reflexivity. }
  set (w := while_ _ _ _ l) in *. set (w' := while_ _ _ _ l') in *.
  rewrite (is_at_end_same w w' W).
  destruct (is_at_end w).
  - apply (place_error "Unterminated string"), W.
  - apply (place_token TOKEN_STRING), cursor_advance, W.
Qed.

Lemma place_char_literal : place_fn char_literal.
Proof.
  intros l l' H. unfold char_literal.
  pose proof (cursor_advance l l' H) as H1.
  rewrite (peek_same _ _ H1).
  set (y := if (peek (advance l) =? BACKSLASH)%char then _ else _).
  set (y' := if (peek (advance l) =? BACKSLASH)%char then _ else _).
  assert (Y : same_place y y').
  { unfold y, y'. destruct (peek (advance l) =? BACKSLASH)%char.
    - apply cursor_advance, cursor_advance, H1.
    - destruct (negb (peek (advance l) =? SQUOTE)%char);
        [apply cursor_advance, H1 | exact H1]. }
  destruct (match_same SQUOTE y y' Y) as (M & P).
  destruct (match_ y SQUOTE) as [m x]. destruct (match_ y' SQUOTE) as [m' x'].
  cbn [fst snd] in *. subst m'.
  destruct m; cbn [negb].
  - apply (place_token TOKEN_CHAR), P.
  - apply (place_error "Unterminated character literal"), P.
Qed.

Lemma check_keyword_same (l l' : Lexer) (text : nat) (length : Z) :
  same_place l l' -> check_keyword l' text length = check_keyword l text length.
Proof. intros ((S & C & K) & T). unfold check_keyword. rewrite S, K. reflexivity. Qed.

Lemma place_identifier : place_fn identifier.
Proof.
  intros l l' H. unfold identifier. rewrite (fuel_of_same l l' H).
  assert (W : same_place
                (while_ (fuel_of l)
                   (fun l => isalnum (peek l) || (peek l =? "_")%char) advance l)
                (while_ (fuel_of l)
                   (fun l => isalnum (peek l) || (peek l =? "_")%char) advance l')).
  { apply cursor_while; [| apply cursor_advance | exact H].
    intros a b Hab. rewrite (peek_same a b Hab). reflexivity. }
  set (w := while_ _ _ _ l) in *. set (w' := while_ _ _ _ l') in *.
  cbn [fst snd]. split; [exact W |].
  rewrite (check_keyword_same w w' _ _ W).
  destruct W as ((S & C & K) & T). unfold summary, make_token.
  cbn [tok_type tok_length tok_value tok_start]. rewrite C, T. auto.
Qed.

Lemma place_number_end (is_float : bool) (base : Z) :
  place_fn (fun l =>
              (with_value (if is_float then float_value (c_string_at (source l) (start l))
                           else int_value (strtoll (c_string_at (source l) (start l)) base))
                          (make_token l (if is_float then TOKEN_FLOAT else TOKEN_INTEGER)),
               l)).
Proof.
  intros l l' H. cbn [fst snd]. split; [exact H |].
  destruct H as ((S & C & K) & T). unfold summary, with_value, make_token.
  cbn [tok_type tok_length tok_value tok_start]. rewrite S, C, T. auto.
Qed.

Lemma place_number : place_fn number.
Proof.
  intros l l' H. unfold number.
  rewrite (peek_same l l' H), (is_at_end_same l l' H), (peek_next_same l l' H).
  pose proof (cursor_advance _ _ (cursor_advance _ _ H)) as H2.
  assert (W : forall f, same_place
                (while_ (fuel_of (advance (advance l))) (fun l => f (peek l)) advance
                        (advance (advance l)))
                (while_ (fuel_of (advance (advance l'))) (fun l => f (peek l)) advance
                        (advance (advance l')))).
  { intros f. rewrite (fuel_of_same _ _ H2).
    apply cursor_while; [apply test_of_peek | apply cursor_advance | exact H2]. }
  destruct (fraction_same _ _ (cursor_digits _ _ H)) as (Ff & Fs).
  destruct ((peek l =? "0")%char && negb (is_at_end l)).
  - destruct ((peek_next l =? "x") || (peek_next l =? "X"))%char.
    { apply (place_number_end false 16), (W isxdigit). }
    destruct ((peek_next l =? "b") || (peek_next l =? "B"))%char.
    { apply (place_number_end false 2),
        (W (fun c => ((c =? "0") || (c =? "1"))%char)). }
    destruct ((peek_next l =? "o") || (peek_next l =? "O"))%char.
    { apply (place_number_end false 8), (W (in_range "0" "7")). }
    destruct (fraction (digits l)) as [b x]. destruct (fraction (digits l')) as [b' x'].
    cbn [fst snd] in *. subst b'. apply (place_number_end b 10), Fs.
  - destruct (fraction (digits l)) as [b x]. destruct (fraction (digits l')) as [b' x'].
    cbn [fst snd] in *. subst b'.
    rewrite (peek_same _ _ Fs), (peek_next_same _ _ Fs).
    destruct (((peek x =? "e") || (peek x =? "E"))%char
              && (isdigit (peek_next x)
                  || ((peek_next x =? "+") || (peek_next x =? "-"))%char)).
    + pose proof (cursor_advance _ _ Fs) as A1. rewrite (peek_same _ _ A1).
      apply (place_number_end true 10), cursor_digits.
      destruct ((peek (advance x) =? "+") || (peek (advance x) =? "-"))%char;
        [apply cursor_advance, A1 | exact A1].
    + apply (place_number_end b 10), Fs.
Qed.

Lemma place_punctuation (c : ascii) : place_fn (punctuation c).
Proof.
  unfold punctuation.
  repeat match goal with
         | |- place_fn (fun l => if ?b then _ else _) =>
             destruct b;
             [ first [ apply place_token | apply place_token_if
                     | apply place_string | apply place_char_literal
                     | apply (place_error "Unexpected character")
                     | idtac ] | ]
         | |- place_fn (fun l => let '(m, l0) := match_ l ?e in _) =>
             apply place_match
         | |- place_fn (fun l => token l ?t) => apply place_token
         | |- place_fn (fun l => token_if l ?e ?y ?n) => apply place_token_if
         | |- place_fn (fun l => error_token l ?m) => apply (place_error m)
         end.
Qed.

(** *** The start of the last token does not matter to the skipping *)

Lemma advance_start (n : nat) (l : Lexer) :
  advance (set_start n l) = set_start n (advance l).
Proof. destruct l. unfold advance, is_at_end, peek. cbn. destruct (_ =? NUL)%char; reflexivity. Qed.

Lemma peek_start (n : nat) (l : Lexer) : peek (set_start n l) = peek l.
Proof. destruct l. reflexivity. Qed.

Lemma is_at_end_start (n : nat) (l : Lexer) : is_at_end (set_start n l) = is_at_end l.
Proof. destruct l. reflexivity. Qed.

Lemma peek_next_start (n : nat) (l : Lexer) : peek_next (set_start n l) = peek_next l.
Proof. destruct l. reflexivity. Qed.

Lemma fuel_of_start (n : nat) (l : Lexer) : fuel_of (set_start n l) = fuel_of l.
Proof. destruct l. reflexivity. Qed.

Lemma while_start (cond : Lexer -> bool) (n : nat) :
  (forall l, cond (set_start n l) = cond l) ->
  forall fuel l, while_ fuel cond advance (set_start n l)
                 = set_start n (while_ fuel cond advance l).
Proof.
  intros C fuel. induction fuel as [| fuel IH]; intros l; cbn [while_]; [reflexivity |].
  rewrite C. destruct (cond l); [| reflexivity]. rewrite advance_start. apply IH.
Qed.

Lemma block_comment_start (n fuel : nat) :
  forall l, block_comment_loop fuel (set_start n l)
            = set_start n (block_comment_loop fuel l).
Proof.
  induction fuel as [| fuel IH]; intros l; cbn [block_comment_loop]; [reflexivity |].
  rewrite is_at_end_start, peek_start, peek_next_start.
  destruct (is_at_end l); [reflexivity |].
  destruct ((peek l =? "*") && (peek_next l =? "/"))%char.
  - rewrite !advance_start. reflexivity.
  - rewrite advance_start. apply IH.
Qed.

Lemma skip_whitespace_start (n : nat) (l : Lexer) :
  skip_whitespace (set_start n l) = set_start n (skip_whitespace l).
Proof.
  unfold skip_whitespace. rewrite fuel_of_start. generalize (fuel_of l). intros fuel.
  revert l. induction fuel as [| fuel IH]; intros l; cbn [skip_whitespace_loop];
    [reflexivity |].
  rewrite is_at_end_start, peek_start, peek_next_start, fuel_of_start.
  destruct (is_at_end l); [reflexivity |].
  destruct ((peek l =? " ") || (peek l =? CR) || (peek l =? TAB))%char.
  { rewrite advance_start. apply IH. }
  destruct ((peek l =? "/") && (peek_next l =? "/"))%char.
  { rewrite while_start; [apply IH |].
    intros x. rewrite peek_start, is_at_end_start. reflexivity. }
  destruct ((peek l =? "/") && (peek_next l =? "*"))%char; [| reflexivity].
  rewrite !advance_start, block_comment_start. apply IH.
Qed.

Lemma skip_whitespace_same (l l' : Lexer) :
  same_cursor l l' -> same_cursor (skip_whitespace l) (skip_whitespace l').
Proof.
  intros (S & C & K).
  assert (P : same_place l (set_start (start l) l')).
  { destruct l'. unfold same_place, same_cursor. cbn in *. auto. }
  apply cursor_skip_whitespace in P. rewrite skip_whitespace_start in P.
  destruct P as ((S1 & C1 & K1) & _).
  destruct (skip_whitespace l') as [a b c d e f g h]. cbn in *. repeat split; assumption.
Qed.

Lemma place_dispatch :
  place_fn (fun x =>
              if is_at_end x then token x TOKEN_EOF
              else if isalpha (peek x) || (peek x =? "_")%char then identifier (advance x)
                   else if isdigit (peek x) then number (advance x)
                        else punctuation (peek x) (advance x)).
Proof.
  intros x x' H. cbv beta.
  rewrite (is_at_end_same x x' H), (peek_same x x' H).
  destruct (is_at_end x); [apply (place_token TOKEN_EOF), H |].
  destruct (isalpha (peek x) || (peek x =? "_")%char);
    [apply place_identifier, cursor_advance, H |].
  destruct (isdigit (peek x)); [apply place_number, cursor_advance, H |].
  apply place_punctuation, cursor_advance, H.
Qed.

Lemma next_token_same (l l' : Lexer) :
  same_cursor l l' ->
  same_place (snd (lexer_next_token l)) (snd (lexer_next_token l'))
  /\ summary (fst (lexer_next_token l')) = summary (fst (lexer_next_token l))
  /\ tok_start (fst (lexer_next_token l')) = tok_start (fst (lexer_next_token l)).
Proof.
  intros H. rewrite !next_token_unfold. cbv zeta.
  apply place_dispatch.
  destruct (skip_whitespace_same l l' H) as (S & C & K).
  unfold same_place, same_cursor. fields. rewrite C. auto.
Qed.

(** A token's kind, extent and value, and where the cursor ends, depend on
    the source text, the cursor and the keyword table only: not on the
    position, the error state, the counter or the start of the token
    before. *)
Theorem token_depends_on_cursor (l l' : Lexer) :
  source l' = source l -> current l' = current l -> keywords l' = keywords l ->
  tok_type (fst (lexer_next_token l')) = tok_type (fst (lexer_next_token l))
  /\ tok_start (fst (lexer_next_token l')) = tok_start (fst (lexer_next_token l))
  /\ tok_length (fst (lexer_next_token l')) = tok_length (fst (lexer_next_token l))
  /\ tok_value (fst (lexer_next_token l')) = tok_value (fst (lexer_next_token l))
  /\ current (snd (lexer_next_token l')) = current (snd (lexer_next_token l)).
Proof.
  intros S C K.
  destruct (next_token_same l l' (conj S (conj C K))) as (((_ & C' & _) & _) & Su & St).
  unfold summary in Su. injection Su as Ty Le Va. auto.
Qed.

Lemma token_depends_on_cursor_witness :
  let l := lexer_create "ab + 1" "a.shay" in
  let l' := set_has_error true (set_pos (mkPosition 7 3 "b.shay") l) in
  tok_type (fst (lexer_next_token l')) = TOKEN_IDENTIFIER
  /\ tok_length (fst (lexer_next_token l')) = 2.
Proof.
  cbv zeta.
  destruct (token_depends_on_cursor
              (lexer_create "ab + 1" "a.shay")
              (set_has_error true (set_pos (mkPosition 7 3 "b.shay")
                                           (lexer_create "ab + 1" "a.shay")))
              eq_refl eq_refl eq_refl) as (T & _ & L & _).
  rewrite T, L. split; reflexivity.
Defined.

(** Backtracking with [lexer_reset_position]: after a reset to the start of
    the token just returned, the next call returns a token of the same kind,
    start, length and value, and leaves the cursor where it was.  (The
    position is not reset, so the token's line and column may differ.) *)
Theorem reread_after_reset (l : Lexer) :
  let t := fst (lexer_next_token l) in
  let l1 := snd (lexer_next_token l) in
  let again := lexer_next_token (lexer_reset_position l1 (Some (tok_start t))) in
  tok_type (fst again) = tok_type t /\ tok_start (fst again) = tok_start t
  /\ tok_length (fst again) = tok_length t /\ tok_value (fst again) = tok_value t
  /\ current (snd again) = current l1.
Proof.
  cbv zeta.
  destruct (token_extent l) as (S0 & _). cbv zeta in S0.
  pose proof (next_token_follows l) as (Fs & Fk & _).
  destruct (skip_whitespace_twice l) as (_ & I).
  set (l1 := snd (lexer_next_token l)) in *.
  set (t := fst (lexer_next_token l)) in *.
  assert (H : same_cursor (skip_whitespace l)
                          (lexer_reset_position l1 (Some (tok_start t)))).
  { pose proof (follows_skip_whitespace l l (follows_refl l)) as (Ss & Sk & _).
    unfold same_cursor, lexer_reset_position. fields.
    rewrite S0. repeat split; congruence. }
  destruct (next_token_same _ _ H) as (((_ & C' & _) & _) & Su & St).
  rewrite I in *. unfold summary in Su. injection Su as Ty Le Va. auto.
Qed.

End LexCursor.

(** * A statement through the whole compiler *)

Module EndToEnd.

Import Parse Gen.

(** ** Three tokens *)

Lemma strtoll_digits_text (w rest : string) :
  all_chars isdigit w = true -> w <> EmptyString -> first_char isdigit rest = false ->
  strtoll (c_string_at (w ++ rest) 0) 10 = clamp_llong (strtoll_digits 10 0 w).
Proof.
  intros W N R. unfold c_string_at. cbn [string_drop].
  rewrite LexMore.until_nul_app by exact W.
  destruct w as [| c w]; [congruence |].
  cbn [all_chars] in W. apply andb_true_iff in W. destruct W as [W1 _].
  unfold strtoll. cbn [append skip_spaces].
  assert (Sp : isspace c = false /\ (c =? "-")%char = false /\ (c =? "+")%char = false).
  { clear -W1. destruct c as [[] [] [] [] [] [] [] []]; try discriminate; repeat split. }
  destruct Sp as (S1 & S2 & S3). rewrite S1, S2, S3.
  unfold skip_hex_prefix. change (10 =? 16) with false. cbv iota.
  change (String c (w ++ until_nul rest)) with (String c w ++ until_nul rest)%string.
  rewrite LexMore.strtoll_digits_app; [reflexivity |].
  rewrite LexMore.first_char_until_nul by reflexivity. exact R.
Qed.

Lemma semicolon_token (l : Lex.Lexer) :
  Lex.peek l = ";"%char ->
  tok_type (fst (Lex.lexer_next_token l)) = TOKEN_SEMICOLON
  /\ Lex.current (snd (Lex.lexer_next_token l)) = S (Lex.current l)
  /\ Lex.source (snd (Lex.lexer_next_token l)) = Lex.source l.
Proof.
  intros P. rewrite LexFacts.next_token_unfold. cbv zeta.
  assert (Sk : Lex.skip_whitespace l = l).
  { unfold Lex.skip_whitespace, Lex.fuel_of. cbn [Lex.skip_whitespace_loop].
    unfold Lex.is_at_end. rewrite P. reflexivity. }
  rewrite Sk.
  set (x := Lex.set_tokens_processed _ (Lex.set_start _ l)).
  assert (Px : Lex.peek x = ";"%char) by exact P.
  unfold Lex.is_at_end. rewrite Px. cbn [Ascii.eqb Bool.eqb andb isalpha isdigit orb].
  change (isalpha ";" || (";" =? "_")%char) with false.
  change (isdigit ";") with false. cbv iota.
  change (Lex.punctuation ";" (Lex.advance x)) with (Lex.token (Lex.advance x) TOKEN_SEMICOLON).
  cbn [Lex.token fst snd Lex.make_token tok_type].
  unfold Lex.advance, Lex.is_at_end. rewrite Px.
  change (";" =? NUL)%char with false. cbv iota. LexMore.fields. auto.
Qed.

Lemma eof_token (l : Lex.Lexer) :
  Lex.is_at_end l = true -> tok_type (fst (Lex.lexer_next_token l)) = TOKEN_EOF.
Proof.
  intros E. apply LexFacts.next_token_at_end.
  rewrite LexFacts.skip_whitespace_at_end; exact E.
Qed.

Lemma char_at_past (s : string) (n : nat) :
  (String.length s <= n)%nat -> char_at s n = NUL.
Proof.
  intros H. unfold char_at. destruct (String.get n s) eqn:G; [| reflexivity].
  apply LexFacts.get_lt in G. lia.
Qed.

(** ** The parser on an integer, a semicolon and the end *)

Lemma advance_plain (p : Parser) (t : Token) (lx : Lex.Lexer) :
  Lex.lexer_next_token (lexer p) = (t, lx) -> tok_type t <> TOKEN_ERROR ->
  advance p = set_tokens lx t (current p) p.
Proof.
  intros H N. unfold advance. rewrite H. cbn [skip_error_tokens current set_tokens].
  apply ParseFacts.TokenType_eqb_neq in N. rewrite N. reflexivity.
Qed.

Lemma binary_level_miss (ops : list TokenType) (operand : Parser -> parsed)
      (fuel : nat) (p q : Parser) (r : option ASTNode) :
  operand p = Done (r, q) -> ~ In (tok_type (current q)) ops ->
  binary_level ops operand (S fuel) p = Done (r, q).
Proof.
  intros E N. unfold binary_level. rewrite E. cbn [bind binary_loop].
  rewrite ParseMore.match_any_miss by exact N. reflexivity.
Qed.

Lemma logical_or_miss (e : Parser -> parsed) (fuel : nat) (p q : Parser)
      (r : option ASTNode) :
  unary e (S fuel) p = Done (r, q) -> tok_type (current q) = TOKEN_SEMICOLON ->
  logical_or e (S fuel) p = Done (r, q).
Proof.
  intros E H. unfold logical_or, logical_and, equality, comparison, term, factor.
  repeat (apply binary_level_miss; [| rewrite H; cbn; intuition discriminate]).
  exact E.
Qed.

Lemma expression_literal (fuel : nat) (p : Parser) (t : Token) (lx : Lex.Lexer) :
  tok_type (current p) = TOKEN_INTEGER ->
  Lex.lexer_next_token (lexer p) = (t, lx) -> tok_type t = TOKEN_SEMICOLON ->
  expression (S (S (S fuel))) p
  = Done (ast_create_literal (set_tokens lx t (current p) p) TOKEN_INTEGER (current p)).
Proof.
  intros H N T.
  assert (A : advance p = set_tokens lx t (current p) p)
    by (apply (advance_plain p t lx N); rewrite T; discriminate).
  remember (S (S fuel)) as a eqn:Ea. cbn [expression].
  set (e := expression a). clearbody e. subst a.
  remember (S fuel) as b eqn:Eb. cbn [assignment]. subst b.
  assert (U : unary e (S fuel) p
              = Done (ast_create_literal (advance p) TOKEN_INTEGER (current p))).
  { cbn [unary]. rewrite ParseMore.match_any_miss by (rewrite H; cbn; intuition discriminate).
    cbv beta iota. unfold primary.
    rewrite ParseMore.match_any_miss by (rewrite H; cbn; intuition discriminate).
    cbv beta iota.
    rewrite ParseMore.match_miss by (rewrite H; discriminate). cbv beta iota.
    rewrite (ParseMore.match_hit p TOKEN_INTEGER H). cbv beta iota.
    rewrite A. reflexivity. }
  rewrite A in U.
  destruct (ast_create_literal (set_tokens lx t (current p) p) TOKEN_INTEGER (current p))
    as [lit q] eqn:L.
  assert (C : current q = t).
  { pose proof (ParseMore.ast_create_literal_sba
                  (set_tokens lx t (current p) p) TOKEN_INTEGER (current p)) as S.
    assert (G : forall x, same_but_arena (set_tokens lx t (current p) p) x -> current x = t)
      by (intros x (_ & Cx & _); exact Cx).
    unfold ast_create_literal in L. unfold ast_allocate in L.
    destruct (arena_alloc _ sizeof_ASTNode); cbn in L; injection L as _ <-; reflexivity. }
  rewrite (logical_or_miss e fuel p q lit U) by (rewrite C; exact T).
  cbn [bind]. rewrite ParseMore.match_miss by (rewrite C, T; discriminate).
  reflexivity.
Qed.

Lemma parser_create_plain (lx0 l1 : Lex.Lexer) (t1 uninit : Token) :
  Lex.lexer_next_token lx0 = (t1, l1) -> tok_type t1 = TOKEN_INTEGER ->
  parser_create lx0 uninit = mkParser l1 t1 uninit false false EmptyString 0 0.
Proof.
  intros H T. unfold parser_create. rewrite H. cbn [skip_newlines]. rewrite T.
  reflexivity.
Qed.

Lemma parse_integer_statement (lx0 l1 l2 l3 : Lex.Lexer) (t1 t2 t3 uninit : Token)
      (fuel : nat) :
  Lex.lexer_next_token lx0 = (t1, l1) -> Lex.lexer_next_token l1 = (t2, l2) ->
  Lex.lexer_next_token l2 = (t3, l3) ->
  tok_type t1 = TOKEN_INTEGER -> tok_type t2 = TOKEN_SEMICOLON -> tok_type t3 = TOKEN_EOF ->
  parser_parse (S (S (S fuel))) (parser_create lx0 uninit)
  = Done (Some (Program (tok_pos uninit)
                  [ExpressionStmt (tok_pos t2)
                     (Some (Literal (tok_pos t1) TOKEN_INTEGER
                              (lit_int_value
                                 (strtoll (c_string_at (Lex.source l2) (tok_start t1))
                                          10))))]),
          mkParser l3 t3 t2 false false EmptyString 8192 3).
Proof.
  intros H0 H1 H2 T1 T2 T3.
  rewrite (parser_create_plain lx0 l1 t1 uninit H0 T1).
  unfold parser_parse, ast_allocate.
  cbn [arena_used previous lexer current Parse.had_error panic_mode Parse.error_message nodes_created].
  change (arena_alloc 0 sizeof_ASTNode) with (Some 64). cbv beta iota.
  cbn [arena_used]. change (arena_alloc 64 (sizeof_pointer * 1000)) with (Some 8064).
  cbv beta iota. unfold set_arena_used.
  cbn [arena_used previous lexer current Parse.had_error panic_mode Parse.error_message nodes_created].
  change (to_int (0 + 1)) with 1.
  set (p := mkParser l1 t1 uninit false false EmptyString 8064 1).
  remember (S (S fuel)) as a eqn:Ea. cbn [parse_loop]. subst a.
  unfold check. change (current p) with t1. change (Parse.had_error p) with false.
  rewrite T1. change (TokenType_eqb TOKEN_INTEGER TOKEN_EOF) with false.
  cbn [negb andb].
  rewrite ParseMore.match_miss by (change (current p) with t1; rewrite T1; discriminate).
  cbv beta iota.
  unfold declaration.
  rewrite ParseMore.match_any_miss
    by (change (current p) with t1; rewrite T1; cbn; intuition discriminate).
  cbv beta iota. unfold statement.
  rewrite ParseMore.match_miss by (change (current p) with t1; rewrite T1; discriminate).
  cbv beta iota. unfold expression_statement.
  rewrite (expression_literal fuel p t2 l2 T1 H1 T2).
  unfold ast_create_literal, ast_allocate, set_tokens.
  cbn [arena_used previous lexer current Parse.had_error panic_mode Parse.error_message
       nodes_created p].
  change (arena_alloc 8064 sizeof_ASTNode) with (Some 8128). cbv beta iota.
  cbn [bind].
  change (to_int (1 + 1)) with 2.
  set (q := mkParser l2 t2 t1 false false EmptyString 8128 2).
  unfold consume. change (current q) with t2. rewrite T2.
  change (TokenType_eqb TOKEN_SEMICOLON TOKEN_SEMICOLON) with true. cbv beta iota.
  rewrite (advance_plain q t3 l3 H2) by (rewrite T3; discriminate).
  unfold set_tokens, ast_allocate.
  cbn [arena_used previous lexer current Parse.had_error panic_mode Parse.error_message
       nodes_created q].
  change (arena_alloc 8128 sizeof_ASTNode) with (Some 8192). cbv beta iota.
  cbn [bind store_statement List.length Nat.leb app].
  change (to_int (2 + 1)) with 3.
  cbn [panic_mode]. cbv beta iota.
  remember fuel as b eqn:Eb. cbn [parse_loop]. subst b.
  unfold check. cbn [current Parse.had_error]. rewrite T3.
  change (TokenType_eqb TOKEN_EOF TOKEN_EOF) with true. cbn [negb andb bind].
  unfold text_at. cbn [lexer]. reflexivity.
Qed.


(** ** The emitter on the tree of such a statement *)

Lemma integer_statement_output (p0 p1 p2 : Position) (v : Z) :
  codegen_generate (Some (codegen_create OUTPUT_C))
    (Some (Program p0 [ExpressionStmt p1 (Some (Literal p2 TOKEN_INTEGER (lit_int_value v)))]))
  = Done (true,
          Some (mkCodeGenerator
                  [text (String.append "#include <stdio.h>" (String NL EmptyString));
                   text (String.append "#include <stdlib.h>" (String NL EmptyString));
                   text (String.append "#include <stdbool.h>" (String NL EmptyString));
                   text (String.append "#include <string.h>" (String NL EmptyString));
                   text (String NL EmptyString);
                   text (String.append "int main() {" (String NL EmptyString));
                   text "    "; text (format_d v);
                   text (String.append ";" (String NL EmptyString));
                   text "    ";
                   text (String.append "return 0;" (String NL EmptyString));
                   text (String.append "}" (String NL EmptyString))]
                  OUTPUT_C 0 false EmptyString 9 0 0)).
Proof. remember (format_d v) as s eqn:E. cbv -[format_d]. rewrite <- E. reflexivity. Qed.

(** An integer written in decimal and followed by a semicolon, compiled:
    the lexer, the parser and the emitter one after the other give a C
    program whose body is that integer as it was written; three nodes
    are created and nine lines generated. *)
Theorem integer_statement_compiles (n : Z) (fname : string) (uninit : Token) (fuel : nat) :
  0 <= n <= LLONG_MAX -> (3 <= fuel)%nat ->
  exists (stmt_pos lit_pos : Position) (p : Parser) (cg : CodeGenerator),
    let ast := Program (tok_pos uninit)
                 [ExpressionStmt stmt_pos
                    (Some (Literal lit_pos TOKEN_INTEGER (lit_int_value n)))] in
    parse fuel (format_d n ++ ";") fname uninit = Done (Some ast, p)
    /\ Parse.had_error p = false
    /\ tok_type (current p) = TOKEN_EOF
    /\ nodes_created p = 3
    /\ codegen_generate (Some (codegen_create OUTPUT_C)) (Some ast) = Done (true, Some cg)
    /\ Gen.had_error cg = false
    /\ lines_generated cg = 9
    /\ exists before after,
         output_file cg
         = before ++ [text "    "; text (format_d n); text (String.append ";" (String NL EmptyString))]
                  ++ after
         /\ List.length before = 6%nat /\ List.length after = 3%nat.
Proof.
  intros Hn Hf.
  destruct (LexMore.format_d_digits n (proj1 Hn)) as (W & NE & V).
  set (w := format_d n) in *.
  set (lx0 := Lex.lexer_create (w ++ ";") fname).
  destruct (Lex.lexer_next_token lx0) as [t1 l1] eqn:H0.
  destruct (Lex.lexer_next_token l1) as [t2 l2] eqn:H1.
  destruct (Lex.lexer_next_token l2) as [t3 l3] eqn:H2.
  pose proof (LexMore.digits_scan_state w ";" fname W NE eq_refl) as D.
  cbv zeta in D. fold lx0 in D. rewrite H0 in D. cbn [fst snd] in D.
  destruct D as (T1 & S1 & _ & C1 & _).
  pose proof (LexFacts.next_token_follows lx0) as F0. rewrite H0 in F0.
  destruct F0 as (So1 & _). cbn [snd] in So1.
  change (Lex.source lx0) with (w ++ ";")%string in So1.
  assert (P1 : Lex.peek l1 = ";"%char).
  { unfold Lex.peek. rewrite So1, C1. apply LexMore.char_at_app_r. }
  pose proof (semicolon_token l1 P1) as Sc. rewrite H1 in Sc. cbn [fst snd] in Sc.
  destruct Sc as (T2 & C2 & So2).
  assert (E2 : Lex.is_at_end l2 = true).
  { unfold Lex.is_at_end, Lex.peek. rewrite So2, So1, C2, C1.
    rewrite char_at_past; [reflexivity |].
    rewrite LexMore.length_app. simpl String.length. lia. }
  pose proof (eof_token l2 E2) as T3. rewrite H2 in T3. cbn [fst] in T3.
  destruct fuel as [| [| [| fuel]]]; try lia.
  pose proof (parse_integer_statement lx0 l1 l2 l3 t1 t2 t3 uninit fuel
                H0 H1 H2 T1 T2 T3) as R.
  assert (Val : strtoll (c_string_at (Lex.source l2) (tok_start t1)) 10 = n).
  { rewrite So2, So1, S1. rewrite strtoll_digits_text by (try exact W; try exact NE; reflexivity).
    rewrite V. unfold clamp_llong.
    destruct (Z.ltb_spec n LLONG_MIN) as [L |_]; [unfold LLONG_MIN in L; lia |].
    destruct (Z.ltb_spec LLONG_MAX n) as [L |_]; [lia | reflexivity]. }
  rewrite Val in R.
  eexists (tok_pos t2), (tok_pos t1), _, _. cbv zeta.
  split; [exact R |]. split; [reflexivity |]. split; [exact T3 |].
  split; [reflexivity |].
  split; [apply integer_statement_output |]. split; [reflexivity |].
  split; [reflexivity |].
  cbn [output_file].
  eexists [_; _; _; _; _; _], [_; _; _]. repeat split.
Qed.

Lemma integer_statement_compiles_witness :
  exists (stmt_pos lit_pos : Position) (p : Parser) (cg : CodeGenerator),
    parse 3 "2024;" "a.shay" zero_token
    = Done (Some (Program nowhere
                    [ExpressionStmt stmt_pos
                       (Some (Literal lit_pos TOKEN_INTEGER (lit_int_value 2024)))]), p)
    /\ codegen_generate (Some (codegen_create OUTPUT_C))
         (Some (Program nowhere
                  [ExpressionStmt stmt_pos
                     (Some (Literal lit_pos TOKEN_INTEGER (lit_int_value 2024)))]))
       = Done (true, Some cg)
    /\ In (text "2024") (output_file cg).
Proof.
  assert (Hn : 0 <= 2024 <= LLONG_MAX) by (unfold LLONG_MAX; lia).
  destruct (integer_statement_compiles 2024 "a.shay" zero_token 3 Hn (le_n 3))
    as (sp & lp & p & cg & P & _ & _ & _ & G & _ & _ & before & after & O & _).
  exists sp, lp, p, cg. split; [exact P |]. split; [exact G |].
  rewrite O. apply in_or_app. right. right. left. reflexivity.
Defined.

End EndToEnd.
